(** * torrentClient: a shallow embedding of the download core

    The file has three parts.

    The first embeds the TypeScript sources, module by module:

    - [Sha1]          the digest behind [CryptoUtils.sha1] (node's crypto);
    - [Bencode]       [src/parsers/bencode.ts], class [BencodeParser];
    - [Torrent]       [src/core/torrent.ts], [TorrentParser.extractRawInfoDict]
                      and [extractMetadata];
    - [PieceManager]  [src/core/piece-manager.ts];
    - [FileManager]   [src/core/file-manager.ts];
    - [Tracker]       [src/network/tracker.ts], [TrackerClient.getPeers];
    - [Peer]          [src/network/peer.ts], the per-peer session;
    - [BufferUtils]   [src/utils/buffer.ts];
    - [TrackerUdp]    [src/network/tracker.ts], the messages of the UDP
                      tracker protocol.

    The second defines the vocabulary of the statements and the concrete
    inputs of the examples; the third holds the lemmas, the theorems
    C1 to C10 and the further properties X1 to X30.

    Conventions.  A node [Buffer] is a [list byte].  A JavaScript number that
    the code uses as an integer is a [Z].  A mutable object is a record,
    threaded through the functions that mutate it: a method that returns a
    value and mutates [this] returns a pair.  A thrown [Error] is the
    outcome [Throw]. *)

From Stdlib Require Import ZArith NArith List Lia Bool.
From Stdlib Require Import Strings.Byte Strings.String Strings.Ascii.
From stdpp Require Import base option list gmap sorting.

Open Scope Z_scope.

(** ** Buffers *)

Abbreviation Buffer := (list byte).

#[global] Instance byte_eq_decision : EqDecision byte := Byte.byte_eq_dec.

Definition byte_of_N (n : N) : byte :=
  match Byte.of_N n with Some b => b | None => x00 end.

Definition byte_of_Z (z : Z) : byte := byte_of_N (Z.to_N z).

Definition Z_of_byte (b : byte) : Z := Z.of_N (Byte.to_N b).

(** [Buffer.from("...")] for the ASCII literals that occur in the sources. *)
Definition lit (s : string) : Buffer := list_byte_of_string s.

(** [buf.length] as a JavaScript number. *)
Definition blen (b : Buffer) : Z := Z.of_nat (length b).

(** [buf[i]]: [None] stands for [undefined]. *)
Definition byteAt (b : Buffer) (i : Z) : option byte :=
  if (i <? 0) || (blen b <=? i) then None else b !! Z.to_nat i.

(** A relative index of [Buffer.slice]: a negative one counts from the end,
    and the result is clamped to [0, length]. *)
Definition rel_index (len i : Z) : Z :=
  if i <? 0 then Z.max (len + i) 0 else Z.min i len.

(** [buf.slice(start, end)]. *)
Definition slice (b : Buffer) (s e : Z) : Buffer :=
  let s' := rel_index (blen b) s in
  let e' := rel_index (blen b) e in
  take (Z.to_nat (e' - s')) (drop (Z.to_nat s') b).

(** [a.equals(b)] on buffers. *)
Definition buf_equals (a b : Buffer) : bool := bool_decide (a = b).

(** [buf.indexOf(value, byteOffset)] for a byte value: the first index at or
    after [byteOffset] holding [c], or [-1].  A negative offset counts from
    the end of the buffer. *)
Fixpoint find_from (l : Buffer) (c : byte) (i : Z) : Z :=
  match l with
  | [] => -1
  | b :: t => if bool_decide (b = c) then i else find_from t c (i + 1)
  end.

Definition indexOf (data : Buffer) (c : byte) (from : Z) : Z :=
  let from' := if from <? 0 then Z.max (blen data + from) 0 else from in
  if blen data <=? from' then -1
  else find_from (drop (Z.to_nat from') data) c from'.

(** ** SHA-1 (FIPS 180-4), the digest computed by
    [crypto.createHash('sha1').update(data).digest()]. *)
Module Sha1.

Open Scope N_scope.

Definition w32 (x : N) : N := x mod 4294967296.

Definition rotl (n x : N) : N :=
  w32 (N.lor (N.shiftl x n) (N.shiftr x (32 - n))).

Definition not32 (x : N) : N := 4294967295 - x.

Fixpoint be_bytes_acc (k : nat) (x : N) (acc : list byte) : list byte :=
  match k with
  | O => acc
  | S k' => be_bytes_acc k' (x / 256) (byte_of_N (x mod 256) :: acc)
  end.

(** The [count] low bytes of [x], most significant first. *)
Definition be_bytes (count : nat) (x : N) : list byte :=
  be_bytes_acc count x [].

Definition pad (msg : list byte) : list byte :=
  let l := N.of_nat (length msg) in
  let zeros := (64 - (l + 9) mod 64) mod 64 in
  msg ++ [x80] ++ repeat x00 (N.to_nat zeros) ++ be_bytes 8 (8 * l).

Definition word_of (b3 b2 b1 b0 : byte) : N :=
  Byte.to_N b3 * 16777216 + Byte.to_N b2 * 65536 +
  Byte.to_N b1 * 256 + Byte.to_N b0.

Fixpoint words (bs : list byte) : list N :=
  match bs with
  | b3 :: b2 :: b1 :: b0 :: rest => word_of b3 b2 b1 b0 :: words rest
  | _ => []
  end.

Fixpoint chunks16 (fuel : nat) (ws : list N) : list (list N) :=
  match fuel, ws with
  | O, _ | _, [] => []
  | S f, _ => take 16 ws :: chunks16 f (drop 16 ws)
  end.

(** The message schedule, most recent word first. *)
Fixpoint schedule (k : nat) (rev_w : list N) : list N :=
  match k with
  | O => rev_w
  | S k' =>
      let g i := nth i rev_w 0 in
      schedule k'
        (rotl 1 (N.lxor (N.lxor (g 2%nat) (g 7%nat))
                        (N.lxor (g 13%nat) (g 15%nat))) :: rev_w)
  end.

Definition f_k (t : nat) (b c d : N) : N * N :=
  if (t <? 20)%nat then
    (N.lor (N.land b c) (N.land (not32 b) d), 1518500249)
  else if (t <? 40)%nat then
    (N.lxor (N.lxor b c) d, 1859775393)
  else if (t <? 60)%nat then
    (N.lor (N.lor (N.land b c) (N.land b d)) (N.land c d), 2400959708)
  else
    (N.lxor (N.lxor b c) d, 3395469782).

Record regs := Regs { ra : N; rb : N; rc : N; rd : N; re : N }.

Fixpoint rounds (t : nat) (ws : list N) (r : regs) : regs :=
  match ws with
  | [] => r
  | w :: ws' =>
      let '(f, k) := f_k t (rb r) (rc r) (rd r) in
      let tmp := w32 (rotl 5 (ra r) + f + re r + k + w) in
      rounds (S t) ws' (Regs tmp (ra r) (rotl 30 (rb r)) (rc r) (rd r))
  end.

Definition compress (h : regs) (block : list N) : regs :=
  let ws := rev (schedule 64 (rev block)) in
  let r := rounds 0 ws h in
  Regs (w32 (ra h + ra r)) (w32 (rb h + rb r)) (w32 (rc h + rc r))
       (w32 (rd h + rd r)) (w32 (re h + re r)).

Definition h0 : regs :=
  Regs 1732584193 4023233417 2562383102 271733878 3285377520.

Definition sha1 (msg : list byte) : list byte :=
  let ws := words (pad msg) in
  let h := fold_left compress (chunks16 (length ws) ws) h0 in
  be_bytes 4 (ra h) ++ be_bytes 4 (rb h) ++ be_bytes 4 (rc h) ++
  be_bytes 4 (rd h) ++ be_bytes 4 (re h).

End Sha1.

(** ** [CryptoUtils] of [src/utils/crypto.ts] *)
Module CryptoUtils.

Definition sha1 (data : Buffer) : Buffer := Sha1.sha1 data.

Definition verifyHash (data expectedHash : Buffer) : bool :=
  buf_equals (sha1 data) expectedHash.

Definition calculateInfoHash (infoDict : Buffer) : Buffer := sha1 infoDict.

End CryptoUtils.

(** ** Outcomes of a call

    [Ok] is a normal return and [Throw] a thrown [Error].  [Stuck] marks the
    inputs on which this embedding does not follow node.js: a byte above 127
    where the code decodes a buffer as text, a length beyond
    [Number.MAX_SAFE_INTEGER] (the code computes positions on doubles, the
    embedding on [Z]), an integer so large that [parseInt] returns
    [Infinity], an assignment to [__proto__] that would change an object's
    prototype, a positional write at a negative position, or a recursion
    that ran out of fuel.  Whenever the embedding
    answers [Ok] or [Throw], so does the code. *)

Inductive error :=
  | UnexpectedChar        (* Carácter inesperado *)
  | MissingColon          (* Formato de cadena inválido: falta ":" *)
  | InvalidLength         (* Longitud de cadena inválida *)
  | IntegerMissingE       (* Formato de entero inválido: falta "e" *)
  | InvalidInteger        (* Entero inválido *)
  | ListMissingE          (* Formato de lista inválido: falta "e" *)
  | DictMissingE          (* Formato de diccionario inválido: falta "e" *)
  | InfoDictError         (* Error extrayendo diccionario info *)
  | NoPeers               (* No se pudo obtener peers de ningún tracker *)
  | FileNotInitialized    (* Archivo no inicializado *)
  | OutOfRange            (* RangeError of Buffer.writeUInt32BE *)
  | BadFileDescriptor.    (* EBADF: a read of a file opened for writing *)

Inductive stuck :=
  NonAscii | UnsafeInteger | ProtoMutation | NegativePosition | OutOfFuel.

Inductive result (A : Type) :=
  | Ok (a : A)
  | Throw (e : error)
  | Stuck (why : stuck).
Arguments Ok {A} a.
Arguments Throw {A} e.
Arguments Stuck {A} why.

(** Sequencing: an exception (or a stuck call) ends the computation. *)
#[global] Instance result_bind : MBind result := fun A B k r =>
  match r with
  | Ok a => k a
  | Throw e => Throw e
  | Stuck w => Stuck w
  end.

#[global] Instance result_ret : MRet result := fun A a => Ok a.

#[global] Instance result_fmap : FMap result := fun A B f r =>
  match r with
  | Ok a => Ok (f a)
  | Throw e => Throw e
  | Stuck w => Stuck w
  end.

(** ** Text and numbers of the JavaScript runtime *)

(** A JavaScript string is a [string] whose characters are all ASCII. *)
Definition is_ascii (b : byte) : bool := bool_decide (Byte.to_N b < 128)%N.

(** [buf.toString()] (UTF-8 decoding), exact on ASCII bytes. *)
Definition toString (b : Buffer) : result string :=
  if forallb is_ascii b then Ok (string_of_list_byte b) else Stuck NonAscii.

(** [Buffer.from(str)] (UTF-8 encoding), exact on ASCII strings. *)
Definition Buffer_from (s : string) : Buffer := list_byte_of_string s.

Definition is_digit (b : byte) : bool :=
  bool_decide (48 <= Z_of_byte b <= 57).

(** The ASCII members of [StrWhiteSpaceChar]: TAB, LF, VT, FF, CR, SP. *)
Definition is_space (b : byte) : bool :=
  bool_decide (9 <= Z_of_byte b <= 13 \/ Z_of_byte b = 32).

Fixpoint take_while {A} (p : A -> bool) (l : list A) : list A :=
  match l with
  | x :: t => if p x then x :: take_while p t else []
  | [] => []
  end.

Fixpoint drop_while {A} (p : A -> bool) (l : list A) : list A :=
  match l with
  | x :: t => if p x then drop_while p t else l
  | [] => []
  end.

Definition digits_value (ds : list byte) : Z :=
  fold_left (fun a d => 10 * a + (Z_of_byte d - 48)) ds 0.

(** The numbers that the codec handles are doubles of integral value:
    [Int n] is the double whose value is the integer [n], and [NegZero] is
    negative zero, which [parseInt] returns for a minus sign followed by
    zeros. *)
Inductive number :=
  | Int (n : Z)
  | NegZero.

(** The mathematical value, as comparisons see it. *)
Definition number_Z (x : number) : Z :=
  match x with
  | Int n => n
  | NegZero => 0
  end.

(** [parseInt(s, 10)]: skip leading white space, read an optional sign, then
    the longest run of decimal digits; [None] is [NaN].  The result is the
    integer that the digits denote; the callers round it to a double with
    [safe] or [to_double]. *)
Definition parseInt (s : string) : option number :=
  let s1 := drop_while is_space (list_byte_of_string s) in
  let '(neg, s2) :=
    match s1 with
    | b :: t =>
        if bool_decide (b = "-"%byte) then (true, t)
        else if bool_decide (b = "+"%byte) then (false, t)
        else (false, s1)
    | [] => (false, s1)
    end in
  match take_while is_digit s2 with
  | [] => None
  | ds =>
      Some (if neg : bool then
              if digits_value ds =? 0 then NegZero else Int (- digits_value ds)
            else Int (digits_value ds))
  end.

Definition MAX_SAFE_INTEGER : Z := 9007199254740991.

(** A parsed length is the same number in the double arithmetic of the
    code, which adds it to a position, only within the safe range. *)
Definition safe (x : number) : result number :=
  if Z.abs (number_Z x) <=? MAX_SAFE_INTEGER then Ok x
  else Stuck UnsafeInteger.

(** The double nearest to the integer [q >= 0]: 53 significant bits, a tie
    going to the even significand. *)
Definition round_double (q : Z) : Z :=
  let e := Z.log2 q - 52 in
  if e <=? 0 then q
  else
    let m := q / 2 ^ e in
    let r := q mod 2 ^ e in
    let half := 2 ^ (e - 1) in
    if (half <? r) || ((r =? half) && Z.odd m) then (m + 1) * 2 ^ e
    else m * 2 ^ e.

(** From this magnitude on, an integer rounds to [Infinity]. *)
Definition DOUBLE_LIMIT : Z := 2 ^ 1024 - 2 ^ 970.

(** The double that [parseInt] returns for the integer it has read. *)
Definition to_double (x : number) : result number :=
  match x with
  | NegZero => Ok NegZero
  | Int n =>
      if Z.abs n <? DOUBLE_LIMIT
      then Ok (Int (Z.sgn n * round_double (Z.abs n)))
      else Stuck UnsafeInteger
  end.

Definition digit_byte (d : N) : byte := byte_of_N (48 + d).

Fixpoint digits_of (fuel : nat) (n : N) : list byte :=
  match fuel with
  | O => []
  | S f =>
      if (n <? 10)%N then [digit_byte n]
      else digits_of f (n / 10) ++ [digit_byte (n mod 10)]
  end.

(** [String(n)] / [`${n}`] for an integer [n] in the safe range. *)
Definition show_int (n : Z) : Buffer :=
  let m := Z.to_N (Z.abs n) in
  let ds := digits_of (S (N.to_nat (N.log2 m))) m in
  if n <? 0 then "-"%byte :: ds else ds.

(** [Number::toString] beyond the safe range, for a double of integral
    value [x > 0].  The standard asks for the decimal [s * 10^(n-k)] with the
    fewest digits [k] that rounds to [x], the nearest to [x] when several
    have [k] digits (the even [s] on a tie).  [shortest_at j x] tries the
    multiples of [10^j], then of [10^(j-1)], down to [10]: of each unit the
    multiple just below [x] and the one just above; a unit above [x] has no
    multiple with a leading digit other than zero.  When none rounds to [x],
    the decimal is [x] itself. *)
Fixpoint shortest_at (j : nat) (x : Z) : Z :=
  match j with
  | O => x
  | S j' =>
      let unit := 10 ^ Z.of_nat j in
      let lo := x / unit * unit in
      let hi := lo + unit in
      let ok_lo := round_double lo =? x in
      let ok_hi := round_double hi =? x in
      if (unit <=? x) && (ok_lo || ok_hi) then
        if ok_lo && ok_hi then
          if x - lo <? hi - x then lo
          else if hi - x <? x - lo then hi
          else if Z.even (x / unit) then lo else hi
        else if ok_lo then lo else hi
      else shortest_at j' x
  end.

Definition shortest (x : Z) : Z := shortest_at (length (show_int x)) x.

(** The digits of [s]: those of the decimal without its final zeros. *)
Definition significant (ds : Buffer) : Buffer :=
  rev (drop_while (fun b => bool_decide (b = "0"%byte)) (rev ds)).

(** The text: the decimal in full when it has at most 21 digits, else its
    first digit, the others after a point, and the exponent. *)
Definition show_double (x : Z) : Buffer :=
  let c := shortest x in
  if c <? 10 ^ 21 then show_int c
  else
    let exponent := show_int (blen (show_int c) - 1) in
    match significant (show_int c) with
    | [] => []
    | [d] => d :: list_byte_of_string "e+" ++ exponent
    | d :: ds => d :: list_byte_of_string "." ++ ds
                   ++ list_byte_of_string "e+" ++ exponent
    end.

(** [String(x)] / [`${x}`] for a number: negative zero prints as [0], a safe
    integer as its decimal digits. *)
Definition show_number (x : number) : Buffer :=
  let n := number_Z x in
  if Z.abs n <=? MAX_SAFE_INTEGER then show_int n
  else if n <? 0 then "-"%byte :: show_double (- n)
  else show_double n.

(** ** [BencodeParser] of [src/parsers/bencode.ts] *)
Module Bencode.

(** [BencodeValue]: a string, a number, a Buffer, an array or a plain object.
    An object is the list of its own properties in the order in which
    [Object.keys] lists them, each key occurring once. *)
#[local] Unset Elimination Schemes.
Inductive value :=
  | VStr (s : string)
  | VNum (n : number)
  | VBuf (b : Buffer)
  | VList (l : list value)
  | VDict (d : list (string * value)).
#[local] Set Elimination Schemes.

Abbreviation BencodeDict := (list (string * value)).

(** [key in dict] for own properties. *)
Definition obj_has {A} (d : list (string * A)) (k : string) : bool :=
  existsb (fun kv => bool_decide (kv.1 = k)) d.

(** [dict[key]] for own properties. *)
Fixpoint obj_get {A} (d : list (string * A)) (k : string) : option A :=
  match d with
  | [] => None
  | (k', v) :: t => if bool_decide (k' = k) then Some v else obj_get t k
  end.

Fixpoint obj_replace {A} (d : list (string * A)) (k : string) (v : A)
  : list (string * A) :=
  match d with
  | [] => []
  | (k', v') :: t =>
      if bool_decide (k' = k) then (k', v) :: t else (k', v') :: obj_replace t k v
  end.

(** An array index: the canonical decimal text of an integer from [0] to
    [2^32 - 2]. *)
Definition array_index (k : string) : option Z :=
  let b := list_byte_of_string k in
  let n := digits_value b in
  if forallb is_digit b && bool_decide (b = show_int n) && (n <=? 4294967294)
  then Some n else None.

(** A new property whose key is the array index [n] goes after the array
    indices below [n], before every other property. *)
Fixpoint insert_index {A} (n : Z) (kv : string * A) (d : list (string * A))
  : list (string * A) :=
  match d with
  | [] => [kv]
  | kv' :: t =>
      match array_index kv'.1 with
      | Some m => if m <? n then kv' :: insert_index n kv t else kv :: d
      | None => kv :: d
      end
  end.

(** Defining a property that the object does not have.  An object lists
    its array indices first, in ascending order, then its other keys in
    the order of their creation. *)
Definition obj_add {A} (d : list (string * A)) (kv : string * A)
  : list (string * A) :=
  match array_index kv.1 with
  | Some n => insert_index n kv d
  | None => d ++ [kv]
  end.

(** [dict[key] = value] on an object created by [{}].  An existing property
    keeps its place.  The key [__proto__] reaches the setter of
    [Object.prototype], which ignores a number and creates no own
    property. *)
Definition obj_set (d : BencodeDict) (k : string) (v : value)
  : result BencodeDict :=
  if bool_decide (k = "__proto__"%string) then
    match v with
    | VNum _ => Ok d
    | _ => Stuck ProtoMutation
    end
  else if obj_has d k then Ok (obj_replace d k v)
  else Ok (obj_add d (k, v)).

(** [Object.keys(dict)]. *)
Definition obj_keys {A} (d : list (string * A)) : list string := map fst d.

(** *** Decoding.  The parser object is its buffer [data], which never
    changes, and [this.position], threaded through the calls. *)

(** [parseString]: [<longitud>:<cadena>]. *)
Definition parseString (data : Buffer) (position : Z) : result (Buffer * Z) :=
  let colonIndex := indexOf data ":"%byte position in
  if colonIndex =? -1 then Throw MissingColon
  else
    lengthStr ← toString (slice data position colonIndex);
    match parseInt lengthStr with
    | None => Throw InvalidLength
    | Some length =>
        if number_Z length <? 0 then Throw InvalidLength
        else
          length ← safe length;
          let length := number_Z length in
          let position := colonIndex + 1 in
          let stringData := slice data position (position + length) in
          Ok (stringData, position + length)
    end.

(** [parseInteger]: [i<número>e]. *)
Definition parseInteger (data : Buffer) (position : Z)
  : result (number * Z) :=
  let position := position + 1 in
  let endIndex := indexOf data "e"%byte position in
  if endIndex =? -1 then Throw IntegerMissingE
  else
    numberStr ← toString (slice data position endIndex);
    let position := endIndex + 1 in
    match parseInt numberStr with
    | None => Throw InvalidInteger
    | Some number => number ← to_double number; Ok (number, position)
    end.

(** [parseValue], with the [while] loops of [parseList] and
    [parseDictionary] as [parseListItems] and [parseDictEntries]. *)
Fixpoint parseValue (fuel : nat) (data : Buffer) (position : Z) {struct fuel}
  : result (value * Z) :=
  match fuel with
  | O => Stuck OutOfFuel
  | S fuel' =>
      match byteAt data position with
      | None => Throw UnexpectedChar
      | Some char =>
          if is_digit char then
            '(b, p) ← parseString data position; Ok (VBuf b, p)
          else if bool_decide (char = "i"%byte) then
            '(n, p) ← parseInteger data position; Ok (VNum n, p)
          else if bool_decide (char = "l"%byte) then
            '(l, p) ← parseListItems fuel' data (position + 1) [];
            Ok (VList l, p)
          else if bool_decide (char = "d"%byte) then
            '(d, p) ← parseDictEntries fuel' data (position + 1) [];
            Ok (VDict d, p)
          else Throw UnexpectedChar
      end
  end
with parseListItems (fuel : nat) (data : Buffer) (position : Z)
       (items : list value) {struct fuel} : result (list value * Z) :=
  match fuel with
  | O => Stuck OutOfFuel
  | S fuel' =>
      if (position <? blen data)
         && negb (bool_decide (byteAt data position = Some "e"%byte))
      then
        '(v, p) ← parseValue fuel' data position;
        parseListItems fuel' data p (items ++ [v])
      else if blen data <=? position then Throw ListMissingE
      else Ok (items, position + 1)
  end
with parseDictEntries (fuel : nat) (data : Buffer) (position : Z)
       (dict : BencodeDict) {struct fuel} : result (BencodeDict * Z) :=
  match fuel with
  | O => Stuck OutOfFuel
  | S fuel' =>
      if (position <? blen data)
         && negb (bool_decide (byteAt data position = Some "e"%byte))
      then
        '(keyBuffer, p) ← parseString data position;
        key ← toString keyBuffer;
        '(v, p) ← parseValue fuel' data p;
        dict ← obj_set dict key v;
        parseDictEntries fuel' data p dict
      else if blen data <=? position then Throw DictMissingE
      else Ok (dict, position + 1)
  end.

Definition parseList (fuel : nat) (data : Buffer) (position : Z) :=
  parseListItems fuel data (position + 1) [].

Definition parseDictionary (fuel : nat) (data : Buffer) (position : Z) :=
  parseDictEntries fuel data (position + 1) [].

(** A value that starts at [position] is parsed within two units of fuel
    for each byte from [position] to the end of the buffer: one for
    [parseValue], one for the loop that called it. *)
Definition fuel_for (data : Buffer) : nat := S (2 * length data).

(** [new BencodeParser(data).parseValue()], the parsed value and the final
    [position]. *)
Definition parse (data : Buffer) : result (value * Z) :=
  parseValue (fuel_for data) data 0.

(** [BencodeParser.decode]. *)
Definition decode (data : Buffer) : result value :=
  '(v, _) ← parse data; Ok v.

(** *** Encoding *)

Definition encodeString (str : string) : Buffer :=
  let data := Buffer_from str in
  show_int (blen data) ++ lit ":" ++ data.

Definition encodeBuffer (buf : Buffer) : Buffer :=
  show_int (blen buf) ++ lit ":" ++ buf.

Definition encodeInteger (num : number) : Buffer :=
  lit "i" ++ show_number num ++ lit "e".

(** [Array.prototype.sort()] without comparator on strings with distinct
    ASCII characters: ascending order of the character codes. *)
Fixpoint sort_insert (k : string) (l : list string) : list string :=
  match l with
  | [] => [k]
  | k' :: t =>
      if (k <=? k')%string then k :: l else k' :: sort_insert k t
  end.

Definition sort_strings (l : list string) : list string :=
  foldr sort_insert [] l.

(** The loop of [encodeDictionary] over the sorted keys, given the encoding
    of every property value. *)
Definition encodeEntries (encoded : list (string * Buffer)) : Buffer :=
  let sortedKeys := sort_strings (obj_keys encoded) in
  lit "d"
  ++ concat (map (fun key =>
                    encodeString key ++ default [] (obj_get encoded key))
                 sortedKeys)
  ++ lit "e".

(** [BencodeParser.encode].  In [encodeDictionary] the encodings
    [encode(dict[key])] are computed property by property before the loop
    over the sorted keys looks them up; [encode] has no effect, so the order
    of the calls is immaterial. *)
Fixpoint encode (v : value) : Buffer :=
  match v with
  | VStr s => encodeString s
  | VNum n => encodeInteger n
  | VBuf b => encodeBuffer b
  | VList l => lit "l" ++ concat (map encode l) ++ lit "e"
  | VDict d => encodeEntries (map (fun kv => (kv.1, encode kv.2)) d)
  end.

Definition encodeList (items : list value) : Buffer := encode (VList items).

Definition encodeDictionary (dict : BencodeDict) : Buffer :=
  encode (VDict dict).

End Bencode.

(** ** [TorrentMetadata] of the torrent types *)
Record TorrentMetadata := {
  infoHash : Buffer;
  pieceHashes : list Buffer;
  totalLength : Z;
  pieceCount : Z;
  pieceLength : Z;
  fileName : string;
  announceList : list string;
}.

(** [arr[i]] for a JavaScript array and a number [i]: [None] ([undefined])
    outside [0, arr.length). *)
Definition array_get {A} (arr : list A) (i : Z) : option A :=
  if (i <? 0) || (Z.of_nat (length arr) <=? i) then None
  else arr !! Z.to_nat i.

(** [Math.ceil(a / b)] for integers [a] and [b > 0]. *)
Definition ceil_div (a b : Z) : Z := - ((- a) / b).

(** ** [TorrentParser] of [src/core/torrent.ts] *)
Module Torrent.

(** The search loop of [extractRawInfoDict]: [i] runs from [0] to
    [torrentBuffer.length - infoPattern.length]; the result is [infoStart]. *)
Fixpoint searchInfo (n : nat) (torrentBuffer : Buffer) (i : Z) : Z :=
  match n with
  | O => -1
  | S n' =>
      if buf_equals (slice torrentBuffer i (i + 6)) (lit "4:info")
      then i + 6
      else searchInfo n' torrentBuffer (i + 1)
  end.

(** Every error raised inside the [try] block is rethrown as a new [Error]. *)
Definition rethrow {A} (r : result A) : result A :=
  match r with
  | Throw _ => Throw InfoDictError
  | _ => r
  end.

Definition extractRawInfoDict (torrentBuffer : Buffer) : result Buffer :=
  rethrow (
    let infoPattern := lit "4:infod" in
    let infoStart :=
      searchInfo (Z.to_nat (blen torrentBuffer - blen infoPattern + 1))
                 torrentBuffer 0 in
    if infoStart =? -1 then Throw InfoDictError
    else
      '(infoValue, _) ← Bencode.parse (slice torrentBuffer infoStart
                                             (blen torrentBuffer));
      Ok (Bencode.encode infoValue)).

(** The [infoHash] that [extractMetadata] stores: the digest of
    [this.rawInfoDict]. *)
Definition computeInfoHash (torrentBuffer : Buffer) : result Buffer :=
  rawInfoDict ← extractRawInfoDict torrentBuffer;
  Ok (CryptoUtils.calculateInfoHash rawInfoDict).

(** [TorrentFile], [TorrentInfo] and [FileInfo] of the torrent types, with
    the fields that [extractMetadata] reads.  An optional field is [None]
    when it is [undefined]. *)
Record FileInfo := { file_length : Z; file_path : list string }.

Record TorrentInfo := {
  name : string;
  piece_length : Z;
  pieces : Buffer;
  length_ : option Z;
  files : option (list FileInfo);
}.

Record TorrentFile := {
  announce : string;
  announce_list : option (list (list string));
  info : TorrentInfo;
}.

(** The loop [for (i = 0; i < piecesBuffer.length; i += 20)] that slices
    the piece digests. *)
Fixpoint slicePieceHashes (fuel : nat) (piecesBuffer : Buffer) (i : Z)
  : list Buffer :=
  match fuel with
  | O => []
  | S fuel' =>
      if i <? blen piecesBuffer then
        slice piecesBuffer i (i + 20)
        :: slicePieceHashes fuel' piecesBuffer (i + 20)
      else []
  end.

(** The two nested loops over the tiers of [announce-list]: a tracker is
    pushed unless [announceList.includes(tracker)]. *)
Definition pushTracker (announceList : list string) (tracker : string)
  : list string :=
  if bool_decide (tracker ∈ announceList) then announceList
  else announceList ++ [tracker].

Definition flattenTiers (announceList : list string)
    (tiers : list (list string)) : list string :=
  fold_left (fun acc tier => fold_left pushTracker tier acc) tiers announceList.

(** The total size computed by [extractMetadata]: [info.length] when it is
    truthy (defined and not zero), else the sum of the lengths of
    [info.files] when that is defined; [None] is the [Error] thrown when
    neither gives the size. *)
Definition totalLengthOf (info : TorrentInfo) : option Z :=
  let hasLength :=
    match length_ info with Some l => negb (l =? 0) | None => false end in
  if hasLength then length_ info
  else
    match files info with
    | Some fs => Some (fold_left (fun sum file => sum + file_length file) fs 0)
    | None => None
    end.

(** [extractMetadata], given [this.rawInfoDict] and [this.torrentData]. *)
Definition extractMetadata (rawInfoDict : Buffer) (torrentData : TorrentFile)
  : option TorrentMetadata :=
  let infoHash := CryptoUtils.calculateInfoHash rawInfoDict in
  let piecesBuffer := pieces (info torrentData) in
  let pieceHashes :=
    slicePieceHashes (length piecesBuffer) piecesBuffer 0 in
  let pieceLength := piece_length (info torrentData) in
  match totalLengthOf (info torrentData) with
  | None => None
  | Some totalLength =>
      let announceList :=
        match announce_list torrentData with
        | Some tiers => flattenTiers [announce torrentData] tiers
        | None => [announce torrentData]
        end in
      Some {| infoHash := infoHash;
              pieceHashes := pieceHashes;
              totalLength := totalLength;
              pieceCount := Z.of_nat (length pieceHashes);
              pieceLength := pieceLength;
              fileName := name (info torrentData);
              announceList := announceList |}
  end.

End Torrent.

(** ** [PieceManager] of [src/core/piece-manager.ts] *)
Module PieceManager.

Record PieceInfo := {
  index : Z;
  size : Z;
  hash : Buffer;
  data : Buffer;
  blocks : gmap Z Buffer;          (* offset -> bloque *)
  totalBlocks : Z;
  receivedBlocks : Z;
  requested : bool;
  completed : bool;
}.

Record t := {
  metadata : TorrentMetadata;
  pieces : list PieceInfo;
  completedPieces : gset Z;
  currentPieceIndex : Z;
  pieceLength_ : Z;
}.

Definition set_pieces (pm : t) (ps : list PieceInfo) : t :=
  {| metadata := metadata pm; pieces := ps;
     completedPieces := completedPieces pm;
     currentPieceIndex := currentPieceIndex pm;
     pieceLength_ := pieceLength_ pm |}.

(** The object [this.pieces[i]] is mutated in place; the embedding stores
    the new record at the same index. *)
Definition update_piece (pm : t) (i : Z) (p : PieceInfo) : t :=
  set_pieces pm (<[Z.to_nat i := p]> (pieces pm)).

Definition set_requested (p : PieceInfo) (b : bool) : PieceInfo :=
  {| index := index p; size := size p; hash := hash p; data := data p;
     blocks := blocks p; totalBlocks := totalBlocks p;
     receivedBlocks := receivedBlocks p; requested := b;
     completed := completed p |}.

Definition set_blocks (p : PieceInfo) (m : gmap Z Buffer) (n : Z) : PieceInfo :=
  {| index := index p; size := size p; hash := hash p; data := data p;
     blocks := m; totalBlocks := totalBlocks p;
     receivedBlocks := n; requested := requested p;
     completed := completed p |}.

Definition set_completed (p : PieceInfo) (d : Buffer) : PieceInfo :=
  {| index := index p; size := size p; hash := hash p; data := d;
     blocks := blocks p; totalBlocks := totalBlocks p;
     receivedBlocks := receivedBlocks p; requested := requested p;
     completed := true |}.

(** The body of the loop of [initializePieces] for piece [i]. *)
Definition initialPiece (md : TorrentMetadata) (i : Z) : PieceInfo :=
  let isLastPiece := i =? pieceCount md - 1 in
  let size := if isLastPiece then totalLength md - i * pieceLength md
              else pieceLength md in
  {| index := i; size := size;
     hash := default [] (array_get (pieceHashes md) i);
     data := repeat x00 (Z.to_nat size);
     blocks := ∅;
     totalBlocks := ceil_div size 16384;
     receivedBlocks := 0;
     requested := false;
     completed := false |}.

Definition initializePieces (md : TorrentMetadata) : list PieceInfo :=
  map (fun i => initialPiece md (Z.of_nat i)) (seq 0 (Z.to_nat (pieceCount md))).

(** The constructor. *)
Definition new (md : TorrentMetadata) : t :=
  {| metadata := md; pieces := initializePieces md;
     completedPieces := ∅; currentPieceIndex := 0;
     pieceLength_ := pieceLength md |}.

(** [getNextPieceToDownload]: the returned object is the stored piece, seen
    after the assignment to [requested]. *)
Definition getNextPieceToDownload (pm : t) : option PieceInfo * t :=
  match array_get (pieces pm) (currentPieceIndex pm) with
  | Some nextPiece =>
      if negb (completed nextPiece) && negb (requested nextPiece) then
        let nextPiece := set_requested nextPiece true in
        (Some nextPiece, update_piece pm (currentPieceIndex pm) nextPiece)
      else (None, pm)
  | None => (None, pm)
  end.

(** [getRarestPiece].  [peerBitfields] is the list of the values of the
    [Map]; its keys are not used.  [pieceCounts] lists, by ascending index,
    the pieces that are neither completed nor requested with the number of
    peers that have them. *)
Definition pieceCounts (pm : t) (peerBitfields : list (list bool))
  : list (Z * Z) :=
  omap (fun ip : nat * PieceInfo =>
          if negb (completed ip.2) && negb (requested ip.2) then
            Some (Z.of_nat ip.1,
                  Z.of_nat (length (filter (fun bitfield : list bool =>
                                              bitfield !! ip.1 = Some true)
                                           peerBitfields)))
          else None)
       (imap (fun i p => (i, p)) (pieces pm)).

(** The search for the smallest positive count; [None] is [Infinity]. *)
Definition rarestIndex (counts : list (Z * Z)) : Z :=
  fst (fold_left
         (fun (acc : Z * option Z) (ic : Z * Z) =>
            let '(index, count) := ic in
            if (0 <? count)
               && match acc.2 with Some m => count <? m | None => true end
            then (index, Some count) else acc)
         counts (-1, None)).

Definition getRarestPiece (pm : t) (peerBitfields : list (list bool))
  : option PieceInfo * t :=
  let rarestPieceIndex := rarestIndex (pieceCounts pm peerBitfields) in
  if negb (rarestPieceIndex =? -1) then
    match array_get (pieces pm) rarestPieceIndex with
    | Some piece =>
        let piece := set_requested piece true in
        (Some piece, update_piece pm rarestPieceIndex piece)
    | None => (None, pm)
    end
  else getNextPieceToDownload pm.

(** [Array.from(piece.blocks.keys()).sort((a, b) => a - b)]. *)
Definition sortedOffsets (m : gmap Z Buffer) : list Z :=
  merge_sort Z.le (map fst (map_to_list m)).

(** The loop of [assemblePiece]: [None] when an offset is not the expected
    one, else the assembled data. *)
Fixpoint assembleBlocks (m : gmap Z Buffer) (offsets : list Z)
    (assembledData : Buffer) (expectedOffset : Z) : option Buffer :=
  match offsets with
  | [] => Some assembledData
  | offset :: rest =>
      if bool_decide (offset = expectedOffset) then
        let blockData := default [] (m !! offset) in
        assembleBlocks m rest (assembledData ++ blockData)
                       (expectedOffset + blen blockData)
      else None
  end.

(** [assemblePiece], called with the piece [piece] stored at [pieceIndex]. *)
Definition assemblePiece (pm : t) (pieceIndex : Z) (piece : PieceInfo)
  : bool * t :=
  match assembleBlocks (blocks piece) (sortedOffsets (blocks piece)) [] 0 with
  | None => (false, pm)
  | Some assembledData =>
      if negb (blen assembledData =? size piece) then (false, pm)
      else if negb (CryptoUtils.verifyHash assembledData (hash piece)) then
        let piece := set_blocks (set_requested piece false) ∅ 0 in
        (false, update_piece pm pieceIndex piece)
      else
        let piece := set_completed piece assembledData in
        let pm := update_piece pm pieceIndex piece in
        (true,
         {| metadata := metadata pm; pieces := pieces pm;
            completedPieces := {[pieceIndex]} ∪ completedPieces pm;
            currentPieceIndex :=
              if pieceIndex =? currentPieceIndex pm
              then currentPieceIndex pm + 1 else currentPieceIndex pm;
            pieceLength_ := pieceLength_ pm |})
  end.

Definition addBlockToPiece (pm : t) (pieceIndex offset : Z)
    (blockData : Buffer) : bool * t :=
  match array_get (pieces pm) pieceIndex with
  | None => (false, pm)
  | Some piece =>
      if completed piece then (true, pm)
      else if size piece <? offset + blen blockData then (false, pm)
      else
        let piece :=
          match blocks piece !! offset with
          | Some _ => piece
          | None => set_blocks piece (<[offset := blockData]> (blocks piece))
                               (receivedBlocks piece + 1)
          end in
        let pm := update_piece pm pieceIndex piece in
        if totalBlocks piece <=? receivedBlocks piece
        then assemblePiece pm pieceIndex piece
        else (false, pm)
  end.

Definition getPieceData (pm : t) (pieceIndex : Z) : option Buffer :=
  match array_get (pieces pm) pieceIndex with
  | Some piece => if completed piece then Some (data piece) else None
  | None => None
  end.

Definition getPieceInfo (pm : t) (pieceIndex : Z) : option PieceInfo :=
  array_get (pieces pm) pieceIndex.

Definition resetPieceRequest (pm : t) (pieceIndex : Z) : t :=
  match array_get (pieces pm) pieceIndex with
  | Some piece =>
      if negb (completed piece) then
        update_piece pm pieceIndex (set_blocks (set_requested piece false) ∅ 0)
      else pm
  | None => pm
  end.

Definition isPieceComplete (pm : t) (pieceIndex : Z) : bool :=
  bool_decide (pieceIndex ∈ completedPieces pm).

Definition isDownloadComplete (pm : t) : bool :=
  bool_decide (base.size (completedPieces pm) = length (pieces pm)).

(** The calls that change a piece manager, and the states they lead to
    from a freshly constructed one. *)
Inductive call :=
  | CNext
  | CRarest (peerBitfields : list (list bool))
  | CAddBlock (pieceIndex offset : Z) (blockData : Buffer)
  | CReset (pieceIndex : Z).

Definition exec (pm : t) (c : call) : t :=
  match c with
  | CNext => (getNextPieceToDownload pm).2
  | CRarest bf => (getRarestPiece pm bf).2
  | CAddBlock i o b => (addBlockToPiece pm i o b).2
  | CReset i => resetPieceRequest pm i
  end.

Inductive reachable (md : TorrentMetadata) : t -> Prop :=
  | reach_new : reachable md (new md)
  | reach_call pm c : reachable md pm -> reachable md (exec pm c).

(** A piece that is neither completed nor requested. *)
Definition idle (p : PieceInfo) : bool :=
  negb (completed p) && negb (requested p).

(** [getCompletedPiecesInOrder]: the data of the pieces from index 0 up to
    the first one that is not in [completedPieces]. *)
Fixpoint completedPrefix (completedPieces : gset Z) (i : Z)
    (ps : list PieceInfo) : list Buffer :=
  match ps with
  | [] => []
  | p :: rest =>
      if bool_decide (i ∈ completedPieces)
      then data p :: completedPrefix completedPieces (i + 1) rest
      else []
  end.

Definition getCompletedPiecesInOrder (pm : t) : list Buffer :=
  completedPrefix (completedPieces pm) 0 (pieces pm).

End PieceManager.

(** ** [FileManager] of [src/core/file-manager.ts] *)
Module FileManager.

(** The open file is its content; [fileHandle] is [None] before
    [initializeFile] and after [finalize].  The only handle that the class
    ever holds is the one that [initializeFile] opens, with the flag ['w']:
    for writing only. *)
Record t := {
  metadata : TorrentMetadata;
  fileHandle : option Buffer;
  bytesWritten : Z;
}.

(** [fileHandle.write(data, 0, data.length, position)]: a positional write;
    a gap between the end of the file and [position] reads as zeros. *)
Definition pwrite (file : Buffer) (position : Z) (data : Buffer) : Buffer :=
  let file := file ++ repeat x00 (Z.to_nat (position - blen file)) in
  take (Z.to_nat position) file ++ data
  ++ drop (Z.to_nat (position + blen data)) file.

(** [initializeFile]: [open(outputPath, 'w')], which creates or truncates
    the file, then [truncate(totalLength)]. *)
Definition initializeFile (fm : t) : t :=
  {| metadata := metadata fm;
     fileHandle := Some (repeat x00 (Z.to_nat (totalLength (metadata fm))));
     bytesWritten := bytesWritten fm |}.

Definition calculatePieceSize (md : TorrentMetadata) (pieceIndex : Z) : Z :=
  let standardPieceSize := totalLength md / pieceCount md in
  if pieceIndex =? pieceCount md - 1 then
    totalLength md - pieceIndex * standardPieceSize
  else standardPieceSize.

(** The [position] computed by [writePiece]. *)
Definition writePosition (md : TorrentMetadata) (pieceIndex : Z) : Z :=
  pieceIndex * calculatePieceSize md pieceIndex.

Definition writePiece (fm : t) (pieceIndex : Z) (data : Buffer) : result t :=
  match fileHandle fm with
  | None => Throw FileNotInitialized
  | Some file =>
      let position := writePosition (metadata fm) pieceIndex in
      if position <? 0 then Stuck NegativePosition
      else
        Ok {| metadata := metadata fm;
              fileHandle := Some (pwrite file position data);
              bytesWritten := bytesWritten fm + blen data |}
  end.

(** [writePiecesSequential]: the pieces are written one after the other
    from position 0. *)
Definition writePiecesSequential (fm : t) (pieces : list Buffer) : result t :=
  match fileHandle fm with
  | None => Throw FileNotInitialized
  | Some file =>
      let '(file, _, written) :=
        fold_left (fun (st : Buffer * Z * Z) piece =>
                     let '(file, position, written) := st in
                     (pwrite file position piece, position + blen piece,
                      written + blen piece))
                  pieces (file, 0, bytesWritten fm) in
      Ok {| metadata := metadata fm; fileHandle := Some file;
            bytesWritten := written |}
  end.

(** [fileHandle.read(buffer, 0, length, 0)] on the handle of the class,
    which is open for writing only: the read fails with [EBADF].  For a
    [length] of 0 node returns before it asks the system, and nothing is
    read. *)
Definition read (file : Buffer) (length : Z) : result Z :=
  if length =? 0 then Ok 0 else Throw BadFileDescriptor.

(** The loop of [verifyFile] from piece [i] on, [n] pieces left.  A missing
    entry of [pieceHashes] makes [equals] raise a [TypeError], which the
    [catch] turns into [false]. *)
Fixpoint verifyPieces (md : TorrentMetadata) (buffer : Buffer) (n : nat)
    (i position : Z) : bool :=
  match n with
  | O => true
  | S n' =>
      let pieceSize := calculatePieceSize md i in
      let pieceData := slice buffer position (position + pieceSize) in
      match array_get (pieceHashes md) i with
      | None => false
      | Some expectedHash =>
          if negb (buf_equals (CryptoUtils.sha1 pieceData) expectedHash)
          then false
          else verifyPieces md buffer n' (i + 1) (position + pieceSize)
      end
  end.

(** [verifyFile].  Everything after the test of [fileHandle] runs inside
    [try]; the [catch] answers [false].  [Buffer.alloc] raises a
    [RangeError] for a negative length, and for one beyond the largest
    buffer of node, where the outcome is that of the failed read all the
    same. *)
Definition verifyFile (fm : t) : result bool :=
  match fileHandle fm with
  | None => Throw FileNotInitialized
  | Some file =>
      let md := metadata fm in
      if totalLength md <? 0 then Ok false
      else
        let buffer := repeat x00 (Z.to_nat (totalLength md)) in
        match read file (totalLength md) with
        | Ok _ => Ok (verifyPieces md buffer (Z.to_nat (pieceCount md)) 0 0)
        | Throw _ => Ok false
        | Stuck w => Stuck w
        end
  end.

(** [finalize] closes the file. *)
Definition finalize (fm : t) : t :=
  {| metadata := metadata fm; fileHandle := None;
     bytesWritten := bytesWritten fm |}.

End FileManager.

(** ** [TrackerClient.getPeers] of [src/network/tracker.ts] *)
Module Tracker.

Record PeerAddr := { ip : string; port : Z }.

#[global] Instance PeerAddr_eq_dec : EqDecision PeerAddr.
Proof. solve_decision. Defined.

(** The key [`${peer.ip}:${peer.port}`]. *)
Definition peerKey (peer : PeerAddr) : string :=
  (ip peer ++ ":" ++ string_of_list_byte (show_int (port peer)))%string.

Section GetPeers.

(** The two exchanges with a tracker are network operations; what they
    resolve to is given by the environment: [Some peers] when the promise is
    fulfilled, [None] when it is rejected. *)
Variable contactUdpTracker : string -> option (list PeerAddr).
Variable contactHttpTracker : string -> option (list PeerAddr).

(** The [async] callback mapped over [announceList]: it catches every
    error, so its promise is always fulfilled, with [[]] after a failure and
    for a protocol that is not supported. *)
Definition trackerPromise (trackerUrl : string) : list PeerAddr :=
  if String.prefix "udp://" trackerUrl then
    default [] (contactUdpTracker trackerUrl)
  else if String.prefix "http://" trackerUrl
          || String.prefix "https://" trackerUrl then
    default [] (contactHttpTracker trackerUrl)
  else [].

(** [uniquePeers.has(peerKey)] and [uniquePeers.set(peerKey, peer)] on the
    [Map], whose values are listed in insertion order. *)
Definition addUnique (uniquePeers : list (string * PeerAddr)) (peer : PeerAddr)
  : list (string * PeerAddr) :=
  if Bencode.obj_has uniquePeers (peerKey peer) then uniquePeers
  else uniquePeers ++ [(peerKey peer, peer)].

Definition collect (results : list (list PeerAddr)) : list (string * PeerAddr) :=
  fold_left (fun uniquePeers value => fold_left addUnique value uniquePeers)
            results [].

Definition getPeers (md : TorrentMetadata) : result (list PeerAddr) :=
  let results := map trackerPromise (announceList md) in
  let uniquePeersList := map snd (collect results) in
  if Z.of_nat (length uniquePeersList) =? 0 then Throw NoPeers
  else Ok uniquePeersList.

End GetPeers.

End Tracker.

(** ** [PeerClient] of [src/network/peer.ts] *)
Module Peer.

(** [MessageType]. *)
Definition CHOKE : Z := 0.
Definition UNCHOKE : Z := 1.
Definition INTERESTED : Z := 2.
Definition NOT_INTERESTED : Z := 3.
Definition HAVE : Z := 4.
Definition BITFIELD : Z := 5.
Definition REQUEST : Z := 6.
Definition PIECE : Z := 7.

Definition PROTOCOL_STRING : Buffer := lit "BitTorrent protocol".
Definition HANDSHAKE_LENGTH : Z := 68.
Definition BLOCK_SIZE : Z := 16384.

(** The [Peer] record of the tracker types. *)
Record PeerRec := {
  id : Buffer;
  choked : bool;          (* Si estamos choked por este peer *)
  interested : bool;
  choking : bool;
  peerInterested : bool;
  bitfield : option Buffer;
}.

Record t := {
  peer : PeerRec;
  infoHash_ : Buffer;      (* this.metadata.infoHash *)
  peerId : Buffer;
  socket : bool;           (* this.socket is not null *)
  connected : bool;
  handshakeCompleted : bool;
  messageBuffer : Buffer;
}.

(** What a call emits to the listeners of the session. *)
Inductive emitted :=
  | EvConnected
  | EvUnchoked
  | EvHave (pieceIndex : Z)
  | EvBitfield (payload : Buffer)
  | EvPiece (index begin : Z) (block : Buffer)
  | EvError
  | EvDisconnected.

(** What a call does besides changing the session: the buffers passed to
    [socket.write], in order, and the events emitted, in order. *)
Record effects := { written : list Buffer; events : list emitted }.

Definition no_effects : effects := {| written := []; events := [] |}.

Definition effects_app (a b : effects) : effects :=
  {| written := written a ++ written b; events := events a ++ events b |}.

Definition set_peer (s : t) (p : PeerRec) : t :=
  {| peer := p; infoHash_ := infoHash_ s; peerId := peerId s;
     socket := socket s; connected := connected s;
     handshakeCompleted := handshakeCompleted s;
     messageBuffer := messageBuffer s |}.

Definition set_messageBuffer (s : t) (b : Buffer) : t :=
  {| peer := peer s; infoHash_ := infoHash_ s; peerId := peerId s;
     socket := socket s; connected := connected s;
     handshakeCompleted := handshakeCompleted s;
     messageBuffer := b |}.

Definition set_choked (p : PeerRec) (b : bool) : PeerRec :=
  {| id := id p; choked := b; interested := interested p;
     choking := choking p; peerInterested := peerInterested p;
     bitfield := bitfield p |}.

Definition set_peerInterested (p : PeerRec) (b : bool) : PeerRec :=
  {| id := id p; choked := choked p; interested := interested p;
     choking := choking p; peerInterested := b; bitfield := bitfield p |}.

(** [BufferUtils.readUInt32BE(buffer, offset)] where four bytes are
    available. *)
Definition readUInt32BE (buffer : Buffer) (offset : Z) : Z :=
  fold_left (fun a b => 256 * a + Z_of_byte b) (slice buffer offset (offset + 4)) 0.

(** [BufferUtils.writeUInt32BE(value)]; node raises a [RangeError] outside
    the 32-bit range. *)
Definition writeUInt32BE (value : Z) : result Buffer :=
  if (0 <=? value) && (value <=? 4294967295)
  then Ok (Sha1.be_bytes 4 (Z.to_N value))
  else Throw OutOfRange.

(** [createMessage(messageType, payload)]; [messageType] is one of the
    constants above, [payload] may be absent. *)
Definition createMessage (messageType : Z) (payload : option Buffer)
  : result Buffer :=
  let payloadLength := match payload with Some p => blen p | None => 0 end in
  let messageLength := payloadLength + 1 in
  lengthBuffer ← writeUInt32BE messageLength;
  let typeBuffer := [byte_of_Z messageType] in
  match payload with
  | Some p => Ok (lengthBuffer ++ typeBuffer ++ p)
  | None => Ok (lengthBuffer ++ typeBuffer)
  end.

(** [sendData]: what reaches [socket.write]. *)
Definition sendData (s : t) (data : Buffer) : list Buffer :=
  if socket s && connected s then [data] else [].

Definition handshakeMessage (s : t) : Buffer :=
  [byte_of_Z (blen PROTOCOL_STRING)] ++ PROTOCOL_STRING
  ++ repeat x00 8 ++ infoHash_ s ++ peerId s.

Definition sendHandshake (s : t) : list Buffer :=
  sendData s (handshakeMessage s).

(** The callback of [socket.connect]. *)
Definition onConnect (s : t) : t * effects :=
  let s := {| peer := peer s; infoHash_ := infoHash_ s; peerId := peerId s;
              socket := true; connected := true;
              handshakeCompleted := handshakeCompleted s;
              messageBuffer := messageBuffer s |} in
  (s, {| written := sendHandshake s; events := [] |}).

(** The listener of the socket's [close] event. *)
Definition onClose (s : t) : t * effects :=
  ({| peer := peer s; infoHash_ := infoHash_ s; peerId := peerId s;
      socket := socket s; connected := false;
      handshakeCompleted := handshakeCompleted s;
      messageBuffer := messageBuffer s |},
   {| written := []; events := [EvDisconnected] |}).

Definition disconnect (s : t) : t :=
  if socket s then
    {| peer := peer s; infoHash_ := infoHash_ s; peerId := peerId s;
       socket := socket s; connected := false;
       handshakeCompleted := handshakeCompleted s;
       messageBuffer := messageBuffer s |}
  else s.

Definition sendInterested (s : t) : t * list Buffer :=
  let w := match createMessage INTERESTED None with
           | Ok message => sendData s message
           | _ => []
           end in
  (set_peer s {| id := id (peer s); choked := choked (peer s);
                 interested := true; choking := choking (peer s);
                 peerInterested := peerInterested (peer s);
                 bitfield := bitfield (peer s) |}, w).

Definition handlePieceMessage (payload : Buffer) : list emitted :=
  if blen payload <? 8 then []
  else
    let pieceIndex := readUInt32BE payload 0 in
    let begin := readUInt32BE payload 4 in
    let block := slice payload 8 (blen payload) in
    [EvPiece pieceIndex begin block].

(** [handleMessage]: it never writes to the socket. *)
Definition handleMessage (s : t) (messageType : Z) (payload : Buffer)
  : t * list emitted :=
  if messageType =? CHOKE then
    (set_peer s (set_choked (peer s) true), [])
  else if messageType =? UNCHOKE then
    (set_peer s (set_choked (peer s) false), [EvUnchoked])
  else if messageType =? INTERESTED then
    (set_peer s (set_peerInterested (peer s) true), [])
  else if messageType =? NOT_INTERESTED then
    (set_peer s (set_peerInterested (peer s) false), [])
  else if messageType =? HAVE then
    if blen payload =? 4 then (s, [EvHave (readUInt32BE payload 0)])
    else (s, [])
  else if messageType =? BITFIELD then
    (set_peer s {| id := id (peer s); choked := choked (peer s);
                   interested := interested (peer s);
                   choking := choking (peer s);
                   peerInterested := peerInterested (peer s);
                   bitfield := Some payload |},
     [EvBitfield payload])
  else if messageType =? PIECE then
    (s, handlePieceMessage payload)
  else (s, []).

(** The [while] loop of [processMessages]; every iteration that does not
    leave the loop removes at least four bytes from [messageBuffer]. *)
Fixpoint processMessagesLoop (fuel : nat) (s : t) : t * list emitted :=
  match fuel with
  | O => (s, [])
  | S fuel' =>
      if blen (messageBuffer s) <? 4 then (s, [])
      else
        let messageLength := readUInt32BE (messageBuffer s) 0 in
        if messageLength =? 0 then
          processMessagesLoop fuel'
            (set_messageBuffer s (slice (messageBuffer s) 4
                                        (blen (messageBuffer s))))
        else if blen (messageBuffer s) <? 4 + messageLength then (s, [])
        else
          let messageData := slice (messageBuffer s) 4 (4 + messageLength) in
          let s := set_messageBuffer s
                     (slice (messageBuffer s) (4 + messageLength)
                            (blen (messageBuffer s))) in
          let messageType :=
            match byteAt messageData 0 with
            | Some b => Z_of_byte b
            | None => 0
            end in
          let payload := slice messageData 1 (blen messageData) in
          let '(s, ev) := handleMessage s messageType payload in
          let '(s, ev') := processMessagesLoop fuel' s in
          (s, ev ++ ev')
  end.

Definition processMessages (s : t) : t * list emitted :=
  processMessagesLoop (S (length (messageBuffer s))) s.

(** [handleHandshake].  The protocol name is compared as text in the code;
    a buffer decodes to the ASCII name exactly when it holds its bytes. *)
Definition handleHandshake (s : t) : t * effects :=
  let handshake := slice (messageBuffer s) 0 HANDSHAKE_LENGTH in
  let s := set_messageBuffer s
             (slice (messageBuffer s) HANDSHAKE_LENGTH (blen (messageBuffer s))) in
  let protocolLength :=
    match byteAt handshake 0 with Some b => Z_of_byte b | None => 0 end in
  let protocol := slice handshake 1 (1 + protocolLength) in
  let infoHash := slice handshake 28 48 in
  let peerId := slice handshake 48 68 in
  if negb (buf_equals protocol PROTOCOL_STRING) then
    (s, {| written := []; events := [EvError] |})
  else if negb (buf_equals infoHash (infoHash_ s)) then
    (s, {| written := []; events := [EvError] |})
  else
    let s := {| peer := {| id := peerId; choked := choked (peer s);
                           interested := interested (peer s);
                           choking := choking (peer s);
                           peerInterested := peerInterested (peer s);
                           bitfield := bitfield (peer s) |};
                infoHash_ := infoHash_ s; peerId := Peer.peerId s;
                socket := socket s; connected := connected s;
                handshakeCompleted := true;
                messageBuffer := messageBuffer s |} in
    let '(s, w) := sendInterested s in
    (s, {| written := w; events := [EvConnected] |}).

(** [handleData], the listener of the socket's [data] event. *)
Definition handleData (s : t) (data : Buffer) : t * effects :=
  let s := set_messageBuffer s (messageBuffer s ++ data) in
  let '(s, e1) :=
    if negb (handshakeCompleted s)
       && (HANDSHAKE_LENGTH <=? blen (messageBuffer s))
    then handleHandshake s else (s, no_effects) in
  if handshakeCompleted s then
    let '(s, ev) := processMessages s in
    (s, effects_app e1 {| written := []; events := ev |})
  else (s, e1).

(** [requestBlock]: the [request] message, then [sendData]. *)
Definition requestBlock (s : t) (pieceIndex begin length : Z)
  : result (list Buffer) :=
  i ← writeUInt32BE pieceIndex;
  b ← writeUInt32BE begin;
  l ← writeUInt32BE length;
  message ← createMessage REQUEST (Some (i ++ b ++ l));
  Ok (sendData s message).

(** The [while] loop of [requestPiece]; a [RangeError] of [requestBlock]
    leaves the loop, keeping what was written before. *)
Fixpoint requestBlocks (fuel : nat) (s : t) (pieceIndex pieceLength offset : Z)
  : list Buffer :=
  match fuel with
  | O => []
  | S fuel' =>
      if offset <? pieceLength then
        let blockSize := Z.min BLOCK_SIZE (pieceLength - offset) in
        match requestBlock s pieceIndex offset blockSize with
        | Ok w => w ++ requestBlocks fuel' s pieceIndex pieceLength
                                     (offset + blockSize)
        | _ => []
        end
      else []
  end.

(** [requestPiece]: the session is unchanged; the result is what was
    written to the socket. *)
Definition requestPiece (s : t) (pieceIndex pieceLength : Z) : list Buffer :=
  if choked (peer s) then []
  else requestBlocks (Z.to_nat (ceil_div pieceLength BLOCK_SIZE)) s
                     pieceIndex pieceLength 0.

(** A buffer written to the socket is a [request] message when the byte
    after its length prefix is the id [6]. *)
Definition is_request (frame : Buffer) : bool :=
  bool_decide (byteAt frame 4 = Some (byte_of_Z REQUEST)).

(** The calls that drive a session: the socket's callbacks, one message of
    the loop of [processMessages], and the two public methods that the
    coordinator calls, possibly from a listener while [handleData] runs. *)
Inductive call :=
  | CConnect
  | CData (data : Buffer)
  | CMessage (messageType : Z) (payload : Buffer)
  | CRequestPiece (pieceIndex pieceLength : Z)
  | CDisconnect
  | CClose.

(** One call: the session after it and what it wrote to the socket. *)
Definition exec (s : t) (c : call) : t * list Buffer :=
  match c with
  | CConnect => let '(s', e) := onConnect s in (s', written e)
  | CData data => let '(s', e) := handleData s data in (s', written e)
  | CMessage ty payload => ((handleMessage s ty payload).1, [])
  | CRequestPiece i l => (s, requestPiece s i l)
  | CDisconnect => (disconnect s, [])
  | CClose => ((onClose s).1, [])
  end.

Inductive step : t -> list Buffer -> t -> Prop :=
  | step_call s c : step s (exec s c).2 (exec s c).1.

Inductive reachable (s0 : t) : t -> Prop :=
  | reach_init : reachable s0 s0
  | reach_step s w s' : reachable s0 s -> step s w s' -> reachable s0 s'.

(** [hasPiece]: bit [7 - i % 8] of byte [floor(i / 8)] of the peer's
    bitfield.  [%] is the remainder of the truncated division; a byte
    outside the buffer is [undefined], and [undefined & x] is [0]. *)
Definition hasPiece (s : t) (pieceIndex : Z) : bool :=
  match bitfield (peer s) with
  | None => false
  | Some bitfield =>
      let byteIndex := pieceIndex / 8 in
      let bitIndex := 7 - Z.rem pieceIndex 8 in
      if blen bitfield <=? byteIndex then false
      else
        match byteAt bitfield byteIndex with
        | Some byte =>
            negb (Z.land (Z_of_byte byte) (Z.shiftl 1 bitIndex) =? 0)
        | None => false
        end
  end.

Definition isConnected (s : t) : bool := connected s && handshakeCompleted s.

Definition isChoked (s : t) : bool := choked (peer s).

End Peer.

(** ** [BufferUtils] of [src/utils/buffer.ts] *)
Module BufferUtils.

(** [buffer.readUInt32BE(offset)]: node raises a [RangeError] unless the
    four bytes from [offset] lie inside the buffer. *)
Definition readUInt32BE (buffer : Buffer) (offset : Z) : result Z :=
  if (0 <=? offset) && (offset + 4 <=? blen buffer)
  then Ok (Peer.readUInt32BE buffer offset)
  else Throw OutOfRange.

Definition writeUInt32BE (value : Z) : result Buffer :=
  Peer.writeUInt32BE value.

Definition readUInt16BE (buffer : Buffer) (offset : Z) : result Z :=
  if (0 <=? offset) && (offset + 2 <=? blen buffer)
  then Ok (fold_left (fun a b => 256 * a + Z_of_byte b)
                     (slice buffer offset (offset + 2)) 0)
  else Throw OutOfRange.

Definition writeUInt16BE (value : Z) : result Buffer :=
  if (0 <=? value) && (value <=? 65535)
  then Ok (Sha1.be_bytes 2 (Z.to_N value))
  else Throw OutOfRange.

(** The body of the loop of [bitfieldToArray] for piece [i >= 0]. *)
Definition bitAt (bitfield : Buffer) (i : Z) : bool :=
  let byteIndex := i / 8 in
  let bitIndex := 7 - i mod 8 in
  if byteIndex <? blen bitfield then
    match byteAt bitfield byteIndex with
    | Some byte => negb (Z.land (Z_of_byte byte) (Z.shiftl 1 bitIndex) =? 0)
    | None => false
    end
  else false.

Definition bitfieldToArray (bitfield : Buffer) (totalPieces : Z) : list bool :=
  map (fun i => bitAt bitfield (Z.of_nat i)) (seq 0 (Z.to_nat totalPieces)).

(** [bitfield[byteIndex] |= 1 << bitIndex] for piece [i >= 0]; an index
    outside the buffer reads [undefined] and the store is ignored. *)
Definition setBit (bitfield : Buffer) (i : Z) : Buffer :=
  let byteIndex := i / 8 in
  let bitIndex := 7 - i mod 8 in
  match byteAt bitfield byteIndex with
  | Some byte =>
      <[Z.to_nat byteIndex :=
          byte_of_Z (Z.lor (Z_of_byte byte) (Z.shiftl 1 bitIndex))]> bitfield
  | None => bitfield
  end.

Definition arrayToBitfield (pieces : list bool) : Buffer :=
  let byteLength := ceil_div (Z.of_nat (length pieces)) 8 in
  fold_left (fun bitfield (ip : nat * bool) =>
               if ip.2 then setBit bitfield (Z.of_nat ip.1) else bitfield)
            (imap (fun i p => (i, p)) pieces)
            (repeat x00 (Z.to_nat byteLength)).

(** The address [`${b[i]}.${b[i + 1]}.${b[i + 2]}.${b[i + 3]}`]. *)
Definition dotted (a b c d : byte) : string :=
  string_of_list_byte
    (show_int (Z_of_byte a) ++ lit "." ++ show_int (Z_of_byte b) ++ lit "."
     ++ show_int (Z_of_byte c) ++ lit "." ++ show_int (Z_of_byte d)).

(** The loop of [parsePeersCompact]: [i] advances by 6; an entry is read
    when its six bytes lie inside the buffer. *)
Fixpoint parsePeersLoop (fuel : nat) (peersBuffer : Buffer) (i : Z)
  : list Tracker.PeerAddr :=
  match fuel with
  | O => []
  | S fuel' =>
      if i <? blen peersBuffer then
        (if i + 5 <? blen peersBuffer then
           match byteAt peersBuffer i, byteAt peersBuffer (i + 1),
                 byteAt peersBuffer (i + 2), byteAt peersBuffer (i + 3),
                 readUInt16BE peersBuffer (i + 4) with
           | Some a, Some b, Some c, Some d, Ok port =>
               [{| Tracker.ip := dotted a b c d; Tracker.port := port |}]
           | _, _, _, _, _ => []
           end
         else [])
        ++ parsePeersLoop fuel' peersBuffer (i + 6)
      else []
  end.

Definition parsePeersCompact (peersBuffer : Buffer) : list Tracker.PeerAddr :=
  parsePeersLoop (length peersBuffer) peersBuffer 0.

End BufferUtils.

(** ** The UDP messages of [TrackerClient], [src/network/tracker.ts] *)
Module TrackerUdp.

Definition UDP_MAGIC_CONSTANT : Buffer :=
  [x00; x00; x04; x17; x27; x10; x19; x80].
Definition UDP_ACTION_CONNECT : Z := 0.
Definition UDP_ACTION_ANNOUNCE : Z := 1.

(** The fields of the client that the announce request reads. *)
Record t := {
  peerId : Buffer;
  port : Z;
  uploaded : Z;
  downloaded : Z;
  left : Z;
}.

(** The constructor, given the peer id that [generatePeerId] drew. *)
Definition new (md : TorrentMetadata) (peerId : Buffer) (port : Z) : t :=
  {| peerId := peerId; port := port; uploaded := 0; downloaded := 0;
     left := totalLength md |}.

Definition updateStats (c : t) (uploaded downloaded left : Z) : t :=
  {| peerId := peerId c; port := port c; uploaded := uploaded;
     downloaded := downloaded; left := left |}.

(** [source.copy(target, targetStart)] for [targetStart >= 0]: as many
    bytes of [source] as fit in [target] from [targetStart]. *)
Definition copy (source target : Buffer) (targetStart : Z) : Buffer :=
  if blen target <=? targetStart then target
  else
    let n := Z.min (blen source) (blen target - targetStart) in
    take (Z.to_nat targetStart) target ++ take (Z.to_nat n) source
    ++ drop (Z.to_nat (targetStart + n)) target.

(** The in-place writes [buffer.writeUInt32BE(value, offset)],
    [buffer.writeUInt16BE] and [buffer.writeBigUInt64BE]: [bytes] is the
    encoding of the value; node raises a [RangeError] when it does not fit
    at [offset]. *)
Definition writeAt (target : Buffer) (offset : Z) (bytes : Buffer)
  : result Buffer :=
  if (0 <=? offset) && (offset + blen bytes <=? blen target) then
    Ok (take (Z.to_nat offset) target ++ bytes
        ++ drop (Z.to_nat (offset + blen bytes)) target)
  else Throw OutOfRange.

Definition putUInt32BE (target : Buffer) (value offset : Z) : result Buffer :=
  bytes ← BufferUtils.writeUInt32BE value; writeAt target offset bytes.

Definition putUInt16BE (target : Buffer) (value offset : Z) : result Buffer :=
  bytes ← BufferUtils.writeUInt16BE value; writeAt target offset bytes.

(** [buffer.writeBigUInt64BE(BigInt(value), offset)] for an integer
    [value]. *)
Definition putBigUInt64BE (target : Buffer) (value offset : Z)
  : result Buffer :=
  if (0 <=? value) && (value <=? 18446744073709551615)
  then writeAt target offset (Sha1.be_bytes 8 (Z.to_N value))
  else Throw OutOfRange.

(** [createUdpConnectRequest], given the transaction id that
    [Math.random] drew. *)
Definition createUdpConnectRequest (transactionId : Z) : result Buffer :=
  let buffer := repeat x00 16 in
  let offset := 0 in
  let buffer := copy UDP_MAGIC_CONSTANT buffer offset in
  let offset := offset + 8 in
  buffer ← putUInt32BE buffer UDP_ACTION_CONNECT offset;
  let offset := offset + 4 in
  putUInt32BE buffer transactionId offset.

(** What the two parsers throw. *)
Inductive udp_error :=
  | TooShort                         (* demasiado corta *)
  | WrongAction (action : Z)         (* Acción incorrecta *)
  | TrackerError (message : Buffer)  (* Error del tracker UDP *)
  | TransactionMismatch.             (* Transaction ID no coincide *)

(** [parseUdpConnectResponse]: the connection id. *)
Definition parseUdpConnectResponse (message : Buffer)
    (expectedTransactionId : Z) : udp_error + Buffer :=
  if blen message <? 16 then inl TooShort
  else
    let action := Peer.readUInt32BE message 0 in
    let transactionId := Peer.readUInt32BE message 4 in
    let connectionId := slice message 8 16 in
    if negb (action =? UDP_ACTION_CONNECT) then inl (WrongAction action)
    else if negb (transactionId =? expectedTransactionId)
    then inl TransactionMismatch
    else inr connectionId.

(** The code of an [event]; [None] is [undefined]. *)
Definition eventValue (event : option string) : Z :=
  match event with
  | Some e =>
      if bool_decide (e = "started"%string) then 2
      else if bool_decide (e = "completed"%string) then 1
      else if bool_decide (e = "stopped"%string) then 3
      else 0
  | None => 0
  end.

(** [createUdpAnnounceRequest], given the transaction id and the key that
    [Math.random] drew. *)
Definition createUdpAnnounceRequest (c : t) (connectionId : Buffer)
    (torrentMetadata : TorrentMetadata) (event : option string)
    (transactionId key : Z) : result Buffer :=
  let buffer := repeat x00 98 in
  let offset := 0 in
  let buffer := copy connectionId buffer offset in
  let offset := offset + 8 in
  buffer ← putUInt32BE buffer UDP_ACTION_ANNOUNCE offset;
  let offset := offset + 4 in
  buffer ← putUInt32BE buffer transactionId offset;
  let offset := offset + 4 in
  let buffer := copy (infoHash torrentMetadata) buffer offset in
  let offset := offset + 20 in
  let buffer := copy (peerId c) buffer offset in
  let offset := offset + 20 in
  buffer ← putBigUInt64BE buffer (downloaded c) offset;
  let offset := offset + 8 in
  buffer ← putBigUInt64BE buffer (left c) offset;
  let offset := offset + 8 in
  buffer ← putBigUInt64BE buffer (uploaded c) offset;
  let offset := offset + 8 in
  buffer ← putUInt32BE buffer (eventValue event) offset;
  let offset := offset + 4 in
  buffer ← putUInt32BE buffer 0 offset;
  let offset := offset + 4 in
  buffer ← putUInt32BE buffer key offset;
  let offset := offset + 4 in
  buffer ← putUInt32BE buffer 50 offset;
  let offset := offset + 4 in
  putUInt16BE buffer (port c) offset.

(** [parseUdpAnnounceResponse]: the peers of the compact list that follows
    the 20-byte header. *)
Definition parseUdpAnnounceResponse (message : Buffer)
    (expectedTransactionId : Z) : udp_error + list Tracker.PeerAddr :=
  if blen message <? 20 then inl TooShort
  else
    let action := Peer.readUInt32BE message 0 in
    let transactionId := Peer.readUInt32BE message 4 in
    if negb (action =? UDP_ACTION_ANNOUNCE) then
      if (action =? 3) && (8 <=? blen message)
      then inl (TrackerError (slice message 8 (blen message)))
      else inl (WrongAction action)
    else if negb (transactionId =? expectedTransactionId)
    then inl TransactionMismatch
    else
      let peersData := slice message 20 (blen message) in
      inr (BufferUtils.parsePeersCompact peersData).

End TrackerUdp.

(** * Vocabulary of the statements *)

(** The decimal digits of the magnitude of [n], as [show_int] prints them. *)
Definition magnitude_digits (n : Z) : list byte :=
  digits_of (S (N.to_nat (N.log2 (Z.to_N (Z.abs n))))) (Z.to_N (Z.abs n)).

(** ** Concrete inputs *)

(** A two-piece torrent of three bytes, [01 02 | 03], with piece length 2. *)
Definition md_two : TorrentMetadata :=
  {| infoHash := [];
     pieceHashes := [CryptoUtils.sha1 [x01; x02]; CryptoUtils.sha1 [x03]];
     totalLength := 3; pieceCount := 2; pieceLength := 2;
     fileName := "f"; announceList := [] |}.

(** Its piece manager after one call of [getNextPieceToDownload]: piece 0
    is requested. *)
Definition pm_requested0 : PieceManager.t :=
  (PieceManager.getNextPieceToDownload (PieceManager.new md_two)).2.

(** What the examples observe of a piece: [completed], [requested],
    [receivedBlocks] and the block map. *)
Definition observe (pm : PieceManager.t) (i : nat) :=
  (fun p => (PieceManager.completed p, PieceManager.requested p,
             PieceManager.receivedBlocks p,
             map_to_list (PieceManager.blocks p)))
  <$> PieceManager.pieces pm !! i.

(** ** Relations between the pieces before and after a call *)
Module PieceRel.
Import PieceManager.

(** How a call relates the piece stored at each index before and after:
    [R p p'] for the piece the call works on, equality elsewhere. *)
Definition pieces_rel (R : PieceInfo -> PieceInfo -> Prop) (idx : Z)
    (ps ps' : list PieceInfo) : Prop :=
  length ps' = length ps /\
  forall (i : nat) p', ps' !! i = Some p' ->
    exists p, ps !! i = Some p /\
      ((Z.of_nat i = idx /\ R p p') \/ p' = p).

(** What [addBlockToPiece] returning [r] may do to the piece it works on. *)
Definition add_rel (r : bool) (p p' : PieceInfo) : Prop :=
  completed p = false /\
  hash p' = hash p /\ size p' = size p /\
  (requested p' = true -> requested p = true) /\
  (completed p' = true ->
     r = true /\ requested p' = requested p /\
     CryptoUtils.verifyHash (data p') (hash p) = true) /\
  (requested p' <> requested p ->
     r = false /\ completed p' = false /\
     blocks p' = ∅ /\ receivedBlocks p' = 0).

Definition keeps_completed (p p' : PieceInfo) : Prop :=
  completed p = true -> completed p' = true.

(** The pieces below the cursor of the sequential download are completed. *)
Definition below_cursor_completed (pm : t) : Prop :=
  0 <= currentPieceIndex pm /\
  forall (j : nat) q,
    Z.of_nat j < currentPieceIndex pm -> pieces pm !! j = Some q ->
    completed q = true.

End PieceRel.

(** A three-piece torrent of nine bytes with piece length 4: the last piece
    has one byte. *)
Definition md_short : TorrentMetadata :=
  {| infoHash := [];
     pieceHashes := [CryptoUtils.sha1 [x01; x01; x01; x01];
                     CryptoUtils.sha1 [x02; x02; x02; x02];
                     CryptoUtils.sha1 [x03]];
     totalLength := 9; pieceCount := 3; pieceLength := 4;
     fileName := "f"; announceList := [] |}.

Definition fm_short : FileManager.t :=
  FileManager.initializeFile
    {| FileManager.metadata := md_short; FileManager.fileHandle := None;
       FileManager.bytesWritten := 0 |}.

(** A torrent with one HTTP tracker. *)
Definition md_http : TorrentMetadata :=
  {| infoHash := []; pieceHashes := []; totalLength := 0; pieceCount := 0;
     pieceLength := 0; fileName := "f";
     announceList := ["http://tracker/announce"%string] |}.

(** A session after the handshake, choked by the peer. *)
Definition session_choked : Peer.t :=
  {| Peer.peer := {| Peer.id := repeat x03 20; Peer.choked := true;
                     Peer.interested := true; Peer.choking := true;
                     Peer.peerInterested := false; Peer.bitfield := None |};
     Peer.infoHash_ := repeat x01 20; Peer.peerId := repeat x02 20;
     Peer.socket := true; Peer.connected := true;
     Peer.handshakeCompleted := true; Peer.messageBuffer := [] |}.

(** The same session after an [unchoke] message. *)
Definition session_unchoked : Peer.t :=
  (Peer.exec session_choked (Peer.CMessage Peer.UNCHOKE [])).1.

(** The message [request(index = 3, begin = 0, length = 16384)]. *)
Definition request_3_0 : Buffer :=
  [x00; x00; x00; x0d; x06; x00; x00; x00; x03;
   x00; x00; x00; x00; x00; x00; x40; x00].

(** The integer denoted by an optional minus sign and a run of digits. *)
Definition signed (neg : bool) (ds : list byte) : Z :=
  if neg then - digits_value ds else digits_value ds.

(** The number that [parseInt] returns for them: a minus sign before zeros
    gives negative zero. *)
Definition signed_number (neg : bool) (ds : list byte) : number :=
  if neg && (digits_value ds =? 0) then NegZero else Int (signed neg ds).

Definition sign_bytes (neg : bool) : Buffer :=
  if neg then ["-"%byte] else [].

(** The integer token [i<sign><digits>e]. *)
Definition int_token (neg : bool) (ds : list byte) : Buffer :=
  lit "i" ++ sign_bytes neg ++ ds ++ lit "e".

(** The sign that [parseInt] reads before the digits. *)
Inductive sign_mark := NoSign | PlusSign | MinusSign.

Definition mark_bytes (s : sign_mark) : Buffer :=
  match s with
  | NoSign => []
  | PlusSign => ["+"%byte]
  | MinusSign => ["-"%byte]
  end.

Definition is_minus (s : sign_mark) : bool :=
  match s with MinusSign => true | _ => false end.

(** What may follow the digits: nothing, or text that starts with another
    character than a digit.  Where there is neither sign nor digit, that
    character is not white space and not a sign either. *)
Definition after_digits (s : sign_mark) (ds junk : Buffer) : Prop :=
  match junk with
  | [] => True
  | c :: _ =>
      is_digit c = false /\
      (s = NoSign -> ds = [] ->
       is_space c = false /\ c <> "-"%byte /\ c <> "+"%byte)
  end.

(** The text between the [i] and the [e] of an integer, as [parseInt] reads
    it: white space, a sign, digits, and whatever follows them. *)
Definition int_text (ws : Buffer) (s : sign_mark) (ds junk : Buffer) : Buffer :=
  ws ++ mark_bytes s ++ ds ++ junk.

(** The shape of such a text. *)
Definition int_shape (ws : Buffer) (s : sign_mark) (ds junk : Buffer) : Prop :=
  Forall (fun b => is_space b = true) ws /\
  Forall (fun b => is_digit b = true) ds /\
  after_digits s ds junk.

(** ** Vocabulary of the bencode round trip *)
Module BencodeSpec.
Import Bencode.

(** A key that the decoder can store: ASCII text other than [__proto__]. *)
Definition good_key (k : string) : Prop :=
  forallb is_ascii (list_byte_of_string k) = true /\
  k <> "__proto__"%string /\
  blen (Buffer_from k) <= MAX_SAFE_INTEGER.

(** An integer that is a double, as every number of the code is. *)
Definition is_double (n : Z) : Prop := round_double (Z.abs n) = Z.abs n.

(** From [10^21] on, a number is printed with an exponent. *)
Definition EXPONENT_LIMIT : Z := 10 ^ 21.

(** The values of the round trip: buffers, integers below [10^21] in
    magnitude, arrays, and objects with distinct keys; never a JavaScript
    string, and never negative zero. *)
#[local] Unset Elimination Schemes.
Inductive producible : value -> Prop :=
  | prod_num n :
      is_double n -> Z.abs n < EXPONENT_LIMIT -> producible (VNum (Int n))
  | prod_buf b : blen b <= MAX_SAFE_INTEGER -> producible (VBuf b)
  | prod_list l : Forall producible l -> producible (VList l)
  | prod_dict d :
      NoDup (obj_keys d) ->
      Forall (fun kv => good_key kv.1 /\ producible kv.2) d ->
      producible (VDict d).


(** Structural equality: the same kind of value with equal content; two
    arrays are equal element by element, two objects when the properties of
    one are those of the other, in any order. *)
Inductive struct_eq : value -> value -> Prop :=
  | se_str s : struct_eq (VStr s) (VStr s)
  | se_num n : struct_eq (VNum n) (VNum n)
  | se_buf b : struct_eq (VBuf b) (VBuf b)
  | se_list l l' : Forall2 struct_eq l l' -> struct_eq (VList l) (VList l')
  | se_dict d d0 d' :
      d ≡ₚ d0 ->
      Forall2 (fun kv kv' => kv.1 = kv'.1 /\ struct_eq kv.2 kv'.2) d0 d' ->
      struct_eq (VDict d) (VDict d').
#[local] Set Elimination Schemes.

(** The properties of an object in the order of their keys. *)
Fixpoint insert_entry {A} (kv : string * A) (l : list (string * A))
  : list (string * A) :=
  match l with
  | [] => [kv]
  | kv' :: t =>
      if (kv.1 <=? kv'.1)%string then kv :: l else kv' :: insert_entry kv t
  end.

Definition sort_entries {A} (l : list (string * A)) : list (string * A) :=
  foldr insert_entry [] l.

(** The properties [l], defined one after the other on an empty object, as
    the object lists them: the array indices in ascending order, then the
    other keys in the order of [l]. *)
Definition listed {A} (l : list (string * A)) : list (string * A) :=
  fold_left obj_add l [].

(** [dict[k] = v] for a key other than [__proto__]. *)
Definition obj_put (d : BencodeDict) (kv : string * value) : BencodeDict :=
  if obj_has d kv.1 then obj_replace d kv.1 kv.2 else obj_add d kv.

(** The value that decoding an encoding yields: the properties of every
    object, defined in the order of the keys, as the object lists them. *)
Fixpoint canon (v : value) : value :=
  match v with
  | VList l => VList (map canon l)
  | VDict d =>
      VDict (listed (sort_entries (map (fun kv => (kv.1, canon kv.2)) d)))
  | _ => v
  end.

(** The bytes that [encodeDictionary] emits for one property. *)
Definition enc_entry (kv : string * value) : Buffer :=
  encodeString kv.1 ++ encode kv.2.

Definition canon_entry (kv : string * value) : string * value :=
  (kv.1, canon kv.2).

(** Decoding the encoding of [v], wherever it lies in a buffer, yields
    [canon v] and stops right after it. *)
Definition round_trips (v : value) : Prop :=
  forall fuel (pre rest : Buffer),
    (length (encode v) <= fuel)%nat ->
    parseValue fuel (pre ++ encode v ++ rest) (blen pre)
    = Ok (canon v, blen pre + blen (encode v)).

(** The order of two properties by their keys. *)
Definition key_le (a b : string * value) : Prop :=
  (a.1 <=? b.1)%string = true.



End BencodeSpec.


(** ** Vocabulary of the tracker statements *)
Module TrackerSpec.
Import Tracker.

(** The invariant of the [uniquePeers] map: distinct keys, each the key of
    its peer. *)
Definition unique_ok (m : list (string * PeerAddr)) : Prop :=
  NoDup (map fst m) /\ Forall (fun kp => kp.1 = peerKey kp.2) m.

(** What a tracker answers.  A URL that starts with [udp://] is asked over
    UDP, one that starts with [http://] or [https://] over HTTP, and the
    answer is the list of peers that the exchange resolves to.  A tracker
    whose exchange fails, and a URL of another protocol, answer nothing. *)
Inductive answers (contactUdpTracker contactHttpTracker :
                     string -> option (list PeerAddr))
    (trackerUrl : string) (peers : list PeerAddr) : Prop :=
  | answers_udp :
      String.prefix "udp://" trackerUrl = true ->
      contactUdpTracker trackerUrl = Some peers ->
      answers contactUdpTracker contactHttpTracker trackerUrl peers
  | answers_http :
      String.prefix "http://" trackerUrl || String.prefix "https://" trackerUrl
      = true ->
      contactHttpTracker trackerUrl = Some peers ->
      answers contactUdpTracker contactHttpTracker trackerUrl peers.

(** A tracker that answers, with no peer. *)
Definition http_empty (trackerUrl : string) : option (list PeerAddr) := Some [].

(** A tracker exchange that fails. *)
Definition udp_down (trackerUrl : string) : option (list PeerAddr) := None.

(** Two trackers that answer with overlapping peers. *)
Definition udp_two (trackerUrl : string) : option (list PeerAddr) :=
  Some [ {| ip := "10.0.0.1"; port := 6881 |};
         {| ip := "10.0.0.2"; port := 6881 |} ].

Definition http_one (trackerUrl : string) : option (list PeerAddr) :=
  Some [ {| ip := "10.0.0.2"; port := 6881 |};
         {| ip := "10.0.0.2"; port := 6882 |} ].

End TrackerSpec.

(** A torrent with a UDP and an HTTP tracker. *)
Definition md_both : TorrentMetadata :=
  {| infoHash := []; pieceHashes := []; totalLength := 0; pieceCount := 0;
     pieceLength := 0; fileName := "f";
     announceList := ["udp://a:80"%string; "http://b/announce"%string] |}.

(** ** Inputs of the info-hash statements *)

(** The bytes of an [info] dictionary in canonical form. *)
Definition info_raw : Buffer :=
  lit "d6:lengthi1e4:name1:a12:piece lengthi1e6:pieces20:aaaaaaaaaaaaaaaaaaaae".

(** What precedes it in the metainfo: the [announce] URL, a [comment] whose
    text is "4:info", and the key [info]. *)
Definition before_info : Buffer :=
  lit "d8:announce3:url7:comment6:4:info4:info".

(** No occurrence of the text "4:info" starts in [pre], when [pre] is
    followed by that text and [tail]. *)
Definition info_key_first (pre tail : Buffer) : Prop :=
  forall i, 0 <= i < blen pre ->
    slice (pre ++ lit "4:info" ++ tail) i (i + 6) <> lit "4:info".

(** A metainfo file in canonical form, keys sorted. *)
Definition torrent_comment : Buffer := before_info ++ info_raw ++ lit "e".

(** The same metainfo without the comment. *)
Definition torrent_plain : Buffer :=
  lit "d8:announce3:url4:info" ++ info_raw ++ lit "e".

(** ** Vocabulary of the wire formats *)

(** The number that a run of bytes denotes, most significant byte first. *)
Definition be_value (l : Buffer) : Z :=
  fold_left (fun a b => 256 * a + Z_of_byte b) l 0.

(** One entry of a compact peer list (BEP 23): four address bytes and the
    port in two bytes, most significant first; and the peer it denotes. *)
Definition compactEntry (e : byte * byte * byte * byte * Z) : Buffer :=
  let '(a, b, c, d, port) := e in
  [a; b; c; d] ++ Sha1.be_bytes 2 (Z.to_N port).

Definition compactPeer (e : byte * byte * byte * byte * Z) : Tracker.PeerAddr :=
  let '(a, b, c, d, port) := e in
  {| Tracker.ip := BufferUtils.dotted a b c d; Tracker.port := port |}.

(** The message [request(index, begin, length)]: the length prefix 13, the
    id 6 and three 32-bit numbers. *)
Definition requestFrame (pieceIndex begin length : Z) : Buffer :=
  Sha1.be_bytes 4 13 ++ [x06]
  ++ Sha1.be_bytes 4 (Z.to_N pieceIndex) ++ Sha1.be_bytes 4 (Z.to_N begin)
  ++ Sha1.be_bytes 4 (Z.to_N length).

(** The length of block [k] of a piece of [pieceLength] bytes cut into
    blocks of 16 KiB. *)
Definition blockLength (pieceLength : Z) (k : nat) : Z :=
  Z.min 16384 (pieceLength - 16384 * Z.of_nat k).

(** The requests for all the blocks of a piece, in order. *)
Definition blockRequests (pieceIndex pieceLength : Z) : list Buffer :=
  map (fun k => requestFrame pieceIndex (16384 * Z.of_nat k)
                             (blockLength pieceLength k))
      (seq 0 (Z.to_nat (ceil_div pieceLength 16384))).

(** A session that has just connected: no handshake received yet. *)
Definition session_fresh (infoHash peerId : Buffer) : Peer.t :=
  {| Peer.peer := {| Peer.id := []; Peer.choked := true;
                     Peer.interested := false; Peer.choking := true;
                     Peer.peerInterested := false; Peer.bitfield := None |};
     Peer.infoHash_ := infoHash; Peer.peerId := peerId;
     Peer.socket := true; Peer.connected := true;
     Peer.handshakeCompleted := false; Peer.messageBuffer := [] |}.

(** A sequence of calls on a session: the final session and everything
    written to the socket on the way. *)
Fixpoint run (s : Peer.t) (cs : list Peer.call) : Peer.t * list Buffer :=
  match cs with
  | [] => (s, [])
  | c :: cs' =>
      let '(s1, w1) := Peer.exec s c in
      let '(s2, w2) := run s1 cs' in
      (s2, w1 ++ w2)
  end.

(** The session [s] once the handshake of the peer [peerId] is accepted. *)
Definition after_handshake (s : Peer.t) (peerId : Buffer) : Peer.t :=
  {| Peer.peer := {| Peer.id := peerId;
                     Peer.choked := Peer.choked (Peer.peer s);
                     Peer.interested := true;
                     Peer.choking := Peer.choking (Peer.peer s);
                     Peer.peerInterested := Peer.peerInterested (Peer.peer s);
                     Peer.bitfield := Peer.bitfield (Peer.peer s) |};
     Peer.infoHash_ := Peer.infoHash_ s; Peer.peerId := Peer.peerId s;
     Peer.socket := Peer.socket s; Peer.connected := Peer.connected s;
     Peer.handshakeCompleted := true; Peer.messageBuffer := [] |}.

(** The message [interested]. *)
Definition interestedFrame : Buffer := [x00; x00; x00; x01; x02].

(** ** What the piece store keeps true *)
Module StoreSpec.
Import PieceManager.

(** The fields of a piece that no call changes once it is stored. *)
Definition core_eq (p p' : PieceInfo) : Prop :=
  index p' = index p /\ size p' = size p /\ hash p' = hash p /\
  totalBlocks p' = totalBlocks p /\ completed p' = completed p /\
  data p' = data p.

(** The piece stored at index [i]: it has the index, size, digest and block
    count given at construction; it is flagged completed exactly when [i] is
    in [completedPieces]; and then its data has the expected size and
    digest. *)
Definition piece_ok (md : TorrentMetadata) (completedPieces : gset Z)
    (i : nat) (p : PieceInfo) : Prop :=
  index p = Z.of_nat i /\
  size p = size (initialPiece md (Z.of_nat i)) /\
  hash p = hash (initialPiece md (Z.of_nat i)) /\
  totalBlocks p = totalBlocks (initialPiece md (Z.of_nat i)) /\
  (completed p = true <-> Z.of_nat i ∈ completedPieces) /\
  (completed p = true ->
     CryptoUtils.verifyHash (data p) (hash p) = true /\
     blen (data p) = size p).

Definition store_ok (md : TorrentMetadata) (pm : t) : Prop :=
  (forall (i : nat) p, pieces pm !! i = Some p ->
     piece_ok md (completedPieces pm) i p) /\
  (forall z, z ∈ completedPieces pm ->
     0 <= z < Z.of_nat (length (pieces pm))).

(** The indices [0 .. n - 1] as a set. *)
Definition indices (n : nat) : gset Z :=
  list_to_set (map Z.of_nat (seq 0 n)).

End StoreSpec.

(** The blocks [bs] of a piece, each with the offset at which it lies, the
    first at [off]. *)
Fixpoint withOffsets (off : Z) (bs : list Buffer) : list (Z * Buffer) :=
  match bs with
  | [] => []
  | b :: t => (off, b) :: withOffsets (off + blen b) t
  end.

(** Blocks delivered to piece [i] one call after the other: the answer of
    the last call and the final store. *)
Definition deliver (pm : PieceManager.t) (i : Z) (blocks : list (Z * Buffer))
  : bool * PieceManager.t :=
  fold_left (fun st ob => PieceManager.addBlockToPiece st.2 i ob.1 ob.2)
            blocks (false, pm).

(** The store of [md_two] after the only block of piece 0 has arrived. *)
Definition pm_completed0 : PieceManager.t :=
  PieceManager.exec pm_requested0 (PieceManager.CAddBlock 0 0 [x01; x02]).

(** A torrent of one piece of 16385 bytes, all [01]: two blocks. *)
Definition md_big : TorrentMetadata :=
  {| infoHash := [];
     pieceHashes := [CryptoUtils.sha1 (repeat x01 (Z.to_nat 16385))];
     totalLength := 16385; pieceCount := 1; pieceLength := 16385;
     fileName := "f"; announceList := [] |}.

Definition big_blocks : list Buffer := [repeat x01 (Z.to_nat 16384); [x01]].

(** The number of peers whose bitfield has piece [j]. *)
Definition availability (peerBitfields : list (list bool)) (j : nat) : Z :=
  Z.of_nat (length (filter (fun bitfield : list bool =>
                              bitfield !! j = Some true) peerBitfields)).

(** A count that replaces the running minimum [acc] of the search for the
    rarest piece. *)
Definition better (c : Z) (acc : Z * option Z) : Prop :=
  0 < c /\ forall m, acc.2 = Some m -> c < m.

(** The bookkeeping of the blocks of a piece: the counter is the number of
    offsets stored, and every stored block lies inside the piece. *)
Definition blocks_ok (p : PieceManager.PieceInfo) : Prop :=
  PieceManager.receivedBlocks p
  = Z.of_nat (base.size (PieceManager.blocks p)) /\
  forall o b, PieceManager.blocks p !! o = Some b ->
              o + blen b <= PieceManager.size p.

(** A three-piece torrent of nine bytes with piece length 3. *)
Definition md_nine : TorrentMetadata :=
  {| infoHash := [];
     pieceHashes := [CryptoUtils.sha1 [x01; x01; x01];
                     CryptoUtils.sha1 [x02; x02; x02];
                     CryptoUtils.sha1 [x03; x03; x03]];
     totalLength := 9; pieceCount := 3; pieceLength := 3;
     fileName := "f"; announceList := [] |}.

(** A decoded torrent with two pieces and two tiers of trackers that repeat
    the primary one. *)
Definition td_example : Torrent.TorrentFile :=
  {| Torrent.announce := "http://a/announce";
     Torrent.announce_list :=
       Some [["http://a/announce"; "udp://b:80"]%string;
             ["udp://b:80"; "http://c/announce"]%string];
     Torrent.info :=
       {| Torrent.name := "f"; Torrent.piece_length := 4;
          Torrent.pieces := repeat x01 20 ++ repeat x02 20;
          Torrent.length_ := Some 8; Torrent.files := None |} |}.

(** A torrent with a 20-byte info hash, and a tracker client for it. *)
Definition md_udp : TorrentMetadata :=
  {| infoHash := repeat x01 20; pieceHashes := []; totalLength := 3;
     pieceCount := 0; pieceLength := 2; fileName := "f";
     announceList := ["udp://tracker:80"%string] |}.

Definition client_udp : TrackerUdp.t :=
  TrackerUdp.new md_udp (repeat x02 20) 6881.

(** * The digest *)
Section Sha1Facts.

(** The two standard test vectors of SHA-1. *)
Example sha1_empty :
  Sha1.sha1 [] = [xda; x39; xa3; xee; x5e; x6b; x4b; x0d; x32; x55;
                  xbf; xef; x95; x60; x18; x90; xaf; xd8; x07; x09].
Proof. vm_compute. reflexivity. Qed.

Example sha1_abc :
  Sha1.sha1 (lit "abc") =
    [xa9; x99; x3e; x36; x47; x06; x81; x6a; xba; x3e;
     x25; x71; x78; x50; xc2; x6c; x9c; xd0; xd8; x9d].
Proof. vm_compute. reflexivity. Qed.

Lemma be_bytes_acc_length k x acc :
  length (Sha1.be_bytes_acc k x acc) = (k + length acc)%nat.
Proof.
  revert x acc. induction k as [|k IH]; intros x acc; simpl; [reflexivity|].
  rewrite IH. simpl. lia.
Qed.

Lemma be_bytes_length count x : length (Sha1.be_bytes count x) = count.
Proof. unfold Sha1.be_bytes. rewrite be_bytes_acc_length. simpl. lia. Qed.

(** A digest has 20 bytes. *)
Lemma sha1_length msg : length (Sha1.sha1 msg) = 20%nat.
Proof.
  unfold Sha1.sha1. rewrite !length_app, !be_bytes_length. reflexivity.
Qed.

End Sha1Facts.

(** * Buffers, digits and numbers *)

(** Boolean comparisons of the code as propositions. *)
Ltac zbool :=
  repeat match goal with
  | H : (_ <? _) = true |- _ => apply Z.ltb_lt in H
  | H : (_ <? _) = false |- _ => apply Z.ltb_ge in H
  | H : (_ <=? _) = true |- _ => apply Z.leb_le in H
  | H : (_ <=? _) = false |- _ => apply Z.leb_gt in H
  | H : (_ =? _) = true |- _ => apply Z.eqb_eq in H
  | H : (_ =? _) = false |- _ => apply Z.eqb_neq in H
  | H : (_ && _) = true |- _ => apply andb_true_iff in H as [? ?]
  | H : (_ || _) = false |- _ => apply orb_false_iff in H as [? ?]
  end.

Section BufferFacts.

Lemma blen_app (a b : Buffer) : blen (a ++ b) = blen a + blen b.
Proof. unfold blen. rewrite length_app. lia. Qed.

Lemma blen_nonneg (a : Buffer) : 0 <= blen a.
Proof. unfold blen. lia. Qed.

Lemma blen_cons (x : byte) (a : Buffer) : blen (x :: a) = 1 + blen a.
Proof. unfold blen. simpl length. lia. Qed.

Lemma byteAt_app (pre : Buffer) (b : byte) (rest : Buffer) :
  byteAt (pre ++ b :: rest) (blen pre) = Some b.
Proof.
  unfold byteAt. pose proof (blen_nonneg pre). pose proof (blen_nonneg rest).
  destruct (_ || _) eqn:E.
  { apply orb_true_iff in E as [E|E]; zbool;
      rewrite ?blen_app, ?blen_cons in E; lia. }
  unfold blen. rewrite Nat2Z.id. rewrite lookup_app_r by lia.
  replace (length pre - length pre)%nat with 0%nat by lia. reflexivity.
Qed.

Lemma byteAt_end (data : Buffer) (i : Z) : blen data <= i -> byteAt data i = None.
Proof.
  unfold byteAt. intros H. destruct (i <? 0); [done|]. simpl.
  destruct (blen data <=? i) eqn:E; [done|]. zbool. lia.
Qed.

Lemma rel_index_in (len i : Z) : 0 <= i <= len -> rel_index len i = i.
Proof. unfold rel_index. intros H. destruct (i <? 0) eqn:E; zbool; lia. Qed.

Lemma slice_app (pre mid rest : Buffer) :
  slice (pre ++ mid ++ rest) (blen pre) (blen pre + blen mid) = mid.
Proof.
  unfold slice. pose proof (blen_nonneg pre). pose proof (blen_nonneg mid).
  pose proof (blen_nonneg rest).
  rewrite !rel_index_in by (rewrite !blen_app; lia).
  unfold blen. rewrite Nat2Z.id, drop_app_length.
  replace (Z.to_nat _) with (length mid) by lia.
  apply take_app_length.
Qed.

Lemma slice_to_end (pre rest : Buffer) :
  slice (pre ++ rest) (blen pre) (blen (pre ++ rest)) = rest.
Proof.
  pose proof (slice_app pre rest []) as H. rewrite app_nil_r in H.
  rewrite blen_app. exact H.
Qed.

(** A slice is never longer than the distance between its bounds. *)
Lemma slice_length (data : Buffer) (s e : Z) :
  0 <= s -> 0 <= e -> blen (slice data s e) <= Z.max 0 (e - s).
Proof.
  intros Hs He. unfold slice, rel_index, blen. rewrite length_take.
  destruct (s <? 0) eqn:E1; zbool; [lia|].
  destruct (e <? 0) eqn:E2; zbool; lia.
Qed.

Lemma find_from_not_in (mid : Buffer) (c : byte) (rest : Buffer) (i : Z) :
  c ∉ mid -> find_from (mid ++ c :: rest) c i = i + blen mid.
Proof.
  revert i. induction mid as [|b mid IH]; intros i Hc; simpl.
  - rewrite bool_decide_eq_true_2 by done. unfold blen; simpl; lia.
  - rewrite bool_decide_eq_false_2.
    2:{ intros ->. apply Hc. left. }
    rewrite IH.
    2:{ intros H. apply Hc. right. exact H. }
    rewrite blen_cons. lia.
Qed.

Lemma indexOf_app (pre mid : Buffer) (c : byte) (rest : Buffer) :
  c ∉ mid ->
  indexOf (pre ++ mid ++ c :: rest) c (blen pre) = blen pre + blen mid.
Proof.
  intros Hc. unfold indexOf. pose proof (blen_nonneg pre).
  pose proof (blen_nonneg mid). pose proof (blen_nonneg rest).
  destruct (blen pre <? 0) eqn:E; zbool; [lia|].
  destruct (_ <=? blen pre) eqn:E2; zbool.
  { rewrite !blen_app, blen_cons in E2. lia. }
  unfold blen at 1. rewrite Nat2Z.id, drop_app_length.
  apply find_from_not_in. exact Hc.
Qed.

Lemma find_from_range (l : Buffer) (c : byte) (i : Z) :
  find_from l c i = -1 \/ i <= find_from l c i < i + blen l.
Proof.
  revert i. induction l as [|b l IH]; intros i; simpl; [auto|].
  rewrite blen_cons. pose proof (blen_nonneg l).
  destruct (bool_decide (b = c)); [lia|].
  destruct (IH (i + 1)); lia.
Qed.

(** [indexOf] from a position inside the buffer answers [-1] or an index
    between that position and the end. *)
Lemma indexOf_range (data : Buffer) (c : byte) (from : Z) :
  0 <= from ->
  indexOf data c from = -1 \/ from <= indexOf data c from < blen data.
Proof.
  intros H. unfold indexOf. destruct (from <? 0) eqn:E; zbool; [lia|].
  destruct (blen data <=? from) eqn:E2; zbool; [auto|].
  destruct (find_from_range (drop (Z.to_nat from) data) c from) as [H1|H1];
    [auto|].
  right. unfold blen in *. rewrite length_drop in H1. lia.
Qed.

(** ** Digits *)

Lemma byte_of_N_to_N (n : N) : (n < 256)%N -> Byte.to_N (byte_of_N n) = n.
Proof.
  intros H. unfold byte_of_N.
  destruct (Byte.of_N n) as [b|] eqn:E.
  - apply Byte.to_of_N. exact E.
  - exfalso. pose proof (Byte.of_N_None_iff n) as Hn.
    apply Hn in E. lia.
Qed.

Lemma Z_of_digit_byte (d : N) : (d < 10)%N -> Z_of_byte (digit_byte d) = 48 + Z.of_N d.
Proof.
  intros H. unfold Z_of_byte, digit_byte. rewrite byte_of_N_to_N by lia. lia.
Qed.

Lemma is_digit_spec (b : byte) : is_digit b = true <-> 48 <= Z_of_byte b <= 57.
Proof. unfold is_digit. apply bool_decide_eq_true. Qed.

Lemma digit_byte_is_digit (d : N) : (d < 10)%N -> is_digit (digit_byte d) = true.
Proof. intros H. apply is_digit_spec. rewrite Z_of_digit_byte by done. lia. Qed.

Lemma Z_of_byte_inj (a b : byte) : Z_of_byte a = Z_of_byte b -> a = b.
Proof.
  unfold Z_of_byte. intros H. apply N2Z.inj in H.
  pose proof (Byte.of_to_N a) as Ha. pose proof (Byte.of_to_N b) as Hb.
  congruence.
Qed.

Lemma is_digit_not (b c : byte) :
  is_digit b = true -> is_digit c = false -> b <> c.
Proof. congruence. Qed.

Lemma is_digit_ascii (b : byte) : is_digit b = true -> is_ascii b = true.
Proof.
  intros H%is_digit_spec. unfold is_ascii. apply bool_decide_eq_true.
  unfold Z_of_byte in H. lia.
Qed.

Lemma is_digit_not_space (b : byte) : is_digit b = true -> is_space b = false.
Proof.
  intros H%is_digit_spec. unfold is_space. apply bool_decide_eq_false. lia.
Qed.

Lemma take_while_all {A} (p : A -> bool) (l : list A) :
  Forall (fun x => p x = true) l -> take_while p l = l.
Proof. induction 1 as [|x l Hx _ IH]; simpl; [done|]. by rewrite Hx, IH. Qed.

Lemma digits_value_app (a : list byte) (d : byte) :
  digits_value (a ++ [d]) = 10 * digits_value a + (Z_of_byte d - 48).
Proof. unfold digits_value. rewrite fold_left_app. reflexivity. Qed.

Lemma digits_of_spec (fuel : nat) (n : N) :
  (0 < fuel)%nat -> (n < 2 ^ N.of_nat fuel)%N ->
  digits_of fuel n <> [] /\
  Forall (fun b => is_digit b = true) (digits_of fuel n) /\
  digits_value (digits_of fuel n) = Z.of_N n.
Proof.
  revert n. induction fuel as [|fuel IH]; intros n Hf Hn; [lia|].
  simpl. destruct (n <? 10)%N eqn:E.
  - apply N.ltb_lt in E. split; [done|]. split.
    + constructor; [|constructor]. by apply digit_byte_is_digit.
    + unfold digits_value; simpl. rewrite Z_of_digit_byte by done. lia.
  - apply N.ltb_ge in E.
    assert (Hdiv : (n / 10 < 2 ^ N.of_nat fuel)%N).
    { apply N.Div0.div_lt_upper_bound.
      rewrite Nat2N.inj_succ, N.pow_succ_r' in Hn. lia. }
    assert (Hf' : (0 < fuel)%nat).
    { destruct fuel; [|lia]. simpl in Hdiv.
      assert (1 <= n / 10)%N by (apply N.div_le_lower_bound; lia). lia. }
    destruct (IH _ Hf' Hdiv) as (Hne & Hall & Hval). split.
    { intros H. apply app_eq_nil in H as [_ H]. discriminate. }
    assert (Hm : (n mod 10 < 10)%N) by (apply N.mod_lt; lia).
    split.
    + apply Forall_app. split; [done|].
      constructor; [|constructor]. by apply digit_byte_is_digit.
    + rewrite digits_value_app, Hval, Z_of_digit_byte by done.
      pose proof (N.div_mod n 10 ltac:(lia)). lia.
Qed.

Lemma log2_fuel (m : N) : (m < 2 ^ N.of_nat (S (N.to_nat (N.log2 m))))%N.
Proof.
  rewrite Nat2N.inj_succ, N2Nat.id.
  destruct (N.eq_dec m 0%N) as [->|Hm]; [simpl; lia|].
  apply N.log2_spec. lia.
Qed.

Lemma magnitude_digits_spec (n : Z) :
  magnitude_digits n <> [] /\
  Forall (fun b => is_digit b = true) (magnitude_digits n) /\
  digits_value (magnitude_digits n) = Z.abs n.
Proof.
  destruct (digits_of_spec _ _ (Nat.lt_0_succ _)
              (log2_fuel (Z.to_N (Z.abs n)))) as (H1 & H2 & H3).
  unfold magnitude_digits. repeat split; try done. rewrite H3. lia.
Qed.

Lemma show_int_unfold (n : Z) :
  show_int n = if n <? 0 then "-"%byte :: magnitude_digits n
               else magnitude_digits n.
Proof. reflexivity. Qed.

Lemma show_int_nonneg (n : Z) : 0 <= n -> show_int n = magnitude_digits n.
Proof.
  intros H. rewrite show_int_unfold. destruct (n <? 0) eqn:E; zbool; [lia|done].
Qed.

Lemma show_int_token (n : Z) :
  show_int n = sign_bytes (n <? 0) ++ magnitude_digits n.
Proof. rewrite show_int_unfold. destruct (n <? 0); reflexivity. Qed.

End BufferFacts.

(** * Doubles of integral value *)
Section Doubles.
Import Bencode BencodeSpec.

Lemma round_double_small (q : Z) : 0 <= q < 2 ^ 53 -> round_double q = q.
Proof.
  intros [H0 H]. unfold round_double.
  destruct (Z.log2 q - 52 <=? 0) eqn:E; [reflexivity|]. zbool.
  destruct (Z.eq_dec q 0) as [->|Hq]; [simpl in E; lia|].
  assert (Z.log2 q < 53) by (apply Z.log2_lt_pow2; lia). lia.
Qed.






Lemma safe_below_limit : MAX_SAFE_INTEGER < DOUBLE_LIMIT.
Proof. vm_compute. reflexivity. Qed.

Lemma exponent_below_limit : EXPONENT_LIMIT < DOUBLE_LIMIT.
Proof. vm_compute. reflexivity. Qed.

Lemma sgn_abs (n : Z) : Z.sgn n * Z.abs n = n.
Proof. destruct n; simpl; lia. Qed.

(** [to_double] leaves a double as it is. *)
Lemma to_double_double (n : Z) :
  is_double n -> Z.abs n < DOUBLE_LIMIT -> to_double (Int n) = Ok (Int n).
Proof.
  unfold is_double, to_double. intros Hd Hl.
  destruct (Z.abs n <? DOUBLE_LIMIT) eqn:E; zbool; [|lia].
  rewrite Hd, sgn_abs. reflexivity.
Qed.

Lemma is_double_safe (n : Z) : Z.abs n <= MAX_SAFE_INTEGER -> is_double n.
Proof.
  intros H. unfold is_double. apply round_double_small.
  unfold MAX_SAFE_INTEGER in H. split; [lia|].
  change (2 ^ 53) with 9007199254740992. lia.
Qed.

Lemma to_double_safe (x : number) :
  Z.abs (number_Z x) <= MAX_SAFE_INTEGER -> to_double x = Ok x.
Proof.
  destruct x as [n|]; [|reflexivity]. simpl. intros H.
  apply to_double_double; [by apply is_double_safe|].
  pose proof safe_below_limit. lia.
Qed.


(** ** The shortest decimal *)

Lemma shortest_at_ok (j : nat) (x : Z) :
  round_double x = x -> round_double (shortest_at j x) = x.
Proof.
  intros Hx. induction j as [|j IH]; [exact Hx|].
  cbn [shortest_at].
  set (unit := 10 ^ Z.of_nat (S j)).
  set (lo := x / unit * unit).
  destruct (round_double lo =? x) eqn:Elo;
    destruct (round_double (lo + unit) =? x) eqn:Ehi;
    destruct (unit <=? x); cbn [andb orb]; try exact IH; zbool.
  - destruct (x - lo <? lo + unit - x); [done|].
    destruct (lo + unit - x <? x - lo); [done|].
    destruct (Z.even (x / unit)); done.
  - done.
  - done.
Qed.

Lemma round_double_exponent_limit : round_double (10 ^ 21) = 10 ^ 21.
Proof. vm_compute. reflexivity. Qed.

Lemma shortest_at_bound (j : nat) (x : Z) :
  0 < x < 10 ^ 21 -> 0 < shortest_at j x < 10 ^ 21.
Proof.
  intros Hx. induction j as [|j IH]; [exact Hx|].
  cbn [shortest_at].
  set (unit := 10 ^ Z.of_nat (S j)).
  set (lo := x / unit * unit).
  destruct (unit <=? x) eqn:Eu; cbn [andb]; [|exact IH]. zbool.
  assert (Hu : 0 < unit) by (apply Z.pow_pos_nonneg; lia).
  assert (Hj : Z.of_nat (S j) < 21).
  { apply (Z.pow_lt_mono_r_iff 10); lia. }
  assert (Hsplit : 10 ^ 21 = 10 ^ (21 - Z.of_nat (S j)) * unit).
  { unfold unit. rewrite <- Z.pow_add_r by lia. f_equal. lia. }
  assert (Hq : 1 <= x / unit < 10 ^ (21 - Z.of_nat (S j))).
  { split.
    - apply Z.div_le_lower_bound; lia.
    - apply Z.div_lt_upper_bound; [lia|]. rewrite Z.mul_comm, <- Hsplit. lia. }
  assert (Hlo : 0 < lo <= x).
  { unfold lo. split; [nia|]. rewrite Z.mul_comm. apply Z.mul_div_le. lia. }
  assert (Hhi : lo + unit <= 10 ^ 21).
  { unfold lo. rewrite Hsplit. nia. }
  destruct (round_double lo =? x) eqn:Elo;
    destruct (round_double (lo + unit) =? x) eqn:Ehi; cbn [andb orb];
    try exact IH; zbool.
  - assert (Hne : lo + unit <> 10 ^ 21).
    { intros Heq. rewrite Heq, round_double_exponent_limit in Ehi. lia. }
    destruct (x - lo <? lo + unit - x); [lia|].
    destruct (lo + unit - x <? x - lo); [lia|].
    destruct (Z.even (x / unit)); lia.
  - lia.
  - assert (Hne : lo + unit <> 10 ^ 21).
    { intros Heq. rewrite Heq, round_double_exponent_limit in Ehi. lia. }
    lia.
Qed.

(** Within the safe range a number prints as its decimal digits. *)
Lemma show_number_safe (n : Z) :
  Z.abs n <= MAX_SAFE_INTEGER -> show_number (Int n) = show_int n.
Proof.
  intros H. unfold show_number. simpl number_Z.
  destruct (Z.abs n <=? MAX_SAFE_INTEGER) eqn:E; zbool; [done|lia].
Qed.

(** Below [10^21] a number prints as a sign and the digits of a decimal
    that rounds to it. *)
Lemma show_number_decimal (n : Z) :
  is_double n -> Z.abs n < EXPONENT_LIMIT ->
  exists c,
    show_number (Int n) = sign_bytes (n <? 0) ++ magnitude_digits c /\
    0 <= c < EXPONENT_LIMIT /\ round_double c = Z.abs n /\
    (c = 0 -> n = 0).
Proof.
  intros Hd Hl. unfold show_number. simpl number_Z.
  destruct (Z.abs n <=? MAX_SAFE_INTEGER) eqn:E; zbool.
  - exists (Z.abs n). rewrite show_int_token.
    unfold magnitude_digits. rewrite (Z.abs_eq (Z.abs n)) by lia.
    split; [reflexivity|]. split; [lia|]. split; [exact Hd|]. lia.
  - unfold MAX_SAFE_INTEGER in E.
    assert (Hs : forall x, 0 < x -> x < EXPONENT_LIMIT -> round_double x = x ->
              show_double x = magnitude_digits (shortest x) /\
              0 <= shortest x < EXPONENT_LIMIT /\
              round_double (shortest x) = x /\ shortest x <> 0).
    { intros x Hx0 Hx1 Hx. unfold show_double, shortest.
      pose proof (shortest_at_bound (length (show_int x)) x
                    ltac:(unfold EXPONENT_LIMIT in *; lia)) as Hb.
      pose proof (shortest_at_ok (length (show_int x)) x Hx) as Ho.
      set (c := shortest_at _ x) in *.
      destruct (c <? 10 ^ 21) eqn:Ec; zbool; [|lia].
      rewrite show_int_nonneg by lia.
      unfold EXPONENT_LIMIT. repeat split; lia. }
    unfold is_double in Hd.
    destruct (n <? 0) eqn:En; zbool.
    + destruct (Hs (- n)) as (H1 & H2 & H3 & H4); [lia|lia| |].
      { rewrite <- (Z.abs_neq n) by lia. exact Hd. }
      exists (shortest (- n)). rewrite H1. split; [reflexivity|].
      split; [exact H2|]. split; [|lia]. rewrite H3. lia.
    + destruct (Hs n) as (H1 & H2 & H3 & H4); [lia|lia| |].
      { rewrite <- (Z.abs_eq n) at 1 by lia. rewrite Hd. lia. }
      exists (shortest n). rewrite H1. split; [reflexivity|].
      split; [exact H2|]. split; [|lia]. rewrite H3. lia.
Qed.

End Doubles.

(** * The piece store *)
Section PieceManagerFacts.
Import PieceManager PieceRel.

Lemma array_get_Some {A} (l : list A) (i : Z) (x : A) :
  array_get l i = Some x <-> 0 <= i /\ l !! Z.to_nat i = Some x.
Proof.
  unfold array_get. split.
  - destruct (i <? 0) eqn:E1; simpl; [discriminate|].
    destruct (Z.of_nat (length l) <=? i); [discriminate|].
    intros H. split; [lia|exact H].
  - intros [Hi Hl]. pose proof (lookup_lt_Some _ _ _ Hl) as Hlt.
    destruct (i <? 0) eqn:E1; [lia|]. simpl.
    destruct (Z.of_nat (length l) <=? i) eqn:E2; [lia|]. exact Hl.
Qed.

Lemma array_get_None {A} (l : list A) (i : Z) :
  ~ (0 <= i < Z.of_nat (length l)) -> array_get l i = None.
Proof.
  intros H. unfold array_get.
  destruct (i <? 0) eqn:E1; [reflexivity|]. simpl.
  destruct (Z.of_nat (length l) <=? i) eqn:E2; [reflexivity|]. lia.
Qed.

Lemma array_get_nat {A} (l : list A) (j : nat) :
  array_get l (Z.of_nat j) = l !! j.
Proof.
  destruct (l !! j) as [x|] eqn:E.
  - apply array_get_Some. rewrite Nat2Z.id. split; [lia|done].
  - apply array_get_None. apply lookup_ge_None in E. lia.
Qed.


Lemma pieces_rel_refl R idx ps : pieces_rel R idx ps ps.
Proof. split; [done|]. intros i p' H. exists p'. auto. Qed.

Lemma pieces_rel_update R pm idx p p' :
  array_get (pieces pm) idx = Some p -> R p p' ->
  pieces_rel R idx (pieces pm) (pieces (update_piece pm idx p')).
Proof.
  intros Hget HR. apply array_get_Some in Hget as [Hi Hl].
  unfold update_piece, set_pieces; simpl. split.
  - apply length_insert.
  - intros i q Hq. destruct (decide (i = Z.to_nat idx)) as [->|Hne].
    + rewrite list_lookup_insert_eq in Hq by (eapply lookup_lt_Some; eauto).
      inversion Hq; subst. exists p. split; [done|]. left. split; [lia|done].
    + rewrite list_lookup_insert_ne in Hq by congruence.
      exists q. auto.
Qed.

Lemma pieces_rel_trans (R1 R2 R : PieceInfo -> PieceInfo -> Prop) idx ps1 ps2 ps3 :
  (forall a b, R1 a b -> R a b) ->
  (forall a b, R2 a b -> R a b) ->
  (forall a b c, R1 a b -> R2 b c -> R a c) ->
  pieces_rel R1 idx ps1 ps2 -> pieces_rel R2 idx ps2 ps3 ->
  pieces_rel R idx ps1 ps3.
Proof.
  intros H1 H2 H12 [L1 P1] [L2 P2]. split; [congruence|].
  intros i p3 Hp3. destruct (P2 i p3 Hp3) as (p2 & Hp2 & C2).
  destruct (P1 i p2 Hp2) as (p1 & Hp1 & C1). exists p1. split; [done|].
  destruct C1 as [[Hi C1]| ->], C2 as [[Hi' C2]| ->]; eauto.
Qed.



Lemma pieces_rel_insert2 R pm idx p q p' :
  array_get (pieces pm) idx = Some p -> R p p' ->
  pieces_rel R idx (pieces pm)
    (<[Z.to_nat idx := p']> (<[Z.to_nat idx := q]> (pieces pm))).
Proof.
  intros Hget HR. rewrite list_insert_insert_eq.
  apply (pieces_rel_update R pm idx p p' Hget HR).
Qed.

Lemma addBlock_rel pm idx off blk r pm' :
  addBlockToPiece pm idx off blk = (r, pm') ->
  pieces_rel (add_rel r) idx (pieces pm) (pieces pm').
Proof.
  unfold addBlockToPiece.
  destruct (array_get (pieces pm) idx) as [piece|] eqn:Hget.
  2:{ intros [= <- <-]. apply pieces_rel_refl. }
  destruct (completed piece) eqn:Hc.
  { intros [= <- <-]. apply pieces_rel_refl. }
  destruct (size piece <? off + blen blk).
  { intros [= <- <-]. apply pieces_rel_refl. }
  set (piece1 := match blocks piece !! off with
                 | Some _ => piece
                 | None => _ end).
  assert (H1 : completed piece1 = false /\ requested piece1 = requested piece
               /\ hash piece1 = hash piece /\ size piece1 = size piece).
  { subst piece1. destruct (blocks piece !! off); simpl; auto. }
  destruct H1 as (Hc1 & Hr1 & Hh1 & Hs1).
  destruct (totalBlocks piece1 <=? receivedBlocks piece1).
  2:{ intros [= <- <-].
      apply (pieces_rel_update _ pm idx piece piece1 Hget).
      unfold add_rel. rewrite Hc1, Hr1. repeat split; try done; congruence. }
  unfold assemblePiece.
  destruct (assembleBlocks _ _ _ _) as [assembled|].
  2:{ intros [= <- <-].
      apply (pieces_rel_update _ pm idx piece piece1 Hget).
      unfold add_rel. rewrite Hc1, Hr1. repeat split; try done; congruence. }
  destruct (negb (blen assembled =? size piece1)).
  { intros [= <- <-].
    apply (pieces_rel_update _ pm idx piece piece1 Hget).
    unfold add_rel. rewrite Hc1, Hr1. repeat split; try done; congruence. }
  destruct (CryptoUtils.verifyHash assembled (hash piece1)) eqn:Hv; simpl.
  - intros [= <- <-]. simpl.
    apply (pieces_rel_insert2 _ pm idx piece _ _ Hget).
    unfold add_rel; simpl. rewrite Hr1, Hh1 in *. repeat split; try done.
  - intros [= <- <-]. simpl.
    apply (pieces_rel_insert2 _ pm idx piece _ _ Hget).
    unfold add_rel; simpl. rewrite Hc1, Hh1 in *. repeat split; try done.
Qed.



(** C10. A piece index outside [0, pieces.length) makes every operation of
    the store return its neutral answer and leave the store as it is. *)
Theorem out_of_range_index_is_harmless pm pieceIndex offset blockData :
  ~ (0 <= pieceIndex < Z.of_nat (length (pieces pm))) ->
  addBlockToPiece pm pieceIndex offset blockData = (false, pm) /\
  getPieceInfo pm pieceIndex = None /\
  getPieceData pm pieceIndex = None /\
  resetPieceRequest pm pieceIndex = pm.
Proof.
  intros H. apply array_get_None in H.
  unfold addBlockToPiece, getPieceInfo, getPieceData, resetPieceRequest.
  rewrite H. auto.
Qed.

(** Index 2 of the two-piece store. *)
Lemma out_of_range_index_witness :
  ~ (0 <= 2 < Z.of_nat (length (pieces pm_requested0))) /\
  addBlockToPiece pm_requested0 2 0 [x03] = (false, pm_requested0) /\
  getPieceInfo pm_requested0 2 = None /\
  getPieceData pm_requested0 2 = None /\
  resetPieceRequest pm_requested0 2 = pm_requested0.
Proof.
  assert (H : ~ (0 <= 2 < Z.of_nat (length (pieces pm_requested0)))).
  { vm_compute. intros [_ H]. discriminate H. }
  split; [exact H|].
  exact (out_of_range_index_is_harmless pm_requested0 2 0 [x03] H).
Defined.



Lemma getNext_rel pm :
  pieces_rel keeps_completed (currentPieceIndex pm) (pieces pm)
             (pieces (getNextPieceToDownload pm).2) /\
  currentPieceIndex (getNextPieceToDownload pm).2 = currentPieceIndex pm.
Proof.
  unfold getNextPieceToDownload.
  destruct (array_get _ _) as [p|] eqn:E; simpl;
    [|split; [apply pieces_rel_refl|done]].
  destruct (negb (completed p) && negb (requested p)); simpl;
    [|split; [apply pieces_rel_refl|done]].
  split; [|done]. eapply pieces_rel_update; eauto. unfold keeps_completed; auto.
Qed.

Lemma getRarest_rel pm bf :
  exists idx, pieces_rel keeps_completed idx (pieces pm)
                         (pieces (getRarestPiece pm bf).2) /\
  currentPieceIndex (getRarestPiece pm bf).2 = currentPieceIndex pm.
Proof.
  unfold getRarestPiece.
  destruct (negb (rarestIndex _ =? -1)).
  - exists (rarestIndex (pieceCounts pm bf)).
    destruct (array_get _ _) as [p|] eqn:E; simpl;
      [|split; [apply pieces_rel_refl|done]].
    split; [|done]. eapply pieces_rel_update; eauto. unfold keeps_completed; auto.
  - exists (currentPieceIndex pm). apply getNext_rel.
Qed.

Lemma reset_rel pm idx :
  pieces_rel keeps_completed idx (pieces pm) (pieces (resetPieceRequest pm idx)) /\
  currentPieceIndex (resetPieceRequest pm idx) = currentPieceIndex pm.
Proof.
  unfold resetPieceRequest.
  destruct (array_get _ _) as [p|] eqn:E; simpl;
    [|split; [apply pieces_rel_refl|done]].
  destruct (negb (completed p)); simpl;
    [|split; [apply pieces_rel_refl|done]].
  split; [|done]. eapply pieces_rel_update; eauto. unfold keeps_completed; auto.
Qed.

(** The cursor moves only past a piece that has just been completed. *)
Lemma addBlock_cursor pm idx off blk r pm' :
  addBlockToPiece pm idx off blk = (r, pm') ->
  currentPieceIndex pm' = currentPieceIndex pm \/
  (currentPieceIndex pm' = currentPieceIndex pm + 1 /\
   exists q, pieces pm' !! Z.to_nat (currentPieceIndex pm) = Some q /\
             completed q = true).
Proof.
  unfold addBlockToPiece.
  destruct (array_get (pieces pm) idx) as [piece|] eqn:Hget;
    [|intros [= <- <-]; auto].
  destruct (completed piece); [intros [= <- <-]; auto|].
  destruct (size piece <? off + blen blk); [intros [= <- <-]; auto|].
  match goal with |- context [update_piece pm idx ?q] => generalize q end.
  intros piece1.
  destruct (totalBlocks piece1 <=? receivedBlocks piece1);
    [|intros [= <- <-]; auto].
  unfold assemblePiece.
  destruct (assembleBlocks _ _ _ _) as [assembled|];
    [|intros [= <- <-]; auto].
  destruct (negb (blen assembled =? size piece1)); [intros [= <- <-]; auto|].
  destruct (negb (CryptoUtils.verifyHash assembled (hash piece1)));
    [intros [= <- <-]; auto|].
  intros [= <- <-]. simpl.
  destruct (idx =? currentPieceIndex pm) eqn:Ei; [|auto].
  right. split; [done|]. apply Z.eqb_eq in Ei. subst idx.
  apply array_get_Some in Hget as [_ Hl].
  eexists. split.
  - rewrite list_lookup_insert_eq; [reflexivity|].
    rewrite length_insert. eapply lookup_lt_Some; eauto.
  - reflexivity.
Qed.

Lemma below_cursor_step pm pm' idx :
  pieces_rel keeps_completed idx (pieces pm) (pieces pm') ->
  currentPieceIndex pm' = currentPieceIndex pm \/
  (currentPieceIndex pm' = currentPieceIndex pm + 1 /\
   exists q, pieces pm' !! Z.to_nat (currentPieceIndex pm) = Some q /\
             completed q = true) ->
  below_cursor_completed pm -> below_cursor_completed pm'.
Proof.
  intros [HL HP] Hcur [H0 Hinv]. split; [lia|].
  intros j q' Hj Hq'.
  destruct (HP j q' Hq') as (q & Hq & C).
  assert (Hstay : Z.of_nat j < currentPieceIndex pm -> completed q' = true).
  { intros Hlt. specialize (Hinv j q Hlt Hq).
    destruct C as [[_ C]| ->]; auto. }
  destruct Hcur as [Hc|[Hc (q0 & Hq0 & Hdone)]]; [apply Hstay; lia|].
  destruct (decide (Z.of_nat j < currentPieceIndex pm)); [auto|].
  assert (j = Z.to_nat (currentPieceIndex pm)) by lia. subst j. congruence.
Qed.

Lemma reachable_below_cursor md pm :
  reachable md pm -> below_cursor_completed pm.
Proof.
  induction 1 as [|pm c Hr IH].
  - split; simpl; [lia|]. intros j q Hj. lia.
  - destruct c as [|bf|i o b|i]; simpl.
    + destruct (getNext_rel pm) as [HR Hc].
      eapply below_cursor_step; eauto.
    + destruct (getRarest_rel pm bf) as (idx & HR & Hc).
      eapply below_cursor_step; eauto.
    + destruct (addBlockToPiece pm i o b) as [r pm'] eqn:E. simpl.
      eapply below_cursor_step; [| eapply addBlock_cursor; eauto | exact IH].
      destruct (addBlock_rel _ _ _ _ _ _ E) as [HL HP]. split; [exact HL|].
      intros j p' Hp'. destruct (HP j p' Hp') as (p & Hp & C).
      exists p. split; [done|]. destruct C as [[Hi C]| ->]; [|auto].
      left. split; [done|]. destruct C as [Hc _]. unfold keeps_completed.
      congruence.
    + destruct (reset_rel pm i) as [HR Hc].
      eapply below_cursor_step; eauto.
Qed.

(** The store always holds [pieceCount] pieces. *)
Lemma reachable_piece_count md pm :
  reachable md pm ->
  Z.of_nat (length (pieces pm)) = Z.max 0 (pieceCount md).
Proof.
  induction 1 as [|pm c Hr IH].
  - simpl. unfold initializePieces. rewrite length_map, length_seq. lia.
  - rewrite <- IH. f_equal. destruct c as [|bf|i o b|i]; simpl.
    + apply (proj1 (getNext_rel pm)).
    + destruct (getRarest_rel pm bf) as (idx & HR & _). apply HR.
    + destruct (addBlockToPiece pm i o b) as [r pm'] eqn:E. simpl.
      apply (addBlock_rel _ _ _ _ _ _ E).
    + apply (proj1 (reset_rel pm i)).
Qed.

(** C4 (amended). In every state of the store reached from the constructor,
    [getNextPieceToDownload] serves the piece under the sequential cursor
    and no other.  When that piece is neither completed nor requested, it
    is the lowest-indexed such piece: the call returns it, stored with
    [requested] set, and changes no other piece.  While the piece under the
    cursor is requested, the call returns nothing and changes nothing,
    whatever the state of the other pieces.  It never returns a piece in
    any other case. *)
Theorem next_sequential_serves_cursor_only md pm :
  reachable md pm ->
  let cur := currentPieceIndex pm in
  (forall p0,
     array_get (pieces pm) cur = Some p0 -> idle p0 = true ->
     let p := set_requested p0 true in
     getNextPieceToDownload pm = (Some p, update_piece pm cur p) /\
     (forall (j : nat) q,
        pieces pm !! j = Some q -> idle q = true -> cur <= Z.of_nat j) /\
     array_get (pieces (update_piece pm cur p)) cur = Some p /\
     (forall j : nat,
        Z.of_nat j <> cur ->
        pieces (update_piece pm cur p) !! j = pieces pm !! j)) /\
  (forall p0,
     array_get (pieces pm) cur = Some p0 -> requested p0 = true ->
     getNextPieceToDownload pm = (None, pm)) /\
  (forall p pm',
     getNextPieceToDownload pm = (Some p, pm') ->
     exists p0, array_get (pieces pm) cur = Some p0 /\ idle p0 = true).
Proof.
  intros Hreach cur. apply reachable_below_cursor in Hreach as [H0 Hinv].
  unfold getNextPieceToDownload. fold cur. split; [|split].
  - intros p0 Hget Hidle. cbv zeta. rewrite Hget.
    unfold idle in Hidle. rewrite Hidle.
    pose proof Hget as Hget'. apply array_get_Some in Hget' as [_ Hl].
    split; [done|]. split; [|split].
    + intros j q Hq Hi. destruct (decide (cur <= Z.of_nat j)); [done|].
      assert (Hlt : Z.of_nat j < cur) by lia.
      specialize (Hinv j q Hlt Hq). unfold idle in Hi. rewrite Hinv in Hi.
      discriminate.
    + apply array_get_Some. split; [lia|]. simpl.
      apply list_lookup_insert_eq. eapply lookup_lt_Some; eauto.
    + intros j Hj. simpl. apply list_lookup_insert_ne. lia.
  - intros p0 Hget Hreq. rewrite Hget, Hreq, andb_false_r. done.
  - intros p pm'. destruct (array_get (pieces pm) cur) as [p0|]; [|discriminate].
    destruct (negb (completed p0) && negb (requested p0)) eqn:Hidle;
      [|discriminate].
    intros _. exists p0. done.
Qed.

(** On the fresh store of [md_two]: piece 0 is under the cursor and idle. *)
Lemma next_sequential_witness :
  reachable md_two (PieceManager.new md_two) /\
  (exists p0,
     array_get (pieces (PieceManager.new md_two)) 0 = Some p0 /\
     idle p0 = true /\
     getNextPieceToDownload (PieceManager.new md_two)
     = (Some (set_requested p0 true),
        update_piece (PieceManager.new md_two) 0 (set_requested p0 true))).
Proof.
  split; [constructor|].
  pose proof (next_sequential_serves_cursor_only md_two (PieceManager.new md_two)
                (reach_new md_two)) as [H _].
  eexists. split; [vm_compute; reflexivity|]. split; [reflexivity|].
  apply H; [vm_compute; reflexivity|reflexivity].
Defined.

(** C4 (as stated) fails: with piece 0 requested and piece 1 neither
    completed nor requested, the call returns nothing and marks nothing. *)
Lemma next_sequential_skips_idle_piece :
  getNextPieceToDownload pm_requested0 = (None, pm_requested0) /\
  idle <$> pieces pm_requested0 !! 1%nat = Some true.
Proof. vm_compute. split; reflexivity. Qed.

(** The two early returns of [assemblePiece]: after a failed contiguity or
    length check nothing is cleared. *)
Lemma assemblePiece_early_return pm pieceIndex piece :
  assembleBlocks (blocks piece) (sortedOffsets (blocks piece)) [] 0 = None \/
  (exists d, assembleBlocks (blocks piece) (sortedOffsets (blocks piece)) [] 0
             = Some d /\ blen d <> size piece) ->
  assemblePiece pm pieceIndex piece = (false, pm).
Proof.
  unfold assemblePiece. intros [->|(d & -> & Hd)]; [done|].
  destruct (blen d =? size piece) eqn:E; zbool; [done|done].
Qed.

(** The third failure: after a failed digest check the block map, the
    counter and the [requested] flag are cleared. *)
Lemma assemblePiece_digest_failure pm pieceIndex piece d :
  assembleBlocks (blocks piece) (sortedOffsets (blocks piece)) [] 0 = Some d ->
  blen d = size piece ->
  CryptoUtils.verifyHash d (hash piece) = false ->
  assemblePiece pm pieceIndex piece
  = (false, update_piece pm pieceIndex
              (set_blocks (set_requested piece false) ∅ 0)).
Proof.
  unfold assemblePiece. intros -> Hd ->.
  destruct (blen d =? size piece) eqn:E; zbool; [done|done].
Qed.

(** C5 at its failing inputs.  Piece 0 of [md_two] has two bytes and one
    block.  A one-byte block at offset 1 fails the contiguity check and a
    one-byte block at offset 0 fails the length check: both calls return
    [false] and keep the block, the counter and the [requested] flag.  Two
    wrong bytes at offset 0 fail the digest check, and only then are the
    block map, the counter and the flag cleared. *)
Theorem assembly_failures_at_inputs :
  let gap := addBlockToPiece pm_requested0 0 1 [x01] in
  let short := addBlockToPiece pm_requested0 0 0 [x01] in
  let corrupt := addBlockToPiece pm_requested0 0 0 [x01; x01] in
  (gap.1 = false /\
   assembleBlocks {[1 := [x01]]} (sortedOffsets {[1 := [x01]]}) [] 0 = None /\
   observe gap.2 0 = Some (false, true, 1, [(1, [x01])])) /\
  (short.1 = false /\
   assembleBlocks {[0 := [x01]]} (sortedOffsets {[0 := [x01]]}) [] 0
     = Some [x01] /\
   observe short.2 0 = Some (false, true, 1, [(0, [x01])])) /\
  (corrupt.1 = false /\
   observe corrupt.2 0 = Some (false, false, 0, [])).
Proof. vm_compute. repeat split; reflexivity. Qed.

End PieceManagerFacts.

(** * Persisting pieces *)
Section FileManagerFacts.
Import FileManager.

(** When every piece, the last one included, has [pieceLength] bytes, the
    position of a piece is [pieceIndex * pieceLength]. *)
Lemma writePosition_equal_pieces md pieceIndex :
  0 < pieceCount md -> 0 <= pieceLength md ->
  totalLength md = pieceCount md * pieceLength md ->
  writePosition md pieceIndex = pieceIndex * pieceLength md.
Proof.
  intros Hc Hl Ht. unfold writePosition, calculatePieceSize.
  assert (Hq : totalLength md / pieceCount md = pieceLength md).
  { rewrite Ht, Z.mul_comm. apply Z.div_mul. lia. }
  rewrite Hq. destruct (pieceIndex =? pieceCount md - 1) eqn:E; [|done].
  apply Z.eqb_eq in E. f_equal. nia.
Qed.

(** C2 at its failing input.  For the nine-byte torrent [md_short] with
    piece length 4, [writePiece] computes the positions from
    [floor(9 / 3) = 3]: piece 1 is written at offset 3, not 4, and the last
    piece at offset 6, not 8. *)
Theorem writePiece_position_at_short_last_piece :
  writePosition md_short 1 = 3 /\ 1 * pieceLength md_short = 4 /\
  writePosition md_short 2 = 6 /\ 2 * pieceLength md_short = 8 /\
  fileHandle <$> writePiece fm_short 1 [x02; x02; x02; x02]
    = Ok (Some [x00; x00; x00; x02; x02; x02; x02; x00; x00]) /\
  fileHandle <$> writePiece fm_short 2 [x03]
    = Ok (Some [x00; x00; x00; x00; x00; x00; x03; x00; x00]).
Proof. vm_compute. repeat split; reflexivity. Qed.

End FileManagerFacts.

(** * The bencode codec *)
Section BencodeFacts.
Import Bencode.

Lemma toString_ascii (b : Buffer) :
  forallb is_ascii b = true -> toString b = Ok (string_of_list_byte b).
Proof. unfold toString. intros ->. reflexivity. Qed.

Lemma forallb_ascii_app (a b : Buffer) :
  forallb is_ascii (a ++ b) = forallb is_ascii a && forallb is_ascii b.
Proof. apply forallb_app. Qed.

Lemma digits_ascii (ds : list byte) :
  Forall (fun b => is_digit b = true) ds -> forallb is_ascii ds = true.
Proof.
  intros H. apply forallb_forall. intros x Hx.
  apply is_digit_ascii. rewrite Forall_forall in H. apply H.
  apply list_elem_of_In. exact Hx.
Qed.

Lemma sign_digits_ascii neg ds :
  Forall (fun b => is_digit b = true) ds ->
  forallb is_ascii (sign_bytes neg ++ ds) = true.
Proof.
  intros H. rewrite forallb_ascii_app, (digits_ascii ds H).
  destruct neg; reflexivity.
Qed.

Lemma not_in_digits (c : byte) (ds : list byte) :
  is_digit c = false -> Forall (fun b => is_digit b = true) ds -> c ∉ ds.
Proof.
  intros Hc H Hin. rewrite Forall_forall in H. specialize (H c Hin). congruence.
Qed.

Lemma not_in_sign_digits (c : byte) neg ds :
  is_digit c = false -> c <> "-"%byte ->
  Forall (fun b => is_digit b = true) ds -> c ∉ sign_bytes neg ++ ds.
Proof.
  intros Hc Hm H Hin. apply elem_of_app in Hin as [Hin|Hin].
  - destruct neg; simpl in Hin.
    + apply list_elem_of_singleton in Hin. done.
    + apply elem_of_nil in Hin. done.
  - eapply not_in_digits; eauto.
Qed.

(** [parseInt] reads a sign and a run of digits as the number they denote,
    whatever the digits: leading zeros and a negative zero included. *)
Lemma parseInt_signed neg ds :
  ds <> [] -> Forall (fun b => is_digit b = true) ds ->
  parseInt (string_of_list_byte (sign_bytes neg ++ ds))
  = Some (signed_number neg ds).
Proof.
  intros Hne Hds. unfold parseInt. rewrite list_byte_of_string_of_list_byte.
  destruct ds as [|d ds]; [done|].
  pose proof (Forall_inv Hds) as Hd.
  pose proof (is_digit_not_space d Hd) as Hsp.
  assert (Hdm : bool_decide (d = "-"%byte) = false).
  { apply bool_decide_eq_false. apply is_digit_not; done. }
  assert (Hdp : bool_decide (d = "+"%byte) = false).
  { apply bool_decide_eq_false. apply is_digit_not; done. }
  destruct neg; simpl sign_bytes; simpl app.
  - simpl drop_while. cbv iota. rewrite bool_decide_eq_true_2 by done.
    cbv beta iota zeta. rewrite take_while_all by done.
    unfold signed_number, signed. simpl andb.
    destruct (digits_value (d :: ds) =? 0); reflexivity.
  - simpl drop_while. rewrite Hsp. cbv iota. rewrite Hdm, Hdp.
    cbv beta iota zeta. rewrite take_while_all by done. reflexivity.
Qed.

(** [parseInteger] on an integer token that starts at [position]. *)
Lemma parseInteger_token (pre rest : Buffer) neg ds :
  ds <> [] -> Forall (fun b => is_digit b = true) ds ->
  parseInteger (pre ++ int_token neg ds ++ rest) (blen pre)
  = (n ← to_double (signed_number neg ds);
     Ok (n, blen pre + blen (int_token neg ds))).
Proof.
  intros Hne Hds. unfold parseInteger, int_token.
  set (body := sign_bytes neg ++ ds).
  replace (pre ++ (lit "i" ++ sign_bytes neg ++ ds ++ lit "e") ++ rest)
    with ((pre ++ lit "i") ++ body ++ "e"%byte :: rest).
  2:{ unfold body, lit. simpl. rewrite <- !app_assoc. reflexivity. }
  replace (blen pre + 1) with (blen (pre ++ lit "i"))
    by (rewrite blen_app; reflexivity).
  rewrite indexOf_app.
  2:{ apply not_in_sign_digits; done. }
  pose proof (blen_nonneg (pre ++ lit "i")). pose proof (blen_nonneg body).
  destruct (_ =? -1) eqn:E; zbool; [lia|].
  rewrite slice_app.
  rewrite toString_ascii by (apply sign_digits_ascii; done).
  simpl. unfold body. rewrite parseInt_signed by done.
  replace (blen (pre ++ lit "i") + blen (sign_bytes neg ++ ds) + 1)
    with (blen pre + blen (lit "i" ++ sign_bytes neg ++ ds ++ lit "e")).
  2:{ rewrite !blen_app. unfold lit; simpl. unfold blen; simpl. lia. }
  reflexivity.
Qed.

(** The equations of the parser, one step of fuel at a time. *)
Lemma parseValue_S fuel data position :
  parseValue (S fuel) data position =
  match byteAt data position with
  | None => Throw UnexpectedChar
  | Some char =>
      if is_digit char then
        '(b, p) ← parseString data position; Ok (VBuf b, p)
      else if bool_decide (char = "i"%byte) then
        '(n, p) ← parseInteger data position; Ok (VNum n, p)
      else if bool_decide (char = "l"%byte) then
        '(l, p) ← parseListItems fuel data (position + 1) [];
        Ok (VList l, p)
      else if bool_decide (char = "d"%byte) then
        '(d, p) ← parseDictEntries fuel data (position + 1) [];
        Ok (VDict d, p)
      else Throw UnexpectedChar
  end.
Proof. reflexivity. Qed.

Lemma parseListItems_S fuel data position items :
  parseListItems (S fuel) data position items =
  if (position <? blen data)
     && negb (bool_decide (byteAt data position = Some "e"%byte))
  then
    '(v, p) ← parseValue fuel data position;
    parseListItems fuel data p (items ++ [v])
  else if blen data <=? position then Throw ListMissingE
  else Ok (items, position + 1).
Proof. reflexivity. Qed.

Lemma parseDictEntries_S fuel data position dict :
  parseDictEntries (S fuel) data position dict =
  if (position <? blen data)
     && negb (bool_decide (byteAt data position = Some "e"%byte))
  then
    '(keyBuffer, p) ← parseString data position;
    key ← toString keyBuffer;
    '(v, p) ← parseValue fuel data p;
    dict ← obj_set dict key v;
    parseDictEntries fuel data p dict
  else if blen data <=? position then Throw DictMissingE
  else Ok (dict, position + 1).
Proof. reflexivity. Qed.

Lemma parseValue_int_token fuel (pre rest : Buffer) neg ds :
  ds <> [] -> Forall (fun b => is_digit b = true) ds ->
  parseValue (S fuel) (pre ++ int_token neg ds ++ rest) (blen pre)
  = (n ← to_double (signed_number neg ds);
     Ok (VNum n, blen pre + blen (int_token neg ds))).
Proof.
  intros Hne Hds. rewrite parseValue_S.
  assert (Hb : byteAt (pre ++ int_token neg ds ++ rest) (blen pre)
               = Some "i"%byte) by apply byteAt_app.
  rewrite Hb. change (is_digit "i") with false. cbv iota.
  rewrite bool_decide_eq_true_2 by done.
  rewrite parseInteger_token by done.
  destruct (to_double (signed_number neg ds)); reflexivity.
Qed.

Lemma digits_value_nonneg (ds : list byte) :
  Forall (fun b => is_digit b = true) ds -> 0 <= digits_value ds.
Proof.
  intros Hds. unfold digits_value.
  enough (G : forall a, 0 <= a ->
            0 <= fold_left (fun a d => 10 * a + (Z_of_byte d - 48)) ds a)
    by (apply G; lia).
  induction Hds as [|d ds Hd _ IH]; intros a Ha; simpl; [done|].
  apply IH. apply is_digit_spec in Hd. lia.
Qed.

Lemma number_Z_signed neg ds : number_Z (signed_number neg ds) = signed neg ds.
Proof.
  unfold signed_number, signed.
  destruct neg; simpl; [|done].
  destruct (digits_value ds =? 0) eqn:E; zbool; simpl; lia.
Qed.

Lemma is_space_ascii (b : byte) : is_space b = true -> is_ascii b = true.
Proof.
  unfold is_space, is_ascii. intros H. apply bool_decide_eq_true in H.
  apply bool_decide_eq_true. unfold Z_of_byte in H. lia.
Qed.

Lemma is_space_not_e (b : byte) : is_space b = true -> b <> "e"%byte.
Proof. intros H ->. vm_compute in H. discriminate. Qed.

Lemma take_drop_while {A} (p : A -> bool) (l : list A) :
  take_while p l ++ drop_while p l = l.
Proof.
  induction l as [|x l IH]; simpl; [done|].
  destruct (p x); simpl; [by rewrite IH|done].
Qed.

Lemma take_while_Forall {A} (p : A -> bool) (l : list A) :
  Forall (fun x => p x = true) (take_while p l).
Proof.
  induction l as [|x l IH]; simpl; [constructor|].
  destruct (p x) eqn:E; constructor; done.
Qed.

Lemma drop_while_head {A} (p : A -> bool) (l : list A) (x : A) (t : list A) :
  drop_while p l = x :: t -> p x = false.
Proof.
  induction l as [|y l IH]; simpl; [discriminate|].
  destruct (p y) eqn:E; [exact IH|]. intros [= -> ->]. exact E.
Qed.

Lemma drop_while_app {A} (p : A -> bool) (a l : list A) :
  Forall (fun x => p x = true) a ->
  match l with [] => True | x :: _ => p x = false end ->
  drop_while p (a ++ l) = l.
Proof.
  intros Ha Hl. induction Ha as [|x a Hx _ IH]; simpl.
  - destruct l as [|y l]; simpl; [done|]. by rewrite Hl.
  - by rewrite Hx.
Qed.

Lemma take_while_app {A} (p : A -> bool) (a l : list A) :
  Forall (fun x => p x = true) a ->
  match l with [] => True | x :: _ => p x = false end ->
  take_while p (a ++ l) = a.
Proof.
  intros Ha Hl. induction Ha as [|x a Hx _ IH]; simpl.
  - destruct l as [|y l]; simpl; [done|]. by rewrite Hl.
  - by rewrite Hx, IH.
Qed.

(** [parseInt] on white space, a sign, digits and what follows them. *)
Lemma parseInt_text ws s ds junk :
  int_shape ws s ds junk ->
  parseInt (string_of_list_byte (int_text ws s ds junk))
  = match ds with
    | [] => None
    | _ => Some (signed_number (is_minus s) ds)
    end.
Proof.
  intros (Hws & Hds & Hj). unfold parseInt, int_text.
  rewrite list_byte_of_string_of_list_byte.
  assert (Hhead : match mark_bytes s ++ ds ++ junk with
                  | [] => True
                  | x :: _ => is_space x = false
                  end).
  { destruct s; simpl; try reflexivity.
    destruct ds as [|d ds]; simpl.
    - destruct junk as [|c junk]; [done|]. by apply Hj.
    - apply is_digit_not_space. exact (Forall_inv Hds). }
  rewrite (drop_while_app _ ws _ Hws Hhead).
  assert (Hrest : match junk with
                  | [] => True
                  | x :: _ => is_digit x = false
                  end).
  { destruct junk as [|c junk]; [done|]. apply Hj. }
  assert (Hsd : forall neg,
            match take_while is_digit (ds ++ junk) with
            | [] => None
            | d :: l =>
                Some (if neg : bool then
                        if digits_value (d :: l) =? 0 then NegZero
                        else Int (- digits_value (d :: l))
                      else Int (digits_value (d :: l)))
            end
            = match ds with
              | [] => None
              | _ => Some (signed_number neg ds)
              end).
  { intros neg. rewrite (take_while_app _ ds junk Hds Hrest).
    destruct ds as [|d ds]; [done|].
    unfold signed_number, signed. destruct neg; simpl andb; [|done].
    destruct (digits_value (d :: ds) =? 0); reflexivity. }
  destruct s; simpl mark_bytes; simpl app.
  - assert (Hns : match ds ++ junk with
                  | [] => True
                  | b :: _ => b <> "-"%byte /\ b <> "+"%byte
                  end).
    { destruct ds as [|d ds]; simpl.
      - destruct junk as [|c junk]; [done|].
        destruct Hj as [_ Hj]. destruct (Hj eq_refl eq_refl) as (_ & H1 & H2).
        done.
      - pose proof (Forall_inv Hds) as Hd.
        split; apply is_digit_not; done. }
    destruct (ds ++ junk) as [|b t] eqn:E.
    + destruct ds; [reflexivity|discriminate].
    + destruct Hns as [H1 H2].
      rewrite !bool_decide_eq_false_2 by done.
      exact (Hsd false).
  - exact (Hsd false).
  - exact (Hsd true).
Qed.

Lemma int_text_ascii ws s ds junk :
  int_shape ws s ds junk -> forallb is_ascii junk = true ->
  forallb is_ascii (int_text ws s ds junk) = true.
Proof.
  intros (Hws & Hds & _) Hj. unfold int_text.
  rewrite !forallb_ascii_app, Hj, (digits_ascii ds Hds).
  assert (Hw : forallb is_ascii ws = true).
  { apply forallb_forall. intros x Hx. apply is_space_ascii.
    rewrite Forall_forall in Hws. apply Hws. apply list_elem_of_In. exact Hx. }
  rewrite Hw. destruct s; reflexivity.
Qed.

Lemma int_text_no_e ws s ds junk :
  int_shape ws s ds junk -> "e"%byte ∉ junk ->
  "e"%byte ∉ int_text ws s ds junk.
Proof.
  intros (Hws & Hds & _) Hj. unfold int_text. intros Hin.
  apply elem_of_app in Hin as [Hin|Hin].
  { rewrite Forall_forall in Hws. apply (is_space_not_e _ (Hws _ Hin)). done. }
  apply elem_of_app in Hin as [Hin|Hin].
  { destruct s; simpl in Hin.
    - by apply elem_of_nil in Hin.
    - apply list_elem_of_singleton in Hin. discriminate.
    - apply list_elem_of_singleton in Hin. discriminate. }
  apply elem_of_app in Hin as [Hin|Hin]; [|done].
  eapply (not_in_digits "e"%byte ds); [reflexivity|exact Hds|exact Hin].
Qed.

(** Every text has that shape, in one way. *)
Lemma int_text_shape (body : Buffer) :
  exists ws s ds junk,
    body = int_text ws s ds junk /\ int_shape ws s ds junk.
Proof.
  set (ws := take_while is_space body).
  set (r1 := drop_while is_space body).
  assert (Hb : body = ws ++ r1) by (symmetry; apply take_drop_while).
  assert (Hws : Forall (fun b => is_space b = true) ws)
    by apply take_while_Forall.
  assert (Hsplit : forall s r2, r1 = mark_bytes s ++ r2 ->
            (s = NoSign -> match r2 with
                           | [] => True
                           | c :: _ => is_space c = false /\
                                       c <> "-"%byte /\ c <> "+"%byte
                           end) ->
            exists ws s ds junk,
              body = int_text ws s ds junk /\ int_shape ws s ds junk).
  { intros s r2 Hr1 Hno.
    exists ws, s, (take_while is_digit r2), (drop_while is_digit r2).
    split.
    - unfold int_text. rewrite take_drop_while, <- Hr1. exact Hb.
    - split; [exact Hws|]. split; [apply take_while_Forall|].
      unfold after_digits.
      destruct (drop_while is_digit r2) as [|c t] eqn:E; [done|].
      split; [eapply drop_while_head; exact E|].
      intros -> Hds. specialize (Hno eq_refl).
      destruct r2 as [|c' t']; [discriminate|]. simpl in Hds, E.
      destruct (is_digit c'); [discriminate|].
      injection E as Hc Ht. rewrite <- Hc. exact Hno. }
  destruct r1 as [|c t] eqn:Er1.
  { apply (Hsplit NoSign []); done. }
  assert (Hc : is_space c = false).
  { eapply drop_while_head. exact Er1. }
  destruct (decide (c = "-"%byte)) as [->|Hm].
  { apply (Hsplit MinusSign t); [reflexivity|discriminate]. }
  destruct (decide (c = "+"%byte)) as [->|Hp].
  { apply (Hsplit PlusSign t); [reflexivity|discriminate]. }
  apply (Hsplit NoSign (c :: t)); [reflexivity|]. intros _. done.
Qed.

Lemma find_from_absent (l : Buffer) (c : byte) (i : Z) :
  c ∉ l -> find_from l c i = -1.
Proof.
  revert i. induction l as [|b l IH]; intros i Hc; simpl; [done|].
  rewrite bool_decide_eq_false_2 by (intros ->; apply Hc; left).
  apply IH. intros Hin. apply Hc. right. exact Hin.
Qed.

(** [parseInteger] on an [i] followed by such a text and an [e]. *)
Lemma parseInteger_text (pre rest : Buffer) ws s ds junk :
  int_shape ws s ds junk -> forallb is_ascii junk = true ->
  "e"%byte ∉ junk ->
  parseInteger (pre ++ lit "i" ++ int_text ws s ds junk ++ lit "e" ++ rest)
               (blen pre)
  = match ds with
    | [] => Throw InvalidInteger
    | _ =>
        n ← to_double (signed_number (is_minus s) ds);
        Ok (n, blen pre + blen (int_text ws s ds junk) + 2)
    end.
Proof.
  intros Hshape Hascii He. unfold parseInteger.
  set (body := int_text ws s ds junk).
  replace (pre ++ lit "i" ++ body ++ lit "e" ++ rest)
    with ((pre ++ lit "i") ++ body ++ "e"%byte :: rest)
    by (rewrite <- !app_assoc; reflexivity).
  replace (blen pre + 1) with (blen (pre ++ lit "i"))
    by (rewrite blen_app; reflexivity).
  rewrite indexOf_app by (apply int_text_no_e; done).
  pose proof (blen_nonneg (pre ++ lit "i")). pose proof (blen_nonneg body).
  destruct (_ =? -1) eqn:E; zbool; [lia|].
  rewrite slice_app.
  rewrite toString_ascii by (apply int_text_ascii; done).
  unfold mbind at 1, result_bind at 1; cbv beta iota.
  unfold body. rewrite parseInt_text by done.
  destruct ds as [|d ds]; [reflexivity|].
  replace (blen (pre ++ lit "i") + blen (int_text ws s (d :: ds) junk) + 1)
    with (blen pre + blen (int_text ws s (d :: ds) junk) + 2).
  2:{ rewrite blen_app. change (blen (lit "i")) with 1. lia. }
  reflexivity.
Qed.

(** C6 (amended). The text between the [i] of an integer and the first [e]
    after it is read as [parseInt] reads it: white space, an optional sign,
    a run of digits, and whatever follows the digits, which is ignored.
    With at least one digit the integer is accepted, whatever the digits:
    leading zeros are accepted, and a minus sign before zeros gives negative
    zero.  The result is the double nearest to the number that the sign and
    the digits denote (below the bound from which a double is infinite),
    which is that number itself up to [MAX_SAFE_INTEGER].  The integer is
    rejected when no digit follows the white space and the sign, and when
    there is no [e]; every text has the shape of the first case. *)
Theorem decode_integer_tokens :
  (forall ws s ds junk rest,
     int_shape ws s ds junk -> forallb is_ascii junk = true ->
     "e"%byte ∉ junk -> digits_value ds < DOUBLE_LIMIT ->
     exists n,
       to_double (signed_number (is_minus s) ds) = Ok n /\
       (digits_value ds <= MAX_SAFE_INTEGER ->
        n = signed_number (is_minus s) ds) /\
       decode (lit "i" ++ int_text ws s ds junk ++ lit "e" ++ rest)
       = match ds with
         | [] => Throw InvalidInteger
         | _ => Ok (VNum n)
         end) /\
  (forall body, "e"%byte ∉ body ->
     decode (lit "i" ++ body) = Throw IntegerMissingE) /\
  (forall body, exists ws s ds junk,
     body = int_text ws s ds junk /\ int_shape ws s ds junk).
Proof.
  split; [|split].
  - intros ws s ds junk rest Hshape Hascii He Hlim.
    assert (Hds : 0 <= digits_value ds)
      by (apply digits_value_nonneg; apply Hshape).
    assert (Habs : Z.abs (number_Z (signed_number (is_minus s) ds))
                   = digits_value ds).
    { rewrite number_Z_signed. unfold signed. destruct (is_minus s); lia. }
    assert (Hn : exists n, to_double (signed_number (is_minus s) ds) = Ok n).
    { destruct (signed_number (is_minus s) ds) as [m|]; [|by eexists].
      simpl in Habs. unfold to_double.
      destruct (Z.abs m <? DOUBLE_LIMIT) eqn:E; zbool; [by eexists|lia]. }
    destruct Hn as [n Hn]. exists n. split; [exact Hn|]. split.
    + intros Hsafe. rewrite to_double_safe in Hn by lia. congruence.
    + unfold decode, parse, fuel_for. rewrite parseValue_S.
      change (byteAt (lit "i" ++ ?t) 0) with (Some "i"%byte). cbv iota.
      change (is_digit "i") with false. cbv iota.
      rewrite bool_decide_eq_true_2 by done.
      pose proof (parseInteger_text [] rest ws s ds junk Hshape Hascii He) as H.
      rewrite app_nil_l in H. change (blen []) with 0 in H. rewrite H.
      destruct ds as [|d ds]; [reflexivity|].
      rewrite Hn. reflexivity.
  - intros body He. unfold decode, parse, fuel_for. rewrite parseValue_S.
    change (byteAt (lit "i" ++ ?t) 0) with (Some "i"%byte). cbv iota.
    change (is_digit "i") with false. cbv iota.
    rewrite bool_decide_eq_true_2 by done.
    unfold parseInteger.
    assert (Hi : indexOf (lit "i" ++ body) "e"%byte (0 + 1) = -1).
    { unfold indexOf. change (0 + 1 <? 0) with false. cbv iota.
      destruct (_ <=? _); [reflexivity|].
      change (drop (Z.to_nat (0 + 1)) (lit "i" ++ body)) with body.
      apply find_from_absent. exact He. }
    rewrite Hi. reflexivity.
  - apply int_text_shape.
Qed.

(** At the two tokens of the claim. *)
Lemma decode_accepts_witness :
  decode (lit "i-0e") = Ok (VNum NegZero) /\
  decode (lit "i007e") = Ok (VNum (Int 7)).
Proof.
  assert (Hsmall : forall ds, digits_value ds <= MAX_SAFE_INTEGER ->
                              digits_value ds < DOUBLE_LIMIT)
    by (intros ds H; pose proof safe_below_limit; lia).
  split.
  - destruct (proj1 decode_integer_tokens [] MinusSign ["0"%byte] [] [])
      as (n & _ & Hn & Hd).
    + repeat split; repeat constructor.
    + reflexivity.
    + apply not_elem_of_nil.
    + apply Hsmall. vm_compute. discriminate.
    + rewrite Hn in Hd by (vm_compute; discriminate). exact Hd.
  - destruct (proj1 decode_integer_tokens [] NoSign ["0"; "0"; "7"]%byte [] [])
      as (n & _ & Hn & Hd).
    + repeat split; repeat constructor.
    + reflexivity.
    + apply not_elem_of_nil.
    + apply Hsmall. vm_compute. discriminate.
    + rewrite Hn in Hd by (vm_compute; discriminate). exact Hd.
Defined.

(** C6 (as stated) fails: [decode("i-0e")] returns negative zero, and an
    integer with leading zeros is accepted as well. *)
Lemma decode_negative_zero_accepted :
  decode (lit "i-0e") = Ok (VNum NegZero) /\
  decode (lit "i007e") = Ok (VNum (Int 7)).
Proof. vm_compute. split; reflexivity. Qed.

End BencodeFacts.

(** * The bencode round trip *)
Section RoundTrip.
Import Bencode BencodeSpec.

(** Induction over values, through the arrays and the objects. *)
Lemma value_ind' (P : value -> Prop) :
  (forall s, P (VStr s)) ->
  (forall n, P (VNum n)) ->
  (forall b, P (VBuf b)) ->
  (forall l, Forall P l -> P (VList l)) ->
  (forall d, Forall (fun kv => P kv.2) d -> P (VDict d)) ->
  forall v, P v.
Proof.
  intros Hs Hn Hb Hl Hd.
  fix IH 1. intros [s|n|b|l|d].
  - apply Hs.
  - apply Hn.
  - apply Hb.
  - apply Hl. induction l as [|x l IHl]; constructor; [apply IH|exact IHl].
  - apply Hd. induction d as [|[k x] d IHd]; constructor;
      [apply IH|exact IHd].
Qed.

Lemma signed_magnitude (n : Z) : signed (n <? 0) (magnitude_digits n) = n.
Proof.
  destruct (magnitude_digits_spec n) as (_ & _ & Hv). unfold signed.
  rewrite Hv. destruct (n <? 0) eqn:E; zbool; lia.
Qed.

Lemma safe_ok (x : number) :
  Z.abs (number_Z x) <= MAX_SAFE_INTEGER -> safe x = Ok x.
Proof. unfold safe. intros H. destruct (_ <=? _) eqn:E; zbool; [done|lia]. Qed.

Lemma safe_inv (x y : number) :
  safe x = Ok y -> y = x /\ Z.abs (number_Z x) <= MAX_SAFE_INTEGER.
Proof.
  unfold safe. destruct (_ <=? _) eqn:E; zbool; [|discriminate].
  intros [= <-]. auto.
Qed.

Lemma signed_number_magnitude (n : Z) :
  signed_number (n <? 0) (magnitude_digits n) = Int n.
Proof.
  unfold signed_number. rewrite signed_magnitude.
  destruct (magnitude_digits_spec n) as (_ & _ & Hv). rewrite Hv.
  destruct (n <? 0) eqn:E; zbool; simpl; [|done].
  destruct (Z.abs n =? 0) eqn:E2; zbool; [lia|done].
Qed.

(** [parseString] on the encoding of a buffer that starts at [position]. *)
Lemma parseString_encoded (pre b rest : Buffer) :
  blen b <= MAX_SAFE_INTEGER ->
  parseString (pre ++ encodeBuffer b ++ rest) (blen pre)
  = Ok (b, blen pre + blen (encodeBuffer b)).
Proof.
  intros Hsafe. unfold parseString, encodeBuffer.
  pose proof (blen_nonneg b) as Hb0. pose proof (blen_nonneg pre) as Hp0.
  rewrite show_int_nonneg by done.
  destruct (magnitude_digits_spec (blen b)) as (Hne & Hds & Hv).
  set (ds := magnitude_digits (blen b)) in *.
  pose proof (blen_nonneg ds) as Hd0.
  replace (pre ++ (ds ++ lit ":" ++ b) ++ rest)
    with (pre ++ ds ++ ":"%byte :: (b ++ rest)).
  2:{ unfold lit; simpl. rewrite <- !app_assoc. reflexivity. }
  rewrite indexOf_app by (apply not_in_digits; done).
  destruct (_ =? -1) eqn:E; zbool; [lia|].
  rewrite slice_app.
  rewrite toString_ascii by (apply digits_ascii; done). simpl mbind.
  unfold mbind, result_bind.
  pose proof (parseInt_signed false ds Hne Hds) as Hp.
  simpl sign_bytes in Hp. rewrite app_nil_l in Hp. rewrite Hp.
  unfold signed_number, signed. simpl andb. cbv iota.
  rewrite Hv. rewrite Z.abs_eq by lia. simpl number_Z.
  destruct (blen b <? 0) eqn:E2; zbool; [lia|].
  rewrite safe_ok by (simpl; lia). simpl number_Z.
  replace (pre ++ ds ++ ":"%byte :: b ++ rest)
    with ((pre ++ ds ++ lit ":") ++ b ++ rest).
  2:{ unfold lit; simpl. rewrite <- !app_assoc. reflexivity. }
  replace (blen pre + blen ds + 1) with (blen (pre ++ ds ++ lit ":")).
  2:{ rewrite !blen_app. change (blen (lit ":")) with 1. lia. }
  rewrite slice_app. f_equal. f_equal.
  rewrite !blen_app. change (blen (lit ":")) with 1. lia.
Qed.

Lemma encodeString_as_buffer (k : string) :
  encodeString k = encodeBuffer (Buffer_from k).
Proof. reflexivity. Qed.

Lemma first_digit (n : Z) (tail : Buffer) :
  0 <= n ->
  exists c t, show_int n ++ tail = c :: t /\ is_digit c = true.
Proof.
  intros H. rewrite show_int_nonneg by done.
  destruct (magnitude_digits_spec n) as (Hne & Hds & _).
  destruct (magnitude_digits n) as [|c t]; [done|].
  exists c, (t ++ tail). split; [reflexivity|]. exact (Forall_inv Hds).
Qed.

Lemma parseValue_buffer fuel (pre b rest : Buffer) :
  blen b <= MAX_SAFE_INTEGER ->
  parseValue (S fuel) (pre ++ encodeBuffer b ++ rest) (blen pre)
  = Ok (VBuf b, blen pre + blen (encodeBuffer b)).
Proof.
  intros Hsafe. rewrite parseValue_S.
  destruct (first_digit (blen b) (lit ":" ++ b ++ rest) (blen_nonneg b))
    as (c & t & Hc & Hd).
  assert (Hb : byteAt (pre ++ encodeBuffer b ++ rest) (blen pre) = Some c).
  { unfold encodeBuffer. rewrite <- !app_assoc. rewrite Hc. apply byteAt_app. }
  rewrite Hb, Hd. rewrite parseString_encoded by done. reflexivity.
Qed.

Lemma encode_nonempty (v : value) : (1 <= length (encode v))%nat.
Proof.
  destruct v as [s|n|b|l|d]; simpl.
  - unfold encodeString. destruct (first_digit (blen (Buffer_from s))
      (lit ":" ++ Buffer_from s) (blen_nonneg _)) as (c & t & Hc & _).
    rewrite Hc. simpl. lia.
  - unfold encodeInteger, lit. simpl. lia.
  - unfold encodeBuffer. destruct (first_digit (blen b)
      (lit ":" ++ b) (blen_nonneg _)) as (c & t & Hc & _).
    rewrite Hc. simpl. lia.
  - unfold lit. simpl. lia.
  - unfold encodeEntries, lit. simpl. lia.
Qed.

(** An encoding never starts with the byte [e] that closes a list. *)
Lemma encode_first (v : value) :
  exists c t, encode v = c :: t /\ c <> "e"%byte.
Proof.
  destruct v as [s|n|b|l|d]; simpl.
  - unfold encodeString. destruct (first_digit (blen (Buffer_from s))
      (lit ":" ++ Buffer_from s) (blen_nonneg _)) as (c & t & Hc & Hd).
    exists c, t. split; [done|]. apply is_digit_not; done.
  - eexists _, _. split; [reflexivity|]. discriminate.
  - unfold encodeBuffer. destruct (first_digit (blen b)
      (lit ":" ++ b) (blen_nonneg _)) as (c & t & Hc & Hd).
    exists c, t. split; [done|]. apply is_digit_not; done.
  - eexists _, _. split; [reflexivity|]. discriminate.
  - eexists _, _. split; [reflexivity|]. discriminate.
Qed.

(** The test of the two [while] loops, at the closing [e] and before it. *)
Lemma loop_test_end (pre rest : Buffer) :
  (blen pre <? blen (pre ++ lit "e" ++ rest))
  && negb (bool_decide (byteAt (pre ++ lit "e" ++ rest) (blen pre)
                        = Some "e"%byte)) = false /\
  (blen (pre ++ lit "e" ++ rest) <=? blen pre) = false.
Proof.
  change (pre ++ lit "e" ++ rest) with (pre ++ "e"%byte :: rest).
  rewrite byteAt_app, bool_decide_eq_true_2 by done.
  rewrite andb_false_r. split; [done|].
  rewrite blen_app, blen_cons. pose proof (blen_nonneg rest).
  destruct (_ <=? _) eqn:E; zbool; [lia|done].
Qed.

Lemma loop_test_more (pre : Buffer) (c : byte) (t : Buffer) :
  c <> "e"%byte ->
  (blen pre <? blen (pre ++ c :: t))
  && negb (bool_decide (byteAt (pre ++ c :: t) (blen pre) = Some "e"%byte))
  = true.
Proof.
  intros Hc. rewrite byteAt_app, bool_decide_eq_false_2 by congruence.
  rewrite blen_app, blen_cons. pose proof (blen_nonneg t).
  destruct (_ <? _) eqn:E; zbool; [done|lia].
Qed.

Lemma length_blen (b : Buffer) : Z.of_nat (length b) = blen b.
Proof. reflexivity. Qed.

(** The loop of [parseList] on the encodings of [vs]. *)
Lemma items_roundtrip (vs : list value) :
  Forall round_trips vs ->
  forall fuel (pre rest : Buffer) (acc : list value),
    (length (concat (map encode vs)) < fuel)%nat ->
    parseListItems fuel (pre ++ concat (map encode vs) ++ lit "e" ++ rest)
                   (blen pre) acc
    = Ok (acc ++ map canon vs,
          blen pre + blen (concat (map encode vs)) + 1).
Proof.
  induction 1 as [|v vs Hv _ IH]; intros fuel pre rest acc Hfuel.
  - destruct fuel as [|fuel]; [simpl in Hfuel; lia|].
    rewrite parseListItems_S. simpl concat. rewrite app_nil_l.
    destruct (loop_test_end pre rest) as [-> ->].
    rewrite app_nil_r. change (blen []) with 0. do 2 f_equal. lia.
  - destruct fuel as [|fuel]; [lia|].
    simpl map in *. simpl concat in *. rewrite length_app in Hfuel.
    pose proof (encode_nonempty v) as Hlen.
    rewrite parseListItems_S.
    destruct (encode_first v) as (c & t & Hc & Hne).
    rewrite <- !app_assoc.
    assert (Htest : (blen pre <? blen (pre ++ encode v ++ concat (map encode vs)
                                        ++ lit "e" ++ rest))
       && negb (bool_decide (byteAt (pre ++ encode v ++ concat (map encode vs)
                                       ++ lit "e" ++ rest) (blen pre)
                             = Some "e"%byte)) = true).
    { rewrite Hc. apply loop_test_more. exact Hne. }
    rewrite Htest.
    rewrite (Hv fuel pre _ ltac:(lia)).
    unfold mbind, result_bind; cbv beta iota.
    replace (blen pre + blen (encode v)) with (blen (pre ++ encode v))
      by apply blen_app.
    rewrite (app_assoc pre (encode v)).
    rewrite (IH fuel (pre ++ encode v) rest (acc ++ [canon v]) ltac:(lia)).
    rewrite <- (app_assoc acc). simpl app.
    rewrite !blen_app. do 2 f_equal. lia.
Qed.

Lemma obj_has_false {A} (d : list (string * A)) (k : string) :
  obj_has d k = false <-> k ∉ obj_keys d.
Proof.
  unfold obj_has, obj_keys. induction d as [|[k' v] d IH]; simpl.
  - split; [intros _ H; apply elem_of_nil in H; done|done].
  - rewrite orb_false_iff, IH, not_elem_of_cons, bool_decide_eq_false.
    split; intros [H1 H2]; split; auto.
Qed.

Lemma obj_set_put (acc : BencodeDict) (k : string) (v : value) :
  k <> "__proto__"%string -> obj_set acc k v = Ok (obj_put acc (k, v)).
Proof.
  intros Hp. unfold obj_set, obj_put. rewrite bool_decide_eq_false_2 by done.
  simpl. destruct (obj_has acc k); reflexivity.
Qed.

Lemma insert_index_perm {A} (n : Z) (kv : string * A) (d : list (string * A)) :
  insert_index n kv d ≡ₚ kv :: d.
Proof.
  induction d as [|kv' d IH]; simpl; [done|].
  destruct (array_index kv'.1) as [m|]; [|done].
  destruct (m <? n); [|done]. rewrite IH. apply perm_swap.
Qed.

Lemma obj_add_perm {A} (d : list (string * A)) (kv : string * A) :
  obj_add d kv ≡ₚ kv :: d.
Proof.
  unfold obj_add. destruct (array_index kv.1).
  - apply insert_index_perm.
  - symmetry. apply Permutation_cons_append.
Qed.

Lemma fold_obj_add_perm {A} (l acc : list (string * A)) :
  fold_left obj_add l acc ≡ₚ acc ++ l.
Proof.
  revert acc. induction l as [|kv l IH]; intros acc; simpl.
  - by rewrite app_nil_r.
  - rewrite IH, obj_add_perm. rewrite <- Permutation_middle. done.
Qed.

Lemma listed_perm {A} (l : list (string * A)) : listed l ≡ₚ l.
Proof. unfold listed. by rewrite fold_obj_add_perm. Qed.

(** Properties with distinct keys, none of them in the object yet, are
    all added. *)
Lemma fold_obj_put_fresh (l acc : BencodeDict) :
  NoDup (obj_keys l) ->
  (forall k, k ∈ obj_keys l -> k ∉ obj_keys acc) ->
  fold_left obj_put l acc = fold_left obj_add l acc.
Proof.
  revert acc. induction l as [|kv l IH]; intros acc Hnd Hacc; simpl; [done|].
  simpl in Hnd. apply NoDup_cons in Hnd as [Hkv Hnd].
  assert (Hput : obj_put acc kv = obj_add acc kv).
  { unfold obj_put.
    assert (Hh : obj_has acc kv.1 = false).
    { apply obj_has_false. apply Hacc. left. }
    rewrite Hh. reflexivity. }
  rewrite Hput. apply IH; [exact Hnd|].
  intros k Hk Hin. unfold obj_keys in Hin.
  rewrite (obj_add_perm acc kv) in Hin. simpl in Hin.
  apply elem_of_cons in Hin as [->|Hin]; [done|].
  apply (Hacc k); [right; exact Hk|exact Hin].
Qed.

Lemma toString_key (k : string) :
  forallb is_ascii (list_byte_of_string k) = true ->
  toString (Buffer_from k) = Ok k.
Proof.
  intros H. unfold Buffer_from. rewrite toString_ascii by done.
  rewrite string_of_list_byte_of_string. reflexivity.
Qed.

(** The loop of [parseDictionary] on the encodings of the properties
    [es]: they are set one after the other. *)
Lemma entries_parse (es : list (string * value)) :
  Forall (fun kv => good_key kv.1 /\ round_trips kv.2) es ->
  forall fuel (pre rest : Buffer) (acc : BencodeDict),
    (length (concat (map enc_entry es)) < fuel)%nat ->
    parseDictEntries fuel (pre ++ concat (map enc_entry es) ++ lit "e" ++ rest)
                     (blen pre) acc
    = Ok (fold_left obj_put (map canon_entry es) acc,
          blen pre + blen (concat (map enc_entry es)) + 1).
Proof.
  induction 1 as [|[k v] es [Hk Hv] _ IH]; intros fuel pre rest acc Hfuel.
  - destruct fuel as [|fuel]; [simpl in Hfuel; lia|].
    rewrite parseDictEntries_S. simpl concat. rewrite app_nil_l.
    destruct (loop_test_end pre rest) as [-> ->].
    change (blen []) with 0. simpl. do 2 f_equal. lia.
  - destruct fuel as [|fuel]; [lia|].
    simpl in Hk, Hv. destruct Hk as (Hascii & Hproto & Hklen).
    simpl map in *. simpl concat in *. unfold enc_entry at 1 in Hfuel.
    unfold enc_entry at 1. simpl fst in *. simpl snd in *.
    rewrite !length_app in Hfuel.
    pose proof (encode_nonempty v) as Hlen.
    pose proof (encode_nonempty (VStr k)) as Hlenk. simpl encode in Hlenk.
    rewrite parseDictEntries_S.
    destruct (encode_first (VStr k)) as (c & t & Hc & Hne). simpl encode in Hc.
    rewrite <- !app_assoc.
    assert (Htest : (blen pre <? blen (pre ++ encodeString k ++ encode v
                        ++ concat (map enc_entry es) ++ lit "e" ++ rest))
       && negb (bool_decide (byteAt (pre ++ encodeString k ++ encode v
                        ++ concat (map enc_entry es) ++ lit "e" ++ rest)
                        (blen pre) = Some "e"%byte)) = true).
    { rewrite Hc. apply loop_test_more. exact Hne. }
    rewrite Htest. rewrite encodeString_as_buffer.
    rewrite parseString_encoded by done.
    unfold mbind, result_bind; cbv beta iota.
    rewrite toString_key by done.
    replace (blen pre + blen (encodeBuffer (Buffer_from k)))
      with (blen (pre ++ encodeBuffer (Buffer_from k))) by apply blen_app.
    rewrite (app_assoc pre (encodeBuffer (Buffer_from k))).
    rewrite (Hv fuel (pre ++ encodeBuffer (Buffer_from k)) _ ltac:(lia)).
    cbv beta iota.
    rewrite obj_set_put by done.
    replace (blen (pre ++ encodeBuffer (Buffer_from k)) + blen (encode v))
      with (blen ((pre ++ encodeBuffer (Buffer_from k)) ++ encode v))
      by apply blen_app.
    rewrite (app_assoc _ (encode v)).
    rewrite (IH fuel _ rest (obj_put acc (k, canon v))) by lia.
    simpl fold_left. unfold canon_entry at 2. simpl fst. simpl snd.
    rewrite !blen_app. do 2 f_equal.
    unfold enc_entry. simpl fst. simpl snd.
    rewrite blen_app, <- encodeString_as_buffer. lia.
Qed.

(** With distinct keys, the object lists them as [listed] says. *)
Lemma entries_roundtrip (es : list (string * value)) :
  Forall (fun kv => good_key kv.1 /\ round_trips kv.2) es ->
  NoDup (obj_keys es) ->
  forall fuel (pre rest : Buffer),
    (length (concat (map enc_entry es)) < fuel)%nat ->
    parseDictEntries fuel (pre ++ concat (map enc_entry es) ++ lit "e" ++ rest)
                     (blen pre) []
    = Ok (listed (map canon_entry es),
          blen pre + blen (concat (map enc_entry es)) + 1).
Proof.
  intros Hes Hnd fuel pre rest Hfuel.
  rewrite (entries_parse es Hes) by done.
  unfold listed. rewrite fold_obj_put_fresh; [reflexivity| |].
  - unfold obj_keys. rewrite map_map. exact Hnd.
  - intros k _ Hin. apply elem_of_nil in Hin. done.
Qed.

(** ** Sorting the properties *)

Lemma insert_entry_perm {A} (kv : string * A) (l : list (string * A)) :
  insert_entry kv l ≡ₚ kv :: l.
Proof.
  induction l as [|kv' l IH]; simpl; [done|].
  destruct (kv.1 <=? kv'.1)%string; [done|].
  rewrite IH. apply perm_swap.
Qed.

Lemma sort_entries_perm {A} (l : list (string * A)) : sort_entries l ≡ₚ l.
Proof.
  induction l as [|kv l IH]; simpl; [done|].
  rewrite insert_entry_perm, IH. done.
Qed.

Lemma insert_entry_map {A B} (f : string * A -> string * B) kv l :
  (forall x, (f x).1 = x.1) ->
  insert_entry (f kv) (map f l) = map f (insert_entry kv l).
Proof.
  intros Hf. induction l as [|kv' l IH]; simpl; [done|].
  rewrite !Hf. destruct (kv.1 <=? kv'.1)%string; simpl; [done|].
  by rewrite IH.
Qed.

Lemma sort_entries_map {A B} (f : string * A -> string * B) l :
  (forall x, (f x).1 = x.1) ->
  sort_entries (map f l) = map f (sort_entries l).
Proof.
  intros Hf. induction l as [|kv l IH]; simpl; [done|].
  rewrite IH. by apply insert_entry_map.
Qed.

Lemma sort_insert_fst {A} (kv : string * A) l :
  sort_insert kv.1 (map fst l) = map fst (insert_entry kv l).
Proof.
  induction l as [|kv' l IH]; simpl; [done|].
  destruct (kv.1 <=? kv'.1)%string; simpl; [done|]. by rewrite IH.
Qed.

Lemma sort_strings_keys {A} (l : list (string * A)) :
  sort_strings (obj_keys l) = obj_keys (sort_entries l).
Proof.
  unfold obj_keys, sort_strings, sort_entries.
  induction l as [|kv l IH]; simpl; [done|].
  rewrite IH. apply sort_insert_fst.
Qed.

Lemma obj_get_in {A} (d : list (string * A)) (k : string) (v : A) :
  NoDup (obj_keys d) -> (k, v) ∈ d -> obj_get d k = Some v.
Proof.
  unfold obj_keys. induction d as [|[k' v'] d IH]; simpl; intros Hnd Hin.
  - apply elem_of_nil in Hin. done.
  - apply NoDup_cons in Hnd as [Hk' Hnd].
    apply elem_of_cons in Hin as [[= <- <-]|Hin].
    + rewrite bool_decide_eq_true_2 by done. done.
    + rewrite bool_decide_eq_false_2; [by apply IH|].
      intros ->. apply Hk'. apply list_elem_of_fmap. exists (k, v). done.
Qed.

Lemma obj_keys_map_values {A B} (f : A -> B) (d : list (string * A)) :
  obj_keys (map (fun kv => (kv.1, f kv.2)) d) = obj_keys d.
Proof. unfold obj_keys. rewrite map_map. reflexivity. Qed.

(** [encodeDictionary] emits the properties in the order of their keys. *)
Lemma encode_dict_sorted (d : BencodeDict) :
  NoDup (obj_keys d) ->
  encode (VDict d)
  = lit "d" ++ concat (map enc_entry (sort_entries d)) ++ lit "e".
Proof.
  intros Hnd. simpl encode. unfold encodeEntries.
  set (enc := map (fun kv => (kv.1, encode kv.2)) d).
  do 2 f_equal. f_equal.
  rewrite sort_strings_keys. unfold obj_keys. rewrite map_map.
  assert (Hs : sort_entries enc
               = map (fun kv => (kv.1, encode kv.2)) (sort_entries d)).
  { unfold enc. apply sort_entries_map. done. }
  rewrite Hs, map_map. simpl.
  apply map_ext_in. intros [k v] Hin. simpl. unfold enc_entry; simpl.
  f_equal.
  assert (Hg : obj_get enc k = Some (encode v)).
  { apply obj_get_in.
    - unfold enc. rewrite obj_keys_map_values. done.
    - unfold enc. apply list_elem_of_fmap. exists (k, v). split; [done|].
      rewrite <- (sort_entries_perm d). apply list_elem_of_In. done. }
  rewrite Hg. reflexivity.
Qed.

Lemma encode_list (l : list value) :
  encode (VList l) = lit "l" ++ concat (map encode l) ++ lit "e".
Proof. reflexivity. Qed.

Lemma canon_dict (d : BencodeDict) :
  canon (VDict d) = VDict (listed (map canon_entry (sort_entries d))).
Proof. simpl. do 2 f_equal. apply (sort_entries_map canon_entry). done. Qed.

Lemma producible_dict_inv (d : BencodeDict) :
  producible (VDict d) ->
  NoDup (obj_keys d) /\ Forall (fun kv => good_key kv.1 /\ producible kv.2) d.
Proof. inversion 1; auto. Qed.

(** Every value that the decoder produces survives the round trip. *)
Lemma producible_round_trips (v : value) : producible v -> round_trips v.
Proof.
  induction v as [s|n|b|l IH|d IH] using value_ind'; intros Hp.
  - inversion Hp.
  - inversion Hp as [n' Hd Hn| | |]; subst.
    intros fuel pre rest Hfuel. rename n' into n.
    destruct fuel as [|fuel];
      [pose proof (encode_nonempty (VNum (Int n))); lia|].
    destruct (show_number_decimal n Hd Hn) as (c & Hshow & Hc & Hround & Hzero).
    destruct (magnitude_digits_spec c) as (Hne & Hds & Hval).
    rewrite Z.abs_eq in Hval by lia.
    change (encode (VNum (Int n)))
      with (lit "i" ++ show_number (Int n) ++ lit "e").
    rewrite Hshow.
    replace (lit "i" ++ (sign_bytes (n <? 0) ++ magnitude_digits c) ++ lit "e")
      with (int_token (n <? 0) (magnitude_digits c))
      by (unfold int_token; rewrite <- !app_assoc; reflexivity).
    rewrite parseValue_int_token by done.
    assert (Hto : to_double (signed_number (n <? 0) (magnitude_digits c))
                  = Ok (Int n)).
    { unfold signed_number, signed. rewrite Hval.
      pose proof exponent_below_limit as Hlim.
      destruct (n <? 0) eqn:En; zbool; simpl andb.
      - destruct (c =? 0) eqn:Ec; zbool; [lia|].
        unfold to_double.
        destruct (Z.abs (- c) <? DOUBLE_LIMIT) eqn:El; zbool; [|lia].
        rewrite Z.abs_opp, (Z.abs_eq c) by lia. rewrite Hround.
        do 2 f_equal. destruct c; simpl; lia.
      - unfold to_double.
        destruct (Z.abs c <? DOUBLE_LIMIT) eqn:El; zbool; [|lia].
        rewrite (Z.abs_eq c) by lia. rewrite Hround.
        do 2 f_equal. destruct c; simpl; lia. }
    rewrite Hto. reflexivity.
  - inversion Hp as [|b' Hb| |]; subst.
    intros fuel pre rest Hfuel.
    destruct fuel as [|fuel]; [pose proof (encode_nonempty (VBuf b)); lia|].
    change (encode (VBuf b)) with (encodeBuffer b).
    apply parseValue_buffer. done.
  - inversion Hp as [| |l' Hl|]; subst.
    assert (Hrt : Forall round_trips l).
    { rewrite Forall_forall in *. intros x Hx. apply IH; [done|]. apply Hl; done. }
    intros fuel pre rest Hfuel.
    destruct fuel as [|fuel]; [pose proof (encode_nonempty (VList l)); lia|].
    rewrite encode_list in *. rewrite parseValue_S.
    assert (Hb : byteAt (pre ++ (lit "l" ++ concat (map encode l) ++ lit "e")
                         ++ rest) (blen pre) = Some "l"%byte)
      by apply byteAt_app.
    rewrite Hb. change (is_digit "l") with false. cbv iota.
    rewrite (bool_decide_eq_false_2 ("l"%byte = "i"%byte)) by discriminate.
    rewrite (bool_decide_eq_true_2 ("l"%byte = "l"%byte)) by done.
    replace (pre ++ (lit "l" ++ concat (map encode l) ++ lit "e") ++ rest)
      with ((pre ++ lit "l") ++ concat (map encode l) ++ lit "e" ++ rest)
      by (rewrite <- !app_assoc; reflexivity).
    replace (blen pre + 1) with (blen (pre ++ lit "l"))
      by (rewrite blen_app; reflexivity).
    rewrite (items_roundtrip l Hrt).
    2:{ rewrite !length_app in Hfuel. simpl in Hfuel. lia. }
    unfold mbind, result_bind; cbv beta iota. rewrite app_nil_l.
    change (canon (VList l)) with (VList (map canon l)).
    do 2 f_equal. rewrite !blen_app.
    change (blen (lit "l")) with 1. change (blen (lit "e")) with 1. lia.
  - apply producible_dict_inv in Hp as [Hnd Hd].
    assert (Hes : Forall (fun kv => good_key kv.1 /\ round_trips kv.2)
                         (sort_entries d)).
    { rewrite (sort_entries_perm d).
      rewrite Forall_forall in *. intros x Hx.
      destruct (Hd x Hx) as [Hk Hpx]. split; [done|]. apply IH; done. }
    assert (Hnd' : NoDup (obj_keys (sort_entries d))).
    { unfold obj_keys. rewrite (sort_entries_perm d). exact Hnd. }
    intros fuel pre rest Hfuel.
    destruct fuel as [|fuel]; [pose proof (encode_nonempty (VDict d)); lia|].
    rewrite canon_dict. rewrite encode_dict_sorted in * by done.
    rewrite parseValue_S.
    assert (Hb : byteAt (pre ++ (lit "d" ++ concat (map enc_entry (sort_entries d))
                                 ++ lit "e") ++ rest) (blen pre)
                 = Some "d"%byte) by apply byteAt_app.
    rewrite Hb. change (is_digit "d") with false. cbv iota.
    rewrite (bool_decide_eq_false_2 ("d"%byte = "i"%byte)) by discriminate.
    rewrite (bool_decide_eq_false_2 ("d"%byte = "l"%byte)) by discriminate.
    rewrite (bool_decide_eq_true_2 ("d"%byte = "d"%byte)) by done.
    replace (pre ++ (lit "d" ++ concat (map enc_entry (sort_entries d))
                     ++ lit "e") ++ rest)
      with ((pre ++ lit "d") ++ concat (map enc_entry (sort_entries d))
            ++ lit "e" ++ rest)
      by (rewrite <- !app_assoc; reflexivity).
    replace (blen pre + 1) with (blen (pre ++ lit "d"))
      by (rewrite blen_app; reflexivity).
    rewrite (entries_roundtrip _ Hes Hnd').
    + unfold mbind, result_bind; cbv beta iota.
      do 2 f_equal. rewrite !blen_app.
      change (blen (lit "d")) with 1. change (blen (lit "e")) with 1. lia.
    + rewrite !length_app in Hfuel. simpl in Hfuel. lia.
Qed.

(** Decoding an encoding returns the canonical form of the value. *)
Lemma decode_encode_canon (v : value) :
  producible v -> decode (encode v) = Ok (canon v).
Proof.
  intros Hp. unfold decode, parse, fuel_for.
  pose proof (producible_round_trips v Hp (S (2 * length (encode v))) [] []
                ltac:(lia)) as H.
  rewrite app_nil_l, app_nil_r in H. change (blen []) with 0 in H.
  rewrite H. reflexivity.
Qed.


(** ** The order of the properties does not matter to [encode] *)

Lemma insert_entry_head (kv : string * value) (l : BencodeDict) :
  HdRel key_le kv l -> insert_entry kv l = kv :: l.
Proof.
  intros H. destruct l as [|kv' l]; [done|]. simpl.
  apply HdRel_inv in H. unfold key_le in H. rewrite H. done.
Qed.

Lemma sort_entries_sorted (l : BencodeDict) :
  Sorted key_le l -> sort_entries l = l.
Proof.
  induction 1 as [|kv l Hs IH Hhd]; [done|].
  change (sort_entries (kv :: l)) with (insert_entry kv (sort_entries l)).
  rewrite IH. by apply insert_entry_head.
Qed.

Lemma insert_entry_Sorted (kv : string * value) (l : BencodeDict) :
  Sorted key_le l -> Sorted key_le (insert_entry kv l).
Proof.
  induction 1 as [|kv' l Hs IH Hhd]; simpl.
  { repeat constructor. }
  destruct (kv.1 <=? kv'.1)%string eqn:E.
  - constructor; [by constructor|]. constructor. exact E.
  - constructor; [exact IH|].
    assert (Hle : key_le kv' kv).
    { unfold key_le. destruct (String.leb_total kv.1 kv'.1); congruence. }
    destruct l as [|kv'' l]; simpl; [by constructor|].
    destruct (kv.1 <=? kv''.1)%string; constructor; [done|].
    by apply HdRel_inv in Hhd.
Qed.

Lemma sort_entries_Sorted (l : BencodeDict) : Sorted key_le (sort_entries l).
Proof.
  induction l as [|kv l IH]; simpl; [constructor|].
  by apply insert_entry_Sorted.
Qed.

(** The order of the keys is transitive. *)
Lemma string_leb_trans (a b c : string) :
  (a <=? b)%string = true -> (b <=? c)%string = true ->
  (a <=? c)%string = true.
Proof.
  unfold String.leb. revert b c.
  induction a as [|x a IH]; intros [|y b] [|z c]; simpl; try done.
  unfold Ascii.compare.
  destruct (N.compare_spec (N_of_ascii x) (N_of_ascii y)) as [E1|E1|E1];
    destruct (N.compare_spec (N_of_ascii y) (N_of_ascii z)) as [E2|E2|E2];
    try done.
  - rewrite E1, E2, N.compare_refl. apply IH.
  - intros _ _. rewrite E1. apply N.compare_lt_iff in E2. rewrite E2. done.
  - intros _ _. rewrite <- E2. apply N.compare_lt_iff in E1. rewrite E1. done.
  - intros _ _. assert (E : (N_of_ascii x < N_of_ascii z)%N) by lia.
    apply N.compare_lt_iff in E. rewrite E. done.
Qed.

Lemma key_le_trans : Transitive key_le.
Proof. intros a b c. unfold key_le. apply string_leb_trans. Qed.

Lemma keys_inj {A} (d : list (string * A)) (x y : string * A) :
  NoDup (obj_keys d) -> x ∈ d -> y ∈ d -> x.1 = y.1 -> x = y.
Proof.
  induction d as [|kv d IH]; intros Hnd Hx Hy Hk; [inversion Hx|].
  simpl in Hnd. apply NoDup_cons in Hnd as [Hkv Hnd].
  apply elem_of_cons in Hx as [->|Hx]; apply elem_of_cons in Hy as [->|Hy].
  - done.
  - exfalso. apply Hkv. rewrite Hk. apply list_elem_of_fmap_2. exact Hy.
  - exfalso. apply Hkv. rewrite <- Hk. apply list_elem_of_fmap_2. exact Hx.
  - auto.
Qed.

(** Two objects with the same properties list them alike once sorted. *)
Lemma sort_entries_perm_eq (d d0 : BencodeDict) :
  NoDup (obj_keys d) -> d ≡ₚ d0 -> sort_entries d = sort_entries d0.
Proof.
  intros Hnd Hp.
  apply (@Sorted_unique_strong _ key_le key_le_trans).
  - intros x1 x2 H1 H2 L1 L2.
    rewrite sort_entries_perm in H1. rewrite sort_entries_perm, <- Hp in H2.
    apply (keys_inj d); try done.
    apply String.leb_antisym; done.
  - apply sort_entries_Sorted.
  - apply sort_entries_Sorted.
  - rewrite !sort_entries_perm. exact Hp.
Qed.

Lemma encode_dict_perm (d d0 : BencodeDict) :
  NoDup (obj_keys d) -> d ≡ₚ d0 -> encode (VDict d) = encode (VDict d0).
Proof.
  intros Hnd Hp.
  rewrite (encode_dict_sorted d Hnd), (encode_dict_sorted d0).
  - by rewrite (sort_entries_perm_eq d d0 Hnd Hp).
  - unfold obj_keys. rewrite <- Hp. exact Hnd.
Qed.

(** A value and its canonical form have the same encoding. *)
Lemma encode_canon (v : value) : producible v -> encode (canon v) = encode v.
Proof.
  induction v as [s|n|b|l IH|d IH] using value_ind'; intros Hp; try done.
  - inversion Hp as [| |l' Hl|]; subst.
    change (canon (VList l)) with (VList (map canon l)).
    rewrite !encode_list. do 2 f_equal. f_equal. rewrite map_map.
    apply map_ext_in. intros x Hx. rewrite Forall_forall in *.
    apply list_elem_of_In in Hx. apply IH; [done|]. by apply Hl.
  - apply producible_dict_inv in Hp as [Hnd Hd].
    change (canon (VDict d))
      with (VDict (listed (sort_entries (map canon_entry d)))).
    assert (Hnd' : NoDup (obj_keys (map canon_entry d))).
    { unfold obj_keys. rewrite map_map. exact Hnd. }
    rewrite <- (encode_dict_perm (map canon_entry d)); [|exact Hnd'|].
    2:{ rewrite listed_perm, sort_entries_perm. done. }
    rewrite (encode_dict_sorted d Hnd), (encode_dict_sorted _ Hnd').
    rewrite (sort_entries_map canon_entry) by done.
    do 2 f_equal. f_equal. rewrite map_map.
    apply map_ext_in. intros [k x] Hx. unfold enc_entry, canon_entry. simpl.
    f_equal. apply list_elem_of_In in Hx. rewrite (sort_entries_perm d) in Hx.
    rewrite Forall_forall in *. apply (IH _ Hx). by apply (Hd _ Hx).
Qed.

(** The canonical form of a value of the round trip is one. *)
Lemma producible_canon (v : value) : producible v -> producible (canon v).
Proof.
  induction v as [s|n|b|l IH|d IH] using value_ind'; intros Hp; try done.
  - inversion Hp as [| |l' Hl|]; subst.
    change (canon (VList l)) with (VList (map canon l)). constructor.
    apply Forall_fmap. rewrite Forall_forall in *. intros x Hx.
    apply IH; [done|]. by apply Hl.
  - apply producible_dict_inv in Hp as [Hnd Hd].
    change (canon (VDict d))
      with (VDict (listed (sort_entries (map canon_entry d)))).
    assert (Hperm : listed (sort_entries (map canon_entry d))
                    ≡ₚ map canon_entry d).
    { rewrite listed_perm, sort_entries_perm. done. }
    constructor.
    + unfold obj_keys. rewrite Hperm, map_map. exact Hnd.
    + rewrite Hperm. apply Forall_fmap. rewrite Forall_forall in *.
      intros x Hx. destruct (Hd x Hx) as [Hk Hpx]. split; [exact Hk|].
      apply IH; done.
Qed.

(** ** What the decoder produces *)





Lemma obj_keys_replace (d : BencodeDict) (k : string) (v : value) :
  obj_keys (obj_replace d k v) = obj_keys d.
Proof.
  unfold obj_keys. induction d as [|[k' v'] d IH]; simpl; [done|].
  destruct (bool_decide (k' = k)); simpl; [done|]. by rewrite IH.
Qed.









(** Negative zero does not survive: it is encoded as [i0e]. *)
Example negative_zero_roundtrip :
  decode (lit "i-0e") = Ok (VNum NegZero) /\
  encode (VNum NegZero) = lit "i0e" /\
  decode (lit "i0e") = Ok (VNum (Int 0)).
Proof. vm_compute. repeat split; reflexivity. Qed.

End RoundTrip.

(** * The parser never runs out of fuel *)
Section ParserTotal.
Import Bencode.

Lemma bind_not_fuel {A B} (r : result A) (k : A -> result B) :
  r <> Stuck OutOfFuel ->
  (forall a, r = Ok a -> k a <> Stuck OutOfFuel) ->
  (r ≫= k) <> Stuck OutOfFuel.
Proof.
  intros Hr Hk. destruct r as [a|e|w]; unfold mbind, result_bind.
  - apply Hk. reflexivity.
  - discriminate.
  - intros [= ->]. apply Hr. reflexivity.
Qed.

Lemma toString_not_fuel (b : Buffer) : toString b <> Stuck OutOfFuel.
Proof. unfold toString. destruct (forallb is_ascii b); discriminate. Qed.

Lemma safe_not_fuel (x : number) : safe x <> Stuck OutOfFuel.
Proof. unfold safe. destruct (_ <=? _); discriminate. Qed.

Lemma to_double_not_fuel (x : number) : to_double x <> Stuck OutOfFuel.
Proof.
  destruct x as [n|]; simpl; [|discriminate].
  destruct (_ <? _); discriminate.
Qed.

Lemma obj_set_not_fuel d k v : obj_set d k v <> Stuck OutOfFuel.
Proof.
  unfold obj_set. destruct (bool_decide _); [destruct v; discriminate|].
  destruct (obj_has d k); discriminate.
Qed.

Lemma parseString_not_fuel data pos : parseString data pos <> Stuck OutOfFuel.
Proof.
  unfold parseString. destruct (_ =? -1); [discriminate|].
  apply bind_not_fuel; [apply toString_not_fuel|]. intros s _.
  destruct (parseInt s) as [len|]; [|discriminate].
  destruct (number_Z len <? 0); [discriminate|].
  apply bind_not_fuel; [apply safe_not_fuel|]. discriminate.
Qed.

Lemma parseInteger_not_fuel data pos : parseInteger data pos <> Stuck OutOfFuel.
Proof.
  unfold parseInteger. destruct (_ =? -1); [discriminate|].
  apply bind_not_fuel; [apply toString_not_fuel|]. intros s _.
  destruct (parseInt s) as [n|]; [|discriminate].
  apply bind_not_fuel; [apply to_double_not_fuel|]. discriminate.
Qed.

(** Every successful step of the parser moves [position] forward. *)
Lemma parseString_advances data pos b p :
  0 <= pos -> parseString data pos = Ok (b, p) -> pos < p.
Proof.
  intros Hpos. unfold parseString.
  destruct (indexOf_range data ":"%byte pos Hpos) as [Hi|Hi].
  { rewrite Hi. discriminate. }
  destruct (_ =? -1); [discriminate|].
  destruct (toString _) as [s| |]; try discriminate.
  unfold mbind, result_bind; cbv beta iota.
  destruct (parseInt s) as [len|]; [|discriminate].
  destruct (number_Z len <? 0) eqn:E; zbool; [discriminate|].
  destruct (safe len) as [len'| |] eqn:Es; try discriminate.
  apply safe_inv in Es as [-> _]. intros [= <- <-]. lia.
Qed.

Lemma parseInteger_advances data pos n p :
  0 <= pos -> parseInteger data pos = Ok (n, p) -> pos < p.
Proof.
  intros Hpos. unfold parseInteger.
  destruct (indexOf_range data "e"%byte (pos + 1) ltac:(lia)) as [Hi|Hi].
  { rewrite Hi. discriminate. }
  destruct (_ =? -1); [discriminate|].
  destruct (toString _) as [s| |]; try discriminate.
  unfold mbind, result_bind; cbv beta iota.
  destruct (parseInt s) as [x|]; [|discriminate].
  destruct (to_double x) as [x'| |]; try discriminate.
  intros [= <- <-]. lia.
Qed.

Lemma parse_advances (fuel : nat) :
  (forall data pos v p,
     0 <= pos -> parseValue fuel data pos = Ok (v, p) -> pos < p) /\
  (forall data pos acc l p,
     0 <= pos -> parseListItems fuel data pos acc = Ok (l, p) -> pos < p) /\
  (forall data pos acc d p,
     0 <= pos -> parseDictEntries fuel data pos acc = Ok (d, p) -> pos < p).
Proof.
  induction fuel as [|fuel (IHv & IHl & IHd)].
  { split; [|split]; intros; discriminate. }
  split; [|split].
  - intros data pos v p Hpos. rewrite parseValue_S.
    destruct (byteAt data pos) as [c|]; [|discriminate].
    destruct (is_digit c).
    { destruct (parseString data pos) as [[b q]| |] eqn:E; try discriminate.
      intros [= <- <-]. eapply parseString_advances; eauto. }
    destruct (bool_decide (c = "i"%byte)).
    { destruct (parseInteger data pos) as [[n q]| |] eqn:E; try discriminate.
      intros [= <- <-]. eapply parseInteger_advances; eauto. }
    destruct (bool_decide (c = "l"%byte)).
    { destruct (parseListItems fuel data (pos + 1) []) as [[l q]| |] eqn:E;
        try discriminate.
      intros [= <- <-]. apply IHl in E; lia. }
    destruct (bool_decide (c = "d"%byte)); [|discriminate].
    destruct (parseDictEntries fuel data (pos + 1) []) as [[d q]| |] eqn:E;
      try discriminate.
    intros [= <- <-]. apply IHd in E; lia.
  - intros data pos acc l p Hpos. rewrite parseListItems_S.
    destruct (_ && _).
    + destruct (parseValue fuel data pos) as [[v q]| |] eqn:E; try discriminate.
      unfold mbind, result_bind; cbv beta iota. intros Hl.
      apply IHv in E; [|done]. apply IHl in Hl; lia.
    + destruct (blen data <=? pos); [discriminate|].
      intros [= <- <-]. lia.
  - intros data pos acc d p Hpos. rewrite parseDictEntries_S.
    destruct (_ && _).
    + destruct (parseString data pos) as [[kb q]| |] eqn:Ek; try discriminate.
      unfold mbind, result_bind; cbv beta iota.
      destruct (toString kb) as [key| |]; try discriminate.
      destruct (parseValue fuel data q) as [[v q']| |] eqn:Ev; try discriminate.
      destruct (obj_set acc key v) as [acc'| |]; try discriminate.
      intros Hd. apply parseString_advances in Ek; [|done].
      apply IHv in Ev; [|lia]. apply IHd in Hd; lia.
    + destruct (blen data <=? pos); [discriminate|].
      intros [= <- <-]. lia.
Qed.

Lemma byteAt_Some_lt data pos c :
  byteAt data pos = Some c -> 0 <= pos < blen data.
Proof.
  unfold byteAt. destruct (_ || _) eqn:E; [discriminate|]. zbool. lia.
Qed.

(** Two units of fuel for each remaining byte are enough. *)
Lemma parse_enough_fuel (fuel : nat) :
  (forall data pos,
     0 <= pos -> (1 <= fuel)%nat -> 2 * (blen data - pos) <= Z.of_nat fuel ->
     parseValue fuel data pos <> Stuck OutOfFuel) /\
  (forall data pos acc,
     0 <= pos -> (1 <= fuel)%nat -> 2 * (blen data - pos) < Z.of_nat fuel ->
     parseListItems fuel data pos acc <> Stuck OutOfFuel) /\
  (forall data pos acc,
     0 <= pos -> (1 <= fuel)%nat -> 2 * (blen data - pos) < Z.of_nat fuel ->
     parseDictEntries fuel data pos acc <> Stuck OutOfFuel).
Proof.
  induction fuel as [|fuel (IHv & IHl & IHd)].
  { split; [|split]; intros; lia. }
  split; [|split].
  - intros data pos Hpos _ Hf. rewrite parseValue_S.
    destruct (byteAt data pos) as [c|] eqn:Hc; [|discriminate].
    apply byteAt_Some_lt in Hc.
    destruct (is_digit c).
    { apply bind_not_fuel; [apply parseString_not_fuel|].
      intros [b q] _. discriminate. }
    destruct (bool_decide (c = "i"%byte)).
    { apply bind_not_fuel; [apply parseInteger_not_fuel|].
      intros [n q] _. discriminate. }
    destruct (bool_decide (c = "l"%byte)).
    { apply bind_not_fuel; [apply IHl; lia|]. intros [l q] _. discriminate. }
    destruct (bool_decide (c = "d"%byte)); [|discriminate].
    apply bind_not_fuel; [apply IHd; lia|]. intros [d q] _. discriminate.
  - intros data pos acc Hpos _ Hf. rewrite parseListItems_S.
    destruct (_ && _) eqn:Ht.
    + zbool. apply bind_not_fuel; [apply IHv; lia|].
      intros [v q] Hv. apply (proj1 (parse_advances fuel)) in Hv; [|done].
      apply IHl; lia.
    + destruct (blen data <=? pos); discriminate.
  - intros data pos acc Hpos _ Hf. rewrite parseDictEntries_S.
    destruct (_ && _) eqn:Ht.
    + zbool. apply bind_not_fuel; [apply parseString_not_fuel|].
      intros [kb q] Hk. apply parseString_advances in Hk; [|done].
      apply bind_not_fuel; [apply toString_not_fuel|]. intros key _.
      destruct (decide (q < blen data)) as [Hq|Hq].
      * apply bind_not_fuel; [apply IHv; lia|].
        intros [v q'] Hv. apply (proj1 (parse_advances fuel)) in Hv; [|lia].
        apply bind_not_fuel; [apply obj_set_not_fuel|]. intros d _.
        apply IHd; lia.
      * apply bind_not_fuel; [apply IHv; lia|].
        intros [v q'] Hv. apply (proj1 (parse_advances fuel)) in Hv; [|lia].
        apply bind_not_fuel; [apply obj_set_not_fuel|]. intros d _.
        apply IHd; lia.
    + destruct (blen data <=? pos); discriminate.
Qed.

(** [decode] always has fuel enough: it returns, throws, or meets an input
    outside the embedding. *)
Lemma decode_not_out_of_fuel (data : Buffer) : decode data <> Stuck OutOfFuel.
Proof.
  unfold decode, parse. apply bind_not_fuel.
  - apply (proj1 (parse_enough_fuel _)); unfold fuel_for, blen; lia.
  - intros [v p] _. discriminate.
Qed.

End ParserTotal.

(** * The peer session *)
Section PeerFacts.
Import Peer.

Lemma sendData_frames s data frame :
  frame ∈ sendData s data -> frame = data.
Proof.
  unfold sendData. destruct (socket s && connected s).
  - intros H. apply list_elem_of_singleton in H. exact H.
  - intros H. apply elem_of_nil in H. destruct H.
Qed.

Lemma is_request_at (pre : Buffer) (b : byte) (rest : Buffer) :
  blen pre = 4 ->
  is_request (pre ++ b :: rest) = bool_decide (b = byte_of_Z REQUEST).
Proof.
  intros H. unfold is_request. rewrite <- H, byteAt_app.
  apply bool_decide_ext. split; congruence.
Qed.

Lemma handshake_not_request s : is_request (handshakeMessage s) = false.
Proof.
  change (handshakeMessage s) with
    ([byte_of_Z 19; "B"; "i"; "t"]%byte
     ++ "T"%byte :: (lit "orrent protocol" ++ repeat x00 8
                     ++ infoHash_ s ++ peerId s)).
  rewrite is_request_at by reflexivity. reflexivity.
Qed.

Lemma sendInterested_frames s frame :
  frame ∈ (sendInterested s).2 -> is_request frame = false.
Proof.
  unfold sendInterested; simpl. intros H.
  apply sendData_frames in H. subst frame. reflexivity.
Qed.

Lemma handleHandshake_frames s frame :
  frame ∈ written (handleHandshake s).2 -> is_request frame = false.
Proof.
  unfold handleHandshake.
  destruct (negb (buf_equals _ PROTOCOL_STRING));
    [cbn; intros H; apply elem_of_nil in H; destruct H|].
  destruct (negb (buf_equals _ _));
    [cbn; intros H; apply elem_of_nil in H; destruct H|].
  match goal with |- context [sendInterested ?x] =>
    pose proof (sendInterested_frames x frame) as Hs;
    destruct (sendInterested x) as [s' w] end.
  cbn in *. exact Hs.
Qed.

Lemma handleData_frames s data frame :
  frame ∈ written (handleData s data).2 -> is_request frame = false.
Proof.
  unfold handleData.
  set (s1 := set_messageBuffer s (messageBuffer s ++ data)).
  destruct (negb (handshakeCompleted s1)
            && (HANDSHAKE_LENGTH <=? blen (messageBuffer s1))).
  - pose proof (handleHandshake_frames s1 frame) as Hh.
    destruct (handleHandshake s1) as [s2 e1]. simpl in Hh.
    destruct (handshakeCompleted s2).
    + destruct (processMessages s2) as [s3 ev]. simpl.
      rewrite app_nil_r. exact Hh.
    + simpl. exact Hh.
  - destruct (handshakeCompleted s1).
    + destruct (processMessages s1) as [s3 ev]. simpl.
      intros H. apply elem_of_nil in H. destruct H.
    + simpl. intros H. apply elem_of_nil in H. destruct H.
Qed.

(** [handleMessage] changes [choked] only on [choke] and [unchoke]. *)
Lemma handleMessage_choked s ty payload :
  choked (peer (handleMessage s ty payload).1)
  = if ty =? CHOKE then true
    else if ty =? UNCHOKE then false else choked (peer s).
Proof.
  unfold handleMessage.
  repeat match goal with
         | |- context [if ?b then _ else _] => destruct b; simpl; try reflexivity
         end.
Qed.

(** C9. From any state of a session, a call that writes a [request] message
    to the socket starts, and ends, with the peer's [choked] flag cleared:
    only [requestPiece] writes such messages, it returns at once when the
    flag is set, and it does not change the flag. *)
Theorem no_request_while_choked s0 s w s' frame :
  reachable s0 s -> step s w s' ->
  frame ∈ w -> is_request frame = true ->
  choked (peer s) = false /\ choked (peer s') = false.
Proof.
  intros _ Hstep Hin Hreq. destruct Hstep as [s c].
  destruct c as [|data|ty payload|i l| |]; simpl in *.
  - destruct (onConnect s) as [s1 e] eqn:E. simpl in Hin.
    unfold onConnect in E. inversion E; subst; clear E. simpl in Hin.
    apply sendData_frames in Hin. subst frame.
    rewrite handshake_not_request in Hreq. discriminate Hreq.
  - pose proof (handleData_frames s data frame) as H.
    destruct (handleData s data) as [s1 e]. simpl in *.
    rewrite (H Hin) in Hreq. discriminate.
  - apply elem_of_nil in Hin. destruct Hin.
  - unfold requestPiece in Hin. destruct (choked (peer s)); [|done].
    apply elem_of_nil in Hin. destruct Hin.
  - apply elem_of_nil in Hin. destruct Hin.
  - apply elem_of_nil in Hin. destruct Hin.
Qed.

(** Every buffer that [requestPiece] writes is a [request] message. *)
Lemma requestPiece_writes_requests s i l frame :
  frame ∈ requestPiece s i l -> is_request frame = true.
Proof.
  unfold requestPiece. destruct (choked (peer s)).
  { intros H. apply elem_of_nil in H. destruct H. }
  generalize (Z.to_nat (ceil_div l BLOCK_SIZE)), 0.
  intros fuel. induction fuel as [|fuel IH]; intros off; simpl.
  { intros H. apply elem_of_nil in H. destruct H. }
  destruct (off <? l); [|intros H; apply elem_of_nil in H; destruct H].
  destruct (requestBlock s i off (Z.min BLOCK_SIZE (l - off))) as [w| |] eqn:E;
    try (intros H; apply elem_of_nil in H; destruct H).
  intros H. apply elem_of_app in H as [H|H]; [|eauto].
  unfold requestBlock in E.
  destruct (writeUInt32BE i) as [bi| |]; try discriminate.
  destruct (writeUInt32BE off) as [bo| |]; try discriminate.
  destruct (writeUInt32BE _) as [bl| |]; try discriminate.
  simpl in E. unfold createMessage in E.
  destruct (writeUInt32BE (blen (bi ++ bo ++ bl) + 1)) as [lb| |] eqn:El;
    try discriminate.
  simpl in E. inversion E; subst w; clear E.
  apply sendData_frames in H. subst frame.
  unfold writeUInt32BE in El.
  destruct ((0 <=? _) && (_ <=? 4294967295)); [|discriminate].
  inversion El; subst lb; clear El.
  pose proof (be_bytes_length 4 (Z.to_N (blen (bi ++ bo ++ bl) + 1))) as HL.
  destruct (Sha1.be_bytes 4 _) as [|a [|b [|c [|d [|e t]]]]]; try discriminate.
  change ([a; b; c; d] ++ [byte_of_Z REQUEST] ++ bi ++ bo ++ bl)
    with ([a; b; c; d] ++ byte_of_Z REQUEST :: (bi ++ bo ++ bl)).
  rewrite is_request_at by reflexivity. reflexivity.
Qed.

(** An unchoked session does write requests: after [unchoke],
    [requestPiece(3, 20000)] writes [request_3_0] first. *)
Lemma no_request_while_choked_witness :
  reachable session_choked session_unchoked /\
  step session_unchoked (exec session_unchoked (CRequestPiece 3 20000)).2
       (exec session_unchoked (CRequestPiece 3 20000)).1 /\
  request_3_0 ∈ (exec session_unchoked (CRequestPiece 3 20000)).2 /\
  is_request request_3_0 = true /\
  choked (peer session_unchoked) = false.
Proof.
  assert (Hr : reachable session_choked session_unchoked).
  { eapply reach_step; [apply reach_init|].
    apply (step_call session_choked (CMessage UNCHOKE [])). }
  assert (Hs : step session_unchoked
                    (exec session_unchoked (CRequestPiece 3 20000)).2
                    (exec session_unchoked (CRequestPiece 3 20000)).1)
    by apply step_call.
  assert (Hin : request_3_0 ∈ (exec session_unchoked (CRequestPiece 3 20000)).2).
  { vm_compute. left. }
  assert (Hq : is_request request_3_0 = true) by reflexivity.
  split; [exact Hr|]. split; [exact Hs|]. split; [exact Hin|].
  split; [exact Hq|].
  exact (proj1 (no_request_while_choked session_choked session_unchoked
                  _ _ _ Hr Hs Hin Hq)).
Defined.

End PeerFacts.

(** * The info hash *)
Section TorrentFacts.
Import Bencode Torrent.

Lemma searchInfo_first (n : nat) (data : Buffer) (i target : Z) :
  (forall j, i <= j < target -> slice data j (j + 6) <> lit "4:info") ->
  slice data target (target + 6) = lit "4:info" ->
  i <= target -> (Z.to_nat (target - i) < n)%nat ->
  searchInfo n data i = target + 6.
Proof.
  revert i. induction n as [|n IH]; intros i Hno Hat Hle Hn; [lia|].
  simpl. unfold buf_equals. destruct (decide (i = target)) as [->|Hne].
  - rewrite Hat, bool_decide_eq_true_2 by done. done.
  - rewrite bool_decide_eq_false_2 by (apply Hno; lia).
    apply IH; [|done|lia|lia]. intros j Hj. apply Hno. lia.
Qed.

(** Where the claim of C3 holds: when the key of the [info] dictionary is the
    first occurrence of the text "4:info" in the file, and the bytes after it
    are the encoding of a value that the decoder produces, the extraction
    returns exactly these bytes, and the info hash is their digest. *)
Lemma extractRawInfoDict_exact (pre rest : Buffer) (v : value) :
  BencodeSpec.producible v ->
  info_key_first pre (encode v ++ rest) ->
  extractRawInfoDict (pre ++ lit "4:info" ++ encode v ++ rest) = Ok (encode v) /\
  computeInfoHash (pre ++ lit "4:info" ++ encode v ++ rest)
  = Ok (CryptoUtils.sha1 (encode v)).
Proof.
  intros Hp Hfirst.
  assert (He : extractRawInfoDict (pre ++ lit "4:info" ++ encode v ++ rest)
               = Ok (encode v)).
  { unfold extractRawInfoDict.
    set (data := pre ++ lit "4:info" ++ encode v ++ rest).
    pose proof (blen_nonneg pre). pose proof (blen_nonneg rest).
    pose proof (encode_nonempty v) as Hlen.
    assert (Hdata : blen data = blen pre + 6 + blen (encode v) + blen rest).
    { unfold data. rewrite !blen_app. change (blen (lit "4:info")) with 6. lia. }
    assert (Hat : slice data (blen pre) (blen pre + 6) = lit "4:info").
    { unfold data. change 6 with (blen (lit "4:info")). apply slice_app. }
    rewrite (searchInfo_first _ data 0 (blen pre)); [|exact Hfirst|exact Hat|lia|].
    2:{ change (blen (lit "4:infod")) with 7. unfold blen in *. lia. }
    destruct (_ =? -1) eqn:E; zbool; [lia|].
    replace (slice data (blen pre + 6) (blen data)) with (encode v ++ rest).
    2:{ unfold data. rewrite (app_assoc pre).
        replace (blen pre + 6) with (blen (pre ++ lit "4:info"))
          by (rewrite blen_app; reflexivity).
        symmetry. apply slice_to_end. }
    unfold parse, fuel_for.
    pose proof (producible_round_trips v Hp
                  (S (2 * length (encode v ++ rest))) [] rest) as Hrt.
    rewrite app_nil_l in Hrt. change (blen []) with 0 in Hrt.
    rewrite Hrt by (rewrite length_app; lia).
    unfold mbind, result_bind; cbv beta iota. simpl rethrow.
    rewrite encode_canon by done. reflexivity. }
  split; [exact He|]. unfold computeInfoHash. rewrite He. reflexivity.
Qed.

(** On a metainfo whose only occurrence of the text "4:info" is the key of
    the [info] dictionary, the extraction returns the bytes of the
    dictionary. *)
Example extractRawInfoDict_plain :
  extractRawInfoDict torrent_plain = Ok info_raw /\
  computeInfoHash torrent_plain = Ok (CryptoUtils.sha1 info_raw).
Proof. vm_compute. split; reflexivity. Qed.

(** C3 at its failing input.  [torrent_comment] is a metainfo in canonical
    form; the bytes of its [info] value are [info_raw]: the decoder, placed
    after the key, reads exactly them, and decoding the whole file gives the
    same value under [info].  The search of [extractRawInfoDict] stops at
    the text of the comment, the parser reads the key [4:info] that follows
    as a string, and the info hash is the digest of the six bytes "4:info",
    not the digest of [info_raw]. *)
Theorem info_hash_of_comment_text :
  slice torrent_comment (blen before_info) (blen before_info + blen info_raw)
    = info_raw /\
  (exists infoValue,
     parseValue (fuel_for torrent_comment) torrent_comment (blen before_info)
       = Ok (infoValue, blen before_info + blen info_raw) /\
     (d ← decode torrent_comment;
      match d with
      | VDict props => Ok (obj_get props "info")
      | _ => Ok None
      end) = Ok (Some infoValue) /\
     encode infoValue = info_raw) /\
  extractRawInfoDict torrent_comment = Ok (lit "4:info") /\
  computeInfoHash torrent_comment = Ok (CryptoUtils.sha1 (lit "4:info")) /\
  CryptoUtils.sha1 (lit "4:info") <> CryptoUtils.sha1 info_raw.
Proof.
  split; [vm_compute; reflexivity|]. split.
  - eexists. split; [vm_compute; reflexivity|].
    split; vm_compute; reflexivity.
  - split; [vm_compute; reflexivity|]. split; [vm_compute; reflexivity|].
    vm_compute. discriminate.
Qed.

End TorrentFacts.

(** * Announcing to the trackers *)
Section TrackerFacts.
Import Tracker TrackerSpec.

Variable contactUdpTracker : string -> option (list PeerAddr).
Variable contactHttpTracker : string -> option (list PeerAddr).

Lemma addUnique_ok m p : unique_ok m -> unique_ok (addUnique m p).
Proof.
  intros [Hnd Hall]. unfold addUnique.
  destruct (Bencode.obj_has m (peerKey p)) eqn:E; [done|].
  apply obj_has_false in E. unfold Bencode.obj_keys in E. split.
  - rewrite map_app. apply NoDup_app. repeat split;
      [done| |apply NoDup_singleton].
    intros x Hx Hx'. simpl in Hx'. apply list_elem_of_singleton in Hx'.
    subst. done.
  - apply Forall_app. split; [done|]. constructor; [done|constructor].
Qed.

Lemma addUnique_key m p : peerKey p ∈ map fst (addUnique m p).
Proof.
  unfold addUnique. destruct (Bencode.obj_has m (peerKey p)) eqn:E.
  - destruct (decide (peerKey p ∈ map fst m)) as [H|H]; [done|].
    apply obj_has_false in H. unfold Bencode.obj_keys in *. congruence.
  - rewrite map_app. apply elem_of_app. right. simpl. left.
Qed.

Lemma addUnique_mono m p x : x ∈ m -> x ∈ addUnique m p.
Proof.
  unfold addUnique. destruct (Bencode.obj_has m (peerKey p)); [done|].
  intros H. apply elem_of_app. auto.
Qed.

Lemma addUnique_sound m p x : x ∈ addUnique m p -> x ∈ m \/ x = (peerKey p, p).
Proof.
  unfold addUnique. destruct (Bencode.obj_has m (peerKey p)); [auto|].
  intros H. apply elem_of_app in H as [H|H]; [auto|].
  apply list_elem_of_singleton in H. auto.
Qed.

Lemma fold_addUnique l m :
  unique_ok m ->
  unique_ok (fold_left addUnique l m) /\
  (forall x, x ∈ m -> x ∈ fold_left addUnique l m) /\
  (forall p, p ∈ l -> peerKey p ∈ map fst (fold_left addUnique l m)) /\
  (forall x, x ∈ fold_left addUnique l m ->
             x ∈ m \/ exists p, p ∈ l /\ x = (peerKey p, p)).
Proof.
  revert m. induction l as [|p l IH]; intros m Hm; simpl.
  - repeat split; [apply Hm..|done| |auto].
    intros p Hp. apply elem_of_nil in Hp. done.
  - destruct (IH (addUnique m p) (addUnique_ok m p Hm)) as (H1 & H2 & H3 & H4).
    repeat split; [apply H1..| | |].
    + intros x Hx. apply H2. by apply addUnique_mono.
    + intros q Hq. apply elem_of_cons in Hq as [->|Hq]; [|by apply H3].
      pose proof (addUnique_key m p) as Hk.
      apply list_elem_of_fmap in Hk as ([k' p'] & Hk & Hin).
      apply list_elem_of_fmap. exists (k', p'). split; [done|]. by apply H2.
    + intros x Hx. destruct (H4 x Hx) as [Hx'|(q & Hq & ->)].
      * apply addUnique_sound in Hx' as [Hx'| ->]; [auto|].
        right. exists p. split; [left|done].
      * right. exists q. split; [by right|done].
Qed.

Lemma collect_concat (results : list (list PeerAddr)) :
  collect results = fold_left addUnique (concat results) [].
Proof.
  unfold collect. generalize (@nil (string * PeerAddr)).
  induction results as [|r rs IH]; intros m; simpl; [done|].
  rewrite fold_left_app. apply IH.
Qed.

Lemma elem_of_concat {A} (x : A) (ls : list (list A)) :
  x ∈ concat ls <-> exists l, l ∈ ls /\ x ∈ l.
Proof.
  rewrite list_elem_of_In, in_concat. split; intros (l & H1 & H2); exists l;
    rewrite ?list_elem_of_In in *; auto.
Qed.

(** ** The key of a peer determines its address and port *)

Lemma list_byte_of_string_app (a b : string) :
  list_byte_of_string (a ++ b)%string
  = list_byte_of_string a ++ list_byte_of_string b.
Proof.
  induction a as [|c a IH]; [reflexivity|].
  change (list_byte_of_string (String c a ++ b)%string)
    with (byte_of_ascii c :: list_byte_of_string (a ++ b)%string).
  rewrite IH. reflexivity.
Qed.

Lemma list_byte_of_string_inj (a b : string) :
  list_byte_of_string a = list_byte_of_string b -> a = b.
Proof.
  intros H. rewrite <- (string_of_list_byte_of_string a),
    <- (string_of_list_byte_of_string b). by rewrite H.
Qed.

Lemma show_int_inj (n m : Z) : show_int n = show_int m -> n = m.
Proof.
  rewrite !show_int_token. intros H.
  destruct (magnitude_digits_spec n) as (Hn & Hdn & _).
  destruct (magnitude_digits_spec m) as (Hm & Hdm & _).
  assert (Hsig : (n <? 0) = (m <? 0) /\ magnitude_digits n = magnitude_digits m).
  { destruct (magnitude_digits n) as [|a ta]; [done|].
    destruct (magnitude_digits m) as [|b tb]; [done|].
    apply Forall_inv in Hdn, Hdm.
    destruct (n <? 0), (m <? 0); simpl in H; inversion H; subst; auto.
    - discriminate Hdm.
    - discriminate Hdn. }
  destruct Hsig as [Hs Hd].
  rewrite <- (signed_magnitude n), <- (signed_magnitude m), Hs, Hd. done.
Qed.

Lemma colon_not_in_show_int (n : Z) : ":"%byte ∉ show_int n.
Proof.
  rewrite show_int_token.
  destruct (magnitude_digits_spec n) as (_ & Hd & _).
  apply not_in_sign_digits; done.
Qed.

Lemma peerKey_bytes (p : PeerAddr) :
  list_byte_of_string (peerKey p)
  = list_byte_of_string (ip p) ++ ":"%byte :: show_int (port p).
Proof.
  unfold peerKey. rewrite !list_byte_of_string_app.
  rewrite list_byte_of_string_of_list_byte. reflexivity.
Qed.

Lemma peerKey_inj (p q : PeerAddr) : peerKey p = peerKey q -> p = q.
Proof.
  intros H. apply (f_equal list_byte_of_string) in H.
  rewrite !peerKey_bytes in H.
  apply not_elem_of_app_cons_inv_r in H as (Hip & _ & Hport);
    [|apply colon_not_in_show_int..].
  apply list_byte_of_string_inj in Hip. apply show_int_inj in Hport.
  destruct p, q; simpl in *; congruence.
Qed.

(** What [getPeers] makes of the lists that the promises resolve to. *)
Lemma getPeers_collects (md : TorrentMetadata) :
  let responses :=
    map (trackerPromise contactUdpTracker contactHttpTracker)
        (announceList md) in
  let outcome := getPeers contactUdpTracker contactHttpTracker md in
  (outcome = Throw NoPeers <-> forall r, r ∈ responses -> r = []) /\
  match outcome with
  | Ok peers =>
      peers <> [] /\ NoDup peers /\
      forall p, p ∈ peers <-> exists r, r ∈ responses /\ p ∈ r
  | Throw e => e = NoPeers
  | Stuck _ => False
  end.
Proof.
  intros responses outcome. subst outcome. unfold getPeers. fold responses.
  rewrite collect_concat.
  destruct (fold_addUnique (concat responses) []) as ((Hnd & Hall) & _ & Hin & Hout).
  { split; [apply NoDup_nil_2|constructor]. }
  set (m := fold_left addUnique (concat responses) []) in *.
  assert (Hmem : forall p, p ∈ map snd m <-> exists r, r ∈ responses /\ p ∈ r).
  { intros p. split.
    - intros Hp. apply list_elem_of_fmap in Hp as ([k q] & -> & Hq).
      destruct (Hout _ Hq) as [Hq'|(p' & Hp' & [= -> ->])].
      { apply elem_of_nil in Hq'. done. }
      apply elem_of_concat in Hp'. destruct Hp' as (r & Hr1 & Hr2).
      exists r. done.
    - intros (r & Hr & Hp).
      assert (Hc : p ∈ concat responses)
        by (apply elem_of_concat; exists r; done).
      specialize (Hin p Hc).
      apply list_elem_of_fmap in Hin as ([k q] & Hk & Hq). simpl in Hk.
      rewrite Forall_forall in Hall. pose proof (Hall _ Hq) as Hkq.
      simpl in Hkq. assert (p = q) by (apply peerKey_inj; congruence).
      subst q. apply list_elem_of_fmap. exists (k, p). done. }
  assert (Hnd' : NoDup (map snd m)).
  { assert (Hm : map fst m = map peerKey (map snd m)).
    { rewrite map_map. apply map_ext_in. intros x Hx.
      rewrite Forall_forall in Hall. apply Hall. apply list_elem_of_In. done. }
    rewrite Hm in Hnd. eapply NoDup_fmap_1. exact Hnd. }
  destruct (map snd m) as [|p0 ps] eqn:Em; simpl.
  - split; [|done]. split; [|done]. intros _ r Hr.
    destruct r as [|p r]; [done|]. exfalso.
    assert (Hp : p ∈ @nil PeerAddr) by (apply Hmem; exists (p :: r); split; [done|left]).
    apply elem_of_nil in Hp. done.
  - split.
    + split; [discriminate|]. intros Hempty. exfalso.
      assert (Hp : p0 ∈ p0 :: ps) by left.
      apply Hmem in Hp as (r & Hr & Hp). rewrite (Hempty r Hr) in Hp.
      apply elem_of_nil in Hp. done.
    + split; [discriminate|]. split; [done|]. exact Hmem.
Qed.

(** A URL of the UDP protocol is not one of the HTTP protocols. *)
Lemma udp_not_http (url : string) :
  String.prefix "udp://" url = true ->
  String.prefix "http://" url || String.prefix "https://" url = false.
Proof.
  destruct url as [|c url]; [discriminate|].
  change (String.prefix "udp://" (String c url))
    with (match ascii_dec "u" c with
          | left _ => String.prefix "dp://" url
          | right _ => false
          end).
  destruct (ascii_dec "u" c) as [<-|]; [|discriminate]. intros _.
  reflexivity.
Qed.

(** The promise of a tracker resolves to the peers of its answer. *)
Lemma trackerPromise_answers (url : string) (p : PeerAddr) :
  p ∈ trackerPromise contactUdpTracker contactHttpTracker url <->
  exists r, answers contactUdpTracker contactHttpTracker url r /\ p ∈ r.
Proof.
  unfold trackerPromise. destruct (String.prefix "udp://" url) eqn:Eu.
  - pose proof (udp_not_http url Eu) as Hh. split.
    + destruct (contactUdpTracker url) as [r|] eqn:Er; simpl.
      * intros Hp. exists r. split; [by apply answers_udp|done].
      * intros Hp. by apply elem_of_nil in Hp.
    + intros (r & [_ Hr|Hhttp _] & Hp).
      * rewrite Hr. exact Hp.
      * congruence.
  - destruct (_ || _) eqn:Eh.
    + split.
      * destruct (contactHttpTracker url) as [r|] eqn:Er; simpl.
        -- intros Hp. exists r. split; [by apply answers_http|done].
        -- intros Hp. by apply elem_of_nil in Hp.
      * intros (r & [Hudp _|_ Hr] & Hp).
        -- congruence.
        -- rewrite Hr. exact Hp.
    + split.
      * intros Hp. by apply elem_of_nil in Hp.
      * intros (r & [Hudp _|Hhttp _] & Hp); congruence.
Qed.

Lemma responses_answers (l : list string) (p : PeerAddr) :
  (exists r, r ∈ map (trackerPromise contactUdpTracker contactHttpTracker) l
             /\ p ∈ r) <->
  exists url r, url ∈ l /\
                answers contactUdpTracker contactHttpTracker url r /\ p ∈ r.
Proof.
  split.
  - intros (r & Hr & Hp). apply list_elem_of_fmap in Hr as (url & -> & Hurl).
    apply trackerPromise_answers in Hp as (r & Ha & Hp). eauto.
  - intros (url & r & Hurl & Ha & Hp).
    exists (trackerPromise contactUdpTracker contactHttpTracker url). split.
    + apply list_elem_of_fmap. eauto.
    + apply trackerPromise_answers. eauto.
Qed.

(** C8 (amended). [getPeers] asks every URL of [announceList] over the
    protocol of the URL; a tracker whose exchange fails, or whose protocol
    is not supported, answers nothing.  The call fails, with [NoPeers],
    exactly when no answer holds a peer: also when trackers answered, with
    no peer.  Otherwise it returns the peers of the answers without
    repetition, each address and port once. *)
Theorem getPeers_union_or_no_peers (md : TorrentMetadata) :
  let answer := answers contactUdpTracker contactHttpTracker in
  let outcome := getPeers contactUdpTracker contactHttpTracker md in
  (outcome = Throw NoPeers <->
   forall url r, url ∈ announceList md -> answer url r -> r = []) /\
  match outcome with
  | Ok peers =>
      peers <> [] /\ NoDup peers /\
      forall p, p ∈ peers <->
        exists url r, url ∈ announceList md /\ answer url r /\ p ∈ r
  | Throw e => e = NoPeers
  | Stuck _ => False
  end.
Proof.
  intros answer outcome. subst answer outcome.
  destruct (getPeers_collects md) as [Hthrow Hout].
  split.
  - rewrite Hthrow. split.
    + intros Hall url r Hurl Ha. destruct r as [|p r]; [done|]. exfalso.
      assert (Hp : exists r', r' ∈ map (trackerPromise contactUdpTracker
                                          contactHttpTracker) (announceList md)
                              /\ p ∈ r').
      { apply responses_answers. exists url, (p :: r).
        split; [done|]. split; [done|left]. }
      destruct Hp as (r' & Hr' & Hp). rewrite (Hall r' Hr') in Hp.
      by apply elem_of_nil in Hp.
    + intros Hall r Hr. destruct r as [|p r]; [done|]. exfalso.
      assert (Hp : exists url r', url ∈ announceList md /\
                     answers contactUdpTracker contactHttpTracker url r' /\
                     p ∈ r').
      { apply responses_answers. exists (p :: r). split; [done|left]. }
      destruct Hp as (url & r' & Hurl & Ha & Hp).
      rewrite (Hall url r' Hurl Ha) in Hp. by apply elem_of_nil in Hp.
  - destruct (getPeers contactUdpTracker contactHttpTracker md)
      as [peers|e|w]; [|done|done].
    destruct Hout as (Hne & Hnd & Hmem). split; [done|]. split; [done|].
    intros p. rewrite Hmem. apply responses_answers.
Qed.

End TrackerFacts.

Section TrackerExamples.
Import Tracker TrackerSpec.

(** C8 (as stated) fails: the only tracker answers, with an empty list of
    peers; [getPeers] fails although the attempt did not. *)
Lemma getPeers_fails_on_empty_answer :
  trackerPromise udp_down http_empty "http://tracker/announce" = [] /\
  http_empty "http://tracker/announce" = Some [] /\
  getPeers udp_down http_empty md_http = Throw NoPeers.
Proof. vm_compute. repeat split; reflexivity. Qed.

(** Two trackers with a common peer: it is returned once. *)
Example getPeers_two_trackers :
  getPeers udp_two http_one md_both
  = Ok [ {| ip := "10.0.0.1"; port := 6881 |};
         {| ip := "10.0.0.2"; port := 6881 |};
         {| ip := "10.0.0.2"; port := 6882 |} ].
Proof. vm_compute. reflexivity. Qed.

End TrackerExamples.

(** * More of the codec: truncation, trailing bytes, repeated keys *)
Section BencodeEdges.
Import Bencode BencodeSpec.

Lemma slice_clamped (pre b : Buffer) (e : Z) :
  blen (pre ++ b) <= e -> slice (pre ++ b) (blen pre) e = b.
Proof.
  intros He. rewrite <- (slice_to_end pre b) at 2.
  unfold slice. f_equal. f_equal. f_equal.
  pose proof (blen_nonneg (pre ++ b)).
  unfold rel_index. destruct (e <? 0) eqn:E1; zbool; [lia|].
  destruct (blen (pre ++ b) <? 0) eqn:E2; zbool; lia.
Qed.

(** [parseString] on a length prefix that promises at least the bytes that
    are left: it returns those bytes and moves [position] by the promised
    length. *)
Lemma parseString_clamped (pre b : Buffer) (n : Z) :
  blen b <= n -> n <= MAX_SAFE_INTEGER ->
  parseString (pre ++ show_int n ++ lit ":" ++ b) (blen pre)
  = Ok (b, blen pre + blen (show_int n) + 1 + n).
Proof.
  intros Hn Hsafe. unfold parseString.
  pose proof (blen_nonneg b) as Hb0. pose proof (blen_nonneg pre) as Hp0.
  rewrite show_int_nonneg by lia.
  destruct (magnitude_digits_spec n) as (Hne & Hds & Hv).
  set (ds := magnitude_digits n) in *.
  change (lit ":" ++ b) with (":"%byte :: b).
  rewrite indexOf_app by (apply not_in_digits; done).
  destruct (_ =? -1) eqn:E; zbool; [pose proof (blen_nonneg ds); lia|].
  rewrite slice_app.
  rewrite toString_ascii by (apply digits_ascii; done).
  unfold mbind, result_bind.
  pose proof (parseInt_signed false ds Hne Hds) as Hp.
  simpl sign_bytes in Hp. rewrite app_nil_l in Hp. rewrite Hp.
  unfold signed_number, signed. simpl andb. cbv iota.
  rewrite Hv. rewrite Z.abs_eq by lia. simpl number_Z.
  destruct (n <? 0) eqn:E2; zbool; [lia|].
  rewrite safe_ok by (simpl; lia). simpl number_Z.
  replace (pre ++ ds ++ ":"%byte :: b) with ((pre ++ ds ++ lit ":") ++ b).
  2:{ unfold lit; simpl. rewrite <- !app_assoc. reflexivity. }
  replace (blen pre + blen ds + 1) with (blen (pre ++ ds ++ lit ":")).
  2:{ rewrite !blen_app. change (blen (lit ":")) with 1. lia. }
  rewrite slice_clamped; [reflexivity|].
  rewrite !blen_app. lia.
Qed.

(** One round of the loop of [parseDictionary] over an encoded property. *)
Lemma dict_entry_step fuel (pre tail : Buffer) (k : string) (v : value)
    (acc : BencodeDict) :
  good_key k -> round_trips v -> (length (encode v) <= fuel)%nat ->
  parseDictEntries (S fuel) (pre ++ encodeString k ++ encode v ++ tail)
                   (blen pre) acc
  = (dict ← obj_set acc k (canon v);
     parseDictEntries fuel (pre ++ encodeString k ++ encode v ++ tail)
                      (blen (pre ++ encodeString k ++ encode v)) dict).
Proof.
  intros (Hascii & Hproto & Hklen) Hv Hfuel.
  rewrite parseDictEntries_S.
  destruct (encode_first (VStr k)) as (c & t & Hc & Hne). simpl encode in Hc.
  assert (Htest : (blen pre <? blen (pre ++ encodeString k ++ encode v ++ tail))
     && negb (bool_decide (byteAt (pre ++ encodeString k ++ encode v ++ tail)
                                  (blen pre) = Some "e"%byte)) = true).
  { rewrite Hc. rewrite <- app_comm_cons. apply loop_test_more. exact Hne. }
  rewrite Htest. rewrite encodeString_as_buffer.
  rewrite parseString_encoded by done.
  unfold mbind, result_bind; cbv beta iota.
  rewrite toString_key by done.
  replace (blen pre + blen (encodeBuffer (Buffer_from k)))
    with (blen (pre ++ encodeBuffer (Buffer_from k))) by apply blen_app.
  rewrite (app_assoc pre (encodeBuffer (Buffer_from k))).
  rewrite (Hv fuel (pre ++ encodeBuffer (Buffer_from k)) _ Hfuel).
  cbv beta iota.
  rewrite <- blen_app. rewrite <- !app_assoc. reflexivity.
Qed.

(** X1. A byte string whose length prefix promises more bytes than the
    buffer holds is not rejected: [decode] returns the bytes that are
    there. *)
Theorem decode_truncated_string (n : Z) (b : Buffer) :
  blen b <= n -> n <= MAX_SAFE_INTEGER ->
  decode (show_int n ++ lit ":" ++ b) = Ok (VBuf b).
Proof.
  intros Hn Hsafe. unfold decode, parse, fuel_for.
  rewrite parseValue_S.
  pose proof (blen_nonneg b).
  destruct (first_digit n (lit ":" ++ b) ltac:(lia)) as (c & t & Hc & Hd).
  assert (Hb : byteAt (show_int n ++ lit ":" ++ b) 0 = Some c).
  { rewrite Hc. apply (byteAt_app [] c t). }
  rewrite Hb, Hd.
  pose proof (parseString_clamped [] b n Hn Hsafe) as Hp.
  rewrite app_nil_l in Hp. change (blen []) with 0 in Hp.
  rewrite Hp. reflexivity.
Qed.

(** The string [5:ab]: five bytes promised, two present. *)
Lemma decode_truncated_string_witness :
  blen (lit "ab") <= 5 /\ 5 <= MAX_SAFE_INTEGER /\
  decode (lit "5:ab") = Ok (VBuf (lit "ab")).
Proof.
  assert (H1 : blen (lit "ab") <= 5) by (vm_compute; discriminate).
  assert (H2 : 5 <= MAX_SAFE_INTEGER) by (vm_compute; discriminate).
  split; [exact H1|]. split; [exact H2|].
  exact (decode_truncated_string 5 (lit "ab") H1 H2).
Defined.

(** X2. The parser reads one value and stops: whatever follows the encoding
    of a value in the buffer is ignored by [decode], and the final position
    is the length of the encoding.  The value is made of buffers, integers
    below [10^21] in magnitude, arrays and objects with distinct ASCII keys
    other than [__proto__]; it is decoded with the properties of its
    objects listed as a decoded object lists them. *)
Theorem decode_ignores_trailing_bytes (v : value) (rest : Buffer) :
  producible v ->
  parse (encode v ++ rest) = Ok (canon v, blen (encode v)) /\
  decode (encode v ++ rest) = decode (encode v).
Proof.
  intros Hp.
  assert (H : parse (encode v ++ rest) = Ok (canon v, blen (encode v))).
  { unfold parse, fuel_for.
    pose proof (producible_round_trips v Hp
                  (S (2 * length (encode v ++ rest))) [] rest) as H.
    rewrite app_nil_l in H. change (blen []) with 0 in H.
    rewrite H; [reflexivity|]. rewrite length_app. lia. }
  split; [exact H|].
  unfold decode at 1. rewrite H. rewrite decode_encode_canon by done.
  reflexivity.
Qed.

(** The object [{b: 1, 10: 2, 9: 3}], encoded with its keys in the order
    [10], [9], [b] and followed by [xyz]: the decoded object lists the
    keys [9], [10], [b]. *)
Lemma decode_ignores_trailing_bytes_witness :
  producible (VDict [("b"%string, VNum (Int 1)); ("10"%string, VNum (Int 2));
                     ("9"%string, VNum (Int 3))]) /\
  encode (VDict [("b"%string, VNum (Int 1)); ("10"%string, VNum (Int 2));
                 ("9"%string, VNum (Int 3))])
  = lit "d2:10i2e1:9i3e1:bi1ee" /\
  parse (lit "d2:10i2e1:9i3e1:bi1eexyz")
  = Ok (VDict [("9"%string, VNum (Int 3)); ("10"%string, VNum (Int 2));
               ("b"%string, VNum (Int 1))], 21) /\
  decode (lit "d2:10i2e1:9i3e1:bi1eexyz") = decode (lit "d2:10i2e1:9i3e1:bi1ee").
Proof.
  assert (H : producible (VDict [("b"%string, VNum (Int 1));
                                 ("10"%string, VNum (Int 2));
                                 ("9"%string, VNum (Int 3))])).
  { constructor.
    - apply (bool_decide_unpack _). vm_compute. reflexivity.
    - repeat constructor; try discriminate; vm_compute; discriminate. }
  split; [exact H|]. split; [vm_compute; reflexivity|].
  exact (decode_ignores_trailing_bytes _ (lit "xyz") H).
Defined.

(** ** Repeated keys *)

Lemma obj_get_app {A} (a b : list (string * A)) (k : string) :
  obj_get (a ++ b) k
  = match obj_get a k with Some v => Some v | None => obj_get b k end.
Proof.
  induction a as [|[k' v'] a IH]; simpl; [done|].
  destruct (bool_decide (k' = k)); [done|exact IH].
Qed.

Lemma obj_get_None {A} (d : list (string * A)) (k : string) :
  k ∉ obj_keys d -> obj_get d k = None.
Proof.
  induction d as [|[k' v'] d IH]; simpl; intros Hk; [done|].
  rewrite bool_decide_eq_false_2.
  - apply IH. intros Hin. apply Hk. right. exact Hin.
  - intros ->. apply Hk. left.
Qed.

Lemma obj_get_insert_index {A} (n : Z) (kv : string * A) d (k : string) :
  kv.1 ∉ obj_keys d ->
  obj_get (insert_index n kv d) k
  = if bool_decide (kv.1 = k) then Some kv.2 else obj_get d k.
Proof.
  destruct kv as [k0 v0]. simpl.
  induction d as [|[k' v'] d IH]; simpl; intros Hk; [done|].
  assert (Hne : k' <> k0) by (intros ->; apply Hk; left).
  assert (Hk' : k0 ∉ obj_keys d) by (intros Hin; apply Hk; right; exact Hin).
  destruct (array_index k') as [m|]; [destruct (m <? n)|]; simpl;
    try reflexivity.
  rewrite (IH Hk').
  destruct (bool_decide (k' = k)) eqn:E1; [|done].
  apply bool_decide_eq_true in E1. subst k'.
  rewrite bool_decide_eq_false_2 by congruence. done.
Qed.

Lemma obj_get_add {A} (d : list (string * A)) (kv : string * A) (k : string) :
  kv.1 ∉ obj_keys d ->
  obj_get (obj_add d kv) k
  = if bool_decide (kv.1 = k) then Some kv.2 else obj_get d k.
Proof.
  intros Hk. unfold obj_add. destruct (array_index kv.1).
  - by apply obj_get_insert_index.
  - rewrite obj_get_app. destruct kv as [k0 v0]. simpl in *.
    destruct (bool_decide (k0 = k)) eqn:E.
    + apply bool_decide_eq_true in E. subst k.
      rewrite (obj_get_None d k0 Hk). done.
    + destruct (obj_get d k); done.
Qed.

Lemma obj_get_replace {A} (d : list (string * A)) (k0 : string) (v0 : A)
    (k : string) :
  k0 ∈ obj_keys d ->
  obj_get (obj_replace d k0 v0) k
  = if bool_decide (k0 = k) then Some v0 else obj_get d k.
Proof.
  induction d as [|[k' v'] d IH]; simpl; intros Hin.
  { by apply elem_of_nil in Hin. }
  destruct (bool_decide (k' = k0)) eqn:E; simpl.
  - apply bool_decide_eq_true in E. subst k'.
    destruct (bool_decide (k0 = k)); done.
  - apply bool_decide_eq_false in E.
    apply elem_of_cons in Hin as [->|Hin]; [done|].
    rewrite (IH Hin).
    destruct (bool_decide (k' = k)) eqn:E1; [|done].
    apply bool_decide_eq_true in E1. subst k'.
    rewrite bool_decide_eq_false_2 by congruence. done.
Qed.

Lemma obj_has_true {A} (d : list (string * A)) (k : string) :
  obj_has d k = true <-> k ∈ obj_keys d.
Proof.
  destruct (obj_has d k) eqn:E.
  - split; [intros _|done]. destruct (decide (k ∈ obj_keys d)); [done|].
    apply obj_has_false in n. congruence.
  - split; [discriminate|]. intros Hin. apply obj_has_false in E. done.
Qed.

Lemma obj_get_put (d : BencodeDict) (kv : string * value) (k : string) :
  obj_get (obj_put d kv) k
  = if bool_decide (kv.1 = k) then Some kv.2 else obj_get d k.
Proof.
  unfold obj_put. destruct (obj_has d kv.1) eqn:E.
  - apply obj_get_replace. by apply obj_has_true.
  - apply obj_get_add. by apply obj_has_false.
Qed.

Lemma obj_put_NoDup (d : BencodeDict) (kv : string * value) :
  NoDup (obj_keys d) -> NoDup (obj_keys (obj_put d kv)).
Proof.
  intros Hnd. unfold obj_put. destruct (obj_has d kv.1) eqn:E.
  - rewrite obj_keys_replace. exact Hnd.
  - apply obj_has_false in E. unfold obj_keys in *.
    rewrite (obj_add_perm d kv). simpl. apply NoDup_cons. done.
Qed.

(** Properties set one after the other: every key once, with the value set
    last. *)
Lemma fold_obj_put_spec (l acc : BencodeDict) :
  NoDup (obj_keys acc) ->
  NoDup (obj_keys (fold_left obj_put l acc)) /\
  forall k, obj_get (fold_left obj_put l acc) k
            = match obj_get (rev l) k with
              | Some v => Some v
              | None => obj_get acc k
              end.
Proof.
  revert acc. induction l as [|kv l IH]; intros acc Hnd; simpl; [done|].
  destruct (IH (obj_put acc kv) (obj_put_NoDup acc kv Hnd)) as [H1 H2].
  split; [exact H1|]. intros k. rewrite H2, obj_get_app, obj_get_put.
  destruct (obj_get (rev l) k); [done|]. destruct kv as [k0 v0]; simpl.
  destruct (bool_decide (k0 = k)); done.
Qed.

Lemma obj_get_map {A B} (f : A -> B) (d : list (string * A)) (k : string) :
  obj_get (map (fun kv => (kv.1, f kv.2)) d) k = f <$> obj_get d k.
Proof.
  induction d as [|[k' v'] d IH]; simpl; [done|].
  destruct (bool_decide (k' = k)); [done|exact IH].
Qed.

(** X3. A dictionary that repeats keys is not rejected: whatever the keys
    of its entries (ASCII, other than [__proto__]) and their order, the
    decoded object has every key once, with the value of the last entry of
    that key, and no other key. *)
Theorem decode_duplicate_key_last_wins (es : list (string * value)) :
  Forall (fun kv => good_key kv.1 /\ producible kv.2) es ->
  exists d,
    decode (lit "d" ++ concat (map enc_entry es) ++ lit "e") = Ok (VDict d) /\
    NoDup (obj_keys d) /\
    forall k, obj_get d k = canon <$> obj_get (rev es) k.
Proof.
  intros Hes.
  assert (Hrt : Forall (fun kv => good_key kv.1 /\ round_trips kv.2) es).
  { eapply Forall_impl; [exact Hes|]. intros kv [Hk Hp].
    split; [exact Hk|]. by apply producible_round_trips. }
  exists (fold_left obj_put (map canon_entry es) []).
  destruct (fold_obj_put_spec (map canon_entry es) []) as [Hnd Hget].
  { apply NoDup_nil_2. }
  split; [|split; [exact Hnd|]].
  - unfold decode, parse, fuel_for. rewrite parseValue_S.
    change (byteAt (lit "d" ++ ?t) 0) with (Some "d"%byte). cbv iota.
    change (is_digit "d") with false. cbv iota.
    rewrite bool_decide_eq_false_2 by discriminate.
    rewrite bool_decide_eq_false_2 by discriminate.
    rewrite bool_decide_eq_true_2 by done.
    change (0 + 1) with (blen (lit "d")).
    rewrite <- (app_nil_r (lit "e")).
    rewrite (entries_parse es Hrt).
    + reflexivity.
    + rewrite !length_app. simpl. lia.
  - intros k. rewrite Hget. simpl obj_get.
    rewrite <- map_rev. unfold canon_entry. rewrite (obj_get_map canon).
    destruct (obj_get (rev es) k); done.
Qed.

(** The dictionary [d1:ai1e1:bi2e1:ai3ee]: the key [a] occurs twice. *)
Lemma decode_duplicate_key_witness :
  decode (lit "d1:ai1e1:bi2e1:ai3ee")
  = Ok (VDict [("a"%string, VNum (Int 3)); ("b"%string, VNum (Int 2))]) /\
  exists d,
    decode (lit "d1:ai1e1:bi2e1:ai3ee") = Ok (VDict d) /\
    NoDup (obj_keys d) /\
    obj_get d "a" = Some (VNum (Int 3)) /\
    obj_get d "b" = Some (VNum (Int 2)) /\
    obj_get d "c" = None.
Proof.
  split; [vm_compute; reflexivity|].
  destruct (decode_duplicate_key_last_wins
              [("a"%string, VNum (Int 1)); ("b"%string, VNum (Int 2));
               ("a"%string, VNum (Int 3))]) as (d & Hd & Hnd & Hget).
  { repeat constructor; try discriminate; vm_compute; discriminate. }
  exists d. split; [exact Hd|]. split; [exact Hnd|].
  rewrite !Hget. repeat split; reflexivity.
Defined.

Lemma insert_entry_Forall2 {A B} (R : string * A -> string * B -> Prop)
    a a' l l' :
  (forall x y, R x y -> x.1 = y.1) ->
  R a a' -> Forall2 R l l' -> Forall2 R (insert_entry a l) (insert_entry a' l').
Proof.
  intros HR Ha H. induction H as [|x y l l' Hxy H IH]; simpl.
  - constructor; [done|constructor].
  - rewrite <- (HR _ _ Ha), <- (HR _ _ Hxy).
    destruct (a.1 <=? x.1)%string; constructor; auto.
Qed.

Lemma sort_entries_Forall2 {A B} (R : string * A -> string * B -> Prop) l l' :
  (forall x y, R x y -> x.1 = y.1) ->
  Forall2 R l l' -> Forall2 R (sort_entries l) (sort_entries l').
Proof.
  intros HR H. induction H; simpl; [constructor|].
  apply insert_entry_Forall2; auto.
Qed.

Lemma Forall2_keys {A B} (R : string * A -> string * B -> Prop) l l' :
  (forall x y, R x y -> x.1 = y.1) ->
  Forall2 R l l' -> obj_keys l = obj_keys l'.
Proof.
  intros HR H. induction H; simpl; [done|]. f_equal; auto.
Qed.

(** X4. [encode] does not depend on the order in which an object lists its
    properties: two structurally equal values, the first made of buffers,
    integers below [10^21] in magnitude, arrays and objects with distinct
    ASCII keys other than [__proto__], have the same encoding. *)
Theorem encode_respects_struct_eq (v w : value) :
  producible v -> struct_eq v w -> encode v = encode w.
Proof.
  revert w. induction v as [s|n|b|l IH|d IH] using value_ind';
    intros w Hp Hs.
  - inversion Hs; subst. reflexivity.
  - inversion Hs; subst. reflexivity.
  - inversion Hs; subst. reflexivity.
  - inversion Hs as [| | |l0 l' HF|]; subst. rewrite !encode_list.
    inversion Hp as [| |l0 Hpl|]; subst.
    f_equal. f_equal. f_equal.
    clear Hs Hp. induction HF as [|x y l l' Hxy HF IHF]; [done|].
    apply Forall_cons in IH as [IHx IH].
    apply Forall_cons in Hpl as [Hpx Hpl].
    simpl. f_equal; auto.
  - inversion Hs as [| | | |d1 d0 d' Hperm HF]; subst.
    apply producible_dict_inv in Hp as [Hnd Hall].
    assert (HR : forall x y : string * value,
               x.1 = y.1 /\ struct_eq x.2 y.2 -> x.1 = y.1) by tauto.
    assert (Hnd' : NoDup (obj_keys d')).
    { rewrite <- (Forall2_keys _ _ _ HR HF). unfold obj_keys.
      rewrite <- Hperm. exact Hnd. }
    rewrite !encode_dict_sorted by done.
    f_equal. f_equal. f_equal.
    rewrite (sort_entries_perm_eq d d0 Hnd Hperm).
    pose proof (sort_entries_Forall2 _ _ _ HR HF) as HF'.
    assert (IH' : Forall (fun kv => forall w, struct_eq kv.2 w ->
                                    encode kv.2 = encode w)
                         (sort_entries d0)).
    { rewrite sort_entries_perm, <- Hperm.
      rewrite Forall_forall in IH, Hall. apply Forall_forall.
      intros kv Hkv w0 Hw0. apply IH; [done| |done]. apply Hall. done. }
    clear -HF' IH'.
    induction HF' as [|x y l l' [Hk Hxy] HF IHF]; [done|].
    apply Forall_cons in IH' as [IHx IH'].
    simpl. f_equal; [|auto].
    unfold enc_entry. rewrite Hk. f_equal. auto.
Qed.

(** The object [{b: 1, a: 2}] and the object [{a: 2, b: 1}]. *)
Lemma encode_respects_struct_eq_witness :
  producible (VDict [("b"%string, VNum (Int 1)); ("a"%string, VNum (Int 2))]) /\
  struct_eq (VDict [("b"%string, VNum (Int 1)); ("a"%string, VNum (Int 2))])
            (VDict [("a"%string, VNum (Int 2)); ("b"%string, VNum (Int 1))]) /\
  encode (VDict [("b"%string, VNum (Int 1)); ("a"%string, VNum (Int 2))])
  = encode (VDict [("a"%string, VNum (Int 2)); ("b"%string, VNum (Int 1))]).
Proof.
  assert (Hp : producible (VDict [("b"%string, VNum (Int 1));
                                  ("a"%string, VNum (Int 2))])).
  { constructor.
    - apply (bool_decide_unpack _). vm_compute. reflexivity.
    - repeat constructor; try discriminate; vm_compute; discriminate. }
  assert (Hs : struct_eq
                 (VDict [("b"%string, VNum (Int 1)); ("a"%string, VNum (Int 2))])
                 (VDict [("a"%string, VNum (Int 2)); ("b"%string, VNum (Int 1))])).
  { apply (se_dict _ [("a"%string, VNum (Int 2)); ("b"%string, VNum (Int 1))]).
    - apply Permutation_swap.
    - repeat constructor. }
  split; [exact Hp|]. split; [exact Hs|].
  exact (encode_respects_struct_eq _ _ Hp Hs).
Defined.

(** Two values with the same canonical form are structurally equal. *)
Lemma canon_eq_struct_eq (v : value) :
  forall w, canon v = canon w -> struct_eq v w.
Proof.
  induction v as [s|n|b|l IH|d IH] using value_ind'; intros w Hc.
  - destruct w; simpl in Hc; try discriminate. injection Hc as <-. constructor.
  - destruct w; simpl in Hc; try discriminate. injection Hc as <-. constructor.
  - destruct w; simpl in Hc; try discriminate. injection Hc as <-. constructor.
  - destruct w as [| | |l'|]; simpl in Hc; try discriminate.
    injection Hc as Hc. constructor.
    revert l' Hc. induction IH as [|x l Hx _ IHl]; intros [|y l'] Hc;
      simpl in Hc; try discriminate; [constructor|].
    injection Hc as Hxy Hc. constructor; auto.
  - destruct w as [| | | |d']; simpl in Hc; try discriminate.
    injection Hc as Hc.
    change (listed (sort_entries (map canon_entry d))
            = listed (sort_entries (map canon_entry d'))) in Hc.
    assert (Hperm : map canon_entry d' ≡ₚ map canon_entry d).
    { rewrite <- (sort_entries_perm (map canon_entry d')),
        <- (listed_perm (sort_entries (map canon_entry d'))), <- Hc,
        listed_perm, sort_entries_perm. done. }
    destruct (Permutation_map_inv canon_entry _ Hperm) as (d0 & Hd0 & Hp0).
    apply (se_dict d d0 d'); [exact Hp0|].
    assert (IH0 : Forall (fun kv => forall w, canon kv.2 = canon w ->
                                    struct_eq kv.2 w) d0).
    { rewrite <- Hp0. exact IH. }
    clear -Hd0 IH0. revert d' Hd0.
    induction IH0 as [|x l Hx _ IHl]; intros [|y d'] Hd0; simpl in Hd0;
      try discriminate; [constructor|].
    injection Hd0 as Hk Hv Hd0. constructor; [|auto].
    split; [congruence|]. apply Hx. congruence.
Qed.

(** X5. [encode] is injective up to the order of the properties: two
    values made of buffers, integers below [10^21] in magnitude, arrays and
    objects with distinct ASCII keys other than [__proto__] that have the
    same encoding are structurally equal, and are decoded to the same
    value. *)
Theorem encode_injective (v w : value) :
  producible v -> producible w -> encode v = encode w ->
  struct_eq v w /\ canon v = canon w.
Proof.
  intros Hv Hw He.
  assert (H : canon v = canon w).
  { pose proof (decode_encode_canon v Hv) as H1.
    pose proof (decode_encode_canon w Hw) as H2.
    rewrite He in H1. congruence. }
  split; [|exact H]. apply canon_eq_struct_eq. exact H.
Qed.

(** The objects [{b: 1, a: 2}] and [{a: 2, b: 1}] have the same encoding
    and are structurally equal. *)
Lemma encode_injective_witness :
  producible (VDict [("b"%string, VNum (Int 1)); ("a"%string, VNum (Int 2))]) /\
  producible (VDict [("a"%string, VNum (Int 2)); ("b"%string, VNum (Int 1))]) /\
  encode (VDict [("b"%string, VNum (Int 1)); ("a"%string, VNum (Int 2))])
  = encode (VDict [("a"%string, VNum (Int 2)); ("b"%string, VNum (Int 1))]) /\
  struct_eq (VDict [("b"%string, VNum (Int 1)); ("a"%string, VNum (Int 2))])
            (VDict [("a"%string, VNum (Int 2)); ("b"%string, VNum (Int 1))]).
Proof.
  assert (Hv : producible (VDict [("b"%string, VNum (Int 1));
                                  ("a"%string, VNum (Int 2))])).
  { constructor.
    - apply (bool_decide_unpack _). vm_compute. reflexivity.
    - repeat constructor; try discriminate; vm_compute; discriminate. }
  assert (Hw : producible (VDict [("a"%string, VNum (Int 2));
                                  ("b"%string, VNum (Int 1))])).
  { constructor.
    - apply (bool_decide_unpack _). vm_compute. reflexivity.
    - repeat constructor; try discriminate; vm_compute; discriminate. }
  assert (He : encode (VDict [("b"%string, VNum (Int 1)); ("a"%string, VNum (Int 2))])
             = encode (VDict [("a"%string, VNum (Int 2)); ("b"%string, VNum (Int 1))]))
    by reflexivity.
  split; [exact Hv|]. split; [exact Hw|]. split; [exact He|].
  exact (proj1 (encode_injective _ _ Hv Hw He)).
Defined.

End BencodeEdges.

(** * Integers, bitfields and compact peer lists *)
Section BufferUtilsFacts.
Import BufferUtils.

Lemma be_bytes_acc_app k x acc :
  Sha1.be_bytes_acc k x acc = Sha1.be_bytes k x ++ acc.
Proof.
  unfold Sha1.be_bytes. revert x acc.
  induction k as [|k IH]; intros x acc; simpl; [reflexivity|].
  rewrite IH. rewrite (IH _ [_]). rewrite <- app_assoc. reflexivity.
Qed.

Lemma be_bytes_S k x :
  Sha1.be_bytes (S k) x
  = Sha1.be_bytes k (x / 256) ++ [byte_of_N (x mod 256)].
Proof. unfold Sha1.be_bytes at 1. simpl. apply be_bytes_acc_app. Qed.

Lemma be_value_snoc l b : be_value (l ++ [b]) = 256 * be_value l + Z_of_byte b.
Proof. unfold be_value. rewrite fold_left_app. reflexivity. Qed.

Lemma be_value_be_bytes k x :
  be_value (Sha1.be_bytes k x) = Z.of_N (x mod 256 ^ N.of_nat k).
Proof.
  revert x. induction k as [|k IH]; intros x.
  - simpl. rewrite N.mod_1_r. reflexivity.
  - rewrite be_bytes_S, be_value_snoc, IH.
    unfold Z_of_byte. rewrite byte_of_N_to_N by (apply N.mod_lt; lia).
    rewrite Nat2N.inj_succ, N.pow_succ_r'.
    rewrite N.Div0.mod_mul_r. lia.
Qed.

Lemma blen_be_bytes k x : blen (Sha1.be_bytes k x) = Z.of_nat k.
Proof. unfold blen. rewrite be_bytes_length. reflexivity. Qed.

(** Reading back the [k] bytes written for a number below [256^k]. *)
Lemma be_value_slice (k : nat) (v : Z) (pre rest : Buffer) :
  0 <= v < 256 ^ Z.of_nat k ->
  be_value (slice (pre ++ Sha1.be_bytes k (Z.to_N v) ++ rest)
                  (blen pre) (blen pre + Z.of_nat k)) = v.
Proof.
  intros Hv. rewrite <- (blen_be_bytes k (Z.to_N v)), slice_app.
  rewrite be_value_be_bytes. rewrite N.mod_small; [lia|].
  apply N2Z.inj_lt. rewrite Z2N.id by lia.
  rewrite N2Z.inj_pow, nat_N_Z. simpl Z.of_N. lia.
Qed.

Lemma readUInt32BE_written (v : Z) (pre rest : Buffer) :
  0 <= v <= 4294967295 ->
  Peer.readUInt32BE (pre ++ Sha1.be_bytes 4 (Z.to_N v) ++ rest) (blen pre) = v.
Proof.
  intros Hv. apply (be_value_slice 4 v pre rest). simpl. lia.
Qed.

(** X6. A 32-bit number written by [writeUInt32BE] takes four bytes and is
    read back by [readUInt32BE] wherever those bytes lie in a buffer; a
    number outside the 32-bit range is refused, and so is a read of fewer
    than four bytes. *)
Theorem uint32_write_then_read (v : Z) (pre rest : Buffer) :
  (0 <= v <= 4294967295 ->
   exists bytes,
     writeUInt32BE v = Ok bytes /\ blen bytes = 4 /\
     readUInt32BE (pre ++ bytes ++ rest) (blen pre) = Ok v) /\
  (~ 0 <= v <= 4294967295 -> writeUInt32BE v = Throw OutOfRange) /\
  (blen rest < 4 -> readUInt32BE (pre ++ rest) (blen pre) = Throw OutOfRange).
Proof.
  split; [|split].
  - intros Hv. exists (Sha1.be_bytes 4 (Z.to_N v)).
    unfold writeUInt32BE, Peer.writeUInt32BE, readUInt32BE.
    destruct (0 <=? v) eqn:E1; zbool; [|lia].
    destruct (v <=? 4294967295) eqn:E2; zbool; [|lia]. cbn [andb].
    split; [reflexivity|]. split; [apply blen_be_bytes|].
    pose proof (blen_nonneg pre). pose proof (blen_nonneg rest).
    destruct (0 <=? blen pre) eqn:E3; zbool; [|lia].
    destruct (_ <=? blen (pre ++ _)) eqn:E4; zbool.
    + cbn [andb]. rewrite readUInt32BE_written by done. reflexivity.
    + rewrite !blen_app, blen_be_bytes in E4. lia.
  - intros Hv. unfold writeUInt32BE, Peer.writeUInt32BE.
    destruct (0 <=? v) eqn:E1; zbool; [|done].
    destruct (v <=? 4294967295) eqn:E2; zbool; [lia|done].
  - intros Hr. unfold readUInt32BE. rewrite blen_app.
    destruct (0 <=? blen pre); [|done].
    destruct (_ <=? _) eqn:E; zbool; [lia|done].
Qed.

(** The number [0x01020304] after one byte. *)
Lemma uint32_write_then_read_witness :
  0 <= 16909060 <= 4294967295 /\
  exists bytes,
    writeUInt32BE 16909060 = Ok bytes /\ blen bytes = 4 /\
    readUInt32BE ([xff] ++ bytes ++ []) (blen [xff]) = Ok 16909060.
Proof.
  assert (H : 0 <= 16909060 <= 4294967295) by lia.
  split; [exact H|].
  exact (proj1 (uint32_write_then_read 16909060 [xff] []) H).
Defined.

(** ** Bitfields *)

Lemma land_pow2 (x k : Z) :
  0 <= k -> negb (Z.land x (Z.shiftl 1 k) =? 0) = Z.testbit x k.
Proof.
  intros Hk. rewrite Z.shiftl_1_l.
  destruct (Z.testbit x k) eqn:E.
  - destruct (_ =? 0) eqn:E0; [|done]. zbool.
    assert (H : Z.testbit (Z.land x (2 ^ k)) k = true).
    { rewrite Z.land_spec, E, Z.pow2_bits_true by done. done. }
    rewrite E0, Z.bits_0 in H. discriminate.
  - replace (Z.land x (2 ^ k)) with 0; [done|]. symmetry.
    apply Z.bits_inj_0. intros n. rewrite Z.land_spec.
    destruct (Z.eq_dec n k) as [->|Hn].
    + rewrite E. done.
    + destruct (Z.lt_ge_cases n 0).
      * rewrite (Z.testbit_neg_r _ n) by done. done.
      * rewrite Z.pow2_bits_false by lia. apply andb_false_r.
Qed.

Lemma Z_of_byte_range (b : byte) : 0 <= Z_of_byte b < 256.
Proof.
  unfold Z_of_byte. pose proof (Byte.to_N_bounded b). lia.
Qed.

Lemma Z_of_byte_of_Z (z : Z) : 0 <= z < 256 -> Z_of_byte (byte_of_Z z) = z.
Proof.
  intros H. unfold Z_of_byte, byte_of_Z. rewrite byte_of_N_to_N; lia.
Qed.

Lemma small_bits_high (x n : Z) : 0 <= x < 256 -> 8 <= n -> Z.testbit x n = false.
Proof.
  intros Hx Hn. rewrite <- (Z.mod_small x (2 ^ 8)) by (simpl; lia).
  apply Z.mod_pow2_bits_high. lia.
Qed.

Lemma lor_bit_range (b : byte) (k : Z) :
  0 <= k < 8 -> 0 <= Z.lor (Z_of_byte b) (Z.shiftl 1 k) < 256.
Proof.
  intros Hk. pose proof (Z_of_byte_range b) as Hb.
  rewrite Z.shiftl_1_l.
  assert (H0 : 0 <= Z.lor (Z_of_byte b) (2 ^ k)).
  { apply Z.lor_nonneg. split; [lia|]. apply Z.pow_nonneg. lia. }
  split; [exact H0|].
  destruct (Z.eq_dec (Z.lor (Z_of_byte b) (2 ^ k)) 0) as [->|Hne]; [lia|].
  change 256 with (2 ^ 8). apply Z.log2_lt_pow2; [lia|].
  rewrite Z.log2_lor by (try lia; apply Z.pow_nonneg; lia).
  rewrite Z.log2_pow2 by lia.
  apply Z.max_lub_lt; [|lia].
  destruct (Z.eq_dec (Z_of_byte b) 0) as [->|Hb0]; [simpl; lia|].
  apply Z.log2_lt_pow2; simpl; lia.
Qed.

(** Two bytes with the same eight bits are the same byte. *)
Lemma byte_ext (a b : byte) :
  (forall t, 0 <= t < 8 ->
     Z.testbit (Z_of_byte a) t = Z.testbit (Z_of_byte b) t) ->
  a = b.
Proof.
  intros H. apply Z_of_byte_inj. apply Z.bits_inj'. intros n Hn.
  destruct (Z.lt_ge_cases n 8); [apply H; lia|].
  rewrite !small_bits_high by (try lia; apply Z_of_byte_range). reflexivity.
Qed.

(** The bit that the loop of [bitfieldToArray] reads for piece [j]. *)
Lemma bitAt_testbit (bitfield : Buffer) (j : Z) :
  0 <= j ->
  bitAt bitfield j
  = match bitfield !! Z.to_nat (j / 8) with
    | Some byte => Z.testbit (Z_of_byte byte) (7 - j mod 8)
    | None => false
    end.
Proof.
  intros Hj. unfold bitAt, byteAt.
  assert (0 <= j / 8) by (apply Z.div_pos; lia).
  pose proof (Z.mod_pos_bound j 8 ltac:(lia)).
  destruct (j / 8 <? blen bitfield) eqn:E; zbool.
  - destruct (j / 8 <? 0) eqn:E1; zbool; [lia|].
    destruct (blen bitfield <=? j / 8) eqn:E2; zbool; [lia|]. simpl.
    destruct (bitfield !! _); [|done]. apply land_pow2. lia.
  - rewrite (proj2 (lookup_ge_None _ _)); [done|]. unfold blen in E. lia.
Qed.

Lemma setBit_length (bitfield : Buffer) (i : Z) :
  length (setBit bitfield i) = length bitfield.
Proof.
  unfold setBit. destruct (byteAt _ _); [apply length_insert|done].
Qed.

Lemma index_split (i j : Z) :
  i = j <-> i / 8 = j / 8 /\ i mod 8 = j mod 8.
Proof.
  split; [intros ->; done|]. intros [Hd Hm].
  rewrite (Z.div_mod i 8), (Z.div_mod j 8) by lia. congruence.
Qed.

Lemma bitAt_setBit (bitfield : Buffer) (i j : Z) :
  0 <= i -> i / 8 < blen bitfield -> 0 <= j ->
  bitAt (setBit bitfield i) j = bool_decide (j = i) || bitAt bitfield j.
Proof.
  intros Hi Hin Hj. rewrite !bitAt_testbit by done.
  assert (0 <= i / 8) by (apply Z.div_pos; lia).
  assert (0 <= j / 8) by (apply Z.div_pos; lia).
  pose proof (Z.mod_pos_bound i 8 ltac:(lia)).
  pose proof (Z.mod_pos_bound j 8 ltac:(lia)).
  unfold setBit, byteAt.
  destruct (i / 8 <? 0) eqn:E1; zbool; [lia|].
  destruct (blen bitfield <=? i / 8) eqn:E2; zbool; [lia|]. simpl.
  destruct (bitfield !! Z.to_nat (i / 8)) as [byte|] eqn:Eb.
  2:{ apply lookup_ge_None in Eb. unfold blen in *. lia. }
  destruct (Z.eq_dec (j / 8) (i / 8)) as [Ed|Ed].
  - rewrite Ed, list_lookup_insert_eq by (unfold blen in *; lia).
    rewrite Eb. rewrite Z_of_byte_of_Z by (apply lor_bit_range; lia).
    rewrite Z.lor_spec, Z.shiftl_1_l, Z.pow2_bits_eqb by lia.
    rewrite orb_comm. f_equal.
    destruct (Z.eqb_spec (7 - i mod 8) (7 - j mod 8)) as [Em|Em].
    + symmetry. apply bool_decide_eq_true_2. apply index_split.
      split; [done|lia].
    + symmetry. apply bool_decide_eq_false_2. intros ->. lia.
  - rewrite list_lookup_insert_ne by lia.
    rewrite bool_decide_eq_false_2; [done|]. intros ->. done.
Qed.

Lemma bitAt_zeros (n : nat) (j : Z) : 0 <= j -> bitAt (repeat x00 n) j = false.
Proof.
  intros Hj. rewrite bitAt_testbit by done.
  destruct (repeat x00 n !! _) as [b|] eqn:E; [|done].
  apply list_elem_of_lookup_2, list_elem_of_In, repeat_spec in E.
  subst b. apply Z.bits_0.
Qed.

(** The loop of [arrayToBitfield] on a buffer with room for the array:
    afterwards bit [j] is set when it was set before or [pieces[j]] is
    [true]. *)
Lemma arrayToBitfield_loop (pieces : list bool) (buffer : Buffer) :
  Z.of_nat (length pieces) <= 8 * blen buffer ->
  let result :=
    fold_left (fun bitfield (ip : nat * bool) =>
                 if ip.2 then setBit bitfield (Z.of_nat ip.1) else bitfield)
              (imap (fun i p => (i, p)) pieces) buffer in
  length result = length buffer /\
  forall j, 0 <= j ->
    bitAt result j = default false (pieces !! Z.to_nat j) || bitAt buffer j.
Proof.
  induction pieces as [|x pieces IH] using rev_ind; intros Hlen; cbv zeta.
  - simpl. split; [done|]. intros j Hj. done.
  - rewrite length_app in Hlen. simpl in Hlen.
    rewrite imap_app, fold_left_app. simpl.
    destruct (IH ltac:(lia)) as [IHl IHb]. rewrite Nat.add_0_r.
    set (r := fold_left _ (imap _ pieces) buffer) in *.
    assert (Hx : forall j, 0 <= j ->
              default false ((pieces ++ [x]) !! Z.to_nat j)
              = default false (pieces !! Z.to_nat j)
                || (bool_decide (j = Z.of_nat (length pieces)) && x)).
    { intros j Hj. destruct (decide (Z.to_nat j < length pieces)%nat) as [Hlt|Hge].
      - rewrite lookup_app_l by done.
        rewrite bool_decide_eq_false_2 by lia. simpl. rewrite orb_false_r. done.
      - rewrite lookup_app_r by lia.
        rewrite (proj2 (lookup_ge_None pieces _)) by lia. simpl.
        destruct (decide (j = Z.of_nat (length pieces))) as [->|Hne].
        + rewrite Nat2Z.id, Nat.sub_diag. simpl.
          rewrite bool_decide_eq_true_2 by done. done.
        + rewrite bool_decide_eq_false_2 by done.
          destruct (Z.to_nat j - length pieces)%nat eqn:E; [lia|]. done. }
    destruct x.
    + split; [rewrite setBit_length; exact IHl|].
      intros j Hj. rewrite bitAt_setBit; try lia.
      * rewrite IHb, Hx by done. rewrite andb_true_r.
        destruct (bool_decide _), (default false _), (bitAt buffer j); done.
      * unfold blen in *. rewrite IHl.
        apply Z.div_lt_upper_bound; lia.
    + split; [exact IHl|]. intros j Hj. rewrite IHb, Hx by done.
      rewrite andb_false_r, orb_false_r. done.
Qed.

Lemma ceil_div_bound (a b : Z) :
  0 <= a -> 0 < b -> a <= b * ceil_div a b < a + b.
Proof.
  intros Ha Hb. unfold ceil_div.
  pose proof (Z.div_mod (- a) b ltac:(lia)).
  pose proof (Z.mod_pos_bound (- a) b Hb). lia.
Qed.

Lemma arrayToBitfield_bits (pieces : list bool) :
  length (arrayToBitfield pieces)
  = Z.to_nat (ceil_div (Z.of_nat (length pieces)) 8) /\
  forall j, 0 <= j ->
    bitAt (arrayToBitfield pieces) j = default false (pieces !! Z.to_nat j).
Proof.
  unfold arrayToBitfield.
  pose proof (ceil_div_bound (Z.of_nat (length pieces)) 8 ltac:(lia) ltac:(lia)).
  destruct (arrayToBitfield_loop pieces
              (repeat x00 (Z.to_nat (ceil_div (Z.of_nat (length pieces)) 8))))
    as [Hl Hb].
  { unfold blen. rewrite repeat_length. lia. }
  split; [rewrite Hl; apply repeat_length|].
  intros j Hj. rewrite Hb, bitAt_zeros by done. apply orb_false_r.
Qed.

(** X7. Packing an array of flags with [arrayToBitfield] and unpacking it
    with [bitfieldToArray] gives the array back; the bitfield has one byte
    for every eight flags, rounded up. *)
Theorem bitfield_of_array_roundtrip (pieces : list bool) :
  blen (arrayToBitfield pieces) = ceil_div (Z.of_nat (length pieces)) 8 /\
  bitfieldToArray (arrayToBitfield pieces) (Z.of_nat (length pieces)) = pieces.
Proof.
  destruct (arrayToBitfield_bits pieces) as [Hl Hb]. split.
  - unfold blen. rewrite Hl.
    pose proof (ceil_div_bound (Z.of_nat (length pieces)) 8 ltac:(lia) ltac:(lia)).
    lia.
  - unfold bitfieldToArray. rewrite Nat2Z.id. apply list_eq. intros i.
    rewrite list_lookup_fmap.
    destruct (decide (i < length pieces)%nat) as [Hlt|Hge].
    + rewrite lookup_seq_lt by done. simpl.
      rewrite Hb by lia. rewrite Nat2Z.id.
      destruct (pieces !! i) eqn:E; [done|].
      apply lookup_ge_None in E. lia.
    + rewrite lookup_seq_ge by lia.
      rewrite (proj2 (lookup_ge_None pieces i)) by lia. done.
Qed.

(** Five flags in one byte. *)
Lemma bitfield_of_array_witness :
  arrayToBitfield [true; false; true; false; false] = [xa0] /\
  bitfieldToArray (arrayToBitfield [true; false; true; false; false])
                  (Z.of_nat 5)
  = [true; false; true; false; false].
Proof.
  split; [reflexivity|].
  exact (proj2 (bitfield_of_array_roundtrip [true; false; true; false; false])).
Defined.

(** X8. Unpacking a bitfield of [ceil(n / 8)] bytes whose spare bits are
    zero into [n] flags and packing them again gives the bitfield back. *)
Theorem array_of_bitfield_roundtrip (bitfield : Buffer) (n : Z) :
  0 <= n -> blen bitfield = ceil_div n 8 ->
  (forall j, n <= j < 8 * blen bitfield -> bitAt bitfield j = false) ->
  arrayToBitfield (bitfieldToArray bitfield n) = bitfield.
Proof.
  intros Hn Hlen Hspare.
  set (arr := bitfieldToArray bitfield n).
  assert (Harr : length arr = Z.to_nat n).
  { subst arr. unfold bitfieldToArray. rewrite length_map, length_seq. done. }
  destruct (arrayToBitfield_bits arr) as [Hl Hb].
  rewrite Harr, Z2Nat.id in Hl by done.
  assert (Hsame : length (arrayToBitfield arr) = length bitfield).
  { rewrite Hl. unfold blen in Hlen. lia. }
  apply list_eq_same_length with (length bitfield); [done|done|].
  intros k x y Hk Hx Hy. apply byte_ext. intros t Ht.
  set (j := 8 * Z.of_nat k + (7 - t)).
  assert (Hj : 0 <= j) by (subst j; lia).
  assert (Hjd : j / 8 = Z.of_nat k).
  { subst j. rewrite Z.mul_comm, Z.div_add_l by lia.
    rewrite Z.div_small by lia. lia. }
  assert (Hjm : j mod 8 = 7 - t).
  { subst j. rewrite Z.add_comm, Z.mul_comm, Z.mod_add by lia.
    apply Z.mod_small. lia. }
  pose proof (Hb j Hj) as H1.
  rewrite bitAt_testbit in H1 by done.
  rewrite Hjd, Nat2Z.id, Hx, Hjm in H1.
  replace (7 - (7 - t)) with t in H1 by lia. rewrite H1.
  assert (H2 : bitAt bitfield j = Z.testbit (Z_of_byte y) t).
  { rewrite bitAt_testbit by done. rewrite Hjd, Nat2Z.id, Hy, Hjm.
    f_equal. lia. }
  rewrite <- H2.
  subst arr. unfold bitfieldToArray. rewrite list_lookup_fmap.
  destruct (decide (Z.to_nat j < Z.to_nat n)%nat) as [Hlt|Hge].
  - rewrite lookup_seq_lt by done. simpl. rewrite Z2Nat.id by done. done.
  - rewrite lookup_seq_ge by lia. simpl. symmetry. apply Hspare.
    unfold blen. subst j. lia.
Qed.

(** The byte [10100000] as five flags. *)
Lemma array_of_bitfield_witness :
  0 <= 5 /\ blen [xa0] = ceil_div 5 8 /\
  bitfieldToArray [xa0] 5 = [true; false; true; false; false] /\
  arrayToBitfield (bitfieldToArray [xa0] 5) = [xa0].
Proof.
  assert (H1 : 0 <= 5) by lia.
  assert (H2 : blen [xa0] = ceil_div 5 8) by reflexivity.
  split; [exact H1|]. split; [exact H2|]. split; [reflexivity|].
  apply (array_of_bitfield_roundtrip [xa0] 5 H1 H2).
  intros j Hj. change (blen [xa0]) with 1 in Hj.
  assert (Hc : j = 5 \/ j = 6 \/ j = 7) by lia.
  destruct Hc as [->|[->| ->]]; reflexivity.
Defined.

(** ** Compact peer lists *)

Lemma parsePeersLoop_end fuel (peersBuffer : Buffer) (i : Z) :
  blen peersBuffer <= i + 5 -> 0 <= i -> parsePeersLoop fuel peersBuffer i = [].
Proof.
  intros Hi H0. destruct fuel as [|fuel]; [done|]. simpl.
  destruct (i <? blen peersBuffer) eqn:E1; [|done].
  destruct (i + 5 <? blen peersBuffer) eqn:E2; zbool; [lia|].
  simpl. destruct fuel as [|fuel]; [done|]. simpl.
  destruct (i + 6 <? blen peersBuffer) eqn:E3; zbool; [lia|done].
Qed.

Lemma byteAt_at (pre : Buffer) (mid : Buffer) (b : byte) (rest : Buffer) (i : Z) :
  i = blen pre + blen mid -> byteAt (pre ++ mid ++ b :: rest) i = Some b.
Proof.
  intros ->. rewrite app_assoc, <- blen_app. apply byteAt_app.
Qed.

Lemma readUInt16BE_written (v : Z) (pre rest : Buffer) :
  0 <= v <= 65535 ->
  readUInt16BE (pre ++ Sha1.be_bytes 2 (Z.to_N v) ++ rest) (blen pre) = Ok v.
Proof.
  intros Hv. unfold readUInt16BE.
  pose proof (blen_nonneg pre). pose proof (blen_nonneg rest).
  destruct (0 <=? blen pre) eqn:E3; zbool; [|lia].
  destruct (_ <=? blen (pre ++ _)) eqn:E4; zbool.
  - cbn [andb]. f_equal. apply (be_value_slice 2 v pre rest). simpl. lia.
  - rewrite !blen_app, blen_be_bytes in E4. lia.
Qed.

Lemma parsePeersLoop_entries (es : list (byte * byte * byte * byte * Z)) :
  Forall (fun e => 0 <= e.2 <= 65535) es ->
  forall fuel (pre tail : Buffer),
    blen tail < 6 -> (length es <= fuel)%nat ->
    parsePeersLoop fuel (pre ++ concat (map compactEntry es) ++ tail) (blen pre)
    = map compactPeer es.
Proof.
  induction 1 as [|e es He _ IH]; intros fuel pre tail Htail Hfuel.
  - simpl. apply parsePeersLoop_end; [|apply blen_nonneg].
    rewrite blen_app. lia.
  - destruct fuel as [|fuel]; [simpl in Hfuel; lia|].
    change (concat (map compactEntry (e :: es)))
      with (compactEntry e ++ concat (map compactEntry es)).
    destruct e as [[[[a b] c] d] port]. simpl in He.
    set (more := concat (map compactEntry es) ++ tail).
    replace (pre ++ (compactEntry (a, b, c, d, port)
                     ++ concat (map compactEntry es)) ++ tail)
      with (pre ++ [a; b; c; d] ++ Sha1.be_bytes 2 (Z.to_N port) ++ more).
    2:{ subst more. unfold compactEntry. rewrite <- !app_assoc. done. }
    set (buf := pre ++ _).
    assert (Hlen : blen buf = blen pre + 6 + blen more).
    { subst buf. rewrite !blen_app, blen_be_bytes.
      change (blen [a; b; c; d]) with 4. lia. }
    pose proof (blen_nonneg more). pose proof (blen_nonneg pre).
    cbn [parsePeersLoop].
    destruct (blen pre <? blen buf) eqn:E1; zbool; [|lia].
    destruct (blen pre + 5 <? blen buf) eqn:E2; zbool; [|lia].
    assert (Ha : byteAt buf (blen pre) = Some a).
    { subst buf. apply (byteAt_at pre [] a). change (blen []) with 0. lia. }
    assert (Hb : byteAt buf (blen pre + 1) = Some b).
    { subst buf. apply (byteAt_at pre [a] b). done. }
    assert (Hc : byteAt buf (blen pre + 2) = Some c).
    { subst buf. apply (byteAt_at pre [a; b] c). done. }
    assert (Hd : byteAt buf (blen pre + 3) = Some d).
    { subst buf. apply (byteAt_at pre [a; b; c] d). done. }
    assert (Hp : readUInt16BE buf (blen pre + 4) = Ok port).
    { subst buf. rewrite (app_assoc pre [a; b; c; d]).
      replace (blen pre + 4) with (blen (pre ++ [a; b; c; d]))
        by (rewrite blen_app; done).
      apply readUInt16BE_written. done. }
    rewrite Ha, Hb, Hc, Hd, Hp. simpl app.
    change (map compactPeer ((a, b, c, d, port) :: es))
      with ({| Tracker.ip := dotted a b c d; Tracker.port := port |}
            :: map compactPeer es).
    f_equal.
    subst buf more.
    replace (pre ++ [a; b; c; d] ++ Sha1.be_bytes 2 (Z.to_N port)
             ++ concat (map compactEntry es) ++ tail)
      with ((pre ++ compactEntry (a, b, c, d, port))
            ++ concat (map compactEntry es) ++ tail).
    2:{ unfold compactEntry. rewrite <- !app_assoc. done. }
    replace (blen pre + 6) with (blen (pre ++ compactEntry (a, b, c, d, port))).
    2:{ unfold compactEntry. rewrite !blen_app, blen_be_bytes. done. }
    apply IH; [done|]. simpl in Hfuel. lia.
Qed.

Lemma parsePeersCompact_spec
    (es : list (byte * byte * byte * byte * Z)) (tail : Buffer) :
  Forall (fun e => 0 <= e.2 <= 65535) es -> blen tail < 6 ->
  parsePeersCompact (concat (map compactEntry es) ++ tail)
  = map compactPeer es.
Proof.
  intros Hes Htail. unfold parsePeersCompact.
  apply (parsePeersLoop_entries es Hes _ [] tail Htail).
  rewrite length_app. clear. induction es as [|e es IH]; simpl; [lia|].
  destruct e as [[[[a b] c] d] port]. rewrite length_app.
  unfold compactEntry at 1. rewrite length_app, be_bytes_length. simpl. lia.
Qed.

(** X9. [parsePeersCompact] reads one peer from every full group of six
    bytes, the address from the first four and the port from the last two,
    in order, and ignores an incomplete group at the end. *)
Theorem parsePeersCompact_entries
    (es : list (byte * byte * byte * byte * Z)) (tail : Buffer) :
  Forall (fun e => 0 <= e.2 <= 65535) es -> blen tail < 6 ->
  parsePeersCompact (concat (map compactEntry es) ++ tail)
  = map compactPeer es.
Proof. apply parsePeersCompact_spec. Qed.

(** The peers [10.0.0.1:6881] and [192.168.1.2:51413], then three stray
    bytes. *)
Lemma parsePeersCompact_witness :
  Forall (fun e => 0 <= e.2 <= 65535)
         [(x0a, x00, x00, x01, 6881); (xc0, xa8, x01, x02, 51413)] /\
  blen [x01; x02; x03] < 6 /\
  parsePeersCompact
    [x0a; x00; x00; x01; x1a; xe1; xc0; xa8; x01; x02; xc8; xd5;
     x01; x02; x03]
  = [{| Tracker.ip := "10.0.0.1"; Tracker.port := 6881 |};
     {| Tracker.ip := "192.168.1.2"; Tracker.port := 51413 |}].
Proof.
  assert (H1 : Forall (fun e : byte * byte * byte * byte * Z => 0 <= e.2 <= 65535)
                 [(x0a, x00, x00, x01, 6881); (xc0, xa8, x01, x02, 51413)]).
  { repeat constructor; simpl; lia. }
  assert (H2 : blen [x01; x02; x03] < 6) by (vm_compute; reflexivity).
  split; [exact H1|]. split; [exact H2|].
  exact (parsePeersCompact_entries _ [x01; x02; x03] H1 H2).
Defined.

End BufferUtilsFacts.

(** * More of the peer session: framing, handshake, requests *)
Section PeerWire.
Import Peer.

Lemma sum_from (l : list Z) (a : Z) :
  fold_left Z.add l a = a + fold_left Z.add l 0.
Proof.
  revert a. induction l as [|x l IH]; intros a; simpl; [lia|].
  rewrite (IH (a + x)), (IH (0 + x)). lia.
Qed.

Lemma sum_app (l1 l2 : list Z) :
  fold_left Z.add (l1 ++ l2) 0 = fold_left Z.add l1 0 + fold_left Z.add l2 0.
Proof. rewrite fold_left_app. apply sum_from. Qed.

(** The first [m] blocks of a piece cover its first [min (16384 m) L]
    bytes. *)
Lemma blockLength_sum (pieceLength : Z) (m : nat) :
  0 <= pieceLength ->
  (m <= Z.to_nat (ceil_div pieceLength 16384))%nat ->
  fold_left Z.add (map (blockLength pieceLength) (seq 0 m)) 0
  = Z.min (16384 * Z.of_nat m) pieceLength.
Proof.
  intros HL. pose proof (ceil_div_bound pieceLength 16384 HL ltac:(lia)) as Hc.
  induction m as [|m IH]; intros Hm; [simpl; lia|].
  rewrite seq_S, map_app, sum_app, IH by lia. simpl.
  unfold blockLength. lia.
Qed.

Lemma createMessage_frame (ty : Z) (payload : option Buffer) :
  blen (default [] payload) + 1 <= 4294967295 ->
  createMessage ty payload
  = Ok (Sha1.be_bytes 4 (Z.to_N (blen (default [] payload) + 1))
        ++ [byte_of_Z ty] ++ default [] payload).
Proof.
  intros H. unfold createMessage, writeUInt32BE.
  pose proof (blen_nonneg (default [] payload)).
  destruct payload as [p|]; simpl default in *.
  - destruct (0 <=? blen p + 1) eqn:E1; zbool; [|lia].
    destruct (blen p + 1 <=? 4294967295) eqn:E2; zbool; [|lia]. reflexivity.
  - reflexivity.
Qed.

Lemma createMessage_inv (ty : Z) (payload : option Buffer) (frame : Buffer) :
  createMessage ty payload = Ok frame ->
  blen (default [] payload) + 1 <= 4294967295 /\
  frame = Sha1.be_bytes 4 (Z.to_N (blen (default [] payload) + 1))
          ++ [byte_of_Z ty] ++ default [] payload /\
  blen frame = 4 + (blen (default [] payload) + 1).
Proof.
  intros Hf.
  assert (Hlen : blen (default [] payload) + 1 <= 4294967295).
  { unfold createMessage, writeUInt32BE in Hf.
    destruct payload as [p|]; simpl default in *.
    - destruct (0 <=? blen p + 1); [|discriminate].
      destruct (blen p + 1 <=? 4294967295) eqn:E; zbool; [lia|discriminate].
    - change (blen []) with 0. lia. }
  split; [exact Hlen|].
  rewrite createMessage_frame in Hf by done.
  assert (Hfr : frame = Sha1.be_bytes 4 (Z.to_N (blen (default [] payload) + 1))
                ++ [byte_of_Z ty] ++ default [] payload) by congruence.
  split; [exact Hfr|]. rewrite Hfr at 1.
  rewrite !blen_app, blen_be_bytes. change (blen [byte_of_Z ty]) with 1. lia.
Qed.

Lemma requestBlock_frame s (i off len : Z) :
  socket s = true -> connected s = true ->
  0 <= i <= 4294967295 -> 0 <= off <= 4294967295 -> 0 <= len <= 4294967295 ->
  requestBlock s i off len = Ok [requestFrame i off len].
Proof.
  intros Hs Hc Hi Ho Hl. unfold requestBlock, writeUInt32BE.
  repeat match goal with
  | |- context [(0 <=? ?x) && (?x <=? 4294967295)] =>
      replace ((0 <=? x) && (x <=? 4294967295)) with true
        by (symmetry; apply andb_true_iff; split;
            [apply Z.leb_le|apply Z.leb_le]; lia)
  end.
  unfold mbind, result_bind; cbv beta iota.
  set (payload := Sha1.be_bytes 4 (Z.to_N i) ++ _).
  assert (Hp : blen payload = 12).
  { subst payload. rewrite !blen_app, !blen_be_bytes. lia. }
  rewrite createMessage_frame;
    change (default [] (Some payload)) with payload; [|lia].
  unfold sendData. rewrite Hs, Hc, Hp. reflexivity.
Qed.

Lemma requestBlocks_all s (i L : Z) :
  socket s = true -> connected s = true ->
  0 <= i <= 4294967295 -> 0 <= L <= 4294967295 ->
  forall (m k : nat),
    (k + m = Z.to_nat (ceil_div L 16384))%nat ->
    requestBlocks m s i L (16384 * Z.of_nat k)
    = map (fun k => requestFrame i (16384 * Z.of_nat k) (blockLength L k))
          (seq k m).
Proof.
  intros Hs Hc Hi HL.
  pose proof (ceil_div_bound L 16384 ltac:(lia) ltac:(lia)) as Hb.
  induction m as [|m IH]; intros k Hk; [reflexivity|].
  cbn [requestBlocks seq map]. unfold BLOCK_SIZE.
  destruct (16384 * Z.of_nat k <? L) eqn:E; zbool; [|lia].
  fold (blockLength L k).
  rewrite requestBlock_frame; try done; try (unfold blockLength; lia).
  simpl app. f_equal.
  destruct m as [|m']; [reflexivity|].
  replace (16384 * Z.of_nat k + blockLength L k)
    with (16384 * Z.of_nat (S k)) by (unfold blockLength; lia).
  apply IH. lia.
Qed.

(** X10. An unchoked, connected session asked for a piece writes one
    [request] message for every 16 KiB block, in order: block [k] starts at
    [16384 k] and has 16384 bytes, except the last, which has what is left.
    There are [ceil(pieceLength / 16384)] requests and their lengths add up
    to [pieceLength]. *)
Theorem requestPiece_covers_the_piece s (pieceIndex pieceLength : Z) :
  choked (peer s) = false -> socket s = true -> connected s = true ->
  0 <= pieceIndex <= 4294967295 -> 0 <= pieceLength <= 4294967295 ->
  requestPiece s pieceIndex pieceLength = blockRequests pieceIndex pieceLength /\
  fold_left Z.add
    (map (blockLength pieceLength)
         (seq 0 (Z.to_nat (ceil_div pieceLength 16384)))) 0
  = pieceLength.
Proof.
  intros Hch Hs Hc Hi HL. split.
  - unfold requestPiece, blockRequests. rewrite Hch.
    apply (requestBlocks_all s pieceIndex pieceLength Hs Hc Hi HL _ 0%nat).
    unfold BLOCK_SIZE. lia.
  - rewrite blockLength_sum by lia.
    pose proof (ceil_div_bound pieceLength 16384 ltac:(lia) ltac:(lia)). lia.
Qed.

(** Piece 3 of 20000 bytes: a block of 16384 bytes and one of 3616. *)
Lemma requestPiece_covers_witness :
  choked (peer session_unchoked) = false /\
  requestPiece session_unchoked 3 20000
  = [requestFrame 3 0 16384; requestFrame 3 16384 3616] /\
  fold_left Z.add
    (map (blockLength 20000) (seq 0 (Z.to_nat (ceil_div 20000 16384)))) 0
  = 20000.
Proof.
  split; [reflexivity|].
  exact (requestPiece_covers_the_piece session_unchoked 3 20000
           eq_refl eq_refl eq_refl ltac:(lia) ltac:(lia)).
Defined.

(** ** Framing *)

Lemma handleMessage_buffer s ty payload :
  messageBuffer (handleMessage s ty payload).1 = messageBuffer s /\
  handshakeCompleted (handleMessage s ty payload).1 = handshakeCompleted s.
Proof.
  unfold handleMessage.
  repeat match goal with
  | |- context [if ?c then _ else _] => destruct c
  end; done.
Qed.

Lemma readUInt32BE_nonneg (buffer : Buffer) (offset : Z) :
  0 <= readUInt32BE buffer offset.
Proof.
  unfold readUInt32BE. generalize (slice buffer offset (offset + 4)).
  assert (H : forall l a, 0 <= a ->
            0 <= fold_left (fun a b => 256 * a + Z_of_byte b) l a).
  { induction l as [|x l IHl]; intros a Ha; simpl; [done|].
    apply IHl. pose proof (Z_of_byte_range x). lia. }
  intros l. apply H. lia.
Qed.

Lemma processLoop_short fuel s :
  blen (messageBuffer s) < 4 -> processMessagesLoop fuel s = (s, []).
Proof.
  intros H. destruct fuel as [|fuel]; [done|]. simpl.
  destruct (blen (messageBuffer s) <? 4) eqn:E; zbool; [done|lia].
Qed.

(** The loop yields the same result whenever it has fuel for one round
    every four bytes. *)
Lemma processLoop_fuel (f1 : nat) :
  forall (f2 : nat) s,
    (length (messageBuffer s) < 4 * f1)%nat ->
    (length (messageBuffer s) < 4 * f2)%nat ->
    processMessagesLoop f1 s = processMessagesLoop f2 s.
Proof.
  induction f1 as [|f1 IH]; intros f2 s H1 H2; [lia|].
  destruct f2 as [|f2]; [lia|].
  cbn [processMessagesLoop].
  destruct (blen (messageBuffer s) <? 4) eqn:E4; [done|]. zbool.
  pose proof (slice_length (messageBuffer s)) as Hsl.
  destruct (readUInt32BE (messageBuffer s) 0 =? 0) eqn:E0.
  { apply IH; simpl.
    - unfold slice, rel_index, blen in *. rewrite length_take, length_drop.
      destruct (4 <? 0) eqn:Ea; [done|].
      destruct (Z.of_nat (length (messageBuffer s)) <? 0) eqn:Eb; zbool; lia.
    - unfold slice, rel_index, blen in *. rewrite length_take, length_drop.
      destruct (4 <? 0) eqn:Ea; [done|].
      destruct (Z.of_nat (length (messageBuffer s)) <? 0) eqn:Eb; zbool; lia. }
  destruct (blen (messageBuffer s) <? 4 + readUInt32BE (messageBuffer s) 0)
    eqn:E5; [done|]. zbool.
  set (s1 := set_messageBuffer s _).
  set (ty := match byteAt _ 0 with Some b => Z_of_byte b | None => 0 end).
  set (payload := slice (slice _ _ _) _ _).
  pose proof (handleMessage_buffer s1 ty payload) as [Hb _].
  destruct (handleMessage s1 ty payload) as [s2 ev]. simpl in Hb.
  assert (Hlen : (length (messageBuffer s2) + 4 <= length (messageBuffer s))%nat).
  { rewrite Hb. subst s1. simpl.
    unfold slice, rel_index, blen in *. rewrite length_take, length_drop.
    set (n := readUInt32BE (messageBuffer s) 0) in *.
    assert (0 <= n) by apply readUInt32BE_nonneg.
    destruct (4 + n <? 0) eqn:Ea; zbool; [lia|].
    destruct (Z.of_nat (length (messageBuffer s)) <? 0) eqn:Eb; zbool; lia. }
  rewrite (IH f2 s2) by lia. reflexivity.
Qed.

(** One round of the loop on a buffer that starts with a whole message. *)
Lemma processLoop_message fuel s (ty : Z) (payload : option Buffer)
    (frame rest : Buffer) :
  createMessage ty payload = Ok frame -> 0 <= ty < 256 ->
  messageBuffer s = frame ++ rest ->
  processMessagesLoop (S fuel) s
  = (let '(s1, ev) :=
       handleMessage (set_messageBuffer s rest) ty (default [] payload) in
     let '(s2, ev') := processMessagesLoop fuel s1 in
     (s2, ev ++ ev')).
Proof.
  intros Hf Hty Hbuf.
  assert (Hlen : blen (default [] payload) + 1 <= 4294967295).
  { unfold createMessage, writeUInt32BE in Hf.
    destruct payload as [p|]; simpl default in *.
    - destruct (0 <=? blen p + 1); [|discriminate].
      destruct (blen p + 1 <=? 4294967295) eqn:E; zbool; [lia|discriminate].
    - change (blen []) with 0. lia. }
  assert (Hfr : Sha1.be_bytes 4 (Z.to_N (blen (default [] payload) + 1))
                ++ [byte_of_Z ty] ++ default [] payload = frame).
  { rewrite createMessage_frame in Hf by done. congruence. }
  clear Hf.
  set (p := default [] payload) in *.
  set (n := blen p + 1) in *.
  pose proof (blen_nonneg p) as Hp0. pose proof (blen_nonneg rest) as Hr0.
  cbn [processMessagesLoop]. rewrite Hbuf.
  assert (Hbl : blen (frame ++ rest) = 4 + n + blen rest).
  { rewrite <- Hfr. rewrite !blen_app, blen_be_bytes.
    change (blen [byte_of_Z ty]) with 1. lia. }
  destruct (blen (frame ++ rest) <? 4) eqn:E4; zbool; [lia|].
  assert (Hn : readUInt32BE (frame ++ rest) 0 = n).
  { rewrite <- Hfr. rewrite <- !app_assoc.
    apply (readUInt32BE_written n [] _). lia. }
  rewrite Hn.
  destruct (n =? 0) eqn:E0; zbool; [lia|].
  destruct (blen (frame ++ rest) <? 4 + n) eqn:E5; zbool; [lia|].
  assert (Hmd : slice (frame ++ rest) 4 (4 + n) = byte_of_Z ty :: p).
  { rewrite <- Hfr. rewrite <- !app_assoc.
    pose proof (slice_app (Sha1.be_bytes 4 (Z.to_N n)) (byte_of_Z ty :: p) rest)
      as Hs.
    rewrite blen_be_bytes, blen_cons in Hs.
    replace (4 + n) with (Z.of_nat 4 + (1 + blen p)) by (subst n; simpl; lia).
    exact Hs. }
  rewrite Hmd.
  assert (Hrest : slice (frame ++ rest) (4 + n) (blen (frame ++ rest)) = rest).
  { replace (4 + n) with (blen frame) by (rewrite blen_app in Hbl; lia).
    apply slice_to_end. }
  rewrite Hrest.
  change (byteAt (byte_of_Z ty :: p) 0) with (Some (byte_of_Z ty)).
  cbv beta iota. rewrite Z_of_byte_of_Z by done.
  replace (slice (byte_of_Z ty :: p) 1 (blen (byte_of_Z ty :: p))) with p.
  2:{ symmetry. apply (slice_to_end [byte_of_Z ty] p). }
  replace (set_messageBuffer (set_messageBuffer s (frame ++ rest)) rest)
    with (set_messageBuffer s rest) by reflexivity.
  reflexivity.
Qed.

Lemma set_messageBuffer_id s : set_messageBuffer s (messageBuffer s) = s.
Proof. destruct s. reflexivity. Qed.

Lemma processMessages_message s (ty : Z) (payload : option Buffer)
    (frame rest : Buffer) :
  createMessage ty payload = Ok frame -> 0 <= ty < 256 ->
  processMessages (set_messageBuffer s (frame ++ rest))
  = (let '(s1, ev) :=
       handleMessage (set_messageBuffer s rest) ty (default [] payload) in
     let '(s2, ev') := processMessages s1 in
     (s2, ev ++ ev')).
Proof.
  intros Hf Hty. unfold processMessages at 1.
  rewrite (processLoop_message _ (set_messageBuffer s (frame ++ rest))
             ty payload frame rest Hf Hty eq_refl).
  replace (set_messageBuffer (set_messageBuffer s (frame ++ rest)) rest)
    with (set_messageBuffer s rest) by reflexivity.
  pose proof (handleMessage_buffer (set_messageBuffer s rest) ty
                (default [] payload)) as [Hb _].
  destruct (handleMessage _ _ _) as [s1 ev]. simpl in Hb.
  unfold processMessages.
  rewrite (processLoop_fuel _ (S (length (messageBuffer s1))) s1);
    [reflexivity| |lia].
  rewrite Hb. simpl. rewrite length_app.
  destruct (createMessage_inv _ _ _ Hf) as (_ & _ & Hfl).
  pose proof (blen_nonneg (default [] payload)). unfold blen in *. lia.
Qed.

Lemma handleMessage_set_buffer s ty payload (b : Buffer) :
  handleMessage (set_messageBuffer s b) ty payload
  = (set_messageBuffer (handleMessage s ty payload).1 b,
     (handleMessage s ty payload).2).
Proof.
  unfold handleMessage.
  repeat match goal with
  | |- context [if ?c then _ else _] => destruct c
  end; reflexivity.
Qed.

Lemma handleData_after_handshake s (data : Buffer) :
  handshakeCompleted s = true -> messageBuffer s = [] ->
  handleData s data
  = (let '(s2, ev) := processMessages (set_messageBuffer s data) in
     (s2, {| written := []; events := ev |})).
Proof.
  intros Hh Hb. unfold handleData. rewrite Hb, app_nil_l.
  simpl handshakeCompleted. rewrite Hh. simpl andb. cbv iota.
  simpl handshakeCompleted. rewrite Hh.
  destruct (processMessages _) as [s2 ev]. reflexivity.
Qed.

(** X11. Several messages that arrive in one read are handled one after
    the other: after the handshake, a read that starts with a whole message
    is handled as that message followed by a read of the bytes after it. *)
Theorem handleData_first_message s (ty : Z) (payload : option Buffer)
    (frame rest : Buffer) :
  handshakeCompleted s = true -> messageBuffer s = [] ->
  createMessage ty payload = Ok frame -> 0 <= ty < 256 ->
  handleData s (frame ++ rest)
  = (let '(s1, ev) := handleMessage s ty (default [] payload) in
     let '(s2, e) := handleData s1 rest in
     (s2, {| written := written e; events := ev ++ events e |})).
Proof.
  intros Hh Hb Hf Hty.
  rewrite handleData_after_handshake by done.
  rewrite (processMessages_message s ty payload frame rest Hf Hty).
  rewrite handleMessage_set_buffer.
  pose proof (handleMessage_buffer s ty (default [] payload)) as [Hb2 Hh2].
  destruct (handleMessage s ty (default [] payload)) as [s1 ev].
  simpl fst in *. simpl snd.
  rewrite (handleData_after_handshake s1 rest) by congruence.
  destruct (processMessages (set_messageBuffer s1 rest)) as [s2 ev'].
  reflexivity.
Qed.

(** A [have] message for piece 7, then an [unchoke] message. *)
Lemma handleData_first_message_witness :
  handleData session_choked
    ([x00; x00; x00; x05; x04; x00; x00; x00; x07] ++ [x00; x00; x00; x01; x01])
  = (session_unchoked,
     {| written := []; events := [EvHave 7; EvUnchoked] |}).
Proof.
  exact (handleData_first_message session_choked HAVE
           (Some [x00; x00; x00; x07])
           [x00; x00; x00; x05; x04; x00; x00; x00; x07]
           [x00; x00; x00; x01; x01] eq_refl eq_refl eq_refl
           ltac:(unfold HAVE; lia)).
Defined.

(** X12. A message split across two reads is handled once, when its last
    byte has arrived: the first read only buffers its bytes. *)
Theorem handleData_split_message s (ty : Z) (payload : option Buffer)
    (frame a b : Buffer) :
  handshakeCompleted s = true -> messageBuffer s = [] ->
  createMessage ty payload = Ok frame -> 0 <= ty < 256 ->
  frame = a ++ b -> b <> [] ->
  handleData s a = (set_messageBuffer s a, no_effects) /\
  handleData (set_messageBuffer s a) b
  = ((handleMessage s ty (default [] payload)).1,
     {| written := []; events := (handleMessage s ty (default [] payload)).2 |}).
Proof.
  intros Hh Hb Hf Hty Hab Hne.
  assert (Hlen : blen (default [] payload) + 1 <= 4294967295).
  { unfold createMessage, writeUInt32BE in Hf.
    destruct payload as [p|]; simpl default in *.
    - destruct (0 <=? blen p + 1); [|discriminate].
      destruct (blen p + 1 <=? 4294967295) eqn:E; zbool; [lia|discriminate].
    - change (blen []) with 0. lia. }
  assert (Hfr : Sha1.be_bytes 4 (Z.to_N (blen (default [] payload) + 1))
                ++ [byte_of_Z ty] ++ default [] payload = frame).
  { rewrite createMessage_frame in Hf by done. congruence. }
  set (p := default [] payload) in *.
  pose proof (blen_nonneg p) as Hp0.
  assert (Hfl : blen frame = 4 + (blen p + 1)).
  { rewrite <- Hfr. rewrite !blen_app, blen_be_bytes.
    change (blen [byte_of_Z ty]) with 1. lia. }
  assert (Hbl : 0 < blen b).
  { destruct b as [|x b']; [done|]. rewrite blen_cons.
    pose proof (blen_nonneg b'). lia. }
  assert (Hal : blen a < 4 + (blen p + 1)).
  { rewrite Hab, blen_app in Hfl. lia. }
  split.
  - rewrite handleData_after_handshake by done.
    unfold processMessages. simpl messageBuffer.
    cbn [processMessagesLoop]. simpl messageBuffer.
    destruct (blen a <? 4) eqn:E4; [reflexivity|]. zbool.
    assert (Hn : readUInt32BE a 0 = blen p + 1).
    { unfold readUInt32BE.
      replace (slice a 0 (0 + 4)) with (slice (a ++ b) 0 (0 + 4)).
      - rewrite <- Hab, <- Hfr.
        apply (readUInt32BE_written (blen p + 1) [] _). lia.
      - unfold slice, rel_index. rewrite blen_app.
        pose proof (blen_nonneg a).
        destruct (0 <? 0) eqn:Ea; [done|].
        destruct (0 + 4 <? 0) eqn:Eb; [done|].
        rewrite !Z.min_l by lia. simpl Z.to_nat. rewrite !drop_0.
        apply take_app_le. unfold blen in *. lia. }
    rewrite Hn.
    destruct (blen p + 1 =? 0) eqn:E0; zbool; [lia|].
    destruct (blen a <? 4 + (blen p + 1)) eqn:E5; zbool; [reflexivity|lia].
  - unfold handleData. simpl messageBuffer. simpl handshakeCompleted.
    rewrite Hh. simpl andb. cbv iota. simpl handshakeCompleted. rewrite Hh.
    replace (set_messageBuffer (set_messageBuffer s a) (a ++ b))
      with (set_messageBuffer s (frame ++ [])).
    2:{ rewrite app_nil_r, Hab. reflexivity. }
    rewrite (processMessages_message s ty payload frame [] Hf Hty).
    rewrite handleMessage_set_buffer. fold p.
    pose proof (handleMessage_buffer s ty p) as [Hb2 Hh2].
    destruct (handleMessage s ty p) as [s1 ev]. simpl fst in *. simpl snd.
    unfold processMessages. rewrite processLoop_short by reflexivity.
    rewrite app_nil_r. unfold effects_app, no_effects. simpl.
    f_equal. rewrite <- Hb, <- Hb2. apply set_messageBuffer_id.
Qed.

(** A [have] message for piece 7 cut after its sixth byte. *)
Lemma handleData_split_message_witness :
  handleData session_choked [x00; x00; x00; x05; x04; x00]
  = (set_messageBuffer session_choked [x00; x00; x00; x05; x04; x00],
     no_effects) /\
  handleData (set_messageBuffer session_choked [x00; x00; x00; x05; x04; x00])
             [x00; x00; x07]
  = (session_choked, {| written := []; events := [EvHave 7] |}).
Proof.
  exact (handleData_split_message session_choked HAVE
           (Some [x00; x00; x00; x07])
           [x00; x00; x00; x05; x04; x00; x00; x00; x07]
           [x00; x00; x00; x05; x04; x00] [x00; x00; x07]
           eq_refl eq_refl eq_refl ltac:(unfold HAVE; lia) eq_refl
           ltac:(discriminate)).
Defined.

(** ** The handshake *)

Lemma slice_all (b : Buffer) : slice b 0 (blen b) = b.
Proof.
  pose proof (slice_to_end [] b) as H. exact H.
Qed.

Lemma slice_none (b : Buffer) : slice b (blen b) (blen b) = [].
Proof.
  pose proof (slice_to_end b []) as H. rewrite app_nil_r in H. exact H.
Qed.

(** X13. Two sessions of this client that share the info hash complete the
    handshake: the handshake that one sends is accepted by the other, which
    records the sender's peer id, answers [interested] and announces
    [connected].  With another info hash the handshake is consumed, an
    error is announced and nothing is written. *)
Theorem handshake_between_sessions (s remote : t) :
  handshakeCompleted s = false -> messageBuffer s = [] ->
  blen (infoHash_ remote) = 20 -> blen (peerId remote) = 20 ->
  (infoHash_ remote = infoHash_ s ->
   handleData s (handshakeMessage remote)
   = (after_handshake s (peerId remote),
      {| written := sendData s interestedFrame; events := [EvConnected] |})) /\
  (infoHash_ remote <> infoHash_ s ->
   handleData s (handshakeMessage remote)
   = (s, {| written := []; events := [EvError] |})).
Proof.
  intros Hh Hb Hih Hpid.
  set (hs := handshakeMessage remote).
  set (head := [byte_of_Z (blen PROTOCOL_STRING)] ++ PROTOCOL_STRING
               ++ repeat x00 8).
  assert (Hhs : hs = head ++ infoHash_ remote ++ peerId remote).
  { subst hs head. unfold handshakeMessage. rewrite <- !app_assoc. done. }
  assert (Hlen : blen hs = 68).
  { rewrite Hhs, !blen_app, Hih, Hpid. reflexivity. }
  assert (H0 : byteAt hs 0 = Some (byte_of_Z 19)).
  { rewrite Hhs. reflexivity. }
  assert (Hproto : slice hs 1 (1 + 19) = PROTOCOL_STRING).
  { rewrite Hhs. subst head. rewrite <- !app_assoc.
    apply (slice_app [byte_of_Z (blen PROTOCOL_STRING)] PROTOCOL_STRING). }
  assert (Hinfo : slice hs 28 48 = infoHash_ remote).
  { rewrite Hhs. replace 48 with (blen head + blen (infoHash_ remote))
      by (rewrite Hih; reflexivity).
    apply (slice_app head). }
  assert (Hpeer : slice hs 48 68 = peerId remote).
  { rewrite Hhs, app_assoc.
    replace 48 with (blen (head ++ infoHash_ remote))
      by (rewrite blen_app, Hih; reflexivity).
    replace 68 with (blen ((head ++ infoHash_ remote) ++ peerId remote))
      by (rewrite !blen_app, Hih, Hpid; reflexivity).
    apply slice_to_end. }
  assert (Hdata : handleData s hs
          = (let '(s1, e1) := handleHandshake (set_messageBuffer s hs) in
             if handshakeCompleted s1 then
               let '(s2, ev) := processMessages s1 in
               (s2, effects_app e1 {| written := []; events := ev |})
             else (s1, e1))).
  { unfold handleData. rewrite Hb, app_nil_l.
    simpl handshakeCompleted. simpl messageBuffer. rewrite Hh, Hlen.
    reflexivity. }
  assert (Hhand : handleHandshake (set_messageBuffer s hs)
          = if negb (buf_equals (infoHash_ remote) (infoHash_ s))
            then (set_messageBuffer s [],
                  {| written := []; events := [EvError] |})
            else (after_handshake s (peerId remote),
                  {| written := sendData s interestedFrame;
                     events := [EvConnected] |})).
  { assert (Hall : slice hs 0 68 = hs) by (rewrite <- Hlen; apply slice_all).
    assert (Hnone : slice hs 68 68 = [])
      by (rewrite <- Hlen; apply slice_none).
    unfold handleHandshake. simpl messageBuffer. unfold HANDSHAKE_LENGTH.
    rewrite Hlen, Hall, Hnone. rewrite H0.
    rewrite Z_of_byte_of_Z by lia. rewrite Hproto, Hinfo, Hpeer.
    unfold buf_equals at 1. rewrite bool_decide_eq_true_2 by done.
    simpl negb. cbv iota. simpl infoHash_.
    destruct (negb (buf_equals (infoHash_ remote) (infoHash_ s)));
      reflexivity. }
  rewrite Hdata, Hhand. unfold buf_equals. split.
  - intros He. rewrite bool_decide_eq_true_2 by done. simpl negb. cbv iota.
    simpl handshakeCompleted. cbv iota.
    unfold processMessages. rewrite processLoop_short by reflexivity.
    unfold effects_app. simpl. rewrite app_nil_r. reflexivity.
  - intros He. rewrite bool_decide_eq_false_2 by done. simpl negb. cbv iota.
    simpl handshakeCompleted. rewrite Hh. rewrite <- Hb.
    rewrite set_messageBuffer_id. reflexivity.
Qed.

(** A fresh session receives the handshake of a session with the same
    info hash and the peer id [02...02]. *)
Lemma handshake_between_sessions_witness :
  handshakeCompleted (session_fresh (repeat x01 20) (repeat x03 20)) = false /\
  messageBuffer (session_fresh (repeat x01 20) (repeat x03 20)) = [] /\
  blen (infoHash_ session_choked) = 20 /\ blen (peerId session_choked) = 20 /\
  infoHash_ session_choked
  = infoHash_ (session_fresh (repeat x01 20) (repeat x03 20)) /\
  handleData (session_fresh (repeat x01 20) (repeat x03 20))
             (handshakeMessage session_choked)
  = (after_handshake (session_fresh (repeat x01 20) (repeat x03 20))
                     (repeat x02 20),
     {| written := [interestedFrame]; events := [EvConnected] |}).
Proof.
  split; [reflexivity|]. split; [reflexivity|]. split; [reflexivity|].
  split; [reflexivity|]. split; [reflexivity|].
  exact (proj1 (handshake_between_sessions
                  (session_fresh (repeat x01 20) (repeat x03 20))
                  session_choked eq_refl eq_refl eq_refl eq_refl) eq_refl).
Defined.

(** ** The peer's bitfield *)

(** X14. After a [bitfield] message, [hasPiece] answers for piece [i] what
    [BufferUtils.bitfieldToArray] holds at index [i]; it answers [false]
    for a negative index and for an index beyond the bits received. *)
Theorem hasPiece_reads_the_bitfield s (payload : Buffer) (i : Z) :
  let s' := (handleMessage s BITFIELD payload).1 in
  (forall n, 0 <= i < n ->
     BufferUtils.bitfieldToArray payload n !! Z.to_nat i
     = Some (hasPiece s' i)) /\
  (i < 0 \/ 8 * blen payload <= i -> hasPiece s' i = false).
Proof.
  cbv zeta.
  assert (Hbf : bitfield (peer (handleMessage s BITFIELD payload).1)
                = Some payload) by reflexivity.
  unfold hasPiece. rewrite Hbf. split.
  - intros n Hi. unfold BufferUtils.bitfieldToArray.
    rewrite list_lookup_fmap, lookup_seq_lt by lia. simpl.
    rewrite Z2Nat.id by lia. f_equal. unfold BufferUtils.bitAt.
    rewrite Z.rem_mod_nonneg by lia.
    destruct (i / 8 <? blen payload) eqn:E1;
      destruct (blen payload <=? i / 8) eqn:E2; zbool; try lia; reflexivity.
  - intros [Hi|Hi].
    + assert (i / 8 < 0) by (apply Z.div_lt_upper_bound; lia).
      pose proof (blen_nonneg payload).
      destruct (blen payload <=? i / 8) eqn:E; [done|].
      unfold byteAt. destruct (i / 8 <? 0) eqn:E2; zbool; [done|lia].
    + assert (blen payload <= i / 8) by (apply Z.div_le_lower_bound; lia).
      destruct (blen payload <=? i / 8) eqn:E; zbool; [done|lia].
Qed.

(** The bitfield [10100000]: the peer has pieces 0 and 2. *)
Lemma hasPiece_witness :
  BufferUtils.bitfieldToArray [xa0] 3 !! Z.to_nat 2
  = Some (hasPiece (handleMessage session_choked BITFIELD [xa0]).1 2) /\
  hasPiece (handleMessage session_choked BITFIELD [xa0]).1 2 = true /\
  hasPiece (handleMessage session_choked BITFIELD [xa0]).1 8 = false.
Proof.
  split; [|split].
  - exact (proj1 (hasPiece_reads_the_bitfield session_choked [xa0] 2) 3
             ltac:(lia)).
  - reflexivity.
  - reflexivity.
Defined.

(** ** A session without a connection *)

Lemma requestBlocks_silent fuel s i l off :
  socket s && connected s = false -> requestBlocks fuel s i l off = [].
Proof.
  intros Hs. revert off. induction fuel as [|fuel IH]; intros off; [done|].
  simpl. destruct (off <? l); [|done].
  unfold requestBlock, sendData. rewrite Hs.
  destruct (writeUInt32BE i); try done. destruct (writeUInt32BE off); try done.
  destruct (writeUInt32BE _); try done. simpl.
  destruct (createMessage _ _); try done. simpl. apply IH.
Qed.

Lemma processLoop_connection fuel s :
  socket (processMessagesLoop fuel s).1 = socket s /\
  connected (processMessagesLoop fuel s).1 = connected s.
Proof.
  revert s. induction fuel as [|fuel IH]; intros s; [done|].
  cbn [processMessagesLoop].
  destruct (blen (messageBuffer s) <? 4); [done|].
  destruct (readUInt32BE (messageBuffer s) 0 =? 0).
  { destruct (IH (set_messageBuffer s (slice (messageBuffer s) 4
                                              (blen (messageBuffer s)))))
      as [H1 H2]. rewrite H1, H2. done. }
  destruct (blen (messageBuffer s) <? 4 + _); [done|].
  set (s1 := set_messageBuffer s _).
  set (ty := match byteAt _ 0 with Some b => Z_of_byte b | None => 0 end).
  set (payload := slice (slice _ _ _) _ _).
  assert (Hm : socket (handleMessage s1 ty payload).1 = socket s /\
               connected (handleMessage s1 ty payload).1 = connected s).
  { unfold handleMessage.
    repeat match goal with
    | |- context [if ?c then _ else _] => destruct c
    end; done. }
  destruct (handleMessage s1 ty payload) as [s2 ev]. simpl in Hm.
  destruct (IH s2) as [H1 H2].
  destruct (processMessagesLoop fuel s2) as [s3 ev']. simpl in *.
  destruct Hm. split; congruence.
Qed.

Lemma handleHandshake_silent s :
  socket s && connected s = false ->
  written (handleHandshake s).2 = [] /\
  socket (handleHandshake s).1 && connected (handleHandshake s).1 = false.
Proof.
  intros Hs. unfold handleHandshake.
  destruct (negb (buf_equals _ _)); [done|].
  destruct (negb (buf_equals _ _)); [done|].
  unfold sendInterested, sendData. simpl. rewrite Hs. done.
Qed.

Lemma exec_silent s c :
  socket s && connected s = false -> c <> CConnect ->
  (exec s c).2 = [] /\
  socket (exec s c).1 && connected (exec s c).1 = false.
Proof.
  intros Hs Hc. destruct c as [|data|ty payload|i l| |]; [done| | | | |].
  - simpl. unfold handleData.
    set (s1 := set_messageBuffer s (messageBuffer s ++ data)).
    assert (Hs1 : socket s1 && connected s1 = false) by exact Hs.
    assert (Hh : forall s2 e,
              (if negb (handshakeCompleted s1)
                  && (HANDSHAKE_LENGTH <=? blen (messageBuffer s1))
               then handleHandshake s1 else (s1, no_effects)) = (s2, e) ->
              written e = [] /\ socket s2 && connected s2 = false).
    { intros s2 e. destruct (negb (handshakeCompleted s1) && _).
      - intros E. pose proof (handleHandshake_silent s1 Hs1) as Hq.
        rewrite E in Hq. exact Hq.
      - intros [= <- <-]. done. }
    destruct (if negb (handshakeCompleted s1) && _ then _ else _)
      as [s2 e] eqn:E.
    destruct (Hh s2 e eq_refl) as [Hw Hs2].
    destruct (handshakeCompleted s2).
    + unfold processMessages.
      destruct (processLoop_connection (S (length (messageBuffer s2))) s2)
        as [H1 H2].
      destruct (processMessagesLoop _ s2) as [s3 ev]. simpl in *.
      rewrite Hw, H1, H2. done.
    + simpl. done.
  - simpl. split; [done|]. unfold handleMessage.
    repeat match goal with
    | |- context [if ?c then _ else _] => destruct c
    end; exact Hs.
  - simpl. split; [|done]. unfold requestPiece.
    destruct (choked (peer s)); [done|]. apply requestBlocks_silent. done.
  - simpl. split; [done|]. unfold disconnect.
    destruct (socket s) eqn:E; simpl; [done|]. rewrite E. done.
  - simpl. split; [done|]. apply andb_false_r.
Qed.

(** X15. After [disconnect], nothing is written to the socket until the
    socket connects again, whatever data arrives and whatever is
    requested. *)
Theorem disconnected_session_writes_nothing s (cs : list call) :
  Forall (fun c => c <> CConnect) cs ->
  (run (disconnect s) cs).2 = [].
Proof.
  intros Hcs.
  assert (Hs : socket (disconnect s) && connected (disconnect s) = false).
  { unfold disconnect. destruct (socket s) eqn:E; simpl; [done|].
    rewrite E. done. }
  revert Hs. generalize (disconnect s). clear s.
  induction Hcs as [|c cs Hc _ IH]; intros s Hs; [done|].
  simpl. destruct (exec_silent s c Hs Hc) as [Hw Hs1].
  destruct (exec s c) as [s1 w1]. simpl in *.
  specialize (IH s1 Hs1). destruct (run s1 cs) as [s2 w2]. simpl in *.
  rewrite Hw, IH. done.
Qed.

(** After [disconnect], an [unchoke] message and a request for piece 3. *)
Lemma disconnected_session_witness :
  Forall (fun c => c <> CConnect)
         [CData [x00; x00; x00; x01; x01]; CRequestPiece 3 20000] /\
  (run (disconnect session_choked)
       [CData [x00; x00; x00; x01; x01]; CRequestPiece 3 20000]).2 = [].
Proof.
  assert (H : Forall (fun c => c <> CConnect)
                [CData [x00; x00; x00; x01; x01]; CRequestPiece 3 20000]).
  { repeat constructor; discriminate. }
  split; [exact H|].
  exact (disconnected_session_writes_nothing session_choked _ H).
Defined.

End PeerWire.

(** * More of the piece store: what every reachable state satisfies *)
Section StoreInvariant.
Import PieceManager PieceRel StoreSpec.

Lemma core_eq_refl p : core_eq p p.
Proof. unfold core_eq. tauto. Qed.

Lemma piece_ok_core md cs i p p' :
  core_eq p p' -> piece_ok md cs i p -> piece_ok md cs i p'.
Proof.
  unfold core_eq, piece_ok.
  intros (H1 & H2 & H3 & H4 & H5 & H6) (K1 & K2 & K3 & K4 & K5 & K6).
  rewrite H1, H2, H3, H4, H5, H6. tauto.
Qed.

(** Storing a piece with the same core at an index keeps the store sound. *)
Lemma store_update md pm idx p p' :
  store_ok md pm -> array_get (pieces pm) idx = Some p -> core_eq p p' ->
  store_ok md (update_piece pm idx p').
Proof.
  intros [Hp Hc] Hget Hcore. apply array_get_Some in Hget as [Hi Hl].
  split; simpl.
  - intros i q Hq. destruct (decide (i = Z.to_nat idx)) as [->|Hne].
    + rewrite list_lookup_insert_eq in Hq by (eapply lookup_lt_Some; eauto).
      inversion Hq; subst q. eapply piece_ok_core; eauto.
    + rewrite list_lookup_insert_ne in Hq by congruence. auto.
  - intros z Hz. rewrite length_insert. auto.
Qed.

Lemma getNext_store md pm :
  store_ok md pm -> store_ok md (getNextPieceToDownload pm).2.
Proof.
  intros H. unfold getNextPieceToDownload.
  destruct (array_get _ _) as [p|] eqn:E; [|done].
  destruct (negb (completed p) && negb (requested p)); [|done]. simpl.
  eapply store_update; eauto. unfold core_eq. simpl. tauto.
Qed.

Lemma getRarest_store md pm bf :
  store_ok md pm -> store_ok md (getRarestPiece pm bf).2.
Proof.
  intros H. unfold getRarestPiece.
  destruct (negb (rarestIndex _ =? -1)); [|by apply getNext_store].
  destruct (array_get _ _) as [p|] eqn:E; [|done]. simpl.
  eapply store_update; eauto. unfold core_eq. simpl. tauto.
Qed.

Lemma reset_store md pm idx :
  store_ok md pm -> store_ok md (resetPieceRequest pm idx).
Proof.
  intros H. unfold resetPieceRequest.
  destruct (array_get _ _) as [p|] eqn:E; [|done].
  destruct (negb (completed p)); [|done].
  eapply store_update; eauto. unfold core_eq. simpl. tauto.
Qed.

Lemma assemble_store md pm idx p :
  store_ok md pm -> array_get (pieces pm) idx = Some p ->
  completed p = false ->
  store_ok md (assemblePiece pm idx p).2.
Proof.
  intros H Hget Hc. unfold assemblePiece.
  destruct (assembleBlocks _ _ _ _) as [d|]; [|done].
  destruct (negb (blen d =? size p)) eqn:Elen; [done|].
  destruct (negb (CryptoUtils.verifyHash d (hash p))) eqn:Ehash.
  - simpl. eapply store_update; eauto. unfold core_eq. simpl. tauto.
  - simpl. apply negb_false_iff in Elen, Ehash. zbool.
    pose proof Hget as Hget'. apply array_get_Some in Hget' as [Hi Hl].
    destruct H as [Hp Hcs]. split; simpl.
    + intros i q Hq. destruct (decide (i = Z.to_nat idx)) as [->|Hne].
      * rewrite list_lookup_insert_eq in Hq by (eapply lookup_lt_Some; eauto).
        inversion Hq; subst q.
        destruct (Hp _ _ Hl) as (K1 & K2 & K3 & K4 & K5 & K6).
        unfold piece_ok. simpl. repeat split; try done.
        intros _. apply elem_of_union_l, elem_of_singleton. lia.
      * rewrite list_lookup_insert_ne in Hq by congruence.
        destruct (Hp _ _ Hq) as (K1 & K2 & K3 & K4 & K5 & K6).
        unfold piece_ok. repeat split; try done; try tauto.
        -- intros Hq'. apply elem_of_union_r. tauto.
        -- intros Hin. apply elem_of_union in Hin as [Hin|Hin]; [|tauto].
           apply elem_of_singleton in Hin. lia.
    + intros z Hz. rewrite length_insert.
      apply elem_of_union in Hz as [Hz|Hz]; [|auto].
      apply elem_of_singleton in Hz. subst z.
      apply lookup_lt_Some in Hl. lia.
Qed.

Lemma addBlock_store md pm idx off blk :
  store_ok md pm -> store_ok md (addBlockToPiece pm idx off blk).2.
Proof.
  intros H. unfold addBlockToPiece.
  destruct (array_get (pieces pm) idx) as [piece|] eqn:Hget; [|done].
  destruct (completed piece) eqn:Hc; [done|].
  destruct (size piece <? off + blen blk); [done|].
  set (piece1 := match blocks piece !! off with
                 | Some _ => piece
                 | None => _ end).
  assert (H1 : core_eq piece piece1 /\ completed piece1 = false).
  { subst piece1. destruct (blocks piece !! off); simpl;
      (split; [unfold core_eq; simpl; tauto|done]). }
  destruct H1 as [Hcore Hc1].
  assert (Hs1 : store_ok md (update_piece pm idx piece1))
    by (eapply store_update; eauto).
  destruct (totalBlocks piece1 <=? receivedBlocks piece1); [|exact Hs1].
  apply assemble_store; [exact Hs1| |exact Hc1].
  apply array_get_Some in Hget as [Hi Hl]. apply array_get_Some.
  split; [done|]. simpl. apply list_lookup_insert_eq.
  eapply lookup_lt_Some; eauto.
Qed.

Lemma new_store md : store_ok md (new md).
Proof.
  split; simpl.
  - intros i p Hp. unfold initializePieces in Hp.
    rewrite list_lookup_fmap in Hp.
    destruct (seq 0 _ !! i) as [j|] eqn:E; [|discriminate].
    apply lookup_seq in E as [-> _]. simpl in Hp. inversion Hp; subst p.
    unfold piece_ok. simpl. repeat split; try done.
  - intros z Hz. apply elem_of_empty in Hz. done.
Qed.

(** Every state of the store reached from the constructor is sound. *)
Lemma reachable_store md pm : reachable md pm -> store_ok md pm.
Proof.
  induction 1 as [|pm c Hr IH]; [apply new_store|].
  destruct c as [|bf|i o b|i]; simpl.
  - by apply getNext_store.
  - by apply getRarest_store.
  - by apply addBlock_store.
  - by apply reset_store.
Qed.

Lemma reachable_completed0 : reachable md_two pm_completed0.
Proof.
  unfold pm_completed0. apply reach_call.
  change pm_requested0 with (exec (PieceManager.new md_two) CNext).
  apply reach_call. constructor.
Qed.

(** X16. In every state of the store reached from the constructor, the data
    that [getPieceData] returns for a piece has the length and the SHA-1
    digest that the metadata give for that piece, and the piece is in
    [completedPieces]; and [getPieceData] returns data for every piece of
    [completedPieces]. *)
Theorem getPieceData_is_verified md pm (i : Z) :
  reachable md pm ->
  (forall d, getPieceData pm i = Some d ->
     isPieceComplete pm i = true /\
     blen d = size (initialPiece md i) /\
     forall h, array_get (pieceHashes md) i = Some h ->
               CryptoUtils.sha1 d = h) /\
  (isPieceComplete pm i = true -> exists d, getPieceData pm i = Some d).
Proof.
  intros Hr. apply reachable_store in Hr as [Hp Hcs]. split.
  - intros d. unfold getPieceData.
    destruct (array_get (pieces pm) i) as [p|] eqn:Hget; [|discriminate].
    destruct (completed p) eqn:Hc; [|discriminate]. intros [= <-].
    apply array_get_Some in Hget as [Hi Hl].
    destruct (Hp _ _ Hl) as (K1 & K2 & K3 & K4 & K5 & K6).
    rewrite Z2Nat.id in * by done.
    destruct (K6 Hc) as [Hv Hlen]. split; [|split].
    + unfold isPieceComplete. apply bool_decide_eq_true_2. tauto.
    + congruence.
    + intros h Hh. unfold CryptoUtils.verifyHash, buf_equals in Hv.
      apply bool_decide_eq_true in Hv. rewrite Hv, K3. simpl. rewrite Hh. done.
  - unfold isPieceComplete. intros Hin. apply bool_decide_eq_true in Hin.
    destruct (Hcs _ Hin) as [H0 Hlt].
    destruct (lookup_lt_is_Some_2 (pieces pm) (Z.to_nat i) ltac:(lia))
      as [p Hl].
    destruct (Hp _ _ Hl) as (K1 & K2 & K3 & K4 & K5 & K6).
    rewrite Z2Nat.id in * by done.
    exists (data p). unfold getPieceData.
    rewrite (proj2 (array_get_Some _ _ _) (conj H0 Hl)).
    rewrite (proj2 K5 Hin). done.
Qed.

(** Piece 0 of [md_two] after its only block. *)
Lemma getPieceData_is_verified_witness :
  reachable md_two pm_completed0 /\
  getPieceData pm_completed0 0
  = Some [x01; x02] /\
  isPieceComplete pm_completed0 0 = true /\
  CryptoUtils.sha1 [x01; x02] = CryptoUtils.sha1 [x01; x02].
Proof.
  assert (Hr : reachable md_two pm_completed0) by apply reachable_completed0.
  assert (Hd : getPieceData pm_completed0 0
               = Some [x01; x02]) by (vm_compute; reflexivity).
  split; [exact Hr|]. split; [exact Hd|].
  destruct (proj1 (getPieceData_is_verified md_two _ 0 Hr) _ Hd)
    as (H1 & _ & H3).
  split; [exact H1|]. apply H3. reflexivity.
Defined.

Lemma indices_spec (n : nat) (z : Z) :
  z ∈ indices n <-> 0 <= z < Z.of_nat n.
Proof.
  unfold indices. rewrite elem_of_list_to_set, list_elem_of_fmap. split.
  - intros (k & -> & Hk). apply elem_of_seq in Hk. lia.
  - intros Hz. exists (Z.to_nat z). split; [lia|]. apply elem_of_seq. lia.
Qed.

Lemma indices_size (n : nat) : base.size (indices n) = n.
Proof.
  unfold indices. rewrite size_list_to_set.
  - rewrite length_map, length_seq. done.
  - apply NoDup_fmap_2; [|apply NoDup_seq]. intros a b. lia.
Qed.

(** X17. In every state reached from the constructor, [isDownloadComplete]
    answers [true] exactly when every piece of the store is completed. *)
Theorem isDownloadComplete_iff_all_completed md pm :
  reachable md pm ->
  (isDownloadComplete pm = true <->
   forall (i : nat) p, pieces pm !! i = Some p -> completed p = true).
Proof.
  intros Hr. apply reachable_store in Hr as [Hp Hcs].
  set (n := length (pieces pm)).
  assert (Hsub : completedPieces pm ⊆ indices n).
  { intros z Hz. apply indices_spec. apply Hcs. exact Hz. }
  unfold isDownloadComplete. rewrite bool_decide_eq_true. fold n. split.
  - intros Hsize i p Hl.
    assert (Heq : completedPieces pm = indices n).
    { apply set_subseteq_size_eq; [exact Hsub|]. rewrite indices_size. lia. }
    destruct (Hp _ _ Hl) as (_ & _ & _ & _ & K5 & _). apply K5.
    rewrite Heq. apply indices_spec. apply lookup_lt_Some in Hl. fold n in Hl. lia.
  - intros Hall.
    assert (Heq : completedPieces pm = indices n).
    { apply set_eq_subseteq. split; [exact Hsub|].
      intros z Hz. apply indices_spec in Hz.
      destruct (lookup_lt_is_Some_2 (pieces pm) (Z.to_nat z) ltac:(lia))
        as [p Hl].
      destruct (Hp _ _ Hl) as (_ & _ & _ & _ & K5 & _).
      rewrite Z2Nat.id in K5 by lia. apply K5. eauto. }
    rewrite Heq. apply indices_size.
Qed.

(** The store of [md_two] with one piece completed. *)
Lemma isDownloadComplete_witness :
  reachable md_two pm_completed0 /\
  isDownloadComplete pm_completed0 = false /\
  ~ (forall (i : nat) p,
       pieces pm_completed0 !! i = Some p ->
       completed p = true).
Proof.
  assert (Hr : reachable md_two pm_completed0) by apply reachable_completed0.
  assert (Hf : isDownloadComplete
                 pm_completed0 = false)
    by (vm_compute; reflexivity).
  split; [exact Hr|]. split; [exact Hf|].
  intros Hall.
  apply (proj2 (isDownloadComplete_iff_all_completed md_two _ Hr)) in Hall.
  rewrite Hf in Hall. discriminate.
Defined.

Lemma completedPrefix_lookup (cs : gset Z) (ps : list PieceInfo) :
  forall (k : Z) (i : nat) (d : Buffer),
    completedPrefix cs k ps !! i = Some d <->
    (exists p, ps !! i = Some p /\ data p = d) /\
    forall j : nat, (j <= i)%nat -> k + Z.of_nat j ∈ cs.
Proof.
  induction ps as [|p ps IH]; intros k i d; simpl.
  - split; [done|]. intros [(p & Hp & _) _]. done.
  - destruct (bool_decide (k ∈ cs)) eqn:E.
    + apply bool_decide_eq_true in E. destruct i as [|i]; simpl.
      * split.
        -- intros [= <-]. split; [eauto|]. intros j Hj.
           replace j with 0%nat by lia. rewrite Z.add_0_r. done.
        -- intros [(q & [= <-] & <-) _]. done.
      * rewrite IH. split; intros [Hex Hall]; (split; [exact Hex|]).
        -- intros [|j] Hj; [rewrite Z.add_0_r; done|].
           specialize (Hall j ltac:(lia)).
           replace (k + Z.of_nat (S j)) with (k + 1 + Z.of_nat j) by lia. done.
        -- intros j Hj. specialize (Hall (S j) ltac:(lia)).
           replace (k + 1 + Z.of_nat j) with (k + Z.of_nat (S j)) by lia. done.
    + apply bool_decide_eq_false in E. split; [done|].
      intros [_ Hall]. exfalso. apply E.
      specialize (Hall 0%nat ltac:(lia)). rewrite Z.add_0_r in Hall. done.
Qed.

(** X18. In every state reached from the constructor,
    [getCompletedPiecesInOrder] returns the data of the longest run of
    completed pieces that starts at piece 0: it has an entry [i] exactly
    when the pieces [0] to [i] are all completed, and that entry is what
    [getPieceData] returns for piece [i]. *)
Theorem completed_pieces_in_order md pm (i : nat) (d : Buffer) :
  reachable md pm ->
  (getCompletedPiecesInOrder pm !! i = Some d <->
   getPieceData pm (Z.of_nat i) = Some d /\
   forall j : nat, (j <= i)%nat -> isPieceComplete pm (Z.of_nat j) = true).
Proof.
  intros Hr. apply reachable_store in Hr as [Hp Hcs].
  unfold getCompletedPiecesInOrder. rewrite completedPrefix_lookup.
  unfold getPieceData, isPieceComplete. rewrite array_get_nat.
  split.
  - intros [(p & Hl & <-) Hall]. split.
    + rewrite Hl. destruct (Hp _ _ Hl) as (_ & _ & _ & _ & K5 & _).
      rewrite (proj2 K5); [done|]. apply (Hall i). lia.
    + intros j Hj. apply bool_decide_eq_true_2. apply (Hall j Hj).
  - intros [Hd Hall]. split.
    + destruct (pieces pm !! i) as [p|]; [|discriminate].
      destruct (completed p); [|discriminate]. inversion Hd. eauto.
    + intros j Hj. specialize (Hall j Hj).
      apply bool_decide_eq_true in Hall. done.
Qed.

(** The store of [md_two] with piece 0 completed: one entry. *)
Lemma completed_pieces_in_order_witness :
  reachable md_two pm_completed0 /\
  getCompletedPiecesInOrder pm_completed0
  = [[x01; x02]] /\
  getPieceData pm_completed0 (Z.of_nat 0)
  = Some [x01; x02].
Proof.
  assert (Hr : reachable md_two pm_completed0) by apply reachable_completed0.
  split; [exact Hr|]. split; [vm_compute; reflexivity|].
  apply (proj1 (completed_pieces_in_order md_two _ 0 [x01; x02] Hr)).
  vm_compute. reflexivity.
Defined.

Lemma initial_sizes_sum md (m : nat) :
  Z.of_nat m <= pieceCount md - 1 ->
  fold_left Z.add
    (map (fun i => size (initialPiece md (Z.of_nat i))) (seq 0 m)) 0
  = Z.of_nat m * pieceLength md.
Proof.
  induction m as [|m IH]; intros Hm; [reflexivity|].
  rewrite seq_S, map_app, sum_app, IH by lia. simpl.
  destruct (Z.of_nat m =? pieceCount md - 1) eqn:E; zbool; lia.
Qed.

(** X20. The sizes of the pieces add up to the length of the torrent: in
    every state reached from the constructor of a store with at least one
    piece, the [size] fields of the pieces sum to [totalLength]. *)
Theorem piece_sizes_sum_to_total md pm :
  reachable md pm -> 1 <= pieceCount md ->
  fold_left Z.add (map size (pieces pm)) 0 = totalLength md.
Proof.
  intros Hr Hn. pose proof (reachable_piece_count md pm Hr) as Hlen.
  apply reachable_store in Hr as [Hp _].
  set (n := Z.to_nat (pieceCount md - 1)).
  assert (Hmap : map size (pieces pm)
                 = map (fun i => size (initialPiece md (Z.of_nat i)))
                       (seq 0 (S n))).
  { apply list_eq. intros i. rewrite !list_lookup_fmap.
    destruct (pieces pm !! i) as [p|] eqn:E.
    - pose proof (lookup_lt_Some _ _ _ E).
      rewrite lookup_seq_lt by lia. simpl.
      destruct (Hp _ _ E) as (_ & K2 & _). rewrite K2. done.
    - apply lookup_ge_None in E. rewrite lookup_seq_ge by lia. done. }
  rewrite Hmap, seq_S, map_app, sum_app, initial_sizes_sum by lia.
  simpl. replace (Z.of_nat n =? pieceCount md - 1) with true
    by (symmetry; apply Z.eqb_eq; lia).
  lia.
Qed.

(** The fresh store of [md_short]: 4 + 4 + 1 = 9. *)
Lemma piece_sizes_sum_witness :
  reachable md_short (PieceManager.new md_short) /\
  1 <= pieceCount md_short /\
  map size (pieces (PieceManager.new md_short)) = [4; 4; 1] /\
  fold_left Z.add (map size (pieces (PieceManager.new md_short))) 0 = 9.
Proof.
  assert (Hr : reachable md_short (PieceManager.new md_short)) by constructor.
  assert (Hn : 1 <= pieceCount md_short) by (simpl; lia).
  split; [exact Hr|]. split; [exact Hn|]. split; [reflexivity|].
  exact (piece_sizes_sum_to_total md_short _ Hr Hn).
Defined.

Lemma update_Forall (P : PieceInfo -> Prop) pm idx p :
  Forall P (pieces pm) -> P p -> Forall P (pieces (update_piece pm idx p)).
Proof.
  intros H Hp. simpl. apply Forall_insert; done.
Qed.

Lemma blocks_ok_cleared p b :
  blocks_ok (set_blocks (set_requested p b) ∅ 0).
Proof.
  split; simpl; [rewrite map_size_empty; done|].
  intros o x Hx. rewrite lookup_empty in Hx. discriminate.
Qed.

Lemma addBlock_blocks_ok pm idx off blk :
  Forall blocks_ok (pieces pm) ->
  Forall blocks_ok (pieces (addBlockToPiece pm idx off blk).2).
Proof.
  intros H. unfold addBlockToPiece.
  destruct (array_get (pieces pm) idx) as [piece|] eqn:Hget; [|done].
  destruct (completed piece) eqn:Hc; [done|].
  destruct (size piece <? off + blen blk) eqn:Efit; [done|]. zbool.
  assert (Hpiece : blocks_ok piece).
  { apply array_get_Some in Hget as [_ Hl]. rewrite Forall_forall in H.
    apply H. eapply list_elem_of_lookup_2; eauto. }
  set (piece1 := match blocks piece !! off with
                 | Some _ => piece
                 | None => _ end).
  assert (H1 : blocks_ok piece1).
  { subst piece1. destruct (blocks piece !! off) eqn:Eo; [done|].
    destruct Hpiece as [Hn Hfit]. split; simpl.
    - rewrite map_size_insert_None by done. lia.
    - intros o b Hb. destruct (decide (o = off)) as [->|Hne].
      + rewrite lookup_insert_eq in Hb. inversion Hb; subst. lia.
      + rewrite lookup_insert_ne in Hb by done. eauto. }
  assert (Hs1 : Forall blocks_ok (pieces (update_piece pm idx piece1)))
    by (apply update_Forall; done).
  destruct (totalBlocks piece1 <=? receivedBlocks piece1); [|exact Hs1].
  unfold assemblePiece.
  destruct (assembleBlocks _ _ _ _) as [d|]; [|exact Hs1].
  destruct (negb (blen d =? size piece1)); [exact Hs1|].
  destruct (negb (CryptoUtils.verifyHash d (hash piece1))).
  - apply update_Forall; [exact Hs1|]. apply blocks_ok_cleared.
  - simpl. apply Forall_insert; [exact Hs1|]. exact H1.
Qed.

Lemma reachable_blocks_ok md pm :
  reachable md pm -> Forall blocks_ok (pieces pm).
Proof.
  induction 1 as [|pm c Hr IH].
  - simpl. unfold initializePieces. apply Forall_fmap, Forall_forall.
    intros i _. split; simpl; [rewrite map_size_empty; done|].
    intros o x Hx. rewrite lookup_empty in Hx. discriminate.
  - destruct c as [|bf|i o b|i]; simpl.
    + unfold getNextPieceToDownload.
      destruct (array_get _ _) as [p|] eqn:E; [|done].
      destruct (negb (completed p) && negb (requested p)); [|done].
      apply update_Forall; [done|].
      apply array_get_Some in E as [_ Hl]. rewrite Forall_forall in IH.
      apply (IH p). eapply list_elem_of_lookup_2; eauto.
    + unfold getRarestPiece.
      destruct (negb (rarestIndex _ =? -1)).
      * destruct (array_get _ _) as [p|] eqn:E; [|done].
        apply update_Forall; [done|].
        apply array_get_Some in E as [_ Hl]. rewrite Forall_forall in IH.
        apply (IH p). eapply list_elem_of_lookup_2; eauto.
      * unfold getNextPieceToDownload.
        destruct (array_get _ _) as [p|] eqn:E; [|done].
        destruct (negb (completed p) && negb (requested p)); [|done].
        apply update_Forall; [done|].
        apply array_get_Some in E as [_ Hl]. rewrite Forall_forall in IH.
        apply (IH p). eapply list_elem_of_lookup_2; eauto.
    + by apply addBlock_blocks_ok.
    + unfold resetPieceRequest.
      destruct (array_get _ _) as [p|] eqn:E; [|done].
      destruct (negb (completed p)); [|done].
      apply update_Forall; [done|]. apply blocks_ok_cleared.
Qed.

(** X22. A block is counted once: in every state reached from the
    constructor, [receivedBlocks] of a piece is the number of offsets in its
    block map, so a block delivered again at a stored offset is neither
    stored nor counted; and every stored block lies within the piece. *)
Theorem received_blocks_are_counted_once md pm (i : nat) p :
  reachable md pm -> pieces pm !! i = Some p ->
  receivedBlocks p = Z.of_nat (base.size (blocks p)) /\
  (forall o b, blocks p !! o = Some b -> o + blen b <= size p) /\
  (forall o b old,
     blocks p !! o = Some old -> completed p = false ->
     exists p',
       pieces (addBlockToPiece pm (Z.of_nat i) o b).2 !! i = Some p' /\
       (blocks p' = blocks p /\ receivedBlocks p' = receivedBlocks p \/
        blocks p' = ∅ /\ receivedBlocks p' = 0)).
Proof.
  intros Hr Hp. pose proof (reachable_blocks_ok md pm Hr) as Hall.
  rewrite Forall_forall in Hall.
  destruct (Hall p (list_elem_of_lookup_2 _ _ _ Hp)) as [Hn Hfit].
  split; [exact Hn|]. split; [exact Hfit|].
  intros o b old Ho Hc. unfold addBlockToPiece.
  rewrite array_get_nat, Hp, Hc, Ho.
  assert (Hlt : (i < length (pieces pm))%nat) by (eapply lookup_lt_Some; eauto).
  destruct (size p <? o + blen b); [eauto|].
  destruct (totalBlocks p <=? receivedBlocks p).
  - unfold assemblePiece.
    destruct (assembleBlocks _ _ _ _) as [d|].
    2:{ exists p. simpl. rewrite Nat2Z.id, list_lookup_insert_eq by done. auto. }
    destruct (negb (blen d =? size p)).
    { exists p. simpl. rewrite Nat2Z.id, list_lookup_insert_eq by done. auto. }
    destruct (negb (CryptoUtils.verifyHash d (hash p))).
    + eexists. simpl. rewrite Nat2Z.id.
      rewrite list_lookup_insert_eq by (rewrite length_insert; done).
      split; [reflexivity|]. right. done.
    + eexists. simpl. rewrite Nat2Z.id.
      rewrite list_lookup_insert_eq by (rewrite length_insert; done).
      split; [reflexivity|]. left. done.
  - exists p. simpl. rewrite Nat2Z.id, list_lookup_insert_eq by done. auto.
Qed.

(** Piece 0 of [md_two] after its block: one block stored and counted. *)
Lemma received_blocks_witness :
  reachable md_two pm_completed0 /\
  exists p,
    pieces pm_completed0 !! 0%nat = Some p /\
    receivedBlocks p = 1 /\
    receivedBlocks p = Z.of_nat (base.size (blocks p)).
Proof.
  split; [apply reachable_completed0|].
  eexists. split; [vm_compute; reflexivity|]. split; [reflexivity|].
  apply (received_blocks_are_counted_once md_two pm_completed0 0).
  - apply reachable_completed0.
  - vm_compute. reflexivity.
Defined.

End StoreInvariant.

(** * Assembling a piece from blocks that arrive in any order *)
Section Assembly.
Import PieceManager.

Lemma withOffsets_bounds (bs : list Buffer) :
  forall off o b, (o, b) ∈ withOffsets off bs ->
    off <= o /\ o + blen b <= off + blen (concat bs).
Proof.
  induction bs as [|x bs IH]; intros off o b Hin; simpl in *.
  - inversion Hin.
  - rewrite blen_app. pose proof (blen_nonneg x). pose proof (blen_nonneg (concat bs)).
    apply elem_of_cons in Hin as [[= -> ->]|Hin]; [lia|].
    apply IH in Hin. lia.
Qed.

Lemma withOffsets_keys_from (bs : list Buffer) (off k : Z) :
  k ∈ map fst (withOffsets off bs) -> off <= k.
Proof.
  intros Hk. apply list_elem_of_fmap in Hk as ([o b] & -> & Hin).
  apply withOffsets_bounds in Hin. simpl. lia.
Qed.

Lemma withOffsets_NoDup (bs : list Buffer) :
  Forall (fun b => b <> []) bs ->
  forall off, NoDup (map fst (withOffsets off bs)).
Proof.
  induction 1 as [|x bs Hx _ IH]; intros off; simpl; [constructor|].
  apply NoDup_cons. split; [|apply IH].
  intros Hin. apply withOffsets_keys_from in Hin.
  destruct x; [done|]. rewrite blen_cons in Hin. pose proof (blen_nonneg x). lia.
Qed.

Lemma withOffsets_Sorted (bs : list Buffer) :
  forall off, Sorted Z.le (map fst (withOffsets off bs)).
Proof.
  induction bs as [|x bs IH]; intros off; simpl; [constructor|].
  constructor; [apply IH|].
  destruct bs as [|y bs]; simpl; constructor.
  pose proof (blen_nonneg x). lia.
Qed.

(** The offsets that [assemblePiece] walks: those of the blocks, in
    ascending order. *)
Lemma sortedOffsets_withOffsets (bs : list Buffer) :
  Forall (fun b => b <> []) bs ->
  sortedOffsets (list_to_map (withOffsets 0 bs)) = map fst (withOffsets 0 bs).
Proof.
  intros Hne. unfold sortedOffsets.
  apply (Sorted_unique Z.le).
  - apply Sorted_merge_sort. intros x y. lia.
  - apply withOffsets_Sorted.
  - rewrite merge_sort_Permutation.
    apply fmap_Permutation. apply map_to_list_to_map.
    apply withOffsets_NoDup. exact Hne.
Qed.

Lemma assembleBlocks_all (m : gmap Z Buffer) (bs : list Buffer) :
  forall off acc,
    (forall o b, (o, b) ∈ withOffsets off bs -> m !! o = Some b) ->
    assembleBlocks m (map fst (withOffsets off bs)) acc off
    = Some (acc ++ concat bs).
Proof.
  induction bs as [|x bs IH]; intros off acc Hm; simpl.
  - rewrite app_nil_r. done.
  - rewrite bool_decide_eq_true_2 by done.
    rewrite (Hm off x) by left. simpl.
    rewrite IH; [rewrite <- app_assoc; done|].
    intros o b Hin. apply Hm. right. exact Hin.
Qed.

(** A block that is new to a piece and fits in it is stored and counted;
    the piece is assembled when the count reaches [totalBlocks]. *)
Lemma addBlock_new pm (i : Z) p (o : Z) (b : Buffer) :
  array_get (pieces pm) i = Some p -> completed p = false ->
  blocks p !! o = None -> o + blen b <= size p ->
  addBlockToPiece pm i o b
  = (let p' := set_blocks p (<[o := b]> (blocks p)) (receivedBlocks p + 1) in
     let pm' := update_piece pm i p' in
     if totalBlocks p' <=? receivedBlocks p' then assemblePiece pm' i p'
     else (false, pm')).
Proof.
  intros Hget Hc Hb Hfit. unfold addBlockToPiece. rewrite Hget, Hc, Hb.
  destruct (size p <? o + blen b) eqn:E; zbool; [lia|]. reflexivity.
Qed.

Lemma array_get_update pm (i : Z) p p' :
  array_get (pieces pm) i = Some p ->
  array_get (pieces (update_piece pm i p')) i = Some p'.
Proof.
  intros Hget. apply array_get_Some in Hget as [Hi Hl]. apply array_get_Some.
  split; [done|]. simpl. apply list_lookup_insert_eq.
  eapply lookup_lt_Some; eauto.
Qed.

(** Delivering new blocks to a piece: every call but the last answers
    [false]; the last one assembles the piece from all the blocks. *)
Lemma deliver_rest (i : Z) (rest : list (Z * Buffer)) :
  forall (delivered : list (Z * Buffer)) pm p (r0 : bool),
    array_get (pieces pm) i = Some p -> completed p = false ->
    blocks p = list_to_map (rev delivered) ->
    receivedBlocks p = Z.of_nat (length delivered) ->
    NoDup (map fst (delivered ++ rest)) ->
    Forall (fun ob => ob.1 + blen ob.2 <= size p) rest ->
    totalBlocks p = Z.of_nat (length delivered + length rest) ->
    rest <> [] ->
    exists pmf pf,
      fold_left (fun st ob => addBlockToPiece st.2 i ob.1 ob.2) rest (r0, pm)
      = assemblePiece pmf i pf /\
      array_get (pieces pmf) i = Some pf /\ completed pf = false /\
      size pf = size p /\ hash pf = hash p /\
      blocks pf = list_to_map (rev (delivered ++ rest)).
Proof.
  induction rest as [|[o b] rest IH];
    intros delivered pm p r0 Hget Hc Hb Hn Hnd Hfit Htot Hne; [done|].
  clear Hne. apply Forall_cons in Hfit as [Hfit1 Hfit]. simpl in Hfit1.
  assert (Hnew : blocks p !! o = None).
  { rewrite Hb. apply not_elem_of_list_to_map_1.
    rewrite map_app in Hnd. apply NoDup_app in Hnd as (_ & Hdis & _).
    intros Hin. apply (Hdis o).
    - apply list_elem_of_fmap in Hin as (x & -> & Hx).
      apply list_elem_of_fmap. exists x. split; [done|].
      apply list_elem_of_In, in_rev, list_elem_of_In. exact Hx.
    - left. }
  cbn [fold_left]. simpl snd. simpl fst.
  rewrite (addBlock_new pm i p o b Hget Hc Hnew Hfit1). cbv zeta.
  set (p' := set_blocks p (<[o := b]> (blocks p)) (receivedBlocks p + 1)).
  assert (Hget' : array_get (pieces (update_piece pm i p')) i = Some p')
    by (eapply array_get_update; eauto).
  assert (Hb' : blocks p' = list_to_map (rev (delivered ++ [(o, b)]))).
  { subst p'. simpl blocks. rewrite rev_app_distr.
    change (rev [(o, b)] ++ rev delivered) with ((o, b) :: rev delivered).
    rewrite list_to_map_cons, Hb. done. }
  assert (Hn' : receivedBlocks p' = Z.of_nat (length (delivered ++ [(o, b)]))).
  { subst p'. simpl. rewrite length_app, Hn. simpl. lia. }
  assert (Happ : delivered ++ (o, b) :: rest = (delivered ++ [(o, b)]) ++ rest).
  { rewrite <- app_assoc. done. }
  destruct rest as [|x rest].
  - replace (totalBlocks p' <=? receivedBlocks p') with true.
    2:{ symmetry. apply Z.leb_le. rewrite Hn'. subst p'. simpl totalBlocks.
        rewrite Htot, length_app. simpl. lia. }
    simpl fold_left. exists (update_piece pm i p'), p'.
    repeat split; done.
  - replace (totalBlocks p' <=? receivedBlocks p') with false.
    2:{ symmetry. apply Z.leb_gt. rewrite Hn'. subst p'. simpl totalBlocks.
        rewrite Htot, length_app. simpl. lia. }
    assert (Hnd' : NoDup (map fst ((delivered ++ [(o, b)]) ++ x :: rest)))
      by (rewrite <- Happ; exact Hnd).
    assert (Htot' : totalBlocks p'
                    = Z.of_nat (length (delivered ++ [(o, b)])
                                + length (x :: rest))).
    { subst p'. simpl totalBlocks. rewrite Htot, length_app. simpl.
      f_equal. lia. }
    destruct (IH (delivered ++ [(o, b)]) (update_piece pm i p') p' false
                 Hget' Hc Hb' Hn' Hnd' Hfit Htot' ltac:(discriminate))
      as (pmf & pf & Hfold & Hgf & Hcf & Hsf & Hhf & Hbf).
    exists pmf, pf. rewrite Happ. repeat split; done.
Qed.

(** X19. The blocks of a piece may arrive in any order.  When a piece
    without blocks is sent, one call each and in any order, the non-empty
    blocks that make up its bytes, as many as [totalBlocks], the last call
    answers whether the digest of the bytes is the expected one; and when
    it is, [getPieceData] returns the bytes. *)
Theorem blocks_in_any_order pm (i : Z) p (bs : list Buffer)
    (order : list (Z * Buffer)) :
  array_get (pieces pm) i = Some p -> completed p = false ->
  blocks p = ∅ -> receivedBlocks p = 0 ->
  bs <> [] -> Forall (fun b => b <> []) bs ->
  totalBlocks p = Z.of_nat (length bs) -> blen (concat bs) = size p ->
  order ≡ₚ withOffsets 0 bs ->
  (deliver pm i order).1 = CryptoUtils.verifyHash (concat bs) (hash p) /\
  (CryptoUtils.verifyHash (concat bs) (hash p) = true ->
   getPieceData (deliver pm i order).2 i = Some (concat bs)).
Proof.
  intros Hget Hc Hb Hn Hbs Hne Htot Hlen Hperm.
  assert (Hnd : NoDup (map fst (withOffsets 0 bs)))
    by (apply withOffsets_NoDup; done).
  assert (Hlo : length order = length bs).
  { rewrite Hperm. clear. generalize 0. induction bs; intros; simpl; auto. }
  destruct (deliver_rest i order [] pm p false) as
    (pmf & pf & Hfold & Hgf & Hcf & Hsf & Hhf & Hbf); try done.
  - simpl. rewrite Hperm. exact Hnd.
  - apply Forall_forall. intros [o b] Hin. simpl.
    rewrite Hperm in Hin. apply withOffsets_bounds in Hin. lia.
  - simpl. rewrite Htot, Hlo. done.
  - intros ->. apply Permutation_nil_l in Hperm.
    destruct bs; [done|discriminate].
  - unfold deliver. rewrite Hfold. simpl in Hbf.
    assert (Hmap : blocks pf = list_to_map (withOffsets 0 bs)).
    { rewrite Hbf. apply list_to_map_proper.
      - rewrite <- Permutation_rev, Hperm. exact Hnd.
      - rewrite <- Permutation_rev. exact Hperm. }
    unfold assemblePiece. rewrite Hmap, sortedOffsets_withOffsets by done.
    rewrite assembleBlocks_all.
    2:{ intros o b Hin. apply elem_of_list_to_map_1; done. }
    rewrite app_nil_l, Hlen, <- Hsf, Z.eqb_refl. simpl negb. cbv iota.
    rewrite Hhf.
    destruct (CryptoUtils.verifyHash (concat bs) (hash p)); simpl.
    + split; [done|]. intros _. unfold getPieceData. simpl pieces.
      pose proof (array_get_update pmf i pf (set_completed pf (concat bs)) Hgf)
        as Hfin.
      simpl pieces in Hfin. rewrite Hfin. done.
    + split; [done|discriminate].
Qed.

(** The two blocks of the piece of [md_big], the second one first. *)
Lemma blocks_in_any_order_witness :
  [(16384, [x01]); (0, repeat x01 (Z.to_nat 16384))] ≡ₚ withOffsets 0 big_blocks /\
  totalBlocks (initialPiece md_big 0) = Z.of_nat (length big_blocks) /\
  (deliver (PieceManager.new md_big) 0
           [(16384, [x01]); (0, repeat x01 (Z.to_nat 16384))]).1
  = CryptoUtils.verifyHash (concat big_blocks) (hash (initialPiece md_big 0)).
Proof.
  assert (Hp : [(16384, [x01]); (0, repeat x01 (Z.to_nat 16384))]
               ≡ₚ withOffsets 0 big_blocks).
  { change (withOffsets 0 big_blocks)
      with [(0, repeat x01 (Z.to_nat 16384)); (0 + blen (repeat x01 (Z.to_nat 16384)), [x01])].
    replace (0 + blen (repeat x01 (Z.to_nat 16384))) with 16384
      by (vm_compute; reflexivity).
    apply Permutation_swap. }
  assert (Ht : totalBlocks (initialPiece md_big 0)
               = Z.of_nat (length big_blocks)) by reflexivity.
  split; [exact Hp|]. split; [exact Ht|].
  refine (proj1 (blocks_in_any_order (PieceManager.new md_big) 0
                   (initialPiece md_big 0) big_blocks _
                   eq_refl eq_refl eq_refl eq_refl _ _ Ht _ Hp)).
  - discriminate.
  - repeat constructor; discriminate.
  - vm_compute. reflexivity.
Defined.

End Assembly.

(** * One call of [addBlockToPiece] *)
Section AddBlock.
Import PieceManager.







End AddBlock.

(** * The rarest piece *)
Section Rarest.
Import PieceManager.

Lemma rarest_fold (counts : list (Z * Z)) :
  forall acc : Z * option Z,
    let r :=
      fold_left
        (fun (acc : Z * option Z) (ic : Z * Z) =>
           let '(index, count) := ic in
           if (0 <? count)
              && match acc.2 with Some m => count <? m | None => true end
           then (index, Some count) else acc)
        counts acc in
    (r = acc /\ forall z c, (z, c) ∈ counts -> ~ better c acc) \/
    (exists l1 z c l2,
       counts = l1 ++ (z, c) :: l2 /\ r = (z, Some c) /\ better c acc /\
       (forall z' c', (z', c') ∈ l1 -> 0 < c' -> c < c') /\
       (forall z' c', (z', c') ∈ l2 -> 0 < c' -> c <= c')).
Proof.
  induction counts as [|[z0 c0] t IH]; intros acc r.
  - left. split; [done|]. intros z c Hin. inversion Hin.
  - subst r. cbn [fold_left].
    assert (Hcond : (0 <? c0)
                    && match acc.2 with Some m => c0 <? m | None => true end
                    = true <-> better c0 acc).
    { unfold better. rewrite andb_true_iff, Z.ltb_lt.
      destruct acc.2 as [m|]; simpl.
      - rewrite Z.ltb_lt. split.
        + intros [H1 H2]. split; [done|]. intros m' [= <-]. done.
        + intros [H1 H2]. split; [done|]. apply H2. done.
      - split; [|tauto]. intros [H1 _]. split; [done|]. discriminate. }
    destruct ((0 <? c0) && _) eqn:E.
    + destruct (proj1 Hcond eq_refl) as [E0 Em].
      destruct (IH (z0, Some c0)) as [[Hr Hnone]|
        (l1 & z & c & l2 & Ht & Hr & [Hb0 Hbm] & H1 & H2)].
      * right. exists [], z0, c0, t. split; [done|]. split; [exact Hr|].
        split; [split; done|]. split; [intros z' c' Hin; inversion Hin|].
        intros z' c' Hin Hc'.
        destruct (Z.le_gt_cases c0 c') as [|Hlt]; [done|].
        exfalso. apply (Hnone z' c' Hin). split; [done|].
        intros m [= <-]. lia.
      * right. exists ((z0, c0) :: l1), z, c, l2.
        specialize (Hbm c0 eq_refl).
        split; [rewrite Ht; done|]. split; [exact Hr|].
        split; [split; [done|]; intros m Hm; specialize (Em m Hm); lia|].
        split; [|exact H2].
        intros z' c' Hin Hc'. apply elem_of_cons in Hin as [[= -> ->]|Hin];
          [lia|eauto].
    + assert (Hnb : ~ better c0 acc).
      { intros Hb. apply Hcond in Hb. discriminate. }
      destruct (IH acc) as [[Hr Hnone]|
        (l1 & z & c & l2 & Ht & Hr & [Hb0 Hbm] & H1 & H2)].
      * left. split; [exact Hr|]. intros z c Hin.
        apply elem_of_cons in Hin as [[= -> ->]|Hin]; [done|eauto].
      * right. exists ((z0, c0) :: l1), z, c, l2.
        split; [rewrite Ht; done|]. split; [exact Hr|].
        split; [split; done|]. split; [|exact H2].
        intros z' c' Hin Hc'. apply elem_of_cons in Hin as [[= -> ->]|Hin];
          [|eauto].
        destruct (Z.lt_ge_cases c c0) as [|Hge]; [done|].
        exfalso. apply Hnb. split; [done|].
        intros m Hm. specialize (Hbm m Hm). lia.
Qed.

(** The counters from piece [k] on. *)
Lemma counts_from (peerBitfields : list (list bool)) (ps : list PieceInfo) :
  forall k : nat,
    let counts :=
      omap (fun ip : nat * PieceInfo =>
              if negb (completed ip.2) && negb (requested ip.2) then
                Some (Z.of_nat ip.1, availability peerBitfields ip.1)
              else None)
           (imap (fun i p => ((k + i)%nat, p)) ps) in
    (forall z c, (z, c) ∈ counts <->
       exists (j : nat) p, z = Z.of_nat (k + j) /\ ps !! j = Some p /\
                           idle p = true /\
                           c = availability peerBitfields (k + j)) /\
    StronglySorted Z.lt (map fst counts).
Proof.
  induction ps as [|p ps IH]; intros k counts.
  - subst counts. simpl. split; [|constructor].
    intros z c. split; [intros H; inversion H|].
    intros (j & q & _ & Hq & _). done.
  - subst counts. rewrite imap_cons. cbn [omap list_omap].
    assert (Hext : imap ((fun i p => ((k + i)%nat, p)) ∘ S) ps
                   = imap (fun i p => ((S k + i)%nat, p)) ps).
    { apply imap_ext. intros i x _. simpl. f_equal. lia. }
    rewrite Hext. destruct (IH (S k)) as [IHm IHs].
    set (rest := omap _ (imap (fun i p => ((S k + i)%nat, p)) ps)) in *.
    assert (Hrest : forall z c, (z, c) ∈ rest ->
              Z.of_nat k < z /\
              exists (j : nat) q, z = Z.of_nat (k + S j) /\
                ps !! j = Some q /\ idle q = true /\
                c = availability peerBitfields (k + S j)).
    { intros z c Hin. apply IHm in Hin as (j & q & -> & Hq & Hi & ->).
      split; [lia|]. exists j, q.
      replace (k + S j)%nat with (S k + j)%nat by lia. done. }
    simpl fst. simpl snd. rewrite Nat.add_0_r.
    fold (idle p).
    destruct (idle p) eqn:Ei.
    + split.
      * intros z c. rewrite elem_of_cons. split.
        -- intros [[= -> ->]|Hin].
           ++ exists 0%nat, p. rewrite Nat.add_0_r. done.
           ++ apply Hrest in Hin as (_ & j & q & H1 & H2 & H3 & H4).
              exists (S j), q. done.
        -- intros ([|j] & q & -> & Hq & Hi & ->).
           ++ left. rewrite Nat.add_0_r. done.
           ++ right. apply IHm. exists j, q.
              replace (S k + j)%nat with (k + S j)%nat by lia. done.
      * simpl. constructor; [exact IHs|].
        apply Forall_forall. intros z Hz.
        apply list_elem_of_fmap in Hz as ([z' c'] & -> & Hin).
        apply Hrest in Hin. simpl. tauto.
    + split; [|exact IHs].
      intros z c. split.
      * intros Hin. apply Hrest in Hin as (_ & j & q & H1 & H2 & H3 & H4).
        exists (S j), q. done.
      * intros ([|j] & q & -> & Hq & Hi & ->).
        -- simpl in Hq. inversion Hq; subst q. congruence.
        -- apply IHm. exists j, q.
           replace (S k + j)%nat with (k + S j)%nat by lia. done.
Qed.

Lemma pieceCounts_spec pm (peerBitfields : list (list bool)) :
  (forall z c, (z, c) ∈ pieceCounts pm peerBitfields <->
     exists (j : nat) p, z = Z.of_nat j /\ pieces pm !! j = Some p /\
                         idle p = true /\
                         c = availability peerBitfields j) /\
  StronglySorted Z.lt (map fst (pieceCounts pm peerBitfields)).
Proof. exact (counts_from peerBitfields (pieces pm) 0). Qed.

(** X21. [getRarestPiece] returns, among the pieces that are neither
    completed nor requested and that at least one peer has, the one that
    the fewest peers have, the lowest-indexed one when several tie, and
    marks it requested.  When no peer has any such piece it does what
    [getNextPieceToDownload] does. *)
Theorem getRarestPiece_picks_the_rarest pm (peerBitfields : list (list bool)) :
  ((forall (j : nat) p, pieces pm !! j = Some p -> idle p = true ->
      availability peerBitfields j = 0) ->
   getRarestPiece pm peerBitfields = getNextPieceToDownload pm) /\
  (forall (j0 : nat) p0,
     pieces pm !! j0 = Some p0 -> idle p0 = true ->
     0 < availability peerBitfields j0 ->
     exists (r : nat) p,
       pieces pm !! r = Some p /\ idle p = true /\
       getRarestPiece pm peerBitfields
       = (Some (set_requested p true),
          update_piece pm (Z.of_nat r) (set_requested p true)) /\
       0 < availability peerBitfields r /\
       forall (j : nat) q,
         pieces pm !! j = Some q -> idle q = true ->
         0 < availability peerBitfields j ->
         availability peerBitfields r <= availability peerBitfields j /\
         (availability peerBitfields j = availability peerBitfields r ->
          (r <= j)%nat)).
Proof.
  destruct (pieceCounts_spec pm peerBitfields) as [Hm Hs].
  pose proof (rarest_fold (pieceCounts pm peerBitfields) (-1, None)) as Hf.
  cbv zeta in Hf. unfold getRarestPiece, rarestIndex.
  destruct Hf as [[Hr Hnone]|
    (l1 & z & c & l2 & Hc & Hr & [Hb0 _] & H1 & H2)]; rewrite Hr; simpl fst.
  - split; [reflexivity|].
    intros j0 p0 Hp0 Hi0 Ha0. exfalso.
    apply (Hnone (Z.of_nat j0) (availability peerBitfields j0)).
    + apply Hm. exists j0, p0. done.
    + split; [done|]. discriminate.
  - assert (Hin : (z, c) ∈ pieceCounts pm peerBitfields).
    { rewrite Hc. apply elem_of_app. right. left. }
    apply Hm in Hin as (r & p & -> & Hp & Hi & ->).
    replace (negb (Z.of_nat r =? -1)) with true
      by (symmetry; apply negb_true_iff, Z.eqb_neq; lia).
    rewrite array_get_nat, Hp. split.
    + intros Hzero. specialize (Hzero r p Hp Hi). lia.
    + intros _ _ _ _ _. exists r, p.
      split; [done|]. split; [done|]. split; [done|]. split; [done|].
      intros j q Hq Hiq Haq.
      assert (Hj : (Z.of_nat j, availability peerBitfields j)
                   ∈ pieceCounts pm peerBitfields)
        by (apply Hm; exists j, q; done).
      rewrite Hc in Hj. apply elem_of_app in Hj as [Hj|Hj].
      { specialize (H1 _ _ Hj Haq). lia. }
      apply elem_of_cons in Hj as [[= Hj1 Hj2]|Hj]; [lia|].
      split; [apply (H2 _ _ Hj Haq)|]. intros _.
      rewrite Hc, map_app in Hs. simpl in Hs.
      apply StronglySorted_app_1_r in Hs.
      apply StronglySorted_inv in Hs as [_ Hall].
      rewrite Forall_forall in Hall.
      assert (Hlt : Z.of_nat r < Z.of_nat j).
      { apply Hall.
        apply list_elem_of_fmap. eexists. split; [|exact Hj]. done. }
      lia.
Qed.

(** Two idle pieces: one peer has both, another only piece 1; piece 0 is
    the rarest. *)
Lemma getRarestPiece_witness :
  availability [[true; true]; [false; true]] 0 = 1 /\
  availability [[true; true]; [false; true]] 1 = 2 /\
  exists p,
    pieces (PieceManager.new md_two) !! 0%nat = Some p /\
    getRarestPiece (PieceManager.new md_two) [[true; true]; [false; true]]
    = (Some (set_requested p true),
       update_piece (PieceManager.new md_two) (Z.of_nat 0)
                    (set_requested p true)).
Proof.
  split; [reflexivity|]. split; [reflexivity|].
  destruct (proj2 (getRarestPiece_picks_the_rarest (PieceManager.new md_two)
                     [[true; true]; [false; true]])
                  0%nat (initialPiece md_two 0) eq_refl eq_refl eq_refl)
    as (r & p & Hp & Hi & Hget & Ha & Hmin).
  assert (Hr : r = 0%nat).
  { destruct (Hmin 0%nat (initialPiece md_two 0) eq_refl eq_refl eq_refl)
      as [Hle Htie].
    destruct r as [|[|r]]; [done| |].
    - exfalso. revert Hle. vm_compute. intros H. apply H. reflexivity.
    - simpl in Hp. discriminate. }
  subst r. exists p. split; [exact Hp|exact Hget].
Defined.

End Rarest.

(** * More of the file writer: sequential writes and verification *)
Section FileWriter.
Import FileManager.

(** A write at a position inside the file or at its end. *)
Lemma pwrite_inside (pre mid rest data : Buffer) :
  length mid = length data ->
  pwrite (pre ++ mid ++ rest) (blen pre) data = pre ++ data ++ rest.
Proof.
  intros Hlen. unfold pwrite.
  replace (Z.to_nat (blen pre - blen (pre ++ mid ++ rest))) with 0%nat.
  2:{ rewrite !blen_app. pose proof (blen_nonneg mid).
      pose proof (blen_nonneg rest). lia. }
  simpl repeat. rewrite app_nil_r.
  unfold blen. rewrite Nat2Z.id, take_app_length.
  replace (Z.to_nat (Z.of_nat (length pre) + Z.of_nat (length data)))
    with (length pre + length data)%nat by lia.
  rewrite drop_app_add', <- Hlen by done. rewrite drop_app_length. done.
Qed.

Lemma pwrite_append (pre tail data : Buffer) :
  (length tail <= length data)%nat ->
  pwrite (pre ++ tail) (blen pre) data = pre ++ data.
Proof.
  intros Hlen. unfold pwrite.
  replace (Z.to_nat (blen pre - blen (pre ++ tail))) with 0%nat.
  2:{ rewrite !blen_app. pose proof (blen_nonneg tail). lia. }
  simpl repeat. rewrite app_nil_r.
  unfold blen. rewrite Nat2Z.id, take_app_length.
  replace (Z.to_nat (Z.of_nat (length pre) + Z.of_nat (length data)))
    with (length pre + length data)%nat by lia.
  rewrite drop_app_add' by done. rewrite drop_ge by lia.
  rewrite app_nil_r. done.
Qed.

(** What a write at the end of the part already written leaves: the new
    bytes replace as many bytes of the old content. *)
Lemma pwrite_next (written old data : Buffer) :
  pwrite (written ++ old) (blen written) data
  = (written ++ data) ++ drop (length data) old.
Proof.
  destruct (decide (length data <= length old)%nat) as [Hle|Hgt].
  - rewrite <- (take_drop (length data) old) at 1.
    rewrite pwrite_inside by (rewrite length_take; lia).
    rewrite <- app_assoc. done.
  - rewrite pwrite_append by lia. rewrite drop_ge by lia.
    rewrite app_nil_r. done.
Qed.

Lemma writeLoop (pieces : list Buffer) :
  forall (written old : Buffer) (count : Z),
    fold_left (fun (st : Buffer * Z * Z) piece =>
                 let '(file, position, written) := st in
                 (pwrite file position piece, position + blen piece,
                  written + blen piece))
              pieces (written ++ old, blen written, count)
    = ((written ++ concat pieces) ++ drop (length (concat pieces)) old,
       blen written + blen (concat pieces),
       count + blen (concat pieces)).
Proof.
  induction pieces as [|piece pieces IH]; intros written old count.
  - simpl. rewrite app_nil_r, drop_0. change (blen []) with 0.
    rewrite !Z.add_0_r. done.
  - cbn [fold_left concat]. rewrite pwrite_next.
    rewrite <- blen_app. rewrite IH.
    rewrite drop_drop, !blen_app, length_app, <- !app_assoc.
    rewrite !Z.add_assoc. reflexivity.
Qed.

Lemma writePiecesSequential_ok fm (pieces : list Buffer) (file : Buffer) :
  fileHandle fm = Some file ->
  writePiecesSequential fm pieces
  = Ok {| metadata := metadata fm;
          fileHandle :=
            Some (concat pieces ++ drop (length (concat pieces)) file);
          bytesWritten := bytesWritten fm + blen (concat pieces) |}.
Proof.
  intros Hf. unfold writePiecesSequential. rewrite Hf.
  pose proof (writeLoop pieces [] file (bytesWritten fm)) as H.
  rewrite !app_nil_l in H. change (blen []) with 0 in H.
  rewrite H. done.
Qed.

(** X23. [writePiecesSequential] lays the pieces end to end from the start
    of the file: afterwards the file holds their concatenation, followed by
    what the file held beyond it, and [bytesWritten] has grown by their
    total length.  Before [initializeFile] it throws. *)
Theorem writePiecesSequential_concatenates fm (pieces : list Buffer) :
  (forall file, fileHandle fm = Some file ->
     writePiecesSequential fm pieces
     = Ok {| metadata := metadata fm;
             fileHandle :=
               Some (concat pieces ++ drop (length (concat pieces)) file);
             bytesWritten := bytesWritten fm + blen (concat pieces) |}) /\
  (fileHandle fm = None ->
   writePiecesSequential fm pieces = Throw FileNotInitialized).
Proof.
  split.
  - intros file Hf. apply writePiecesSequential_ok. exact Hf.
  - intros Hf. unfold writePiecesSequential. rewrite Hf. done.
Qed.

(** The three pieces of [md_short] written into its nine-byte file. *)
Lemma writePiecesSequential_witness :
  fileHandle fm_short = Some (repeat x00 9) /\
  writePiecesSequential fm_short [[x01; x01; x01; x01]; [x02; x02; x02; x02]; [x03]]
  = Ok {| metadata := md_short;
          fileHandle := Some [x01; x01; x01; x01; x02; x02; x02; x02; x03];
          bytesWritten := 9 |}.
Proof.
  split; [reflexivity|].
  exact (proj1 (writePiecesSequential_concatenates fm_short
                  [[x01; x01; x01; x01]; [x02; x02; x02; x02]; [x03]])
               (repeat x00 9) eq_refl).
Defined.

Lemma calc_sizes_sum md (m : nat) :
  Z.of_nat m <= pieceCount md - 1 ->
  fold_left Z.add
    (map (fun i => calculatePieceSize md (Z.of_nat i)) (seq 0 m)) 0
  = Z.of_nat m * (totalLength md / pieceCount md).
Proof.
  induction m as [|m IH]; intros Hm; [reflexivity|].
  rewrite seq_S, map_app, sum_app, IH by lia. simpl.
  unfold calculatePieceSize.
  destruct (Z.of_nat m =? pieceCount md - 1) eqn:E; zbool; lia.
Qed.

Lemma calc_sizes_total md :
  1 <= pieceCount md ->
  fold_left Z.add
    (map (fun i => calculatePieceSize md (Z.of_nat i))
         (seq 0 (Z.to_nat (pieceCount md)))) 0
  = totalLength md.
Proof.
  intros Hn.
  replace (Z.to_nat (pieceCount md)) with (S (Z.to_nat (pieceCount md - 1)))
    by lia.
  rewrite seq_S, map_app, sum_app, calc_sizes_sum by lia. simpl.
  unfold calculatePieceSize.
  replace (Z.of_nat (Z.to_nat (pieceCount md - 1)) =? pieceCount md - 1)
    with true by (symmetry; apply Z.eqb_eq; lia).
  lia.
Qed.

(** X24. The sizes that [calculatePieceSize] gives to the pieces of a
    torrent with at least one piece add up to [totalLength]: every piece
    but the last has [floor(totalLength / pieceCount)] bytes and the last
    one the rest. *)
Theorem calculatePieceSize_sums_to_total md :
  1 <= pieceCount md ->
  fold_left Z.add
    (map (fun i => calculatePieceSize md (Z.of_nat i))
         (seq 0 (Z.to_nat (pieceCount md)))) 0
  = totalLength md.
Proof. apply calc_sizes_total. Qed.

(** For [md_short]: 3 + 3 + 3 = 9. *)
Lemma calculatePieceSize_witness :
  1 <= pieceCount md_short /\
  map (fun i => calculatePieceSize md_short (Z.of_nat i))
      (seq 0 (Z.to_nat (pieceCount md_short))) = [3; 3; 3] /\
  fold_left Z.add
    (map (fun i => calculatePieceSize md_short (Z.of_nat i))
         (seq 0 (Z.to_nat (pieceCount md_short)))) 0
  = totalLength md_short.
Proof.
  assert (Hn : 1 <= pieceCount md_short) by (simpl; lia).
  split; [exact Hn|]. split; [reflexivity|].
  exact (calculatePieceSize_sums_to_total md_short Hn).
Defined.

Lemma sizes_total md (ps : list Buffer) :
  forall (i : nat),
    (forall (k : nat) d, ps !! k = Some d ->
       blen d = calculatePieceSize md (Z.of_nat (i + k))) ->
    blen (concat ps)
    = fold_left Z.add
        (map (fun j => calculatePieceSize md (Z.of_nat j))
             (seq i (length ps))) 0.
Proof.
  induction ps as [|d ps IH]; intros i Hps; [reflexivity|].
  cbn [concat length seq map]. rewrite blen_app.
  change (?x :: ?l) with ([x] ++ l). rewrite sum_app. simpl fold_left.
  rewrite (Hps 0%nat d eq_refl), Nat.add_0_r. f_equal.
  apply IH. intros k x Hk. specialize (Hps (S k) x Hk).
  replace (S i + k)%nat with (i + S k)%nat by lia. exact Hps.
Qed.

(** X25. [verifyFile] never accepts a file of a torrent whose length is not
    zero: the handle of the class is open for writing only, the read fails
    and the [catch] answers [false].  It does so even for the file that
    [writePiecesSequential] has just filled with pieces that have the sizes
    of [calculatePieceSize] and the digests of the metadata, and that holds
    exactly their bytes. *)
Theorem verifyFile_rejects_written_pieces fm :
  totalLength (metadata fm) <> 0 ->
  (forall file, fileHandle fm = Some file -> verifyFile fm = Ok false) /\
  (forall ps : list Buffer,
     1 <= pieceCount (metadata fm) ->
     Z.of_nat (length ps) = pieceCount (metadata fm) ->
     (forall (k : nat) d, ps !! k = Some d ->
        blen d = calculatePieceSize (metadata fm) (Z.of_nat k) /\
        array_get (pieceHashes (metadata fm)) (Z.of_nat k)
        = Some (CryptoUtils.sha1 d)) ->
     exists fm',
       writePiecesSequential (initializeFile fm) ps = Ok fm' /\
       metadata fm' = metadata fm /\
       fileHandle fm' = Some (concat ps) /\
       verifyFile fm' = Ok false).
Proof.
  intros Hnz.
  assert (Hrej : forall fm0 file,
            metadata fm0 = metadata fm -> fileHandle fm0 = Some file ->
            verifyFile fm0 = Ok false).
  { intros fm0 file Hmd Hfile. unfold verifyFile. rewrite Hfile, Hmd.
    destruct (totalLength (metadata fm) <? 0); [reflexivity|].
    unfold read. destruct (totalLength (metadata fm) =? 0) eqn:E; zbool;
      [lia|reflexivity]. }
  split; [intros file Hfile; by apply (Hrej fm file)|].
  intros ps Hn Hlen Hps.
  set (md := metadata fm) in *.
  assert (Htotal : blen (concat ps) = totalLength md).
  { rewrite (sizes_total md ps 0).
    - replace (length ps) with (Z.to_nat (pieceCount md)) by lia.
      apply calc_sizes_total. exact Hn.
    - intros k d Hk. apply (Hps k d Hk). }
  pose proof (writePiecesSequential_ok (initializeFile fm) ps
                (repeat x00 (Z.to_nat (totalLength md))) eq_refl) as Hw.
  eexists. split; [exact Hw|]. simpl fileHandle. simpl metadata.
  assert (Hfile : concat ps ++ drop (length (concat ps))
                                    (repeat x00 (Z.to_nat (totalLength md)))
                  = concat ps).
  { rewrite drop_ge; [apply app_nil_r|].
    rewrite repeat_length. unfold blen in Htotal. lia. }
  rewrite Hfile. split; [reflexivity|]. split; [reflexivity|].
  apply (Hrej _ (concat ps)); reflexivity.
Qed.

(** Three pieces of three bytes for a nine-byte torrent. *)
Lemma verifyFile_rejects_witness :
  totalLength md_nine <> 0 /\
  exists fm',
    writePiecesSequential
      (initializeFile {| metadata := md_nine; fileHandle := None;
                         bytesWritten := 0 |})
      [[x01; x01; x01]; [x02; x02; x02]; [x03; x03; x03]] = Ok fm' /\
    fileHandle fm'
    = Some [x01; x01; x01; x02; x02; x02; x03; x03; x03] /\
    verifyFile fm' = Ok false.
Proof.
  assert (Hnz : totalLength md_nine <> 0) by discriminate.
  split; [exact Hnz|].
  destruct (proj2 (verifyFile_rejects_written_pieces
                     {| metadata := md_nine; fileHandle := None;
                        bytesWritten := 0 |} Hnz)
              [[x01; x01; x01]; [x02; x02; x02]; [x03; x03; x03]])
    as (fm' & Hw & _ & Hf & Hv).
  - simpl. lia.
  - reflexivity.
  - intros [|[|[|k]]] d Hk; inversion Hk; subst d; split; reflexivity.
  - exists fm'. repeat split; done.
Defined.

End FileWriter.

(** * The metadata of a torrent *)
Section Metadata.
Import Torrent.

Lemma slicePieceHashes_end fuel (piecesBuffer : Buffer) (i : Z) :
  blen piecesBuffer <= i -> slicePieceHashes fuel piecesBuffer i = [].
Proof.
  intros Hi. destruct fuel as [|fuel]; [done|]. simpl.
  destruct (i <? blen piecesBuffer) eqn:E; zbool; [lia|done].
Qed.

(** The loop cuts what lies after [pre] into pieces of 20 bytes, the last
    one shorter when the length is not a multiple of 20. *)
Lemma slicePieceHashes_chunks (fuel : nat) :
  forall (pre rest : Buffer),
    (length rest <= fuel)%nat ->
    let hashes := slicePieceHashes fuel (pre ++ rest) (blen pre) in
    concat hashes = rest /\
    Z.of_nat (length hashes) = ceil_div (blen rest) 20 /\
    (blen rest mod 20 = 0 -> Forall (fun h => blen h = 20) hashes).
Proof.
  induction fuel as [|fuel IH]; intros pre rest Hfuel hashes.
  - subst hashes. destruct rest; [|simpl in Hfuel; lia]. simpl.
    repeat split; done.
  - pose proof (blen_nonneg pre). pose proof (blen_nonneg rest).
    destruct (decide (rest = [])) as [->|Hne].
    { subst hashes. rewrite slicePieceHashes_end by (rewrite app_nil_r; lia).
      repeat split; done. }
    assert (Hpos : 0 < blen rest).
    { destruct rest as [|x rest']; [done|].
      pose proof (blen_nonneg rest'). rewrite blen_cons. lia. }
    assert (Hstep : hashes
              = slice (pre ++ rest) (blen pre) (blen pre + 20)
                :: slicePieceHashes fuel (pre ++ rest) (blen pre + 20)).
    { subst hashes. cbn [slicePieceHashes]. rewrite blen_app.
      destruct (blen pre <? blen pre + blen rest) eqn:E; zbool; [done|lia]. }
    rewrite Hstep. clear Hstep hashes.
    destruct (decide (20 <= blen rest)) as [Hge|Hlt].
    + assert (Ht : blen (take 20 rest) = 20).
      { unfold blen in *. rewrite length_take. lia. }
      assert (Hd : blen (drop 20 rest) = blen rest - 20).
      { unfold blen in *. rewrite length_drop. lia. }
      assert (Hs : slice (pre ++ rest) (blen pre) (blen pre + 20)
                   = take 20 rest).
      { rewrite <- (take_drop 20 rest) at 1. rewrite <- Ht.
        apply slice_app. }
      rewrite Hs.
      replace (slicePieceHashes fuel (pre ++ rest) (blen pre + 20))
        with (slicePieceHashes fuel ((pre ++ take 20 rest) ++ drop 20 rest)
                               (blen (pre ++ take 20 rest))).
      2:{ rewrite <- app_assoc, take_drop, blen_app, Ht. done. }
      destruct (IH (pre ++ take 20 rest) (drop 20 rest)) as (H1 & H2 & H3).
      { rewrite length_drop. unfold blen in *. lia. }
      cbv zeta in H1, H2, H3.
      split; [|split].
      * cbn [concat]. rewrite H1. apply take_drop.
      * cbn [length]. rewrite Nat2Z.inj_succ, H2, Hd. unfold ceil_div.
        replace (- (blen rest - 20)) with (- blen rest + 1 * 20) by lia.
        rewrite Z.div_add by lia. lia.
      * intros Hm. constructor; [exact Ht|]. apply H3. rewrite Hd.
        rewrite <- Zminus_mod_idemp_l, Hm. reflexivity.
    + rewrite slice_clamped by (rewrite blen_app; lia).
      rewrite slicePieceHashes_end by (rewrite blen_app; lia).
      split; [|split].
      * simpl. apply app_nil_r.
      * simpl. unfold ceil_div.
        replace (- blen rest) with (20 - blen rest + (-1) * 20) by lia.
        rewrite Z.div_add by lia. rewrite Z.div_small by lia. lia.
      * intros Hm. exfalso. rewrite Z.mod_small in Hm by lia. lia.
Qed.

(** X26. The piece digests of the metadata are the [pieces] field cut into
    runs of 20 bytes: they concatenate to it, there are
    [ceil(length / 20)] of them, which is [pieceCount], and every one has
    20 bytes when the length is a multiple of 20. *)
Theorem extractMetadata_piece_hashes (rawInfoDict : Buffer) torrentData md :
  extractMetadata rawInfoDict torrentData = Some md ->
  concat (pieceHashes md) = pieces (info torrentData) /\
  pieceCount md = Z.of_nat (length (pieceHashes md)) /\
  pieceCount md = ceil_div (blen (pieces (info torrentData))) 20 /\
  (blen (pieces (info torrentData)) mod 20 = 0 ->
   Forall (fun h => blen h = 20) (pieceHashes md)).
Proof.
  unfold extractMetadata.
  destruct (totalLengthOf (info torrentData)) as [total|]; [|discriminate].
  intros [= <-]. simpl.
  destruct (slicePieceHashes_chunks (length (pieces (info torrentData)))
              [] (pieces (info torrentData)) ltac:(lia)) as (H1 & H2 & H3).
  cbv zeta in H1, H2, H3. rewrite app_nil_l in *. change (blen []) with 0 in *.
  repeat split; done.
Qed.

(** The two digests of [td_example]. *)
Lemma extractMetadata_piece_hashes_witness :
  exists md,
    extractMetadata (lit "de") td_example = Some md /\
    pieceHashes md = [repeat x01 20; repeat x02 20] /\
    pieceCount md = 2 /\
    concat (pieceHashes md) = pieces (info td_example).
Proof.
  eexists. split; [reflexivity|]. split; [reflexivity|].
  split; [reflexivity|].
  exact (proj1 (extractMetadata_piece_hashes (lit "de") td_example _ eq_refl)).
Defined.

Lemma pushTracker_spec (l : list string) (t : string) :
  NoDup l ->
  NoDup (pushTracker l t) /\
  (forall x, x ∈ pushTracker l t <-> x ∈ l \/ x = t) /\
  exists more, pushTracker l t = l ++ more.
Proof.
  intros Hnd. unfold pushTracker.
  destruct (bool_decide (t ∈ l)) eqn:E.
  - apply bool_decide_eq_true in E. split; [done|]. split.
    + intros x. split; [auto|]. intros [H| ->]; done.
    + exists []. rewrite app_nil_r. done.
  - apply bool_decide_eq_false in E. split; [|split].
    + apply NoDup_app. split; [done|]. split; [|apply NoDup_singleton].
      intros x Hx Hx'. apply list_elem_of_singleton in Hx'. subst. done.
    + intros x. rewrite elem_of_app, list_elem_of_singleton. done.
    + eauto.
Qed.

Lemma pushTrackers_spec (tier : list string) :
  forall l, NoDup l ->
    NoDup (fold_left pushTracker tier l) /\
    (forall x, x ∈ fold_left pushTracker tier l <-> x ∈ l \/ x ∈ tier) /\
    exists more, fold_left pushTracker tier l = l ++ more.
Proof.
  induction tier as [|t tier IH]; intros l Hnd; simpl.
  - split; [done|]. split.
    + intros x. split; [auto|]. intros [H|H]; [done|inversion H].
    + exists []. rewrite app_nil_r. done.
  - destruct (pushTracker_spec l t Hnd) as (N1 & M1 & more1 & E1).
    destruct (IH _ N1) as (N2 & M2 & more2 & E2).
    split; [done|]. split.
    + intros x. rewrite M2, M1, elem_of_cons. tauto.
    + exists (more1 ++ more2). rewrite E2, E1, <- app_assoc. done.
Qed.

Lemma flattenTiers_spec (tiers : list (list string)) :
  forall l, NoDup l ->
    NoDup (flattenTiers l tiers) /\
    (forall x, x ∈ flattenTiers l tiers <->
               x ∈ l \/ exists tier, tier ∈ tiers /\ x ∈ tier) /\
    exists more, flattenTiers l tiers = l ++ more.
Proof.
  unfold flattenTiers.
  induction tiers as [|tier tiers IH]; intros l Hnd; simpl.
  - split; [done|]. split.
    + intros x. split; [auto|]. intros [H|(tier & H & _)]; [done|inversion H].
    + exists []. rewrite app_nil_r. done.
  - destruct (pushTrackers_spec tier l Hnd) as (N1 & M1 & more1 & E1).
    destruct (IH _ N1) as (N2 & M2 & more2 & E2).
    split; [done|]. split.
    + intros x. rewrite M2, M1. split.
      * intros [[H|H]|(t' & Ht & Hx)]; [auto| |].
        -- right. exists tier. split; [left|done].
        -- right. exists t'. split; [right; done|done].
      * intros [H|(t' & Ht & Hx)]; [auto|].
        apply elem_of_cons in Ht as [->|Ht]; [auto|].
        right. exists t'. done.
    + exists (more1 ++ more2). rewrite E2, E1, <- app_assoc. done.
Qed.

(** X27. The flat tracker list of the metadata starts with the primary
    [announce] URL, lists no URL twice, and holds exactly the primary URL
    and the URLs of the tiers of [announce-list]. *)
Theorem extractMetadata_announce_list (rawInfoDict : Buffer) torrentData md :
  extractMetadata rawInfoDict torrentData = Some md ->
  NoDup (announceList md) /\
  (exists more, announceList md = announce torrentData :: more) /\
  (forall url, url ∈ announceList md <->
     url = announce torrentData \/
     exists tiers tier, announce_list torrentData = Some tiers /\
                        tier ∈ tiers /\ url ∈ tier).
Proof.
  unfold extractMetadata.
  destruct (totalLengthOf (info torrentData)) as [total|]; [|discriminate].
  intros [= <-]. simpl.
  destruct (announce_list torrentData) as [tiers|].
  - destruct (flattenTiers_spec tiers [announce torrentData]
                (NoDup_singleton _)) as (N & M & more & E).
    split; [done|]. split; [exists more; rewrite E; done|].
    intros url. rewrite M, list_elem_of_singleton. split.
    + intros [H|(tier & Ht & Hu)]; [auto|]. right. exists tiers, tier. done.
    + intros [H|(tiers' & tier & [= <-] & Ht & Hu)]; [auto|].
      right. exists tier. done.
  - split; [apply NoDup_singleton|]. split; [exists []; done|].
    intros url. rewrite list_elem_of_singleton. split; [auto|].
    intros [H|(tiers' & tier & Hn & _)]; [done|discriminate].
Qed.

(** The three trackers of [td_example]. *)
Lemma extractMetadata_announce_list_witness :
  exists md,
    extractMetadata (lit "de") td_example = Some md /\
    announceList md
    = ["http://a/announce"; "udp://b:80"; "http://c/announce"]%string /\
    NoDup (announceList md).
Proof.
  eexists. split; [reflexivity|]. split; [reflexivity|].
  exact (proj1 (extractMetadata_announce_list (lit "de") td_example _ eq_refl)).
Defined.

End Metadata.

(** * The UDP tracker messages *)
Section UdpMessages.
Import TrackerUdp.

Lemma result_bind_Ok {A B} (a : A) (f : A -> result B) : mbind f (Ok a) = f a.
Proof. reflexivity. Qed.

Lemma repeat_split (n m : nat) :
  repeat x00 (n + m) = repeat x00 n ++ repeat x00 m.
Proof. apply repeat_app. Qed.

(** Filling the next bytes of a zeroed buffer. *)
Lemma copy_fill (filled source : Buffer) (m m' : nat) (offset : Z) :
  offset = blen filled -> m = (length source + m')%nat -> (0 < m)%nat ->
  copy source (filled ++ repeat x00 m) offset
  = (filled ++ source) ++ repeat x00 m'.
Proof.
  intros -> -> Hm. unfold copy. rewrite blen_app.
  assert (Hr : blen (repeat x00 (length source + m'))
               = Z.of_nat (length source + m')).
  { unfold blen. rewrite repeat_length. done. }
  rewrite Hr.
  destruct (_ <=? blen filled) eqn:E; zbool; [lia|].
  replace (Z.min (blen source) (blen filled + Z.of_nat (length source + m')
                                - blen filled))
    with (blen source) by (unfold blen; lia).
  unfold blen. rewrite !Nat2Z.id, take_app_length.
  rewrite firstn_all.
  replace (Z.to_nat (Z.of_nat (length filled) + Z.of_nat (length source)))
    with (length filled + length source)%nat by lia.
  rewrite drop_app_add' by done. rewrite repeat_split.
  rewrite drop_app_length' by (symmetry; apply repeat_length).
  rewrite <- app_assoc. done.
Qed.

Lemma writeAt_fill (filled bytes : Buffer) (m m' : nat) (offset : Z) :
  offset = blen filled -> m = (length bytes + m')%nat ->
  writeAt (filled ++ repeat x00 m) offset bytes
  = Ok ((filled ++ bytes) ++ repeat x00 m').
Proof.
  intros -> ->. unfold writeAt. rewrite blen_app.
  assert (Hr : blen (repeat x00 (length bytes + m'))
               = Z.of_nat (length bytes + m')).
  { unfold blen. rewrite repeat_length. done. }
  rewrite Hr. pose proof (blen_nonneg filled).
  destruct (0 <=? blen filled) eqn:E1; zbool; [|lia].
  destruct (_ <=? _) eqn:E2; zbool; [|unfold blen in *; lia].
  cbn [andb]. f_equal.
  unfold blen. rewrite !Nat2Z.id, take_app_length.
  replace (Z.to_nat (Z.of_nat (length filled) + Z.of_nat (length bytes)))
    with (length filled + length bytes)%nat by lia.
  rewrite drop_app_add' by done. rewrite repeat_split.
  rewrite drop_app_length' by (symmetry; apply repeat_length).
  rewrite <- app_assoc. done.
Qed.

Lemma putUInt32BE_fill (filled : Buffer) (value : Z) (m m' : nat) (offset : Z) :
  offset = blen filled -> m = (4 + m')%nat -> 0 <= value <= 4294967295 ->
  putUInt32BE (filled ++ repeat x00 m) value offset
  = Ok ((filled ++ Sha1.be_bytes 4 (Z.to_N value)) ++ repeat x00 m').
Proof.
  intros Ho Hm Hv. unfold putUInt32BE, BufferUtils.writeUInt32BE,
    Peer.writeUInt32BE.
  replace ((0 <=? value) && (value <=? 4294967295)) with true
    by (symmetry; apply andb_true_iff; split; apply Z.leb_le; lia).
  rewrite result_bind_Ok. apply writeAt_fill; [done|].
  rewrite be_bytes_length. done.
Qed.

Lemma putUInt16BE_fill (filled : Buffer) (value : Z) (m m' : nat) (offset : Z) :
  offset = blen filled -> m = (2 + m')%nat -> 0 <= value <= 65535 ->
  putUInt16BE (filled ++ repeat x00 m) value offset
  = Ok ((filled ++ Sha1.be_bytes 2 (Z.to_N value)) ++ repeat x00 m').
Proof.
  intros Ho Hm Hv. unfold putUInt16BE, BufferUtils.writeUInt16BE.
  replace ((0 <=? value) && (value <=? 65535)) with true
    by (symmetry; apply andb_true_iff; split; apply Z.leb_le; lia).
  rewrite result_bind_Ok. apply writeAt_fill; [done|].
  rewrite be_bytes_length. done.
Qed.

Lemma putBigUInt64BE_fill (filled : Buffer) (value : Z) (m m' : nat)
    (offset : Z) :
  offset = blen filled -> m = (8 + m')%nat ->
  0 <= value <= 18446744073709551615 ->
  putBigUInt64BE (filled ++ repeat x00 m) value offset
  = Ok ((filled ++ Sha1.be_bytes 8 (Z.to_N value)) ++ repeat x00 m').
Proof.
  intros Ho Hm Hv. unfold putBigUInt64BE.
  replace ((0 <=? value) && (value <=? 18446744073709551615)) with true
    by (symmetry; apply andb_true_iff; split; apply Z.leb_le; lia).
  apply writeAt_fill; [done|]. rewrite be_bytes_length. done.
Qed.

Lemma connect_request (transactionId : Z) :
  0 <= transactionId <= 4294967295 ->
  createUdpConnectRequest transactionId
  = Ok (UDP_MAGIC_CONSTANT ++ Sha1.be_bytes 4 0
        ++ Sha1.be_bytes 4 (Z.to_N transactionId)).
Proof.
  intros Ht. unfold createUdpConnectRequest. cbv zeta.
  rewrite (copy_fill [] UDP_MAGIC_CONSTANT 16 8) by (done || lia).
  rewrite (putUInt32BE_fill _ UDP_ACTION_CONNECT 8 4)
    by (done || unfold UDP_ACTION_CONNECT; lia).
  rewrite result_bind_Ok.
  rewrite (putUInt32BE_fill _ transactionId 4 0) by (done || lia).
  simpl repeat. rewrite app_nil_r, <- !app_assoc. reflexivity.
Qed.

(** X28. The connect exchange with a UDP tracker.  The request is the magic
    constant, the action 0 and the transaction id, 16 bytes in all.  A
    response of at least 16 bytes with action 0 is accepted exactly when it
    carries the transaction id of the request, and yields its bytes 8 to
    16 as the connection id; a shorter response is refused. *)
Theorem udp_connect_exchange (transactionId : Z) :
  0 <= transactionId <= 4294967295 ->
  exists request,
    createUdpConnectRequest transactionId = Ok request /\
    blen request = 16 /\
    slice request 0 8 = UDP_MAGIC_CONSTANT /\
    Peer.readUInt32BE request 8 = 0 /\
    Peer.readUInt32BE request 12 = transactionId /\
    (forall (echoed : Z) (connectionId extra : Buffer),
       0 <= echoed <= 4294967295 -> blen connectionId = 8 ->
       parseUdpConnectResponse
         (Sha1.be_bytes 4 0 ++ Sha1.be_bytes 4 (Z.to_N echoed)
          ++ connectionId ++ extra) transactionId
       = if echoed =? transactionId then inr connectionId
         else inl TransactionMismatch) /\
    (forall message, blen message < 16 ->
       parseUdpConnectResponse message transactionId = inl TooShort).
Proof.
  intros Ht. eexists. split; [apply connect_request; exact Ht|].
  split; [|split; [|split; [|split; [|split]]]].
  - rewrite !blen_app, !blen_be_bytes. reflexivity.
  - apply (slice_app [] UDP_MAGIC_CONSTANT).
  - rewrite <- (app_nil_r (Sha1.be_bytes 4 (Z.to_N transactionId))).
    apply (readUInt32BE_written 0 UDP_MAGIC_CONSTANT). lia.
  - rewrite app_assoc, <- (app_nil_r (Sha1.be_bytes 4 (Z.to_N transactionId))).
    apply (readUInt32BE_written transactionId
             (UDP_MAGIC_CONSTANT ++ Sha1.be_bytes 4 0) []). exact Ht.
  - intros echoed connectionId extra He Hc. unfold parseUdpConnectResponse.
    set (message := Sha1.be_bytes 4 0 ++ _).
    assert (Hlen : blen message = 16 + blen extra).
    { subst message. rewrite !blen_app, !blen_be_bytes, Hc. lia. }
    pose proof (blen_nonneg extra).
    destruct (blen message <? 16) eqn:E; zbool; [lia|].
    assert (Ha : Peer.readUInt32BE message 0 = 0).
    { apply (readUInt32BE_written 0 []). lia. }
    assert (Hid : Peer.readUInt32BE message 4 = echoed).
    { apply (readUInt32BE_written echoed (Sha1.be_bytes 4 0)). exact He. }
    assert (Hcid : slice message 8 16 = connectionId).
    { subst message. rewrite app_assoc.
      replace 16 with (blen (Sha1.be_bytes 4 0
                             ++ Sha1.be_bytes 4 (Z.to_N echoed))
                       + blen connectionId)
        by (rewrite blen_app, !blen_be_bytes, Hc; reflexivity).
      apply slice_app. }
    rewrite Ha, Hid, Hcid. unfold UDP_ACTION_CONNECT. simpl negb. cbv iota.
    destruct (echoed =? transactionId); reflexivity.
  - intros message Hm. unfold parseUdpConnectResponse.
    destruct (blen message <? 16) eqn:E; zbool; [done|lia].
Qed.

(** The transaction id [0x11223344]. *)
Lemma udp_connect_exchange_witness :
  0 <= 287454020 <= 4294967295 /\
  createUdpConnectRequest 287454020
  = Ok [x00; x00; x04; x17; x27; x10; x19; x80;
        x00; x00; x00; x00; x11; x22; x33; x44].
Proof.
  assert (H : 0 <= 287454020 <= 4294967295) by lia.
  split; [exact H|].
  destruct (udp_connect_exchange 287454020 H) as (request & Hreq & _).
  rewrite Hreq. f_equal.
  assert (Hc : createUdpConnectRequest 287454020
               = Ok [x00; x00; x04; x17; x27; x10; x19; x80;
                     x00; x00; x00; x00; x11; x22; x33; x44])
    by (vm_compute; reflexivity).
  congruence.
Defined.

(** X29. The announce request of the UDP tracker protocol has 98 bytes:
    the connection id, the action 1, the transaction id, the info hash,
    the peer id, the three 64-bit counters, the event code, a zero address,
    the key, the number 50 of peers wanted and the port, in this order. *)
Theorem udp_announce_request_layout (c : t) (connectionId : Buffer)
    (md : TorrentMetadata) (event : option string) (transactionId key : Z) :
  blen connectionId = 8 -> blen (infoHash md) = 20 -> blen (peerId c) = 20 ->
  0 <= transactionId <= 4294967295 -> 0 <= key <= 4294967295 ->
  0 <= downloaded c <= 18446744073709551615 ->
  0 <= left c <= 18446744073709551615 ->
  0 <= uploaded c <= 18446744073709551615 ->
  0 <= port c <= 65535 ->
  exists request,
    createUdpAnnounceRequest c connectionId md event transactionId key
    = Ok request /\
    blen request = 98 /\
    request
    = connectionId ++ Sha1.be_bytes 4 1
      ++ Sha1.be_bytes 4 (Z.to_N transactionId)
      ++ infoHash md ++ peerId c
      ++ Sha1.be_bytes 8 (Z.to_N (downloaded c))
      ++ Sha1.be_bytes 8 (Z.to_N (left c))
      ++ Sha1.be_bytes 8 (Z.to_N (uploaded c))
      ++ Sha1.be_bytes 4 (Z.to_N (eventValue event))
      ++ Sha1.be_bytes 4 0
      ++ Sha1.be_bytes 4 (Z.to_N key)
      ++ Sha1.be_bytes 4 50
      ++ Sha1.be_bytes 2 (Z.to_N (port c)).
Proof.
  intros Hcid Hih Hpid Ht Hk Hd Hl Hu Hp.
  assert (He : 0 <= eventValue event <= 4294967295).
  { unfold eventValue. destruct event as [e|]; [|lia].
    repeat match goal with
    | |- context [bool_decide ?P] => destruct (bool_decide P)
    end; lia. }
  assert (Ln : length connectionId = 8%nat /\ length (infoHash md) = 20%nat
               /\ length (peerId c) = 20%nat) by (unfold blen in *; lia).
  destruct Ln as (Ln1 & Ln2 & Ln3).
  eexists. split; [|split].
  - unfold createUdpAnnounceRequest. cbv zeta.
    unfold UDP_ACTION_ANNOUNCE.
    rewrite (copy_fill [] connectionId 98 90) by (done || lia).
    rewrite (putUInt32BE_fill _ 1 90 86)
      by (rewrite ?blen_app, ?blen_be_bytes, ?Hcid, ?Hih, ?Hpid;
          change (blen []) with 0; lia).
    rewrite result_bind_Ok.
    rewrite (putUInt32BE_fill _ transactionId 86 82)
      by (rewrite ?blen_app, ?blen_be_bytes, ?Hcid, ?Hih, ?Hpid;
          change (blen []) with 0; lia).
    rewrite result_bind_Ok.
    rewrite (copy_fill _ (infoHash md) 82 62)
      by (rewrite ?blen_app, ?blen_be_bytes, ?Hcid, ?Hih, ?Hpid;
          change (blen []) with 0; lia).
    rewrite (copy_fill _ (peerId c) 62 42)
      by (rewrite ?blen_app, ?blen_be_bytes, ?Hcid, ?Hih, ?Hpid;
          change (blen []) with 0; lia).
    rewrite (putBigUInt64BE_fill _ (downloaded c) 42 34)
      by (rewrite ?blen_app, ?blen_be_bytes, ?Hcid, ?Hih, ?Hpid;
          change (blen []) with 0; lia).
    rewrite result_bind_Ok.
    rewrite (putBigUInt64BE_fill _ (left c) 34 26)
      by (rewrite ?blen_app, ?blen_be_bytes, ?Hcid, ?Hih, ?Hpid;
          change (blen []) with 0; lia).
    rewrite result_bind_Ok.
    rewrite (putBigUInt64BE_fill _ (uploaded c) 26 18)
      by (rewrite ?blen_app, ?blen_be_bytes, ?Hcid, ?Hih, ?Hpid;
          change (blen []) with 0; lia).
    rewrite result_bind_Ok.
    rewrite (putUInt32BE_fill _ (eventValue event) 18 14)
      by (rewrite ?blen_app, ?blen_be_bytes, ?Hcid, ?Hih, ?Hpid;
          change (blen []) with 0; lia).
    rewrite result_bind_Ok.
    rewrite (putUInt32BE_fill _ 0 14 10)
      by (rewrite ?blen_app, ?blen_be_bytes, ?Hcid, ?Hih, ?Hpid;
          change (blen []) with 0; lia).
    rewrite result_bind_Ok.
    rewrite (putUInt32BE_fill _ key 10 6)
      by (rewrite ?blen_app, ?blen_be_bytes, ?Hcid, ?Hih, ?Hpid;
          change (blen []) with 0; lia).
    rewrite result_bind_Ok.
    rewrite (putUInt32BE_fill _ 50 6 2)
      by (rewrite ?blen_app, ?blen_be_bytes, ?Hcid, ?Hih, ?Hpid;
          change (blen []) with 0; lia).
    rewrite result_bind_Ok.
    rewrite (putUInt16BE_fill _ (port c) 2 0)
      by (rewrite ?blen_app, ?blen_be_bytes, ?Hcid, ?Hih, ?Hpid;
          change (blen []) with 0; lia).
    reflexivity.
  - rewrite !blen_app, !blen_be_bytes, Hcid, Hih, Hpid. reflexivity.
  - simpl repeat. rewrite app_nil_r, app_nil_l, <- !app_assoc. reflexivity.
Qed.

(** The first announce of [client_udp]. *)
Lemma udp_announce_request_witness :
  blen (repeat x09 8) = 8 /\ blen (infoHash md_udp) = 20 /\
  blen (peerId client_udp) = 20 /\
  exists request,
    createUdpAnnounceRequest client_udp (repeat x09 8) md_udp
                             (Some "started"%string) 1 2 = Ok request /\
    blen request = 98 /\
    slice request 80 84 = [x00; x00; x00; x02] /\
    slice request 96 98 = [x1a; xe1].
Proof.
  split; [reflexivity|]. split; [reflexivity|]. split; [reflexivity|].
  destruct (udp_announce_request_layout client_udp (repeat x09 8) md_udp
              (Some "started"%string) 1 2 eq_refl eq_refl eq_refl
              ltac:(lia) ltac:(lia) ltac:(simpl; lia) ltac:(simpl; lia)
              ltac:(simpl; lia) ltac:(simpl; lia))
    as (request & Hreq & Hlen & Hbytes).
  exists request. split; [exact Hreq|]. split; [exact Hlen|].
  rewrite Hbytes. split; vm_compute; reflexivity.
Defined.

(** X30. An announce response of the UDP tracker protocol with action 1
    and the transaction id of the request yields the peers of the compact
    list that follows its 20-byte header; with another transaction id it is
    refused.  A response with action 3 is reported as an error of the
    tracker, and one shorter than 20 bytes is refused. *)
Theorem udp_announce_response_peers (transactionId : Z) :
  (forall (echoed : Z) (counters : Buffer)
          (es : list (byte * byte * byte * byte * Z)) (tail : Buffer),
     0 <= echoed <= 4294967295 -> blen counters = 12 ->
     Forall (fun e => 0 <= e.2 <= 65535) es -> blen tail < 6 ->
     parseUdpAnnounceResponse
       (Sha1.be_bytes 4 1 ++ Sha1.be_bytes 4 (Z.to_N echoed) ++ counters
        ++ concat (map compactEntry es) ++ tail) transactionId
     = if echoed =? transactionId then inr (map compactPeer es)
       else inl TransactionMismatch) /\
  (forall (echoed : Buffer) (text : Buffer),
     blen echoed = 4 -> 12 <= blen text ->
     parseUdpAnnounceResponse (Sha1.be_bytes 4 3 ++ echoed ++ text)
                              transactionId
     = inl (TrackerError text)) /\
  (forall message, blen message < 20 ->
     parseUdpAnnounceResponse message transactionId = inl TooShort).
Proof.
  split; [|split].
  - intros echoed counters es tail He Hc Hes Htail.
    unfold parseUdpAnnounceResponse.
    set (body := concat (map compactEntry es) ++ tail).
    set (message := Sha1.be_bytes 4 1 ++ _).
    pose proof (blen_nonneg body).
    assert (Hlen : blen message = 20 + blen body).
    { subst message. rewrite !blen_app, !blen_be_bytes, Hc. lia. }
    destruct (blen message <? 20) eqn:E; zbool; [lia|].
    assert (Ha : Peer.readUInt32BE message 0 = 1).
    { apply (readUInt32BE_written 1 []). lia. }
    assert (Hid : Peer.readUInt32BE message 4 = echoed).
    { apply (readUInt32BE_written echoed (Sha1.be_bytes 4 1)). exact He. }
    assert (Hbody : slice message 20 (blen message) = body).
    { subst message. rewrite !app_assoc.
      replace 20 with (blen ((Sha1.be_bytes 4 1
                              ++ Sha1.be_bytes 4 (Z.to_N echoed))
                             ++ counters))
        by (rewrite !blen_app, !blen_be_bytes, Hc; reflexivity).
      apply slice_to_end. }
    rewrite Ha, Hid, Hbody. unfold UDP_ACTION_ANNOUNCE. simpl negb. cbv iota.
    destruct (echoed =? transactionId); [|reflexivity].
    f_equal. subst body. apply parsePeersCompact_spec; done.
  - intros echoed text He Ht. unfold parseUdpAnnounceResponse.
    set (message := Sha1.be_bytes 4 3 ++ _).
    assert (Hlen : blen message = 8 + blen text).
    { subst message. rewrite !blen_app, !blen_be_bytes, He. lia. }
    destruct (blen message <? 20) eqn:E; zbool; [lia|].
    assert (Ha : Peer.readUInt32BE message 0 = 3).
    { apply (readUInt32BE_written 3 []). lia. }
    assert (Htext : slice message 8 (blen message) = text).
    { subst message. rewrite app_assoc.
      replace 8 with (blen (Sha1.be_bytes 4 3 ++ echoed))
        by (rewrite blen_app, blen_be_bytes, He; reflexivity).
      apply slice_to_end. }
    rewrite Ha, Htext. unfold UDP_ACTION_ANNOUNCE. simpl negb. cbv iota.
    simpl Z.eqb.
    destruct (8 <=? blen message) eqn:E8; zbool; [reflexivity|lia].
  - intros message Hm. unfold parseUdpAnnounceResponse.
    destruct (blen message <? 20) eqn:E; zbool; [done|lia].
Qed.

(** A response with transaction id 1 and the peer [10.0.0.1:6881]. *)
Lemma udp_announce_response_witness :
  parseUdpAnnounceResponse
    ([x00; x00; x00; x01; x00; x00; x00; x01] ++ repeat x00 12
     ++ [x0a; x00; x00; x01; x1a; xe1]) 1
  = inr [{| Tracker.ip := "10.0.0.1"; Tracker.port := 6881 |}].
Proof.
  exact (proj1 (udp_announce_response_peers 1) 1 (repeat x00 12)
           [(x0a, x00, x00, x01, 6881)] [] ltac:(lia) eq_refl
           ltac:(repeat constructor; simpl; lia) eq_refl).
Defined.

End UdpMessages.
